(* ===== verification/_CoqProject ===== *)
-Q . S2P
Prelude.v
CommonConfig.v
Log.v
ResolveHost.v
FrontConfig.v
BackConfig.v
ProgramOptions.v
Message.v
Hiredis.v
RedisReply.v
RedisServer.v
RedisProducer.v
Pqxx.v
PostgresProducer.v
ChunkFile.v
Consumer.v
BackMain.v
Handler.v
Store.v
WaitSignal.v
FlatbuffersChecker.v
JsonChecker.v
ConnectionPool.v
PostgresWriter.v
PostgresStore.v
Interleaving.v
PostgresThreads.v
RedisWriter.v
RedisThreads.v
RedisStore.v
BackDrain.v
HttpSession.v
HttpServer.v
ServerThreads.v
Gateway.v
FrontMain.v
