(* ===== verification/Prelude.v ===== *)
(** * gateway.poc: a verification library

    The repository holds two programs and the code they share. The front end (gwfront) takes messages
    over HTTP, checks them and writes them to a storage, PostgreSQL or Redis. The back end (gwback)
    reads the storage in chunks, writes the chunks to files and deletes what it has read. This library
    models the C++ code of both as executable definitions and proves what they promise: the front end
    answers 202 exactly for the data the storage confirmed, and the back end deletes nothing it has
    not handed to the files.

    ** How the code is modelled

    [outcome] is the result of a call: a value, an exception or undefined behaviour. [prog S A] is code
    that changes a state [S]; what a throwing call changed is kept. Undefined behaviour is a result of
    its own that no handler catches, so every theorem that names the result of a call also says that
    none is reached. An object that calls a library has a state [env]: its data members, the state of
    the library and what lies behind it, and the trace of its calls with their answers.

    Libraries are classes whose methods are arbitrary functions: [Toml], [ProgramOptions], [Netdb],
    [Hiredis], [Pqxx], [Json], [Instruments], [Asio], [Threads]. Where a theorem needs documented
    behaviour, a second class states it ([HiredisLaws], [HiredisContexts], [RedisServer], [RedisInserts],
    [PostgresServer], [PostgresInserts], [InstrumentsLaws]), and a reference instance keeps it. Unsigned
    integers are numbers of [Z] with their wrap-around where the code can overflow; strings are character
    lists, data is a list of byte values.

    The proofs share three tools of this file: [wp] with [wp_steps] steps through code, [preserves] with
    [solve_preserves] shows invariants of code, whatever its outcome, and [safe] with [solve_defined]
    shows that code has no undefined behaviour. Their hint databases are [preserved] and [defined].

    ** The files

    Shared code (common/utils):
    - CommonConfig: config.cpp, the four table parsers and the connection string. What each parser
      accepts is stated by a predicate ([postgres_spec] and so on), proved equivalent to the parser;
      the connection string denotes one configuration when no part holds a space.
    - Log: log.cpp, the severity filter; every parsed severity is known to the logger.
    - ResolveHost: resolve_host.cpp, over the bytes of the addresses.
    - WaitSignal: wait_signal.cpp, the signal masks of the threads.
    - ProgramOptions: the calls of Boost.Program_options and how a program ends.

    Back end (gwback/src):
    - BackConfig: utils/config.cpp; the configuration that comes out is exactly that of the file.
    - Message: message/message.hpp and producer/interface.hpp. [ProducerLaws] is the contract between
      the loop and the producers.
    - Hiredis, RedisServer: the library and the server, with a reference server.
    - RedisReply: the functions of producer/redis_producer.cpp on replies: ids, data, the XDEL command.
      What is read is what is deleted; the packing of ids into 64 bits and its bounds.
    - RedisProducer: the class of that file. It keeps [ProducerLaws] on every server that keeps
      [RedisServer]. [getConnection] and [authenticate] call each other: the model counts nested calls,
      and two are shown to be enough.
    - Pqxx, PostgresProducer: the library with the database, and producer/postgres_producer.cpp, which
      keeps [ProducerLaws] too.
    - ChunkFile: saveMessages of consumer/consumer.cpp: file names, contents, the stream with its flushes
      on a device that may take only a part. Threads that save chunks interleave flush by flush
      ([disk_step]); the result is that of one after the other, when no two files have one name.
    - Consumer: the class of that file: chunks, threads that cannot be started, and what is on disk when
      the program ends.
    - BackMain: main.cpp. [runLoop] is proved against [ProducerLaws] alone; [main_ends] is about the
      program with the producer its configuration names. The values the loop reads from the flag [run]
      are a list, one for each test of the condition, so the loop is structural.
    - BackDrain: when nothing fails, the loop hands over every message once and empties the storage.

    Front end (gwfront/src):
    - FrontConfig: utils/config.cpp.
    - Handler: handler/interface.hpp and universal_handler.hpp. [CheckerLaws] and [WriterLaws] are what
      the template needs of its arguments; [HandlerLaws] is what it promises to the session.
    - FlatbuffersChecker, JsonChecker: the two checkers, equal to a check of the schema's field list.
    - ConnectionPool: the connections of the worker threads in both writers: the vector, and the steps
      of the threads under the shared mutex as the relation [pool_transition], with the invariant of its
      reachable states: exclusive connections, no race on the vector, no thread blocked for good.
    - PostgresWriter, RedisWriter: one call of [write] on one thread. Success is reported exactly when
      the storage confirmed the data, read off the trace; retries end after three tries; in RedisWriter
      the replies and connections released by hand are balanced.
    - Interleaving, PostgresThreads, RedisThreads: [write] as a tree of atomic steps ([code]), equal to
      the call when it runs alone. Any number of threads take steps in any order; a thread is proved
      with [rely], a postcondition under interference, and the threads together with [compatible]. Each
      thread's record of confirmed data is exactly that of its successful calls; no two threads use one
      hiredis context.
    - HttpSession: http/session.cpp. [handleRequest] and the callbacks; [protocol] is the order of the
      calls on the stream.
    - HttpServer: http/server.cpp: start, stop, accepting, and the sessions over the one handler they
      share, one event after the other.
    - ServerThreads: the same with its threads. [server_step] is a step of the main thread in [start] and
      [stop] or of a worker; the promise of the front end, the end of [stop], and what may still run then.
    - FrontMain: main.cpp: the four handlers, the choice between them, and [front_main_ends].

    Both programs:
    - Store, PostgresStore, RedisStore: the storage they share. [StoreWriter] and [StoreProducer] are what
      the two sides promise about it; both storages keep them, on reference servers with insertions.
    - Gateway: the two programs and other clients take turns on one storage ([gateway_step]). What was
      answered with 202 is in the storage or with the back end: [gateway_delivers].

    ** Bounds and fuel

    Loops of the code are structural in the model, over lists, over the number of retries or over the
    values of a flag. Two definitions count: the digits of a number have one more unit of fuel than its
    logarithm ([dec]), and [getConnection] of RedisProducer allows two nested calls, which are all that
    can happen. Runs of threads are relations with no bound; [writers_end] and [stop_returns] bound them.

    ** What is not modelled

    Log lines and pauses change no state of the model. Time-outs are values passed to Beast; a time-out
    is one of the errors an operation can complete with. In ServerThreads a callback of a session runs as
    one step, and in Gateway one event of the server does: the steps inside [write] interleave in
    PostgresThreads and RedisThreads only. The races on the acceptor and the context at a stop are shown
    to be reachable ([stop_races]), and the model goes on as if each call were atomic. Allocation does
    not fail. The smart pointers of the producers release what they own; the releases written by hand, in
    RedisWriter, are modelled. The build files, the containers and the FlatBuffers code generated from
    the schema are outside. *)

From stdpp Require Export base tactics list numbers option strings sorting gmap.
From Stdlib Require Export ZArith Lia Ascii.
From Stdlib Require String.

Declare Scope gateway_scope.
Delimit Scope gateway_scope with gw.
#[global] Open Scope Z_scope.
#[global] Open Scope stdpp_scope.

(** ** Machine integers

    An unsigned [w]-bit integer is a [Z]; arithmetic on it is written with the wrap-around of the
    C++ type. *)

Definition wrap (w z : Z) : Z := z mod 2 ^ w.
Abbreviation u16 := (wrap 16).
Abbreviation u32 := (wrap 32).
Abbreviation u64 := (wrap 64).

Lemma wrap_small w z : 0 <= z < 2 ^ w -> wrap w z = z.
Proof. apply Z.mod_small. Qed.

Lemma wrap_bound w z : 0 <= w -> 0 <= wrap w z < 2 ^ w.
Proof. intros. apply Z.mod_pos_bound. lia. Qed.

(** ** Outcomes of C++ code

    A call returns a value, throws, or runs into undefined behaviour. [UB] is not caught by any
    handler, so a theorem that an outcome is a value also says that no undefined behaviour is
    reached. *)

Inductive exn : Type :=
| invalid_argument (what : string)
| runtime_error (what : string)
| broken_connection (what : string)
| std_exception (what : string).

#[export] Instance exn_eq_dec : EqDecision exn.
Proof. solve_decision. Defined.

Definition what (e : exn) : string :=
  match e with
  | invalid_argument m | runtime_error m | broken_connection m | std_exception m => m
  end.

Inductive outcome (A : Type) : Type :=
| Value (a : A)
| Throw (e : exn)
| UB.
Arguments Value {A} a.
Arguments Throw {A} e.
Arguments UB {A}.

#[export] Instance outcome_ret : MRet outcome := @Value.
#[export] Instance outcome_bind : MBind outcome := fun A B f m =>
  match m with
  | Value a => f a
  | Throw e => Throw e
  | UB => UB
  end.

(** Effectful code: a function of the state it can read and change. The state a throwing call left
    behind is kept. *)

Definition prog (S A : Type) : Type := S -> outcome A * S.

#[export] Instance prog_ret {S} : MRet (prog S) := fun A a s => (Value a, s).
#[export] Instance prog_bind {S} : MBind (prog S) := fun A B f m s =>
  match m s with
  | (Value a, s') => f a s'
  | (Throw e, s') => (Throw e, s')
  | (UB, s') => (UB, s')
  end.

Definition throw {S A} (e : exn) : prog S A := fun s => (Throw e, s).
Definition undefined {S A} : prog S A := fun s => (UB, s).
Definition gets {S A} (f : S -> A) : prog S A := fun s => (Value (f s), s).
Definition modify {S} (f : S -> S) : prog S unit := fun s => (Value tt, f s).
Definition lift {S A} (o : outcome A) : prog S A := fun s => (o, s).

(** [try { m } catch (e) { h e }] *)
Definition try_catch {S A} (m : prog S A) (h : exn -> prog S A) : prog S A := fun s =>
  match m s with
  | (Throw e, s') => h e s'
  | r => r
  end.

(** The destructor [d] of a local object runs when its scope [m] is left, by a return or by an
    exception. *)
Definition scoped {S A} (m : prog S A) (d : S -> S) : prog S A := fun s =>
  match m s with
  | (UB, s') => (UB, s')
  | (o, s') => (o, d s')
  end.

(** [if (b) { throw e; }] *)
Definition throw_if (b : bool) (e : exn) : outcome unit := if b then Throw e else Value tt.

Lemma throw_if_value b e A (k : outcome A) a :
  (throw_if b e ;; k) = Value a <-> b = false /\ k = Value a.
Proof. destruct b; cbn; naive_solver. Qed.

Lemma mret_value {A} (a b : A) : (mret a : outcome A) = Value b <-> a = b.
Proof. split; [by intros [= ->]|by intros ->]. Qed.

Lemma throw_value {A} e (b : A) : Throw e = Value b <-> False.
Proof. done. Qed.

Lemma bind_value {A B} (o : outcome A) (k : A -> outcome B) b :
  (o ≫= k) = Value b <-> exists a, o = Value a /\ k a = Value b.
Proof. destruct o; cbn; naive_solver. Qed.

Lemma prog_bind_value {S A B} (m : prog S A) (k : A -> prog S B) s b s' :
  (m ≫= k) s = (Value b, s') <-> exists a s1, m s = (Value a, s1) /\ k a s1 = (Value b, s').
Proof.
  unfold mbind, prog_bind. destruct (m s) as [[a|e|] s1].
  - split; [intros H; by exists a, s1|by intros (? & ? & [= <- <-] & ?)].
  - split; [done|by intros (? & ? & ? & ?)].
  - split; [done|by intros (? & ? & ? & ?)].
Qed.

(** Opens a sequence of statements in a hypothesis, or advances one in the goal to the state [s1]. *)
Ltac bind_in H Hstep := apply prog_bind_value in H as (? & ? & Hstep & H).
Ltac bind_at s1 := apply prog_bind_value; exists tt, s1; split.

Lemma prog_lift_value {S A} (o : outcome A) (s : S) a s' :
  lift o s = (Value a, s') <-> o = Value a /\ s' = s.
Proof. unfold lift. split; [by intros [= -> ->]|by intros [-> ->]]. Qed.

(** The result of a call that can throw: [inl e] is the exception [e]. *)
Definition of_sum {A} (r : exn + A) : outcome A :=
  match r with inl e => Throw e | inr a => Value a end.

Lemma of_sum_value {A} (r : exn + A) a : of_sum r = Value a <-> r = inr a.
Proof. destruct r; cbn; naive_solver. Qed.

(** The state of an object that calls a library: its data members, the state [W] of the library
    and of what lies behind it (sockets, servers, tables), and the calls made so far, the oldest
    first, each with the answer the library gave. *)

Record env (M W E : Type) : Type := Env { members : M; world : W; trace : list E }.
Arguments Env {M W E} members world trace.
Arguments members {M W E} e.
Arguments world {M W E} e.
Arguments trace {M W E} e.

Definition set_members {M W E} (f : M -> M) (s : env M W E) : env M W E :=
  Env (f s.(members)) s.(world) s.(trace).

(** A library call that cannot throw, recorded as the event [ev a] of its answer [a]. *)
Definition call {M W E A} (f : W -> A * W) (ev : A -> E) : prog (env M W E) A := fun s =>
  let '(a, w) := f s.(world) in (Value a, Env s.(members) w (s.(trace) ++ [ev a])).

(** A library call that can throw: [inl e] is the exception [e]. *)
Definition call_throwing {M W E A} (f : W -> (exn + A) * W) (ev : exn + A -> E) :
    prog (env M W E) A := fun s =>
  let '(r, w) := f s.(world) in
  (of_sum r, Env s.(members) w (s.(trace) ++ [ev r])).

(** Unfolds the monad in the goal and in the hypotheses. *)
Ltac prog_unfold :=
  unfold mbind, mret, prog_bind, prog_ret, outcome_bind, outcome_ret, throw, undefined, gets,
    modify, lift, try_catch, scoped, call, call_throwing, set_members in *; simpl in *.

(** Splits every [match] or [if] of the goal and simplifies. *)
Ltac split_matches :=
  repeat (case_match; simplify_eq/=; try done).

(** ** Characters and strings *)

Abbreviation chars := String.list_ascii_of_string.
Abbreviation of_chars := String.string_of_list_ascii.

Lemma chars_app s t : chars (s +:+ t) = chars s ++ chars t.
Proof. induction s as [|c s IH]; [done|]. cbn. by rewrite <-IH. Qed.

Lemma chars_of_chars l : chars (of_chars l) = l.
Proof. apply String.list_ascii_of_string_of_list_ascii. Qed.

Lemma of_chars_chars s : of_chars (chars s) = s.
Proof. apply String.string_of_list_ascii_of_string. Qed.

Lemma chars_inj s t : chars s = chars t -> s = t.
Proof. intros H. by rewrite <-(of_chars_chars s), H, of_chars_chars. Qed.

Lemma length_chars s : length (chars s) = String.length s.
Proof. induction s; simpl; congruence. Qed.

Create Rewrite HintDb strings.
#[export] Hint Rewrite chars_app chars_of_chars of_chars_chars @length_app : strings.

(** [std::string::empty] *)
Definition str_empty (s : string) : bool := bool_decide (s = "").

(** The double quote, which a string literal of this development cannot hold. *)
Definition dquote : string := String (Ascii.ascii_of_nat 34) "".
Definition newline : ascii := Ascii.ascii_of_nat 10.
Definition space : ascii := Ascii.ascii_of_nat 32.

(** The bytes of a [char] sequence as [uint8_t] values. *)
Definition byte_of (c : ascii) : Z := Z.of_N (N_of_ascii c).
Definition bytes_of (s : string) : list Z := byte_of <$> chars s.

Lemma byte_of_bound c : 0 <= byte_of c < 256.
Proof. unfold byte_of. destruct c as [[][][][][][][][]]; cbn; lia. Qed.

Lemma byte_of_inj : Inj (=) (=) byte_of.
Proof.
  intros c d H. unfold byte_of in H. apply N2Z.inj in H.
  by rewrite <-(ascii_N_embedding c), H, ascii_N_embedding.
Qed.

(** The part of a [std::string] a C function sees behind [data()]: up to the first NUL. *)
Fixpoint c_str (s : string) : string :=
  match s with
  | EmptyString => EmptyString
  | String c s' => if decide (c = Ascii.zero) then EmptyString else String c (c_str s')
  end.

Lemma c_str_id s : Ascii.zero ∉ chars s -> c_str s = s.
Proof.
  induction s as [|c s IH]; simpl; [done|]. rewrite not_elem_of_cons. intros [Hc Hs].
  rewrite decide_False by congruence. by rewrite IH.
Qed.

(** ** Decimal numbers

    [std::to_string] and [operator<<] of an unsigned integer: its decimal digits, the most
    significant one first. *)

(** [std::isdigit] in the C locale. *)
Definition isdigit (c : ascii) : bool := (48 <=? byte_of c) && (byte_of c <=? 57).
(** [c - '0'] *)
Definition digit_value (c : ascii) : Z := byte_of c - 48.
Definition digit_char (d : Z) : ascii := ascii_of_N (Z.to_N (48 + d)).

Fixpoint dec_digits (fuel : nat) (n : Z) : list Z :=
  match fuel with
  | O => []
  | S fuel' => if n <? 10 then [n] else dec_digits fuel' (n / 10) ++ [n mod 10]
  end.

Definition dec (n : Z) : string :=
  of_chars (digit_char <$> dec_digits (S (Z.to_nat (Z.log2 n))) n).

#[global] Arguments dec : simpl never.

(** The same for a signed integer. *)
Definition dec_signed (z : Z) : string := if z <? 0 then "-" +:+ dec (- z) else dec z.
#[global] Arguments dec_signed : simpl never.

(** The number a digit sequence denotes, read after the number [acc]. *)
Definition digits_value (acc : Z) (ds : list Z) : Z := fold_left (fun a d => a * 10 + d) ds acc.

Definition chars_value (cs : list ascii) : Z := digits_value 0 (digit_value <$> cs).

Lemma digit_char_byte d : 0 <= d < 10 -> byte_of (digit_char d) = 48 + d.
Proof. intros. unfold byte_of, digit_char. rewrite N_ascii_embedding; lia. Qed.

Lemma digit_char_isdigit d : 0 <= d < 10 -> isdigit (digit_char d) = true.
Proof. intros. unfold isdigit. rewrite digit_char_byte by done. lia. Qed.

Lemma digit_char_value d : 0 <= d < 10 -> digit_value (digit_char d) = d.
Proof. intros. unfold digit_value. rewrite digit_char_byte by done. lia. Qed.

Lemma isdigit_value c : isdigit c = true -> 0 <= digit_value c < 10.
Proof. unfold isdigit, digit_value. lia. Qed.

Lemma digits_value_app acc ds es :
  digits_value acc (ds ++ es) = digits_value (digits_value acc ds) es.
Proof. apply fold_left_app. Qed.

Lemma dec_digits_spec fuel n :
  0 <= n < 2 ^ Z.of_nat fuel ->
  digits_value 0 (dec_digits fuel n) = n /\ Forall (fun d => 0 <= d < 10) (dec_digits fuel n).
Proof.
  revert n. induction fuel as [|fuel IH]; intros n Hn; simpl.
  { split; [|constructor]. cbn in *. lia. }
  destruct (n <? 10) eqn:E; [apply Z.ltb_lt in E|apply Z.ltb_ge in E].
  { split; [done|]. constructor; [lia|constructor]. }
  rewrite Nat2Z.inj_succ, Z.pow_succ_r in Hn by lia.
  destruct (IH (n / 10)) as [Hv Hd]; [split; [apply Z.div_pos; lia|apply Z.div_lt_upper_bound; lia]|].
  split.
  - rewrite digits_value_app, Hv. cbn. pose proof (Z.div_mod n 10). lia.
  - apply Forall_app. split; [done|]. constructor; [apply Z.mod_pos_bound; lia|constructor].
Qed.

Lemma dec_fuel n : 0 <= n -> 0 <= n < 2 ^ Z.of_nat (S (Z.to_nat (Z.log2 n))).
Proof.
  intros. rewrite Nat2Z.inj_succ, Z2Nat.id by apply Z.log2_nonneg.
  destruct (decide (n = 0)) as [->|]; [done|]. pose proof (Z.log2_spec n). lia.
Qed.

Lemma chars_dec n : chars (dec n) = digit_char <$> dec_digits (S (Z.to_nat (Z.log2 n))) n.
Proof. apply chars_of_chars. Qed.

Lemma dec_isdigit n : 0 <= n -> Forall (fun c => isdigit c = true) (chars (dec n)).
Proof.
  intros H. rewrite chars_dec. apply Forall_fmap.
  eapply Forall_impl; [apply dec_digits_spec, dec_fuel, H|]. apply digit_char_isdigit.
Qed.

Lemma digits_of_chars ds :
  Forall (fun d => 0 <= d < 10) ds -> digit_value <$> (digit_char <$> ds) = ds.
Proof.
  induction 1 as [|d ds Hd _ IH]; [done|]. rewrite !fmap_cons, IH.
  by rewrite digit_char_value.
Qed.

(** The digits printed for a number denote that number. *)
Lemma dec_value n : 0 <= n -> chars_value (chars (dec n)) = n.
Proof.
  intros H. destruct (dec_digits_spec _ _ (dec_fuel n H)) as [Hv Hd].
  unfold chars_value. by rewrite chars_dec, digits_of_chars.
Qed.

Lemma dec_inj n m : 0 <= n -> 0 <= m -> dec n = dec m -> n = m.
Proof. intros Hn Hm H. by rewrite <-(dec_value n), H, dec_value. Qed.

Lemma dec_digits_length fuel n k :
  0 <= n < 10 ^ Z.of_nat k -> (0 < k)%nat -> (length (dec_digits fuel n) <= k)%nat.
Proof.
  revert n k. induction fuel as [|fuel IH]; intros n k Hn Hk; simpl; [lia|].
  destruct (n <? 10) eqn:E; [simpl; lia|]. apply Z.ltb_ge in E.
  destruct k as [|[|k]]; [lia|cbn in Hn; lia|].
  rewrite length_app. simpl. rewrite Nat.add_1_r. apply le_n_S, (IH (n / 10)); [|lia].
  rewrite Nat2Z.inj_succ, Z.pow_succ_r in Hn by lia.
  split; [apply Z.div_pos; lia|apply Z.div_lt_upper_bound; lia].
Qed.

Lemma dec_length n k :
  0 <= n < 10 ^ Z.of_nat k -> (0 < k)%nat -> (length (chars (dec n)) <= k)%nat.
Proof. intros. rewrite chars_dec, length_fmap. by apply dec_digits_length. Qed.

Lemma dec_nonempty n : chars (dec n) <> [].
Proof.
  rewrite chars_dec. simpl. destruct (n <? 10); [done|].
  rewrite fmap_app. by destruct (digit_char <$> dec_digits _ _).
Qed.

(** A character that is not a digit does not occur in a printed number. *)
Lemma dec_no_char c n : isdigit c = false -> 0 <= n -> c ∉ chars (dec n).
Proof.
  intros Hc Hn Hin. pose proof (dec_isdigit n Hn) as H.
  rewrite Forall_forall in H. specialize (H c Hin). congruence.
Qed.

(** [std::setw(w)] with [std::setfill(c)]: pads on the left, never truncates. *)
Definition setw (w : nat) (c : ascii) (s : string) : string :=
  of_chars (replicate (w - String.length s) c) +:+ s.

#[global] Arguments setw : simpl never.

Lemma chars_setw w c s : chars (setw w c s) = replicate (w - length (chars s)) c ++ chars s.
Proof. unfold setw. by rewrite chars_app, chars_of_chars, length_chars. Qed.

Lemma setw_length w c s : (length (chars s) <= w)%nat -> length (chars (setw w c s)) = w.
Proof. intros. rewrite chars_setw, length_app, length_replicate. lia. Qed.

Lemma digits_value_zeros k cs :
  chars_value (replicate k "0"%char ++ cs) = chars_value cs.
Proof. induction k as [|k IH]; [done|exact IH]. Qed.

(** Zero padding keeps the number. *)
Lemma setw_value w n : 0 <= n -> chars_value (chars (setw w "0"%char (dec n))) = n.
Proof. intros. by rewrite chars_setw, digits_value_zeros, dec_value. Qed.

(** Proves that a character does not occur in a closed string. *)
Ltac char_absent := rewrite list_elem_of_In; vm_compute; intuition discriminate.

(** ** Splitting a sequence *)

Section split.
Context {A : Type} `{!EqDecision A}.

(** The longest prefix that satisfies [p], and the rest. *)
Fixpoint span (p : A -> bool) (l : list A) : list A * list A :=
  match l with
  | [] => ([], [])
  | x :: l' => if p x then let '(a, b) := span p l' in (x :: a, b) else ([], l)
  end.

(** The fields of [l] between the separators [sep]. *)
Fixpoint split_on (sep : A) (l : list A) : list (list A) :=
  match l with
  | [] => [[]]
  | x :: l' =>
      if decide (x = sep) then [] :: split_on sep l'
      else match split_on sep l' with
           | [] => [[x]]
           | f :: fs => (x :: f) :: fs
           end
  end.

Lemma span_app p l m :
  Forall (fun x => p x = true) l -> span p (l ++ m) = (l ++ (span p m).1, (span p m).2).
Proof.
  induction 1 as [|x l Hx _ IH]; simpl; [by destruct (span p m)|].
  by rewrite Hx, IH.
Qed.

Lemma split_on_nonempty sep l : split_on sep l <> [].
Proof. induction l as [|x l IH]; simpl; [done|]. by repeat case_match. Qed.

Lemma split_on_none sep l : sep ∉ l -> split_on sep l = [l].
Proof.
  induction l as [|x l IH]; simpl; [done|]. rewrite not_elem_of_cons. intros [Hx Hl].
  rewrite decide_False by congruence. by rewrite IH.
Qed.

Lemma split_on_app sep l m : sep ∉ l -> split_on sep (l ++ sep :: m) = l :: split_on sep m.
Proof.
  induction l as [|x l IH]; simpl; [by rewrite decide_True|].
  rewrite not_elem_of_cons. intros [Hx Hl].
  rewrite decide_False by congruence. by rewrite IH.
Qed.

End split.

Lemma StronglySorted_filter {A} (R : relation A) (P : A -> Prop) `{!forall x, Decision (P x)} l :
  StronglySorted R l -> StronglySorted R (filter P l).
Proof.
  induction 1 as [|x l Hl IH Hx]; [constructor|]. rewrite filter_cons.
  case_decide; [|done]. constructor; [done|]. rewrite Forall_forall in *.
  intros y [_ Hy]%list_elem_of_filter. by apply Hx.
Qed.

(** ** Code without undefined behaviour *)

Definition defined {A} (o : outcome A) : Prop := o <> UB.

(** From every state. *)
Definition safe {S A} (m : prog S A) : Prop := forall s, defined (m s).1.

Lemma defined_bind {A B} (o : outcome A) (k : A -> outcome B) :
  defined o -> (forall a, defined (k a)) -> defined (o ≫= k).
Proof. unfold defined. destruct o; cbn; auto. Qed.

Lemma defined_ret {A} (a : A) : defined (mret a).
Proof. done. Qed.

Lemma defined_throw {A} e : defined (A := A) (Throw e).
Proof. done. Qed.

Lemma defined_throw_if b e : defined (throw_if b e).
Proof. by destruct b. Qed.

Lemma defined_of_sum {A} (r : exn + A) : defined (of_sum r).
Proof. by destruct r. Qed.

Lemma safe_bind {S A B} (m : prog S A) (k : A -> prog S B) :
  safe m -> (forall a, safe (k a)) -> safe (m ≫= k).
Proof.
  intros Hm Hk s. unfold mbind, prog_bind. specialize (Hm s).
  destruct (m s) as [[a|e|] s1]; [apply Hk|done|done].
Qed.

Lemma safe_ret {S A} (a : A) : safe (S := S) (mret a).
Proof. by intros s. Qed.

Lemma safe_throw {S A} e : safe (S := S) (A := A) (throw e).
Proof. by intros s. Qed.

Lemma safe_gets {S A} (f : S -> A) : safe (gets f).
Proof. by intros s. Qed.

Lemma safe_modify {S} (f : S -> S) : safe (modify f).
Proof. by intros s. Qed.

Lemma safe_lift {S A} (o : outcome A) : defined o -> safe (S := S) (lift o).
Proof. by intros H s. Qed.

Lemma safe_call {M W E A} f ev : safe (@call M W E A f ev).
Proof. intros s. unfold call. by destruct (f (world s)). Qed.

Lemma safe_call_throwing {M W E A} f ev : safe (@call_throwing M W E A f ev).
Proof.
  intros s. unfold call_throwing. destruct (f (world s)) as [r w]. apply defined_of_sum.
Qed.

Lemma safe_try_catch {S A} (m : prog S A) h :
  safe m -> (forall e, safe (h e)) -> safe (try_catch m h).
Proof.
  intros Hm Hh s. unfold try_catch. specialize (Hm s).
  destruct (m s) as [[a|e|] s1]; [done|apply Hh|done].
Qed.

Lemma safe_scoped {S A} (m : prog S A) d : safe m -> safe (scoped m d).
Proof.
  intros Hm s. unfold scoped. specialize (Hm s). by destruct (m s) as [[a|e|] s1].
Qed.

Create HintDb defined.
#[export] Hint Resolve defined_bind defined_ret defined_throw defined_throw_if defined_of_sum
  safe_bind safe_ret safe_throw safe_gets safe_modify safe_lift safe_call safe_call_throwing
  safe_try_catch safe_scoped : defined.

(** Proves that code is safe: by the rules above and by case analysis on its branches. *)
Ltac solve_defined :=
  repeat (intros; first
    [ progress (auto with nocore defined)
    | apply safe_bind | apply safe_try_catch | apply safe_scoped | apply safe_lift
    | apply defined_bind
    | case_match ]).

(** ** Invariants of code

    [preserves I m]: [I] still holds after [m], whatever its outcome. *)

Definition preserves {S A} (I : S -> Prop) (m : prog S A) : Prop := forall s, I s -> I (m s).2.

Section preserves.
Context {S : Type} (I : S -> Prop).

Lemma preserves_bind {A B} (m : prog S A) (k : A -> prog S B) :
  preserves I m -> (forall a, preserves I (k a)) -> preserves I (m ≫= k).
Proof.
  intros Hm Hk s Hs. unfold mbind, prog_bind. specialize (Hm s Hs).
  destruct (m s) as [[a|e|] s1]; [by apply Hk|done|done].
Qed.

Lemma preserves_ret {A} (a : A) : preserves I (mret a).
Proof. by intros s. Qed.

Lemma preserves_throw {A} e : preserves I (A := A) (throw e).
Proof. by intros s. Qed.

Lemma preserves_undefined {A} : preserves I (A := A) undefined.
Proof. by intros s. Qed.

Lemma preserves_gets {A} (f : S -> A) : preserves I (gets f).
Proof. by intros s. Qed.

Lemma preserves_lift {A} (o : outcome A) : preserves I (lift o).
Proof. by intros s. Qed.

Lemma preserves_modify f : (forall s, I s -> I (f s)) -> preserves I (modify f).
Proof. intros H s. apply H. Qed.

Lemma preserves_try_catch {A} (m : prog S A) h :
  preserves I m -> (forall e, preserves I (h e)) -> preserves I (try_catch m h).
Proof.
  intros Hm Hh s Hs. unfold try_catch. specialize (Hm s Hs).
  destruct (m s) as [[a|e|] s1]; [done|by apply Hh|done].
Qed.

Lemma preserves_scoped {A} (m : prog S A) d :
  preserves I m -> (forall s, I s -> I (d s)) -> preserves I (scoped m d).
Proof.
  intros Hm Hd s Hs. unfold scoped. specialize (Hm s Hs).
  destruct (m s) as [[a|e|] s1]; [by apply Hd|by apply Hd|done].
Qed.
End preserves.

Lemma preserves_call {M W E A} (I : env M W E -> Prop) (f : W -> A * W) ev :
  (forall s, I s -> I (Env s.(members) (f s.(world)).2 (s.(trace) ++ [ev (f s.(world)).1]))) ->
  preserves I (call f ev).
Proof. intros H s Hs. specialize (H s Hs). unfold call. by destruct (f (world s)). Qed.

Lemma preserves_call_throwing {M W E A} (I : env M W E -> Prop) (f : W -> (exn + A) * W) ev :
  (forall s, I s -> I (Env s.(members) (f s.(world)).2 (s.(trace) ++ [ev (f s.(world)).1]))) ->
  preserves I (call_throwing f ev).
Proof. intros H s Hs. specialize (H s Hs). unfold call_throwing. by destruct (f (world s)). Qed.

Create HintDb preserved.
#[export] Hint Resolve preserves_bind preserves_ret preserves_throw preserves_undefined
  preserves_gets preserves_lift preserves_try_catch : preserved.

(** Proves [preserves] down to the library calls and state changes of the code. *)
Ltac solve_preserves :=
  repeat (intros; first
    [ progress (auto with nocore preserved)
    | apply preserves_bind | apply preserves_try_catch
    | case_match ]).

(** The trace only grows. *)
Definition extends {M W E} (t : list E) (s : env M W E) : Prop := exists es, trace s = t ++ es.

Lemma extends_refl {M W E} (s : env M W E) : extends (trace s) s.
Proof. exists []. by rewrite app_nil_r. Qed.

Lemma extends_call {M W E A} t (f : W -> A * W) (ev : A -> E) :
  preserves (S := env M W E) (extends t) (call f ev).
Proof. apply preserves_call. intros s [es Hs]. unfold extends. cbn. rewrite Hs, <-app_assoc. eauto. Qed.

Lemma extends_call_throwing {M W E A} t (f : W -> (exn + A) * W) (ev : exn + A -> E) :
  preserves (S := env M W E) (extends t) (call_throwing f ev).
Proof.
  apply preserves_call_throwing. intros s [es Hs]. unfold extends. cbn. rewrite Hs, <-app_assoc. eauto.
Qed.

Lemma extends_members {M W E} t (f : M -> M) :
  preserves (S := env M W E) (extends t) (modify (set_members f)).
Proof. by apply preserves_modify. Qed.

#[export] Hint Resolve extends_call extends_call_throwing extends_members : preserved.

(** ** Postconditions of code

    [wp m Q E s]: from the state [s] the code [m] returns with [Q] or throws with [E]; it runs into
    no undefined behaviour. *)

Definition wp {S A} (m : prog S A) (Q : A -> S -> Prop) (E : exn -> S -> Prop) (s : S) : Prop :=
  match m s with
  | (Value a, s') => Q a s'
  | (Throw e, s') => E e s'
  | (UB, _) => False
  end.

Lemma wp_mono {S A} (m : prog S A) (Q Q' : A -> S -> Prop) (E E' : exn -> S -> Prop) s :
  wp m Q E s -> (forall a s', Q a s' -> Q' a s') -> (forall e s', E e s' -> E' e s') ->
  wp m Q' E' s.
Proof. unfold wp. intros H HQ HE. destruct (m s) as [[a|e|] s']; auto. Qed.

Lemma wp_bind {S A B} (m : prog S A) (k : A -> prog S B) Q E s :
  wp m (fun a s' => wp (k a) Q E s') E s -> wp (m ≫= k) Q E s.
Proof. unfold wp, mbind, prog_bind. by destruct (m s) as [[a|e|] s']. Qed.

Lemma wp_ret {S A} (a : A) (Q : A -> S -> Prop) E s : Q a s -> wp (mret a) Q E s.
Proof. done. Qed.

Lemma wp_throw {S A} e (Q : A -> S -> Prop) (E : exn -> S -> Prop) s : E e s -> wp (throw e) Q E s.
Proof. done. Qed.

Lemma wp_gets {S A} (f : S -> A) (Q : A -> S -> Prop) E s : Q (f s) s -> wp (gets f) Q E s.
Proof. done. Qed.

Lemma wp_modify {S} f (Q : unit -> S -> Prop) E (s : S) : Q tt (f s) -> wp (modify f) Q E s.
Proof. done. Qed.

Lemma wp_lift_value {S A} (a : A) (Q : A -> S -> Prop) E s : Q a s -> wp (lift (Value a)) Q E s.
Proof. done. Qed.

Lemma wp_call {M W E A} (f : W -> A * W) (ev : A -> E) (Q : A -> env M W E -> Prop) X s :
  Q (f s.(world)).1
    (Env s.(members) (f s.(world)).2 (s.(trace) ++ [ev (f s.(world)).1])) ->
  wp (call f ev) Q X s.
Proof. unfold wp, call. by destruct (f (world s)). Qed.

Lemma wp_call_throwing {M W E A} (f : W -> (exn + A) * W) (ev : exn + A -> E)
    (Q : A -> env M W E -> Prop) (X : exn -> env M W E -> Prop) s :
  (forall a, (f s.(world)).1 = inr a ->
     Q a (Env s.(members) (f s.(world)).2 (s.(trace) ++ [ev (inr a)]))) ->
  (forall e, (f s.(world)).1 = inl e ->
     X e (Env s.(members) (f s.(world)).2 (s.(trace) ++ [ev (inl e)]))) ->
  wp (call_throwing f ev) Q X s.
Proof.
  unfold wp, call_throwing. destruct (f (world s)) as [[e|a] w]; simpl; auto.
Qed.

Lemma wp_try_catch {S A} (m : prog S A) h Q E s :
  wp m Q (fun e s' => wp (h e) Q E s') s -> wp (try_catch m h) Q E s.
Proof. unfold wp, try_catch. by destruct (m s) as [[a|e|] s']. Qed.

Lemma wp_scoped {S A} (m : prog S A) d (Q : A -> S -> Prop) E s :
  wp m (fun a s' => Q a (d s')) (fun e s' => E e (d s')) s -> wp (scoped m d) Q E s.
Proof. unfold wp, scoped. by destruct (m s) as [[a|e|] s']. Qed.

(** What [wp] says of the outcome. *)
Lemma wp_value {S A} (m : prog S A) Q E s a : wp m Q E s -> (m s).1 = Value a -> Q a (m s).2.
Proof. unfold wp. destruct (m s) as [o s']. simpl. by intros H ->. Qed.

Lemma wp_thrown {S A} (m : prog S A) Q E s e : wp m Q E s -> (m s).1 = Throw e -> E e (m s).2.
Proof. unfold wp. destruct (m s) as [o s']. simpl. by intros H ->. Qed.

Lemma wp_defined {S A} (m : prog S A) Q E s : wp m Q E s -> defined (m s).1.
Proof. unfold wp. by destruct (m s) as [[a|e|] s']. Qed.

Lemma safe_wp {S A} (m : prog S A) (s : S) : safe m -> wp m (fun _ _ => True) (fun _ _ => True) s.
Proof. intros H. specialize (H s). unfold wp. by destruct (m s) as [[a|e|] s']. Qed.

(** A postcondition and an invariant together. *)
Lemma wp_invariant {S A} (I : S -> Prop) (m : prog S A) Q E s :
  preserves I m -> I s -> wp m Q E s ->
  wp m (fun a s' => Q a s' /\ I s') (fun e s' => E e s' /\ I s') s.
Proof. unfold wp. intros H Hs. specialize (H s Hs). by destruct (m s) as [[a|e|] s']. Qed.

(** Advances a [wp] goal over one statement that needs no choice. *)
Ltac wp_step :=
  lazymatch goal with
  | |- wp (mbind _ _) _ _ _ => apply wp_bind
  | |- wp (mret _) _ _ _ => apply wp_ret
  | |- wp (throw _) _ _ _ => apply wp_throw
  | |- wp (gets _) _ _ _ => apply wp_gets
  | |- wp (modify _) _ _ _ => apply wp_modify
  | |- wp (lift (Value _)) _ _ _ => apply wp_lift_value
  | |- wp (lift (mret _)) _ _ _ => apply wp_lift_value
  | |- wp (call _ _) _ _ _ => apply wp_call
  | |- wp (try_catch _ _) _ _ _ => apply wp_try_catch
  | |- wp (scoped _ _) _ _ _ => apply wp_scoped
  end; cbn beta; cbn [world members trace].

Ltac wp_steps := repeat wp_step.
