(* ===== verification/CommonConfig.v ===== *)
(** * Configuration shared by the two programs (common/utils/config)

    The toml++ library is not part of the repository: a node view is an element of an arbitrary type
    [view] with the four operations the code uses. Parsing is a function from views to a record or
    the exception thrown. *)

From S2P Require Import Prelude.

Class Toml (view : Type) : Type := {
  (** [node[key]] *)
  subscript : view -> string -> view;
  (** [as_string()] and [as_integer()], [None] for a null pointer *)
  as_string : view -> option string;
  as_integer : view -> option Z;
  (** [operator bool]: the view refers to a node *)
  present : view -> bool
}.

(** [toml::parse_file]: a table, or the exception [toml::parse_error]. *)
Class TomlFile (view : Type) : Type := parse_file : string -> exn + view.

Definition DATABASE_PARAMETER : string := "database".
Definition HOST_PARAMETER : string := "host".
Definition PASSWORD_PARAMETER : string := "password".
Definition PORT_PARAMETER : string := "port".
Definition SEVERITY_PARAMETER : string := "severity".
Definition TYPE_PARAMETER : string := "type".
Definition USER_PARAMETER : string := "user".

Definition SEVERITIES : list string := ["trace"; "debug"; "info"; "warning"; "error"; "fatal"].

Definition JSON_MESSAGE_TYPE : string := "json".
Definition FLATBUFFERS_MESSAGE_TYPE : string := "flatbuffers".

Definition MIN_PORT : Z := 1.
Definition MAX_PORT : Z := 65535.

Record LogConfig : Type := mkLogConfig { severity : string }.
Definition default_LogConfig : LogConfig := mkLogConfig "error".

Inductive MessagesConfigType : Type := JSON | FLATBUFFERS.

#[export] Instance MessagesConfigType_eq_dec : EqDecision MessagesConfigType.
Proof. solve_decision. Defined.

Record MessagesConfig : Type := mkMessagesConfig { mtype : MessagesConfigType }.

Record PostgresConfig : Type := mkPostgresConfig {
  pg_host : string;
  pg_port : Z;
  pg_database : string;
  pg_user : string;
  pg_password : string
}.

Record RedisConfig : Type := mkRedisConfig {
  redis_host : string;
  redis_port : Z;
  redis_user : string;
  redis_password : string
}.

(** [PostgresConfig::connectionString] *)
Definition connectionString (c : PostgresConfig) : string :=
  "host=" +:+ pg_host c +:+ " " +:+
  "port=" +:+ dec (pg_port c) +:+ " " +:+
  "dbname=" +:+ pg_database c +:+ " " +:+
  "user=" +:+ pg_user c +:+ " " +:+
  "password=" +:+ pg_password c.

Section parse.
Context {view : Type} `{!Toml view}.

Definition parseLogConfig (node : view) : outcome LogConfig :=
  match as_string (subscript node SEVERITY_PARAMETER) with
  | Some severityValue =>
      throw_if (negb (bool_decide (severityValue ∈ SEVERITIES)))
        (invalid_argument "Log config has no proper severity parameter") ;;
      mret (mkLogConfig severityValue)
  | None => mret default_LogConfig
  end.

(** [if (!p || p->get().empty()) throw e; ... p->get()] *)
Definition nonempty_string (v : view) (e : exn) : outcome string :=
  match as_string v with
  | Some s => throw_if (str_empty s) e ;; mret s
  | None => Throw e
  end.

Definition parseMessagesConfig (node : view) : outcome MessagesConfig :=
  typeValue ← nonempty_string (subscript node TYPE_PARAMETER)
    (invalid_argument "Messages config has no proper type parameter");
  if decide (typeValue = JSON_MESSAGE_TYPE) then mret (mkMessagesConfig JSON)
  else if decide (typeValue = FLATBUFFERS_MESSAGE_TYPE) then mret (mkMessagesConfig FLATBUFFERS)
  else Throw (invalid_argument ("Messages config has wrong type value: " +:+ typeValue)).

(** The optional port of a storage: absent or of another type, the default stays. *)
Definition storage_port (v : view) (default : Z) (what : string) : outcome Z :=
  match as_integer v with
  | Some portValue =>
      throw_if ((portValue <? MIN_PORT) || (MAX_PORT <? portValue))
        (invalid_argument (what +:+ dec_signed portValue)) ;;
      mret (u16 portValue)
  | None => mret default
  end.

(** [if (!p) throw e; ... p->get()] *)
Definition any_string (v : view) (e : exn) : outcome string :=
  match as_string v with
  | Some s => mret s
  | None => Throw e
  end.

Definition parsePostgresConfig (node : view) : outcome PostgresConfig :=
  host ← nonempty_string (subscript node HOST_PARAMETER)
    (invalid_argument "Postgres config has no proper host parameter");
  port ← storage_port (subscript node PORT_PARAMETER) 5432
    "Postgres config has wrong port value: ";
  database ← nonempty_string (subscript node DATABASE_PARAMETER)
    (invalid_argument "Postgres config has no proper database parameter");
  user ← nonempty_string (subscript node USER_PARAMETER)
    (invalid_argument "Postgres config has no proper user parameter");
  password ← any_string (subscript node PASSWORD_PARAMETER)
    (invalid_argument "Postgres config has no proper password parameter");
  mret (mkPostgresConfig host port database user password).

Definition parseRedisConfig (node : view) : outcome RedisConfig :=
  host ← nonempty_string (subscript node HOST_PARAMETER)
    (invalid_argument "Redis config has no proper host parameter");
  port ← storage_port (subscript node PORT_PARAMETER) 6379
    "Redis config has wrong port value: ";
  user ← nonempty_string (subscript node USER_PARAMETER)
    (invalid_argument "Redis config has no proper user parameter");
  password ← any_string (subscript node PASSWORD_PARAMETER)
    (invalid_argument "Redis config has no proper password parameter");
  mret (mkRedisConfig host port user password).

(** ** What the parsers accept *)

(** The parameter [key] of [node] is the string [s]. *)
Definition string_at (node : view) (key s : string) : Prop :=
  as_string (subscript node key) = Some s.

(** The parameter [key] of [node] is an integer in the range, and is [n]. *)
Definition integer_at (node : view) (key : string) (lo hi n : Z) : Prop :=
  as_integer (subscript node key) = Some n /\ lo <= n <= hi.

(** The parameter [key] of [node] is an integer in the range and is [n], or it is no integer and
    [n] is the default. *)
Definition integer_or (node : view) (key : string) (lo hi default n : Z) : Prop :=
  match as_integer (subscript node key) with
  | Some v => lo <= v <= hi /\ n = v
  | None => n = default
  end.

(** A table that may be absent: [P] of the table, or [Q]. *)
Definition optional_table (table : view) (key : string) (P : view -> Prop) (Q : Prop) : Prop :=
  if present (subscript table key) then P (subscript table key) else Q.

(** A table that must be there. *)
Definition required_table (table : view) (key : string) (P : view -> Prop) : Prop :=
  present (subscript table key) = true /\ P (subscript table key).

Definition log_spec (node : view) (c : LogConfig) : Prop :=
  match as_string (subscript node SEVERITY_PARAMETER) with
  | Some s => s ∈ SEVERITIES /\ severity c = s
  | None => severity c = "error"
  end.

Definition messages_spec (node : view) (c : MessagesConfig) : Prop :=
  match mtype c with
  | JSON => string_at node "type" "json"
  | FLATBUFFERS => string_at node "type" "flatbuffers"
  end.

Definition postgres_spec (node : view) (c : PostgresConfig) : Prop :=
  string_at node "host" (pg_host c) /\ pg_host c <> "" /\
  integer_or node "port" 1 65535 5432 (pg_port c) /\
  string_at node "database" (pg_database c) /\ pg_database c <> "" /\
  string_at node "user" (pg_user c) /\ pg_user c <> "" /\
  string_at node "password" (pg_password c).

Definition redis_spec (node : view) (c : RedisConfig) : Prop :=
  string_at node "host" (redis_host c) /\ redis_host c <> "" /\
  integer_or node "port" 1 65535 6379 (redis_port c) /\
  string_at node "user" (redis_user c) /\ redis_user c <> "" /\
  string_at node "password" (redis_password c).

Lemma nonempty_string_iff v e s :
  nonempty_string v e = Value s <-> as_string v = Some s /\ s <> "".
Proof.
  unfold nonempty_string, str_empty. destruct (as_string v) as [s'|]; [|split; [done|by intros []]].
  rewrite throw_if_value, bool_decide_eq_false, mret_value.
  split; intros [? ?]; split; congruence.
Qed.

Lemma any_string_iff v e s : any_string v e = Value s <-> as_string v = Some s.
Proof.
  unfold any_string. destruct (as_string v); [|done]. rewrite mret_value. split; congruence.
Qed.

(** Parsing an integer into a [w]-bit unsigned field whose range check leaves nothing to truncate. *)
Lemma ranged_iff w lo hi v e n :
  0 <= lo -> hi < 2 ^ w ->
  (throw_if ((v <? lo) || (hi <? v)) e ;; mret (wrap w v)) = Value n <-> lo <= v <= hi /\ n = v.
Proof.
  intros. rewrite throw_if_value, mret_value. split.
  - intros [Hv <-]. split; [lia|]. apply wrap_small. lia.
  - intros [Hv ->]. split; [lia|]. apply wrap_small. lia.
Qed.

Lemma integer_or_iff w node key lo hi d e n :
  0 <= lo -> hi < 2 ^ w ->
  match as_integer (subscript node key) with
  | Some v => throw_if ((v <? lo) || (hi <? v)) (e v) ;; mret (wrap w v)
  | None => mret d
  end = Value n <-> integer_or node key lo hi d n.
Proof.
  intros. unfold integer_or. destruct (as_integer _) as [v|]; [by apply ranged_iff|].
  rewrite mret_value. split; congruence.
Qed.

Lemma integer_at_iff w node key lo hi e1 e n :
  0 <= lo -> hi < 2 ^ w ->
  match as_integer (subscript node key) with
  | Some v => throw_if ((v <? lo) || (hi <? v)) (e v) ;; mret (wrap w v)
  | None => Throw e1
  end = Value n <-> integer_at node key lo hi n.
Proof.
  intros. unfold integer_at. destruct (as_integer _) as [v|]; [|split; [done|by intros [? _]]].
  rewrite ranged_iff by done. split; [by intros [? ->]|by intros [[= ->] ?]].
Qed.

Lemma storage_port_iff node key d w n :
  storage_port (subscript node key) d w = Value n <-> integer_or node key 1 65535 d n.
Proof. by apply integer_or_iff. Qed.

Lemma parseLogConfig_iff node c : parseLogConfig node = Value c <-> log_spec node c.
Proof.
  unfold parseLogConfig, log_spec, default_LogConfig. destruct c as [l]. simpl.
  destruct (as_string _) as [s|]; rewrite ?throw_if_value, mret_value.
  - rewrite negb_false_iff, bool_decide_eq_true. split; intros [? ?]; split; congruence.
  - split; congruence.
Qed.

Lemma parseMessagesConfig_iff node c : parseMessagesConfig node = Value c <-> messages_spec node c.
Proof.
  unfold parseMessagesConfig, messages_spec, string_at. rewrite bind_value.
  setoid_rewrite nonempty_string_iff. split.
  - intros (t & [Ht _] & Hc). case_decide; [|case_decide; [|done]].
    all: injection Hc as <-; by subst t.
  - destruct c as [[]]; simpl; intros H; (eexists; split; [split; [exact H|done]|done]).
Qed.

Lemma parsePostgresConfig_iff node c : parsePostgresConfig node = Value c <-> postgres_spec node c.
Proof.
  unfold parsePostgresConfig, postgres_spec, string_at.
  repeat setoid_rewrite bind_value. setoid_rewrite nonempty_string_iff.
  setoid_rewrite any_string_iff. setoid_rewrite storage_port_iff.
  destruct c as [h p d u w]. cbn. split.
  - intros (? & [? ?] & ? & ? & ? & [? ?] & ? & [? ?] & ? & ? & [= -> -> -> -> ->]). by split_and!.
  - intros (? & ? & ? & ? & ? & ? & ? & ?). repeat (eexists; split; [by try split|]). done.
Qed.

Lemma parseRedisConfig_iff node c : parseRedisConfig node = Value c <-> redis_spec node c.
Proof.
  unfold parseRedisConfig, redis_spec, string_at.
  repeat setoid_rewrite bind_value. setoid_rewrite nonempty_string_iff.
  setoid_rewrite any_string_iff. setoid_rewrite storage_port_iff.
  destruct c as [h p u w]. cbn. split.
  - intros (? & [? ?] & ? & ? & ? & [? ?] & ? & ? & [= -> -> -> ->]). by split_and!.
  - intros (? & ? & ? & ? & ? & ?). repeat (eexists; split; [by try split|]). done.
Qed.

Lemma parsers_defined (node : view) :
  defined (parseLogConfig node) /\ defined (parseMessagesConfig node) /\
  defined (parsePostgresConfig node) /\ defined (parseRedisConfig node).
Proof.
  unfold parseLogConfig, parseMessagesConfig, parsePostgresConfig, parseRedisConfig,
    nonempty_string, any_string, storage_port.
  split_and!; solve_defined.
Qed.

Lemma parseLogConfig_defined (node : view) : defined (parseLogConfig node).
Proof. apply parsers_defined. Qed.
Lemma parseMessagesConfig_defined (node : view) : defined (parseMessagesConfig node).
Proof. apply parsers_defined. Qed.
Lemma parsePostgresConfig_defined (node : view) : defined (parsePostgresConfig node).
Proof. apply parsers_defined. Qed.
Lemma parseRedisConfig_defined (node : view) : defined (parseRedisConfig node).
Proof. apply parsers_defined. Qed.

(** [try { fill(config, toml::parse_file(path)); } catch (...) { return false; } return true;] *)
Lemma config_file_iff `{!TomlFile view} {S} (fill : view -> prog S unit) filePath c0 :
  (forall table, safe (fill table)) ->
  let parse := try_catch
    (tomlTable ← lift (of_sum (parse_file filePath)); fill tomlTable ;; mret true)
    (fun _ => mret false) in
  (exists b c, parse c0 = (Value b, c)) /\
  forall c, parse c0 = (Value true, c) <->
            exists table, parse_file filePath = inr table /\ fill table c0 = (Value tt, c).
Proof.
  intros Hfill. cbv zeta. unfold try_catch. set (m := lift _ ≫= _). split.
  - assert (Hs : safe m) by (unfold m; solve_defined). specialize (Hs c0).
    destruct (m c0) as [[b|e|] c]; [by exists b, c|by exists false, c|done].
  - intros c. split.
    + intros H. destruct (m c0) as [[b|e|] c'] eqn:E; [|done|done]. unfold m in E.
      injection H as -> ->. apply prog_bind_value in E as (table & s1 & Ht & E).
      apply prog_lift_value in Ht as [Ht%of_sum_value ->].
      apply prog_bind_value in E as ([] & s2 & Hf & E). injection E as <-. by exists table.
    + intros (table & Ht & Hf). assert (m c0 = (Value true, c)) as ->; [|done].
      unfold m. rewrite Ht. apply prog_bind_value. exists table, c0. split; [done|]. by bind_at c.
Qed.

(** [if (node) { config.field = parse(node); }] *)
Lemma optional_step {S A} (node : view) (p : view -> outcome A) (store : A -> S -> S) s s' u :
  (if present node then c ← lift (p node); modify (store c) else mret tt) s = (Value u, s') <->
  if present node then exists c, p node = Value c /\ s' = store c s else s' = s.
Proof.
  destruct (present node).
  - rewrite prog_bind_value. setoid_rewrite prog_lift_value. unfold modify. split.
    + intros (c & s1 & [Hc ->] & H). exists c. split; [done|by inversion H].
    + intros (c & Hc & ->). exists c, s. split; [done|]. by destruct u.
  - split; [by intros [= _ ->]|intros ->]. by destruct u.
Qed.

(** [if (!node) { throw e; } config.field = parse(node);] *)
Lemma required_step {S A} (node : view) e (p : view -> outcome A) (store : A -> S -> S) s s' u :
  (if negb (present node) then throw e else c ← lift (p node); modify (store c)) s = (Value u, s')
  <-> present node = true /\ exists c, p node = Value c /\ s' = store c s.
Proof.
  pose proof (optional_step node p store s s' u) as H.
  destruct (present node); simpl in *; [|split; [done|by intros [? _]]].
  rewrite H. naive_solver.
Qed.

(** [if (!postgres && !redis) { throw e; }] *)
Lemma storage_check {S A B} (f : S -> option A) (g : S -> option B) e s s' u :
  (p ← gets f; r ← gets g;
   if negb (bool_decide (is_Some p)) && negb (bool_decide (is_Some r)) then throw e else mret tt) s
  = (Value u, s') <-> s' = s /\ (is_Some (f s) \/ is_Some (g s)).
Proof.
  unfold mbind, prog_bind, gets. destruct u.
  destruct (f s), (g s); cbn;
    try (split; [by intros [= ->]; split; [done|eauto]|by intros [-> _]]).
  split; [done|]. by intros [_ [[? ?]|[? ?]]].
Qed.
End parse.

#[export] Hint Resolve parseLogConfig_defined parseMessagesConfig_defined
  parsePostgresConfig_defined parseRedisConfig_defined : defined.

(** ** The connection string

    libpq reads a connection string as fields [keyword=value] between spaces. The code puts the
    values in as they are. *)

Definition spaceless (s : string) : Prop := space ∉ chars s.

Definition spaceless_config (c : PostgresConfig) : Prop :=
  spaceless (pg_host c) /\ spaceless (pg_database c) /\ spaceless (pg_user c) /\
  spaceless (pg_password c).

Definition connection_fields (c : PostgresConfig) : list string :=
  ["host=" +:+ pg_host c; "port=" +:+ dec (pg_port c); "dbname=" +:+ pg_database c;
   "user=" +:+ pg_user c; "password=" +:+ pg_password c].

Lemma spaceless_app s t : spaceless s -> spaceless t -> spaceless (s +:+ t).
Proof. unfold spaceless. rewrite chars_app. set_solver. Qed.

Lemma spaceless_dec n : 0 <= n -> spaceless (dec n).
Proof. intros. by apply dec_no_char. Qed.

Lemma connectionString_fields c :
  0 <= pg_port c -> spaceless_config c ->
  split_on space (chars (connectionString c)) = chars <$> connection_fields c.
Proof.
  intros Hp (Hh & Hd & Hu & Hw).
  assert (Hf : forall a b rest, space ∉ chars a -> spaceless b ->
            split_on space (chars (a +:+ b +:+ " " +:+ rest)) =
            chars (a +:+ b) :: split_on space (chars rest)).
  { intros a b rest Ha Hb. rewrite !chars_app, app_assoc. apply split_on_app. set_solver. }
  unfold connectionString. rewrite !Hf by (try char_absent; by try apply spaceless_dec).
  rewrite split_on_none; [done|]. apply spaceless_app; [unfold spaceless; char_absent|done].
Qed.

(** C38: without spaces in its parts a connection string denotes one configuration: its fields are
    the five keyword-value pairs, and two configurations with the same string are equal. *)
Theorem connectionString_exact (c1 c2 : PostgresConfig) :
  0 <= pg_port c1 -> 0 <= pg_port c2 -> spaceless_config c1 -> spaceless_config c2 ->
  (of_chars <$> split_on space (chars (connectionString c1))) = connection_fields c1 /\
  (connectionString c1 = connectionString c2 -> c1 = c2).
Proof.
  intros Hp1 Hp2 Hc1 Hc2. split.
  - rewrite connectionString_fields, <-list_fmap_compose by done.
    unfold connection_fields. simpl. by rewrite !of_chars_chars.
  - intros Heq. pose proof (connectionString_fields c1 Hp1 Hc1) as H1.
    rewrite Heq, connectionString_fields in H1 by done.
    destruct c1, c2. unfold connection_fields in H1. cbn [fmap list_fmap] in H1. simpl in *.
    rewrite !chars_app in H1. injection H1 as H1 H2 H3 H4 H5.
    apply chars_inj in H1, H2, H3, H4, H5. apply dec_inj in H2; [|done..]. congruence.
Qed.

Definition quiet_config : PostgresConfig := mkPostgresConfig "db" 5432 "test" "user" "123".

Lemma connectionString_exact_witness :
  (of_chars <$> split_on space (chars (connectionString quiet_config))) =
    connection_fields quiet_config /\
  (connectionString quiet_config = connectionString quiet_config -> quiet_config = quiet_config).
Proof.
  apply (connectionString_exact quiet_config quiet_config);
    [done|done|unfold spaceless_config, spaceless; split_and!; char_absent..].
Defined.

(** A view that is a small tree of tables, for the concrete instances below. *)
Inductive toml_value : Type :=
| TString (s : string)
| TInteger (n : Z)
| TTable (kvs : list (string * toml_value))
| TNone.

#[export] Instance toml_value_toml : Toml toml_value := {|
  subscript v key :=
    match v with
    | TTable kvs => match list_find (fun kv => kv.1 = key) kvs with
                    | Some (_, kv) => kv.2
                    | None => TNone
                    end
    | _ => TNone
    end;
  as_string v := match v with TString s => Some s | _ => None end;
  as_integer v := match v with TInteger n => Some n | _ => None end;
  present v := match v with TNone => false | _ => true end
|}.

Definition pg_table (user password : string) : toml_value :=
  TTable [("host", TString "db"); ("database", TString "test"); ("user", TString user);
          ("password", TString password)].

(** With a space in a part the string is ambiguous: two accepted configurations with different
    users and passwords have the same connection string. *)
Theorem connectionString_ambiguous :
  exists c1 c2,
    parsePostgresConfig (pg_table "user password=a" "b") = Value c1 /\
    parsePostgresConfig (pg_table "user" "a password=b") = Value c2 /\
    pg_user c1 <> pg_user c2 /\ pg_password c1 <> pg_password c2 /\
    connectionString c1 = connectionString c2.
Proof. do 2 eexists. split; [vm_compute; reflexivity|]. split; [vm_compute; reflexivity|]. done. Qed.
