(* ===== verification/Log.v ===== *)
(** * Logging set-up (common/utils/log.cpp)

    Boost.Log is outside the repository; what the code computes for it is the severity filter. *)

From S2P Require Import Prelude CommonConfig.

(** [boost::log::trivial::severity_level], the least severe first. *)
Inductive severity_level : Type := trace | debug | info | warning | error | fatal.

#[export] Instance severity_level_eq_dec : EqDecision severity_level.
Proof. solve_decision. Defined.

(** [severityMap], a [std::map] with distinct keys. *)
Definition severityMap : list (string * severity_level) :=
  [("trace", trace); ("debug", debug); ("info", info); ("warning", warning); ("error", error);
   ("fatal", fatal)].

Definition stringToBoostSeverity (severity : string) : option severity_level :=
  snd <$> (snd <$> list_find (fun kv => kv.1 = severity) severityMap).

(** The logging core: the filter [severity >= level], unset at first, and the number of console
    sinks. *)
Record log_core : Type := mkLogCore { filter_level : option severity_level; sinks : nat }.

(** [initLog]: the new core, and whether the unknown-severity warning is logged. *)
Definition initLog (config : LogConfig) (core : log_core) : bool * log_core :=
  match stringToBoostSeverity (severity config) with
  | None => (true, mkLogCore (filter_level core) (S (sinks core)))
  | Some level => (false, mkLogCore (Some level) (S (sinks core)))
  end.

Lemma known_severities s : s ∈ SEVERITIES <-> is_Some (stringToBoostSeverity s).
Proof.
  split.
  - unfold SEVERITIES. rewrite !elem_of_cons, elem_of_nil.
    intros H. destruct_or?; subst; try done; by eexists.
  - unfold stringToBoostSeverity. intros [l Hl].
    destruct (list_find _ severityMap) as [[i [k v]]|] eqn:E; [|done].
    apply list_find_Some in E as (Hi & Hk & _). simpl in Hk. subst.
    repeat (destruct i as [|i]; [injection Hi as <- <-; set_solver|]). done.
Qed.

(** C39: the parser of the log table and the map of the logger agree: the logger knows every accepted
    severity, so start-up with a parsed configuration always sets the filter and never logs the
    unknown-severity warning. *)
Theorem parsed_severity_known {view} `{!Toml view} (node : view) (c : LogConfig) (core : log_core) :
  parseLogConfig node = Value c ->
  exists level,
    stringToBoostSeverity (severity c) = Some level /\
    initLog c core = (false, mkLogCore (Some level) (S (sinks core))).
Proof.
  intros H%parseLogConfig_iff. unfold log_spec in H.
  assert (severity c ∈ SEVERITIES) as [level Hl]%known_severities.
  { destruct (as_string _); [destruct H; congruence|]. rewrite H. unfold SEVERITIES. set_solver. }
  exists level. unfold initLog. by rewrite Hl.
Qed.

Lemma parsed_severity_known_witness :
  exists level,
    stringToBoostSeverity "info" = Some level /\
    initLog (mkLogConfig "info") (mkLogCore None 0) = (false, mkLogCore (Some level) 1).
Proof.
  exact (parsed_severity_known (TTable [("severity", TString "info")]) (mkLogConfig "info")
           (mkLogCore None 0) eq_refl).
Defined.
