(* ===== verification/ResolveHost.v ===== *)
(** * Host name resolution (common/utils/resolve_host.cpp)

    [getaddrinfo], [freeaddrinfo] and [inet_ntoa] are functions of the C library: methods of
    [Netdb], over the state [W] of the system. An address is the bytes of its [sockaddr]. *)

From S2P Require Import Prelude.

(** The bytes of a [sockaddr], of whatever family. *)
Abbreviation sockaddr := (list Z).

Inductive ai_family : Type := AF_UNSPEC | AF_INET | AF_INET6.
Inductive ai_socktype : Type := SOCK_STREAM | SOCK_DGRAM.

Class Netdb (W : Type) : Type := {
  (** host, service and the two fields set in the hints; [None] for a code other than 0, else
      [ai_addr] of the entries of the list, [None] for a null pointer *)
  getaddrinfo : string -> string -> ai_family -> ai_socktype -> W ->
                option (list (option sockaddr)) * W;
  freeaddrinfo : W -> W;
  (** the text of the four bytes of an [in_addr] *)
  inet_ntoa : list Z -> string
}.

(** [reinterpret_cast<sockaddr_in*>(p)->sin_addr]: in [sockaddr_in] two bytes of family and two of
    port come before the four bytes of the address. *)
Definition sin_addr (a : sockaddr) : list Z := take 4 (drop 4 a).

Section resolve.
Context {W : Type} `{!Netdb W}.

(** The loop over the results: the first address that is not null. *)
Fixpoint first_address (results : list (option sockaddr)) : string :=
  match results with
  | [] => ""
  | None :: results' => first_address results'
  | Some a :: _ => inet_ntoa (sin_addr a)
  end.

Definition resolveHost (hostname : string) (w : W) : string * W :=
  let '(results, w1) := getaddrinfo (c_str hostname) "http" AF_UNSPEC SOCK_STREAM w in
  match results with
  | None => ("", w1)
  | Some l => (first_address l, freeaddrinfo w1)
  end.

(** An IPv4 address: family, port, address, padding. *)
Definition is_sockaddr_in (a : sockaddr) (address : list Z) : Prop :=
  exists family port zero,
    length family = 2%nat /\ length port = 2%nat /\ length address = 4%nat /\
    a = family ++ port ++ address ++ zero.

(** An IPv6 address: family, port, flow information, address, scope. *)
Definition is_sockaddr_in6 (a : sockaddr) (flowinfo address : list Z) : Prop :=
  exists family port scope,
    length family = 2%nat /\ length port = 2%nat /\ length flowinfo = 4%nat /\
    length address = 16%nat /\ a = family ++ port ++ flowinfo ++ address ++ scope.

Lemma first_address_skips n a rest :
  first_address (replicate n None ++ Some a :: rest) = inet_ntoa (sin_addr a).
Proof. by induction n. Qed.

Lemma sin_addr_at prefix address rest :
  length prefix = 4%nat -> length address = 4%nat -> sin_addr (prefix ++ address ++ rest) = address.
Proof. intros Hp Ha. unfold sin_addr. by rewrite drop_app_length', take_app_length'. Qed.

(** The result is the text of the first address when that is an IPv4 address; when it is an
    IPv6 address the result is the text of its flow information, whatever the address is. *)
Theorem resolveHost_first (hostname : string) (w w1 : W) n a rest :
  getaddrinfo (c_str hostname) "http" AF_UNSPEC SOCK_STREAM w =
    (Some (replicate n None ++ Some a :: rest), w1) ->
  (forall address, is_sockaddr_in a address -> (resolveHost hostname w).1 = inet_ntoa address) /\
  (forall flowinfo address,
     is_sockaddr_in6 a flowinfo address -> (resolveHost hostname w).1 = inet_ntoa flowinfo).
Proof.
  intros H. unfold resolveHost. rewrite H, first_address_skips. simpl.
  split.
  - intros address (f & p & z & Hf & Hp & Ha & ->). f_equal.
    rewrite (app_assoc f). apply sin_addr_at; [rewrite length_app; lia|done].
  - intros fl address (f & p & sc & Hf & Hp & Hfl & _ & ->). f_equal.
    rewrite (app_assoc f). apply sin_addr_at; [rewrite length_app; lia|done].
Qed.
End resolve.

(** A resolver that answers the IPv6 loopback address. *)
Definition loopback6 : sockaddr := [10; 0; 0; 80] ++ [0; 0; 0; 0] ++ (replicate 15 0 ++ [1]) ++ [0; 0; 0; 0].

#[local] Instance loopback_netdb : Netdb unit := {|
  getaddrinfo _ _ _ _ w := (Some [Some loopback6], w);
  freeaddrinfo w := w;
  inet_ntoa bs := foldr (fun b s => dec b +:+ "." +:+ s) "" bs
|}.

Lemma resolveHost_first_witness :
  is_sockaddr_in6 loopback6 [0; 0; 0; 0] (replicate 15 0 ++ [1]) /\
  (resolveHost "localhost" tt).1 = inet_ntoa [0; 0; 0; 0].
Proof.
  assert (is_sockaddr_in6 loopback6 [0; 0; 0; 0] (replicate 15 0 ++ [1])) as H.
  { exists [10; 0], [0; 80], [0; 0; 0; 0]. by split_and!. }
  split; [exact H|].
  exact (proj2 (resolveHost_first "localhost" tt tt 0 loopback6 [] eq_refl) _ _ H).
Defined.
