(* ===== verification/FrontConfig.v ===== *)
(** * Configuration of the front end (gwfront/src/utils/config) *)

From S2P Require Import Prelude CommonConfig.

Definition HTTP_CONFIG_TABLE : string := "http".
Definition LOG_CONFIG_TABLE : string := "log".
Definition MESSAGES_CONFIG_TABLE : string := "messages".
Definition POSTGRES_CONFIG_TABLE : string := "postgres".
Definition REDIS_CONFIG_TABLE : string := "redis".

Definition REQUEST_TIMEOUT_PARAMETER : string := "request_timeout".
Definition THREADS_PARAMETER : string := "threads".

Definition MIN_THREADS : Z := 1.
Definition MAX_THREADS : Z := 16384.
Definition MIN_TIMEOUT : Z := 1.
Definition MAX_TIMEOUT : Z := 600.

(** [struct HttpServerConfig], three [uint16_t]. *)
Record HttpServerConfig : Type := mkHttpServerConfig {
  http_port : Z;
  http_threads : Z;
  http_requestTimeout : Z
}.

Record Config : Type := mkConfig {
  log : LogConfig;
  messages : MessagesConfig;
  http : HttpServerConfig;
  postgres : option PostgresConfig;
  redis : option RedisConfig
}.

(** [Config config;] in [main]: [messages] and the port and threads of [http] are not initialised,
    they hold the arbitrary values given here. *)
Definition initial_Config (m : MessagesConfig) (port threads : Z) : Config :=
  mkConfig default_LogConfig m (mkHttpServerConfig port threads 10) None None.

Section parse.
Context {view : Type} `{!Toml view}.

Definition parseHttpServerConfig (node : view) : outcome HttpServerConfig :=
  port ← match as_integer (subscript node PORT_PARAMETER) with
         | None => Throw (invalid_argument "Http server config has no proper port parameter")
         | Some portValue =>
             throw_if ((portValue <? MIN_PORT) || (MAX_PORT <? portValue))
               (invalid_argument ("Http server config has wrong port value: " +:+
                                  dec_signed portValue)) ;;
             mret (u16 portValue)
         end;
  threads ← match as_integer (subscript node THREADS_PARAMETER) with
            | None => Throw (invalid_argument "Http server config has no proper threads parameter")
            | Some threadsValue =>
                throw_if ((threadsValue <? MIN_THREADS) || (MAX_THREADS <? threadsValue))
                  (invalid_argument ("Http server config has wrong threads value: " +:+
                                     dec_signed threadsValue)) ;;
                mret (u16 threadsValue)
            end;
  timeout ← match as_integer (subscript node REQUEST_TIMEOUT_PARAMETER) with
            | None => mret 10
            | Some timeoutValue =>
                throw_if ((timeoutValue <? MIN_TIMEOUT) || (MAX_TIMEOUT <? timeoutValue))
                  (invalid_argument ("Http server config has wrong request timeout value: " +:+
                                     dec_signed timeoutValue)) ;;
                mret (u16 timeoutValue)
            end;
  mret (mkHttpServerConfig port threads timeout).

Definition set_log c (s : Config) := mkConfig c (messages s) (http s) (postgres s) (redis s).
Definition set_messages c (s : Config) := mkConfig (log s) c (http s) (postgres s) (redis s).
Definition set_http c (s : Config) := mkConfig (log s) (messages s) c (postgres s) (redis s).
Definition set_postgres c (s : Config) := mkConfig (log s) (messages s) (http s) (Some c) (redis s).
Definition set_redis c (s : Config) := mkConfig (log s) (messages s) (http s) (postgres s) (Some c).

Definition fillConfig (table : view) : prog Config unit :=
  (let logConfigNode := subscript table LOG_CONFIG_TABLE in
   if present logConfigNode
   then c ← lift (parseLogConfig logConfigNode); modify (set_log c)
   else mret tt) ;;
  (let messagesConfigNode := subscript table MESSAGES_CONFIG_TABLE in
   if negb (present messagesConfigNode)
   then throw (invalid_argument "Config file has no messages config table")
   else c ← lift (parseMessagesConfig messagesConfigNode); modify (set_messages c)) ;;
  (let httpServerConfigNode := subscript table HTTP_CONFIG_TABLE in
   if negb (present httpServerConfigNode)
   then throw (invalid_argument "Config file has no http server config table")
   else c ← lift (parseHttpServerConfig httpServerConfigNode); modify (set_http c)) ;;
  (let postgresConfigNode := subscript table POSTGRES_CONFIG_TABLE in
   if present postgresConfigNode
   then c ← lift (parsePostgresConfig postgresConfigNode); modify (set_postgres c)
   else mret tt) ;;
  (let redisConfigNode := subscript table REDIS_CONFIG_TABLE in
   if present redisConfigNode
   then c ← lift (parseRedisConfig redisConfigNode); modify (set_redis c)
   else mret tt) ;;
  p ← gets postgres;
  r ← gets redis;
  if negb (bool_decide (is_Some p)) && negb (bool_decide (is_Some r))
  then throw (invalid_argument "Config file has no storage config table")
  else mret tt.

Definition parseConfig `{!TomlFile view} (filePath : string) : prog Config bool :=
  try_catch
    (tomlTable ← lift (of_sum (parse_file filePath));
     fillConfig tomlTable ;;
     mret true)
    (fun _ => mret false).

(** ** What a successful parse means *)

Definition http_spec (node : view) (c : HttpServerConfig) : Prop :=
  integer_at node "port" 1 65535 (http_port c) /\
  integer_at node "threads" 1 16384 (http_threads c) /\
  integer_or node "request_timeout" 1 600 10 (http_requestTimeout c).

(** The five tables of the file, and what [c] has from [c0] where a table is absent. *)
Definition front_spec (table : view) (c0 c : Config) : Prop :=
  optional_table table "log" (fun node => log_spec node (log c)) (log c = log c0) /\
  required_table table "messages" (fun node => messages_spec node (messages c)) /\
  required_table table "http" (fun node => http_spec node (http c)) /\
  optional_table table "postgres"
    (fun node => exists p, postgres c = Some p /\ postgres_spec node p) (postgres c = postgres c0) /\
  optional_table table "redis"
    (fun node => exists r, redis c = Some r /\ redis_spec node r) (redis c = redis c0) /\
  (is_Some (postgres c) \/ is_Some (redis c)).

Lemma parseHttpServerConfig_iff node c :
  parseHttpServerConfig node = Value c <-> http_spec node c.
Proof.
  unfold parseHttpServerConfig, http_spec. repeat setoid_rewrite bind_value.
  setoid_rewrite mret_value. destruct c as [p t r]. cbn [http_port http_threads http_requestTimeout].
  split.
  - intros (? & Hp & ? & Ht & ? & Hr & [= -> -> ->]).
    apply integer_at_iff in Hp, Ht; [|done..]. by apply integer_or_iff in Hr.
  - intros (Hp & Ht & Hr). exists p. split; [by apply integer_at_iff|].
    exists t. split; [by apply integer_at_iff|]. exists r. split; [by apply integer_or_iff|done].
Qed.

Lemma front_fillConfig_sound table c0 c u : fillConfig table c0 = (Value u, c) -> front_spec table c0 c.
Proof.
  unfold fillConfig, front_spec, optional_table, required_table. intros H.
  bind_in H Hl. bind_in H Hm. bind_in H Hh. bind_in H Hp. bind_in H Hr.
  apply storage_check in H as [-> Hs]. apply optional_step in Hl, Hp, Hr.
  apply required_step in Hm as (Hm & m & Hpm & ->), Hh as (Hh & h & Hph & ->).
  rewrite parseMessagesConfig_iff in Hpm. rewrite parseHttpServerConfig_iff in Hph.
  unfold POSTGRES_CONFIG_TABLE, REDIS_CONFIG_TABLE, LOG_CONFIG_TABLE in *.
  split_and!; try done; repeat case_match; destruct_and?; naive_solver
    (rewrite <-?parseLogConfig_iff, <-?parsePostgresConfig_iff, <-?parseRedisConfig_iff; eauto).
Qed.

Lemma front_fillConfig_complete table c0 c :
  front_spec table c0 c -> fillConfig table c0 = (Value tt, c).
Proof.
  unfold fillConfig, front_spec, optional_table, required_table.
  intros (Hl & [Hm Hms] & [Hh Hhs] & Hp & Hr & Hs). destruct c as [l m h p r].
  cbn [log messages http postgres redis] in *.
  bind_at (mkConfig l (messages c0) (http c0) (postgres c0) (redis c0)).
  { apply optional_step. unfold LOG_CONFIG_TABLE. destruct (present (subscript table "log")); [|by subst; destruct c0].
    exists l. by rewrite parseLogConfig_iff. }
  bind_at (mkConfig l m (http c0) (postgres c0) (redis c0)).
  { apply required_step. split; [done|]. exists m. by rewrite parseMessagesConfig_iff. }
  bind_at (mkConfig l m h (postgres c0) (redis c0)).
  { apply required_step. split; [done|]. exists h. by rewrite parseHttpServerConfig_iff. }
  bind_at (mkConfig l m h p (redis c0)).
  { apply optional_step. unfold POSTGRES_CONFIG_TABLE. destruct (present (subscript table "postgres")); [|by subst].
    destruct Hp as (p' & -> & Hp). exists p'. by rewrite parsePostgresConfig_iff. }
  bind_at (mkConfig l m h p r).
  { apply optional_step. unfold REDIS_CONFIG_TABLE. destruct (present (subscript table "redis")); [|by subst].
    destruct Hr as (r' & -> & Hr). exists r'. by rewrite parseRedisConfig_iff. }
  by apply storage_check.
Qed.

Lemma front_fillConfig_safe table : safe (fillConfig table).
Proof. unfold fillConfig, parseHttpServerConfig. solve_defined. Qed.

(** C34: parsing the configuration file always returns. It returns true exactly when the file is
    TOML, the messages and http tables are there, every table that is there is valid (ports within
    1..65535, threads within 1..16384, timeout within 1..600 or 10, a known severity, non-empty
    hosts, users and database) and a storage is configured; the configuration then has exactly the
    values of the file, none truncated, and the initial ones for absent tables. *)
Theorem front_parseConfig_exact `{!TomlFile view} (filePath : string) (c0 : Config) :
  (exists b c, parseConfig filePath c0 = (Value b, c)) /\
  forall c, parseConfig filePath c0 = (Value true, c) <->
            exists table, parse_file filePath = inr table /\ front_spec table c0 c.
Proof.
  destruct (config_file_iff fillConfig filePath c0 front_fillConfig_safe) as [Ht Hc].
  split; [exact Ht|]. intros c. unfold parseConfig. rewrite Hc.
  split; intros (table & Hp & Hf); exists table; split; try done.
  - by eapply front_fillConfig_sound.
  - by apply front_fillConfig_complete.
Qed.
End parse.

(** A valid configuration file with a PostgreSQL storage. *)
Definition sample_table : toml_value :=
  TTable [("log", TTable [("severity", TString "info")]);
          ("messages", TTable [("type", TString "flatbuffers")]);
          ("http", TTable [("port", TInteger 8080); ("threads", TInteger 16);
                           ("request_timeout", TInteger 3)]);
          ("postgres", pg_table "user" "123")].

#[local] Instance sample_file : TomlFile toml_value := fun _ => inr sample_table.

Example parseConfig_sample :
  parseConfig "gwfront.toml" (initial_Config (mkMessagesConfig JSON) 0 0) =
  (Value true,
   mkConfig (mkLogConfig "info") (mkMessagesConfig FLATBUFFERS) (mkHttpServerConfig 8080 16 3)
     (Some (mkPostgresConfig "db" 5432 "test" "user" "123")) None).
Proof. vm_compute. reflexivity. Qed.
