(* ===== verification/BackConfig.v ===== *)
(** * Configuration of the back end (gwback/src/utils/config) *)

From S2P Require Import Prelude CommonConfig.

Definition CONSUMER_CONFIG_TABLE : string := "consumer".
Definition LOG_CONFIG_TABLE : string := "log".
Definition POSTGRES_CONFIG_TABLE : string := "postgres".
Definition PRODUCER_CONFIG_TABLE : string := "producer".
Definition REDIS_CONFIG_TABLE : string := "redis".

Definition CHUNK_SIZE_PARAMETER : string := "chunk_size".
Definition OUTPUT_FOLDER_PARAMETER : string := "output_folder".

Definition MIN_CHUNK : Z := 1.
Definition MAX_CHUNK : Z := 1000000.

(** [struct ConsumerConfig], with a [uint32_t] chunk size. *)
Record ConsumerConfig : Type := mkConsumerConfig { chunkSize : Z; outputFolder : string }.

Record ProducerConfig : Type := mkProducerConfig { producer_chunkSize : Z }.

Record Config : Type := mkConfig {
  log : LogConfig;
  postgres : option PostgresConfig;
  redis : option RedisConfig;
  consumer : ConsumerConfig;
  producer : ProducerConfig
}.

(** [Config config;] in [main] *)
Definition initial_Config : Config :=
  mkConfig default_LogConfig None None (mkConsumerConfig 1000 "") (mkProducerConfig 1000).

Section parse.
Context {view : Type} `{!Toml view}.

Definition parseConsumerConfig (node : view) : outcome ConsumerConfig :=
  size ← match as_integer (subscript node CHUNK_SIZE_PARAMETER) with
         | Some chunkSizeValue =>
             throw_if ((chunkSizeValue <? MIN_CHUNK) || (MAX_CHUNK <? chunkSizeValue))
               (invalid_argument ("Consumer config has wrong chunk size value: " +:+
                                  dec_signed chunkSizeValue)) ;;
             mret (u32 chunkSizeValue)
         | None => mret 1000
         end;
  folder ← nonempty_string (subscript node OUTPUT_FOLDER_PARAMETER)
    (invalid_argument "Consumer config has no proper output folder parameter");
  mret (mkConsumerConfig size folder).

Definition parseProducerConfig (node : view) : outcome ProducerConfig :=
  size ← match as_integer (subscript node CHUNK_SIZE_PARAMETER) with
         | Some chunkSizeValue =>
             throw_if ((chunkSizeValue <? MIN_CHUNK) || (MAX_CHUNK <? chunkSizeValue))
               (invalid_argument ("Consumer config has wrong chunk size value: " +:+
                                  dec_signed chunkSizeValue)) ;;
             mret (u32 chunkSizeValue)
         | None => mret 1000
         end;
  mret (mkProducerConfig size).

Definition set_log c (s : Config) := mkConfig c (postgres s) (redis s) (consumer s) (producer s).
Definition set_postgres c (s : Config) :=
  mkConfig (log s) (Some c) (redis s) (consumer s) (producer s).
Definition set_redis c (s : Config) :=
  mkConfig (log s) (postgres s) (Some c) (consumer s) (producer s).
Definition set_consumer c (s : Config) := mkConfig (log s) (postgres s) (redis s) c (producer s).
Definition set_producer c (s : Config) := mkConfig (log s) (postgres s) (redis s) (consumer s) c.

Definition fillConfig (table : view) : prog Config unit :=
  (let logConfigNode := subscript table LOG_CONFIG_TABLE in
   if present logConfigNode
   then c ← lift (parseLogConfig logConfigNode); modify (set_log c)
   else mret tt) ;;
  (let postgresConfigNode := subscript table POSTGRES_CONFIG_TABLE in
   if present postgresConfigNode
   then c ← lift (parsePostgresConfig postgresConfigNode); modify (set_postgres c)
   else mret tt) ;;
  (let redisConfigNode := subscript table REDIS_CONFIG_TABLE in
   if present redisConfigNode
   then c ← lift (parseRedisConfig redisConfigNode); modify (set_redis c)
   else mret tt) ;;
  (p ← gets postgres;
   r ← gets redis;
   if negb (bool_decide (is_Some p)) && negb (bool_decide (is_Some r))
   then throw (invalid_argument "Config file has no storage config table")
   else mret tt) ;;
  (let consumerConfigNode := subscript table CONSUMER_CONFIG_TABLE in
   if negb (present consumerConfigNode)
   then throw (invalid_argument "Config file has no consumer config table")
   else c ← lift (parseConsumerConfig consumerConfigNode); modify (set_consumer c)) ;;
  (let producerConfigNode := subscript table PRODUCER_CONFIG_TABLE in
   if negb (present producerConfigNode)
   then throw (invalid_argument "Config file has no producer config table")
   else c ← lift (parseProducerConfig producerConfigNode); modify (set_producer c)).

Definition parseConfig `{!TomlFile view} (filePath : string) : prog Config bool :=
  try_catch
    (tomlTable ← lift (of_sum (parse_file filePath));
     fillConfig tomlTable ;;
     mret true)
    (fun _ => mret false).

(** ** What a successful parse means *)

Definition consumer_spec (node : view) (c : ConsumerConfig) : Prop :=
  integer_or node "chunk_size" 1 1000000 1000 (chunkSize c) /\
  string_at node "output_folder" (outputFolder c) /\ outputFolder c <> "".

Definition producer_spec (node : view) (c : ProducerConfig) : Prop :=
  integer_or node "chunk_size" 1 1000000 1000 (producer_chunkSize c).

Definition back_spec (table : view) (c0 c : Config) : Prop :=
  optional_table table "log" (fun node => log_spec node (log c)) (log c = log c0) /\
  optional_table table "postgres"
    (fun node => exists p, postgres c = Some p /\ postgres_spec node p) (postgres c = postgres c0) /\
  optional_table table "redis"
    (fun node => exists r, redis c = Some r /\ redis_spec node r) (redis c = redis c0) /\
  (is_Some (postgres c) \/ is_Some (redis c)) /\
  required_table table "consumer" (fun node => consumer_spec node (consumer c)) /\
  required_table table "producer" (fun node => producer_spec node (producer c)).

Lemma parseConsumerConfig_iff node c : parseConsumerConfig node = Value c <-> consumer_spec node c.
Proof.
  unfold parseConsumerConfig, consumer_spec, string_at. repeat setoid_rewrite bind_value.
  setoid_rewrite nonempty_string_iff. setoid_rewrite mret_value. destruct c as [n f]. simpl. split.
  - intros (? & Hn & ? & [? ?] & [= -> ->]). by apply integer_or_iff in Hn.
  - intros (Hn & ? & ?). exists n. split; [by apply integer_or_iff|]. by exists f.
Qed.

Lemma parseProducerConfig_iff node c : parseProducerConfig node = Value c <-> producer_spec node c.
Proof.
  unfold parseProducerConfig, producer_spec. repeat setoid_rewrite bind_value.
  setoid_rewrite mret_value. destruct c as [n]. simpl. split.
  - intros (? & Hn & [= ->]). by apply integer_or_iff in Hn.
  - intros Hn. exists n. split; [by apply integer_or_iff|done].
Qed.

Lemma fillConfig_sound table c0 c u : fillConfig table c0 = (Value u, c) -> back_spec table c0 c.
Proof.
  unfold fillConfig, back_spec, optional_table, required_table. intros H.
  bind_in H Hl. bind_in H Hp. bind_in H Hr. bind_in H Hs. bind_in H Hc.
  apply storage_check in Hs as [-> Hs]. apply optional_step in Hl, Hp, Hr.
  apply required_step in Hc as (Hc & k & Hpk & ->), H as (Hd & d & Hpd & ->).
  rewrite parseConsumerConfig_iff in Hpk. rewrite parseProducerConfig_iff in Hpd.
  unfold POSTGRES_CONFIG_TABLE, REDIS_CONFIG_TABLE, LOG_CONFIG_TABLE in *.
  split_and!; try done; repeat case_match; destruct_and?; naive_solver
    (rewrite <-?parseLogConfig_iff, <-?parsePostgresConfig_iff, <-?parseRedisConfig_iff; eauto).
Qed.

Lemma fillConfig_complete table c0 c :
  back_spec table c0 c -> fillConfig table c0 = (Value tt, c).
Proof.
  unfold fillConfig, back_spec, optional_table, required_table.
  intros (Hl & Hp & Hr & Hs & [Hc Hcs] & [Hd Hds]). destruct c as [l p r k d].
  cbn [log postgres redis consumer producer] in *.
  bind_at (mkConfig l (postgres c0) (redis c0) (consumer c0) (producer c0)).
  { apply optional_step. unfold LOG_CONFIG_TABLE.
    destruct (present (subscript table "log")); [|by subst; destruct c0].
    exists l. by rewrite parseLogConfig_iff. }
  bind_at (mkConfig l p (redis c0) (consumer c0) (producer c0)).
  { apply optional_step. unfold POSTGRES_CONFIG_TABLE.
    destruct (present (subscript table "postgres")); [|by subst].
    destruct Hp as (p' & -> & Hp). exists p'. by rewrite parsePostgresConfig_iff. }
  bind_at (mkConfig l p r (consumer c0) (producer c0)).
  { apply optional_step. unfold REDIS_CONFIG_TABLE.
    destruct (present (subscript table "redis")); [|by subst].
    destruct Hr as (r' & -> & Hr). exists r'. by rewrite parseRedisConfig_iff. }
  bind_at (mkConfig l p r (consumer c0) (producer c0)); [by apply storage_check|].
  bind_at (mkConfig l p r k (producer c0)).
  { apply required_step. split; [done|]. exists k. by rewrite parseConsumerConfig_iff. }
  apply required_step. split; [done|]. exists d. by rewrite parseProducerConfig_iff.
Qed.

Lemma fillConfig_safe table : safe (fillConfig table).
Proof.
  unfold fillConfig, parseConsumerConfig, parseProducerConfig, nonempty_string. solve_defined.
Qed.

(** C33: parsing the configuration file always returns. It returns true exactly when the file is
    TOML, the consumer and producer tables are there, every table that is there is valid (chunk
    sizes within 1..1000000 or 1000, a non-empty output folder) and a storage is configured; the
    configuration then has exactly the values of the file, none truncated. *)
Theorem back_parseConfig_exact `{!TomlFile view} (filePath : string) (c0 : Config) :
  (exists b c, parseConfig filePath c0 = (Value b, c)) /\
  forall c, parseConfig filePath c0 = (Value true, c) <->
            exists table, parse_file filePath = inr table /\ back_spec table c0 c.
Proof.
  destruct (config_file_iff fillConfig filePath c0 fillConfig_safe) as [Ht Hc].
  split; [exact Ht|]. intros c. unfold parseConfig. rewrite Hc.
  split; intros (table & Hp & Hf); exists table; split; try done.
  - by eapply fillConfig_sound.
  - by apply fillConfig_complete.
Qed.
End parse.
