(* ===== verification/ProgramOptions.v ===== *)
(** * Command lines

    Boost.Program_options is not part of the repository: the calls of the two programs are the methods
    of [ProgramOptions], over an arbitrary type [vm] of variable maps. Both programs declare the
    options [help] and [config], the second one required. *)

From S2P Require Import Prelude.

Class ProgramOptions (argv vm : Type) : Type := {
  (** [po::store(po::command_line_parser(argc, argv).options(desc).run(), vm)] *)
  store : argv -> exn + vm;
  (** [vm.count("help")] *)
  count_help : vm -> bool;
  (** [po::notify(vm)], which stores the value of [config] *)
  notify : vm -> exn + string
}.

Inductive exit_code : Type := EXIT_SUCCESS | EXIT_FAILURE.

(** How a program ends: with an exit code, by [std::terminate] after an exception that no handler
    catches, or in undefined behaviour. *)
Inductive ending : Type :=
| Exit (code : exit_code)
| Terminated (e : exn)
| Undefined.

(** A concrete command line for the examples: the value of [config] if it was given. *)
#[export] Instance plain_options : ProgramOptions (option string) (option string) := {|
  store argv := inr argv;
  count_help _ := false;
  notify vm := match vm with
               | Some path => inr path
               | None => inl (std_exception "the option '--config' is required but missing")
               end
|}.
