(* ===== verification/Message.v ===== *)
(** * Messages and the producer interface (gwback/src/message, gwback/src/producer/interface.hpp)

    A message is an id and the bytes of its data. [IProducer] is what the main loop of the back end
    needs from a storage: two operations on the producer's state. [ProducerLaws] is the contract the
    theorems of the loop rely on and the producers fulfil, over the messages the storage holds. *)

From S2P Require Import Prelude.

(** [struct Message]: [id] is a [uint64_t], [data] a [std::vector<uint8_t>]. *)
Record Message : Type := mkMessage { id : Z; data : list Z }.

Abbreviation Messages := (list Message).

#[export] Instance Message_eq_dec : EqDecision Message.
Proof. solve_decision. Defined.

(** The range of the id's type. *)
Definition in_u64 (m : Message) : Prop := 0 <= id m < 2 ^ 64.

(** The order of messages by id. *)
Definition id_lt (m1 m2 : Message) : Prop := id m1 < id m2.

(** [class IProducer]: [getNext] and [markConsumed] over a producer state [P]. *)
Class IProducer (P : Type) : Type := {
  getNext : prog P Messages;
  markConsumed : Messages -> prog P unit
}.

(** What a storage behind a producer promises. [stored p m]: the storage holds the message [m].
    Other clients may add messages at any time, so no law says that nothing appears. *)
Class ProducerLaws (P : Type) `{!IProducer P} (stored : P -> Message -> Prop) : Prop := {
  (** An id names one message. *)
  stored_id : forall p m1 m2, stored p m1 -> stored p m2 -> id m1 = id m2 -> m1 = m2;
  (** Reading deletes nothing, whether it succeeds or throws. *)
  getNext_keeps : forall p m, stored p m -> stored (getNext p).2 m;
  (** What is read is in the storage. *)
  getNext_reads : forall p ms,
    (getNext p).1 = Value ms -> Forall (fun m => stored (getNext p).2 m /\ in_u64 m) ms;
  (** Reading runs into no undefined behaviour. *)
  getNext_defined : safe getNext;
  (** Marking deletes no other message than the given ones, whether it succeeds or throws. *)
  markConsumed_keeps : forall p ms m,
    Forall in_u64 ms -> ms <> [] -> stored p m -> id m ∉ id <$> ms -> stored (markConsumed ms p).2 m;
  (** When it succeeds the given ones are gone. *)
  markConsumed_deletes : forall p ms m,
    Forall in_u64 ms -> ms <> [] -> (markConsumed ms p).1 = Value tt ->
    stored (markConsumed ms p).2 m -> id m ∉ id <$> ms;
  (** Marking a non-empty list runs into no undefined behaviour. *)
  markConsumed_defined : forall ms, ms <> [] -> safe (markConsumed ms)
}.
