(* ===== verification/Hiredis.v ===== *)
(** * The hiredis library as the code uses it

    hiredis is not part of the repository: its functions are the methods of [Hiredis], over an
    arbitrary state [W] of the library, the connections and the server. Its public constants are
    constructors. Nothing is assumed about the functions here; a theorem that relies on documented
    behaviour names it as a hypothesis. *)

From S2P Require Import Prelude.

(** [redisReply::type]: the kinds the code names, and any other with its number. *)
Inductive reply_type : Type :=
| REDIS_REPLY_STRING
| REDIS_REPLY_ARRAY
| REDIS_REPLY_ERROR
| reply_type_other (n : Z).

#[export] Instance reply_type_eq_dec : EqDecision reply_type.
Proof. solve_decision. Defined.

(** [redisReply]: its type, [str] with [len] bytes and [element] with [elements] entries. *)
Inductive redisReply : Type :=
| Reply (type : reply_type) (str : string) (element : list redisReply).

Definition type (r : redisReply) : reply_type := let '(Reply t _ _) := r in t.
Definition str (r : redisReply) : string := let '(Reply _ s _) := r in s.
Definition element (r : redisReply) : list redisReply := let '(Reply _ _ es) := r in es.

(** [redisContext::err] and the return codes: the values the code names, and any other. *)
Inductive err_code : Type :=
| REDIS_OK
| REDIS_ERR_IO
| REDIS_ERR_EOF
| REDIS_ERR_other (n : Z).

#[export] Instance err_code_eq_dec : EqDecision err_code.
Proof. solve_decision. Defined.

(** The address of a [redisContext]. *)
Abbreviation redisContext := positive.

(** The address of a [redisReply] and the reply that is there. *)
Record replyPtr : Type := mkReplyPtr { addr : positive; deref : redisReply }.

(** An argument of a command format: [%s] takes a C string, [%b] bytes and their number, [%u] an
    unsigned number. *)
Inductive fmt_arg : Type :=
| arg_s (s : string)
| arg_b (s : string)
| arg_u (n : Z).

#[export] Instance fmt_arg_eq_dec : EqDecision fmt_arg.
Proof. solve_decision. Defined.

Class Hiredis (W : Type) : Type := {
  (** the number of a reply type, as [std::to_string] prints it *)
  reply_type_code : reply_type -> Z;
  (** [None] is a null pointer *)
  redisConnect : string -> Z -> W -> option redisContext * W;
  redisReconnect : redisContext -> W -> err_code * W;
  redisCommand : redisContext -> string -> list fmt_arg -> W -> option replyPtr * W;
  redisFree : redisContext -> W -> W;
  freeReplyObject : option replyPtr -> W -> W;
  (** the fields [err] and [errstr] of a context *)
  err : W -> redisContext -> err_code;
  errstr : W -> redisContext -> string
}.

(** hiredis documents that [redisCommand] returns a null pointer exactly when it sets [err]. *)
Class HiredisLaws (W : Type) `{!Hiredis W} : Prop :=
  command_error : forall c f args w,
    (redisCommand c f args w).1 = None <-> err (redisCommand c f args w).2 c <> REDIS_OK.

(** The calls of a component, with the library's answers. *)
Inductive redis_event : Type :=
| Connect (host : string) (port : Z) (r : option redisContext)
| Reconnect (c : redisContext) (r : err_code)
| Command (c : redisContext) (format : string) (args : list fmt_arg) (r : option replyPtr)
| Free (c : redisContext)
| FreeReply (r : option replyPtr).

(** The calls as statements of a component with members [M]. *)
Abbreviation do_connect host port := (call (redisConnect host port) (Connect host port)).
Abbreviation do_reconnect c := (call (redisReconnect c) (Reconnect c)).
Abbreviation do_command c format args :=
  (call (redisCommand c format args) (Command c format args)).
Abbreviation do_free c := (call (fun w => (tt, redisFree c w)) (fun _ => Free c)).
Abbreviation do_free_reply r := (call (fun w => (tt, freeReplyObject r w)) (fun _ => FreeReply r)).

(** [connection->err] and [connection->errstr] *)
Abbreviation get_err c := (gets (fun s => err s.(world) c)).
Abbreviation get_errstr c := (gets (fun s => errstr s.(world) c)).

(** [reply && reply->type == REDIS_REPLY_ERROR] *)
Definition is_error_reply (r : option replyPtr) : bool :=
  match r with
  | Some p => bool_decide (type (deref p) = REDIS_REPLY_ERROR)
  | None => false
  end.

(** A library whose server never answers, for examples that need the constants only. *)
Definition silent_hiredis : Hiredis unit := {|
  reply_type_code t := match t with
                       | REDIS_REPLY_STRING => 1
                       | REDIS_REPLY_ARRAY => 2
                       | REDIS_REPLY_ERROR => 6
                       | reply_type_other n => n
                       end;
  redisConnect _ _ w := (None, w);
  redisReconnect _ w := (REDIS_ERR_IO, w);
  redisCommand _ _ _ w := (None, w);
  redisFree _ w := w;
  freeReplyObject _ w := w;
  err _ _ := REDIS_ERR_IO;
  errstr _ _ := ""
|}.
