(* ===== verification/RedisReply.v ===== *)
(** * Reading and deleting stream entries (gwback/src/producer/redis_producer.cpp, the helpers)

    The functions of the anonymous namespace: an entry id of the form "timestamp-sequence" is packed
    into 64 bits, a stream reply is turned into messages, and the packed ids are unpacked again into
    an XDEL command. *)

From S2P Require Import Prelude Message Hiredis.

Definition MESSAGES_STREAM : string := "messages".
Definition DATA_FIELD : string := "data".
Definition EXPECTED_ENTRY_SIZE : nat := 2.
Definition TIMESTAMP_SHIFT : Z := 22.
Definition SEQUENCE_MASK : Z := Z.shiftl 1 TIMESTAMP_SHIFT - 1.

(** [for (; i < len && isdigit(str[i]); ++i) acc = acc * 10 + (str[i] - '0')] in [uint64_t]: the
    number and the characters from the new [i] on. *)
Fixpoint read_number (acc : Z) (cs : list ascii) : Z * list ascii :=
  match cs with
  | c :: cs' => if isdigit c then read_number (u64 (u64 (acc * 10) + digit_value c)) cs'
                else (acc, cs)
  | [] => (acc, [])
  end.

(** [(ts << TIMESTAMP_SHIFT) | seq] *)
Definition pack_id (ts seq : Z) : Z := Z.lor (u64 (Z.shiftl ts TIMESTAMP_SHIFT)) seq.

Section replies.
Context {W : Type} `{!Hiredis W}.

Definition messageIdFromReply (reply : redisReply) : outcome Z :=
  if decide (type reply = REDIS_REPLY_STRING) then
    let '(ts, rest) := read_number 0 (chars (str reply)) in
    let '(seq, _) := read_number 0 (tail rest) in
    Value (pack_id ts seq)
  else
    Throw (runtime_error ("Unexpected type of id reply: " +:+
                          dec_signed (reply_type_code (type reply)))).

(** The loop over [reply->element] in steps of two. [element[i + 1]] of a last, unpaired element is
    read out of bounds. *)
Fixpoint find_data (element : list redisReply) : outcome (list Z) :=
  match element with
  | [] => Value []
  | [_] => UB
  | fieldName :: fieldValue :: element' =>
      if decide (type fieldName = REDIS_REPLY_STRING /\ str fieldName = DATA_FIELD /\
                 type fieldValue = REDIS_REPLY_STRING)
      then Value (bytes_of (str fieldValue))
      else find_data element'
  end.

Definition messageDataFromReply (reply : redisReply) : outcome (list Z) :=
  if decide (type reply = REDIS_REPLY_ARRAY) then find_data (element reply)
  else
    Throw (runtime_error ("Unexpected type of data reply: " +:+
                          dec_signed (reply_type_code (type reply)))).

(** The body of the loop of [messagesFromReply]. *)
Definition messageFromEntry (entry : redisReply) : outcome Message :=
  if decide (type entry <> REDIS_REPLY_ARRAY) then
    Throw (runtime_error ("Unexpected type of Redis stream entry: " +:+
                          dec_signed (reply_type_code (type entry))))
  else if decide (length (element entry) <> EXPECTED_ENTRY_SIZE) then
    Throw (runtime_error ("Unexpected size of Redis stream entry: " +:+
                          dec (Z.of_nat (length (element entry)))))
  else
    match element entry with
    | e0 :: e1 :: _ =>
        i ← messageIdFromReply e0;
        d ← messageDataFromReply e1;
        mret (mkMessage i d)
    | _ => UB
    end.

Fixpoint messagesFromEntries (element : list redisReply) : outcome Messages :=
  match element with
  | [] => mret []
  | entry :: element' =>
      m ← messageFromEntry entry;
      ms ← messagesFromEntries element';
      mret (m :: ms)
  end.

Definition messagesFromReply (reply : redisReply) : outcome Messages :=
  if decide (type reply <> REDIS_REPLY_ARRAY) then
    Throw (runtime_error ("Unexpected type of Redis reply: " +:+
                          dec_signed (reply_type_code (type reply))))
  else messagesFromEntries (element reply).
End replies.

(** [' ' << (id >> TIMESTAMP_SHIFT) << '-' << (id & SEQUENCE_MASK)] without the space. *)
Definition xdel_id (i : Z) : string :=
  dec (Z.shiftr i TIMESTAMP_SHIFT) +:+ "-" +:+ dec (Z.land i SEQUENCE_MASK).

#[global] Arguments xdel_id : simpl never.
#[global] Arguments pack_id : simpl never.

Definition makeXdelCommand (messages : Messages) : string :=
  fold_left (fun command m => command +:+ " " +:+ xdel_id (id m)) messages
    ("XDEL " +:+ MESSAGES_STREAM).

(** ** Reading a number *)

Lemma read_number_spec acc cs rest :
  Forall (fun c => isdigit c = true) cs ->
  match rest with [] => True | c :: _ => isdigit c = false end ->
  0 <= acc ->
  digits_value acc (digit_value <$> cs) < 2 ^ 64 ->
  read_number acc (cs ++ rest) = (digits_value acc (digit_value <$> cs), rest).
Proof.
  intros Hcs Hrest. revert acc. induction Hcs as [|c cs Hc Hcs IH]; intros acc Hacc Hlt.
  { destruct rest as [|c rest]; simpl; [done|]. by rewrite Hrest. }
  pose proof (isdigit_value c Hc) as Hv.
  assert (Hmono : forall a ds, 0 <= a -> Forall (fun c => isdigit c = true) ds ->
            a <= digits_value a (digit_value <$> ds)).
  { intros a ds Ha Hds. revert a Ha.
    induction Hds as [|d ds Hd Hds IHds]; intros a Ha; [by cbn|].
    pose proof (isdigit_value d Hd). cbn.
    etransitivity; [|apply IHds; lia]. lia. }
  simpl. rewrite Hc. cbn in Hlt.
  pose proof (Hmono (acc * 10 + digit_value c) cs ltac:(lia) Hcs) as Hle.
  unfold digits_value in Hle at 1. unfold digits_value in Hlt.
  rewrite (wrap_small 64 (acc * 10)) by lia.
  rewrite wrap_small by lia. apply IH; [lia|exact Hlt].
Qed.

Lemma read_number_dec n rest :
  0 <= n < 2 ^ 64 ->
  match rest with [] => True | c :: _ => isdigit c = false end ->
  read_number 0 (chars (dec n) ++ rest) = (n, rest).
Proof.
  intros Hn Hrest.
  pose proof (dec_value n ltac:(lia)) as Hv. unfold chars_value in Hv.
  rewrite read_number_spec; rewrite ?Hv; [done|by apply dec_isdigit; lia|done|lia|lia].
Qed.

(** ** Packing and unpacking *)

Lemma mask_ones : SEQUENCE_MASK = Z.ones TIMESTAMP_SHIFT.
Proof. reflexivity. Qed.

Lemma pack_id_bound ts seq : 0 <= seq < 2 ^ 64 -> 0 <= pack_id ts seq < 2 ^ 64.
Proof.
  intros Hs. unfold pack_id. pose proof (wrap_bound 64 (Z.shiftl ts TIMESTAMP_SHIFT)) as Hw.
  set (a := u64 _) in *. assert (0 <= Z.lor a seq) by (apply Z.lor_nonneg; lia).
  split; [done|]. destruct (decide (Z.lor a seq = 0)) as [->|]; [lia|].
  apply Z.log2_lt_pow2; [lia|]. rewrite Z.log2_lor by lia.
  assert (forall x, 0 <= x < 2 ^ 64 -> Z.log2 x < 64) as Hlog.
  { intros x Hx. destruct (decide (x = 0)) as [->|]; [done|]. apply Z.log2_lt_pow2; lia. }
  pose proof (Hlog a ltac:(lia)). pose proof (Hlog seq Hs). lia.
Qed.

Lemma shift_small ts : 0 <= ts < 2 ^ 42 -> u64 (Z.shiftl ts TIMESTAMP_SHIFT) = Z.shiftl ts 22.
Proof. intros. apply wrap_small. rewrite Z.shiftl_mul_pow2 by done. lia. Qed.

Lemma pack_ts ts seq :
  0 <= ts < 2 ^ 42 -> 0 <= seq < 2 ^ 22 -> Z.shiftr (pack_id ts seq) TIMESTAMP_SHIFT = ts.
Proof.
  intros Ht Hs. unfold pack_id. rewrite shift_small by done. unfold TIMESTAMP_SHIFT.
  rewrite Z.shiftr_lor, Z.shiftr_shiftl_l by done. rewrite Z.sub_diag, Z.shiftl_0_r.
  rewrite (Z.shiftr_div_pow2 seq) by done. rewrite Z.div_small by done. apply Z.lor_0_r.
Qed.

Lemma pack_seq ts seq :
  0 <= ts < 2 ^ 42 -> 0 <= seq < 2 ^ 22 -> Z.land (pack_id ts seq) SEQUENCE_MASK = seq.
Proof.
  intros Ht Hs. unfold pack_id. rewrite shift_small by done. rewrite mask_ones.
  rewrite Z.land_lor_distr_l, !Z.land_ones by done. unfold TIMESTAMP_SHIFT.
  rewrite Z.shiftl_mul_pow2, Z.mod_mul, Z.mod_small by done. apply Z.lor_0_l.
Qed.

Lemma pack_id_sum ts seq :
  0 <= ts < 2 ^ 42 -> 0 <= seq < 2 ^ 22 -> pack_id ts seq = ts * 2 ^ 22 + seq.
Proof.
  intros Ht Hs. pose proof (pack_ts ts seq Ht Hs) as H1. pose proof (pack_seq ts seq Ht Hs) as H2.
  rewrite mask_ones, Z.land_ones in H2 by done. unfold TIMESTAMP_SHIFT in *.
  rewrite Z.shiftr_div_pow2 in H1 by done.
  rewrite (Z.div_mod (pack_id ts seq) (2 ^ 22)) by done. lia.
Qed.

Lemma mask_bound i : 0 <= Z.land i SEQUENCE_MASK < 2 ^ 22.
Proof. rewrite mask_ones, Z.land_ones by done. apply Z.mod_pos_bound. done. Qed.

(** C36: an entry id survives packing and unpacking exactly when its timestamp fits 42 bits and its
    sequence number 22 bits. *)
Theorem pack_id_exact ts seq :
  0 <= ts < 2 ^ 64 -> 0 <= seq < 2 ^ 64 ->
  (Z.shiftr (pack_id ts seq) TIMESTAMP_SHIFT = ts /\ Z.land (pack_id ts seq) SEQUENCE_MASK = seq)
  <-> ts < 2 ^ 42 /\ seq < 2 ^ 22.
Proof.
  intros Ht Hs. split.
  - intros [H1 H2]. pose proof (mask_bound (pack_id ts seq)).
    pose proof (pack_id_bound ts seq Hs) as Hb. split; [|lia].
    rewrite <-H1. unfold TIMESTAMP_SHIFT. rewrite Z.shiftr_div_pow2 by done.
    apply Z.div_lt_upper_bound; lia.
  - intros [Ht' Hs']. split; [apply pack_ts|apply pack_seq]; lia.
Qed.

(** ** Entries as the server sends them *)

(** A stream entry: timestamp, sequence number and the fields with their values. *)
Record entry : Type := mkEntry { ts : Z; seq : Z; fields : list (string * string) }.

Definition entry_id (e : entry) : string := dec (ts e) +:+ "-" +:+ dec (seq e).

Definition reply_string (s : string) : redisReply := Reply REDIS_REPLY_STRING s [].

Definition reply_entry (e : entry) : redisReply :=
  Reply REDIS_REPLY_ARRAY ""
    [reply_string (entry_id e);
     Reply REDIS_REPLY_ARRAY ""
       (flat_map (fun f => [reply_string f.1; reply_string f.2]) (fields e))].

Definition reply_stream (es : list entry) : redisReply :=
  Reply REDIS_REPLY_ARRAY "" (reply_entry <$> es).

(** The value of the first field named "data"; no bytes when there is none. *)
Definition entry_data (e : entry) : list Z :=
  match list_find (fun f => f.1 = DATA_FIELD) (fields e) with
  | Some (_, f) => bytes_of f.2
  | None => []
  end.

Definition entry_message (e : entry) : Message := mkMessage (pack_id (ts e) (seq e)) (entry_data e).

(** The ids the packing keeps. *)
Definition entry_ok (e : entry) : Prop := 0 <= ts e < 2 ^ 42 /\ 0 <= seq e < 2 ^ 22.

Section replies_spec.
Context {W : Type} `{!Hiredis W}.

Lemma find_data_spec e :
  find_data (element (Reply REDIS_REPLY_ARRAY ""
    (flat_map (fun f => [reply_string f.1; reply_string f.2]) (fields e)))) = Value (entry_data e).
Proof.
  unfold entry_data. simpl. induction (fields e) as [|[n v] fs IH]; [done|].
  cbn. destruct (decide (n = DATA_FIELD)) as [->|Hn].
  - by rewrite decide_True.
  - rewrite decide_False by (by intros (_ & ? & _)). rewrite IH.
    by destruct (list_find _ fs) as [[? ?]|].
Qed.

Lemma messageIdFromReply_spec t s :
  0 <= t < 2 ^ 64 -> 0 <= s < 2 ^ 64 ->
  messageIdFromReply (reply_string (dec t +:+ "-" +:+ dec s)) = Value (pack_id t s).
Proof.
  intros Ht Hs. unfold messageIdFromReply. simpl. rewrite !chars_app.
  rewrite read_number_dec by done. simpl.
  rewrite <-(app_nil_r (chars (dec s))). by rewrite read_number_dec.
Qed.

Lemma messagesFromEntries_spec es :
  Forall (fun e => 0 <= ts e < 2 ^ 64 /\ 0 <= seq e < 2 ^ 64) es ->
  messagesFromEntries (reply_entry <$> es) = Value (entry_message <$> es).
Proof.
  induction 1 as [|e es [Ht Hs] _ IH]; [done|].
  rewrite fmap_cons. cbn [messagesFromEntries]. rewrite IH.
  unfold messageFromEntry. simpl. unfold entry_id. rewrite messageIdFromReply_spec by done.
  unfold messageDataFromReply. simpl.
  pose proof (find_data_spec e) as Hd. simpl in Hd. rewrite Hd. done.
Qed.
End replies_spec.

(** ** The XDEL command *)

Lemma chars_xdel_fold ms acc :
  chars (fold_left (fun command m => command +:+ " " +:+ xdel_id (id m)) ms acc) =
  chars acc ++ flat_map (fun m => space :: chars (xdel_id (id m))) ms.
Proof.
  revert acc. induction ms as [|m ms IH]; intros acc; cbn -[xdel_id chars].
  - by rewrite app_nil_r.
  - rewrite IH, !chars_app, <-!app_assoc. done.
Qed.

Lemma chars_makeXdelCommand ms :
  chars (makeXdelCommand ms) =
  chars "XDEL messages" ++ flat_map (fun m => space :: chars (xdel_id (id m))) ms.
Proof. apply chars_xdel_fold. Qed.

Lemma xdel_id_nonneg i : 0 <= i -> 0 <= Z.shiftr i TIMESTAMP_SHIFT /\ 0 <= Z.land i SEQUENCE_MASK.
Proof. intros. split; [by apply Z.shiftr_nonneg|]. apply mask_bound. Qed.

Lemma chars_xdel_id i :
  chars (xdel_id i) = chars (dec (Z.shiftr i TIMESTAMP_SHIFT)) ++ "-"%char ::
                      chars (dec (Z.land i SEQUENCE_MASK)).
Proof. unfold xdel_id. by rewrite !chars_app. Qed.

(** A character that is neither a digit nor the dash does not occur in a printed id. *)
Lemma xdel_id_no_char c i :
  isdigit c = false -> c <> "-"%char -> 0 <= i -> c ∉ chars (xdel_id i).
Proof.
  intros Hc Hd Hi. destruct (xdel_id_nonneg i Hi). rewrite chars_xdel_id.
  rewrite not_elem_of_app, not_elem_of_cons.
  split_and!; [by apply dec_no_char|done|by apply dec_no_char].
Qed.

Lemma xdel_id_packed e : entry_ok e -> xdel_id (pack_id (ts e) (seq e)) = entry_id e.
Proof. intros [Ht Hs]. unfold xdel_id. by rewrite pack_ts, pack_seq. Qed.

Lemma split_ids (ms : Messages) x :
  space ∉ x -> Forall (fun m => 0 <= id m) ms ->
  split_on space (x ++ flat_map (fun m => space :: chars (xdel_id (id m))) ms)
  = x :: ((fun m => chars (xdel_id (id m))) <$> ms).
Proof.
  intros Hx Hms. revert x Hx. induction Hms as [|m ms Hm _ IH]; intros x Hx; cbn.
  - by rewrite app_nil_r, split_on_none.
  - rewrite split_on_app by done. f_equal. apply IH. by apply xdel_id_no_char.
Qed.

(** The words of the XDEL command. *)
Lemma makeXdelCommand_words ms :
  Forall (fun m => 0 <= id m) ms ->
  (of_chars <$> split_on space (chars (makeXdelCommand ms))) =
  "XDEL" :: MESSAGES_STREAM :: ((fun m => xdel_id (id m)) <$> ms).
Proof.
  intros Hms. rewrite chars_makeXdelCommand.
  assert (chars "XDEL messages" = chars "XDEL" ++ space :: chars MESSAGES_STREAM) as -> by done.
  rewrite <-app_assoc, <-app_comm_cons.
  rewrite split_on_app by char_absent.
  rewrite split_ids; [|char_absent|exact Hms].
  rewrite !fmap_cons, <-list_fmap_compose. do 2 f_equal.
  apply list_fmap_ext. intros ? m _. unfold compose. apply of_chars_chars.
Qed.

Lemma pack_id_nonneg ts seq : 0 <= seq -> 0 <= pack_id ts seq.
Proof. intros. apply Z.lor_nonneg. split; [apply wrap_bound; lia|done]. Qed.

(** C23: what is read is what is deleted: a stream reply whose ids fit the packing becomes messages
    with the values of their "data" fields, and the XDEL command made for these messages names the
    stream and exactly the ids of the entries read, in their order. *)
Theorem xdel_names_entries_read {W} `{!Hiredis W} (es : list entry) :
  Forall entry_ok es ->
  exists ms,
    messagesFromReply (reply_stream es) = Value ms /\
    (data <$> ms) = (entry_data <$> es) /\
    (of_chars <$> split_on space (chars (makeXdelCommand ms))) =
      "XDEL" :: MESSAGES_STREAM :: (entry_id <$> es).
Proof.
  intros Hes. exists (entry_message <$> es). split_and!.
  - unfold messagesFromReply. simpl. apply messagesFromEntries_spec.
    eapply Forall_impl; [exact Hes|]. unfold entry_ok. lia.
  - by rewrite <-list_fmap_compose.
  - rewrite makeXdelCommand_words.
    + do 2 f_equal. rewrite <-list_fmap_compose. apply list_fmap_ext. intros i e He.
      unfold compose. apply xdel_id_packed. by eapply Forall_lookup_1.
    + apply Forall_fmap. eapply Forall_impl; [exact Hes|]. intros e [_ He].
      apply pack_id_nonneg. lia.
Qed.

(** A character that is no digit, dash or space and does not occur in the constant part of the
    command does not occur in it. *)
Lemma makeXdelCommand_no_char ms c :
  Forall in_u64 ms -> isdigit c = false -> c <> "-"%char -> c <> space ->
  c ∉ chars "XDEL messages" -> c ∉ chars (makeXdelCommand ms).
Proof.
  intros Hms Hd Hm Hs Hx. rewrite chars_makeXdelCommand, not_elem_of_app. split; [done|].
  rewrite list_elem_of_In, in_flat_map. intros (m & Hin & Hc). apply list_elem_of_In in Hin, Hc.
  rewrite Forall_forall in Hms. specialize (Hms m Hin). unfold in_u64 in Hms.
  apply elem_of_cons in Hc as [Hc|Hc]; [done|]. by apply (xdel_id_no_char c (id m)) in Hc; [|..|lia].
Qed.

Lemma makeXdelCommand_no_percent ms : Forall in_u64 ms -> "%"%char ∉ chars (makeXdelCommand ms).
Proof. intros. apply makeXdelCommand_no_char; [done..|char_absent]. Qed.

Lemma makeXdelCommand_c_str ms :
  Forall in_u64 ms -> c_str (makeXdelCommand ms) = makeXdelCommand ms.
Proof. intros. apply c_str_id, makeXdelCommand_no_char; [done..|char_absent]. Qed.

(** Two ids that are printed alike are equal. *)
Lemma xdel_id_inj i j : 0 <= i -> 0 <= j -> xdel_id i = xdel_id j -> i = j.
Proof.
  intros Hi Hj H. apply (f_equal (fun s => split_on "-"%char (chars s))) in H.
  destruct (xdel_id_nonneg i Hi) as [Hi1 Hi2]. destruct (xdel_id_nonneg j Hj) as [Hj1 Hj2].
  rewrite !chars_xdel_id, !split_on_app, !split_on_none in H by (by apply dec_no_char).
  assert (H1 : chars (dec (Z.shiftr i TIMESTAMP_SHIFT)) = chars (dec (Z.shiftr j TIMESTAMP_SHIFT)))
    by exact (f_equal (hd []) H).
  assert (H2 : chars (dec (Z.land i SEQUENCE_MASK)) = chars (dec (Z.land j SEQUENCE_MASK)))
    by exact (f_equal (fun l => hd [] (tl l)) H).
  apply chars_inj, dec_inj in H1, H2; [|done..].
  rewrite mask_ones, !Z.land_ones in H2 by done. unfold TIMESTAMP_SHIFT in *.
  rewrite !Z.shiftr_div_pow2 in H1 by done.
  rewrite (Z.div_mod i (2 ^ 22)), (Z.div_mod j (2 ^ 22)) by done. congruence.
Qed.

(** The XDEL command is safe as the format string it is passed as: it holds no percent sign, so
    no argument is consumed, and no NUL, so hiredis sees all of it. *)
Theorem makeXdelCommand_format_safe (ms : Messages) :
  Forall in_u64 ms ->
  ("%"%char ∉ chars (makeXdelCommand ms)) /\
  c_str (makeXdelCommand ms) = makeXdelCommand ms.
Proof.
  intros Hms. exact (conj (makeXdelCommand_no_percent ms Hms) (makeXdelCommand_c_str ms Hms)).
Qed.

(** The order of packed ids. *)
Lemma pack_id_lt t1 s1 t2 s2 :
  0 <= t1 < 2 ^ 42 -> 0 <= s1 < 2 ^ 22 -> 0 <= t2 < 2 ^ 42 -> 0 <= s2 < 2 ^ 22 ->
  pack_id t1 s1 < pack_id t2 s2 <-> t1 < t2 \/ (t1 = t2 /\ s1 < s2).
Proof. intros. rewrite !pack_id_sum by done. nia. Qed.

(** Stream order: by timestamp, then by sequence number. *)
Definition entry_lt (e1 e2 : entry) : Prop := ts e1 < ts e2 \/ (ts e1 = ts e2 /\ seq e1 < seq e2).

Lemma entry_messages_ascending es :
  StronglySorted entry_lt es -> Forall entry_ok es -> StronglySorted id_lt (entry_message <$> es).
Proof.
  induction 1 as [|e es Hes IH He]; intros Hok; [constructor|].
  apply Forall_cons in Hok as [[Ht Hs] Hok]. rewrite fmap_cons. constructor; [by apply IH|].
  apply Forall_fmap, Forall_forall. intros e' He'. rewrite Forall_forall in He, Hok.
  destruct (Hok e' He'). by apply pack_id_lt, He.
Qed.

(** ** Which replies are accepted *)

(** [field_value fs d]: in the name-value list [fs] the first pair that is a string named "data"
    with a string value has the bytes [d], or there is no such pair and [d] is empty. *)
Inductive field_value : list redisReply -> list Z -> Prop :=
| field_none : field_value [] []
| field_hit n v fs :
    type n = REDIS_REPLY_STRING -> str n = DATA_FIELD -> type v = REDIS_REPLY_STRING ->
    field_value (n :: v :: fs) (bytes_of (str v))
| field_skip n v fs d :
    ~ (type n = REDIS_REPLY_STRING /\ str n = DATA_FIELD /\ type v = REDIS_REPLY_STRING) ->
    field_value fs d ->
    field_value (n :: v :: fs) d.

(** The shape of a stream entry and the message it stands for. *)
Definition entry_shape (e : redisReply) (m : Message) : Prop :=
  type e = REDIS_REPLY_ARRAY /\
  exists i fs,
    element e = [i; fs] /\ type i = REDIS_REPLY_STRING /\ type fs = REDIS_REPLY_ARRAY /\
    id m = pack_id (read_number 0 (chars (str i))).1
                   (read_number 0 (tail (read_number 0 (chars (str i))).2)).1 /\
    field_value (element fs) (data m).

Section accepted.
Context {W : Type} `{!Hiredis W}.

Lemma find_data_iff fs d : find_data fs = Value d <-> field_value fs d.
Proof.
  split.
  - revert d. induction fs as [fs IH] using (induction_ltof1 _ (@length _)). unfold ltof in IH.
    intros d. destruct fs as [|n [|v fs]]; simpl; [intros [= <-]; constructor|done|].
    case_decide as Hn; [intros [= <-]; constructor; naive_solver|].
    intros. constructor; [done|]. apply IH; [simpl; lia|done].
  - induction 1 as [|n v fs Hn Hd Hv|n v fs d Hn Hf IH]; simpl; [done|..].
    + by rewrite decide_True.
    + by rewrite decide_False.
Qed.

Lemma messageFromEntry_iff e m : messageFromEntry e = Value m <-> entry_shape e m.
Proof.
  unfold messageFromEntry, entry_shape, messageIdFromReply, messageDataFromReply.
  destruct (decide (type e <> REDIS_REPLY_ARRAY)) as [He|He]; [split; [done|naive_solver]|].
  apply dec_stable in He.
  destruct (decide (length (element e) <> EXPECTED_ENTRY_SIZE)) as [Hl|Hl].
  { split; [done|]. intros (_ & i & fs & Hel & _). by destruct Hl; rewrite Hel. }
  apply dec_stable in Hl. destruct (element e) as [|i [|fs [|? ?]]]; try by inversion Hl.
  destruct (decide (type i = REDIS_REPLY_STRING)) as [Hi|Hi]; [|split; [done|naive_solver]].
  destruct (decide (type fs = REDIS_REPLY_ARRAY)) as [Hf|Hf].
  2:{ split; [by repeat case_match|]. intros (_ & ? & ? & [= <- <-] & _ & ? & _). done. }
  rewrite (surjective_pairing (read_number 0 (chars (str i)))).
  rewrite (surjective_pairing (read_number 0 (tail _))). cbn -[read_number chars tail]. split.
  - destruct (find_data (element fs)) as [d| |] eqn:Ed; [intros [= <-]|done|done].
    split; [done|]. exists i, fs. apply find_data_iff in Ed. by split_and!.
  - intros (_ & i' & fs' & [= <- <-] & _ & _ & Hid & Hd).
    apply find_data_iff in Hd. rewrite Hd. rewrite <-Hid. by destruct m.
Qed.

Lemma messagesFromEntries_iff es ms :
  messagesFromEntries es = Value ms <-> Forall2 entry_shape es ms.
Proof.
  revert ms. induction es as [|e es IH]; intros ms.
  - split; [intros [= <-]; constructor|]. by inversion 1.
  - cbn [messagesFromEntries]. split.
    + destruct (messageFromEntry e) as [m| |] eqn:Em; simpl; [|done|done].
      destruct (messagesFromEntries es) as [ms'| |] eqn:Ems; simpl; [|done|done].
      intros [= <-]. constructor; [by apply messageFromEntry_iff|by apply IH].
    + inversion 1 as [|? m ? ms' Hm Hms]; subst.
      apply messageFromEntry_iff in Hm. apply IH in Hms. by rewrite Hm, Hms.
Qed.

(** C35: a reply becomes messages exactly when it is an array of well-shaped entries, and then every
    entry gives one message, in order: one malformed entry rejects the whole reply. *)
Theorem messagesFromReply_accepts (reply : redisReply) (ms : Messages) :
  messagesFromReply reply = Value ms <->
  type reply = REDIS_REPLY_ARRAY /\ Forall2 entry_shape (element reply) ms.
Proof.
  unfold messagesFromReply. destruct (decide (type reply <> REDIS_REPLY_ARRAY)) as [H|H].
  - split; [done|naive_solver].
  - apply dec_stable in H. rewrite messagesFromEntries_iff. naive_solver.
Qed.
End accepted.

(** ** Instances *)

Definition two_entries : list entry :=
  [mkEntry 1662737151107 0 [("data", "hello")]; mkEntry 1662737151107 1 [("other", "x"); ("data", "")]].

Lemma pack_id_exact_witness :
  (Z.shiftr (pack_id 1662737151107 5) TIMESTAMP_SHIFT = 1662737151107 /\
   Z.land (pack_id 1662737151107 5) SEQUENCE_MASK = 5) <->
  1662737151107 < 2 ^ 42 /\ 5 < 2 ^ 22.
Proof. apply pack_id_exact; lia. Defined.

Lemma xdel_names_entries_read_witness :
  exists ms,
    @messagesFromReply unit silent_hiredis (reply_stream two_entries) = Value ms /\
    (data <$> ms) = [[104; 101; 108; 108; 111]; []] /\
    (of_chars <$> split_on space (chars (makeXdelCommand ms))) =
      ["XDEL"; "messages"; "1662737151107-0"; "1662737151107-1"].
Proof.
  apply (@xdel_names_entries_read unit silent_hiredis two_entries).
  unfold two_entries, entry_ok. repeat constructor; cbn; lia.
Defined.

Lemma makeXdelCommand_format_safe_witness :
  ("%"%char ∉ chars (makeXdelCommand [mkMessage 4194305 []; mkMessage 7 [37]])) /\
  c_str (makeXdelCommand [mkMessage 4194305 []; mkMessage 7 [37]]) =
  makeXdelCommand [mkMessage 4194305 []; mkMessage 7 [37]].
Proof. apply makeXdelCommand_format_safe. unfold in_u64. repeat constructor; cbn; lia. Defined.
