(* ===== verification/RedisServer.v ===== *)
(** * The contract of hiredis and a Redis server with one stream

    [RedisServer] states the documented behaviour the Redis producer relies on: what a command does
    to the stream "messages", the form of the answers, and that a command without an answer leaves
    an error in its context. Other clients may add entries at any time: no law says that nothing
    appears. [reference] is a small server that keeps the contract; the witnesses run on it. *)

From S2P Require Import Prelude Message Hiredis RedisReply.

#[export] Instance entry_eq_dec : EqDecision entry.
Proof. solve_decision. Defined.
#[export] Instance entry_lt_dec : RelDecision entry_lt.
Proof. intros e1 e2. unfold entry_lt. apply _. Defined.
#[export] Instance entry_ok_dec e : Decision (entry_ok e).
Proof. unfold entry_ok. apply _. Defined.

Definition AUTH : string := "AUTH %s %s".
Definition XRANGE : string := "XRANGE %s - + COUNT %u".

(** [format] is an XDEL command on the stream for the ids [ids]. *)
Definition is_xdel (format : string) (ids : list string) : Prop :=
  ("%"%char ∉ chars format) /\
  (of_chars <$> split_on space (chars format)) = "XDEL" :: MESSAGES_STREAM :: ids.

Class RedisServer (W : Type) `{!Hiredis W} (stream : W -> list entry) : Prop := {
  (** The entries are in stream order, and their ids fit the packing. *)
  stream_sorted : forall w, StronglySorted entry_lt (stream w);
  stream_ok : forall w, Forall entry_ok (stream w);
  (** Connecting, authenticating and reading delete nothing. *)
  connect_keeps : forall h p w e, e ∈ stream w -> e ∈ stream (redisConnect h p w).2;
  reconnect_keeps : forall c w e, e ∈ stream w -> e ∈ stream (redisReconnect c w).2;
  free_keeps : forall c w e, e ∈ stream w -> e ∈ stream (redisFree c w);
  command_keeps : forall c f args w e,
    f = AUTH \/ f = XRANGE -> e ∈ stream w -> e ∈ stream (redisCommand c f args w).2;
  (** An array that answers XRANGE with a count holds the first entries of the stream. *)
  xrange_reply : forall c n w p,
    (redisCommand c XRANGE [arg_s MESSAGES_STREAM; arg_u n] w).1 = Some p ->
    type (deref p) = REDIS_REPLY_ARRAY ->
    deref p = reply_stream (take (Z.to_nat n)
                (stream (redisCommand c XRANGE [arg_s MESSAGES_STREAM; arg_u n] w).2));
  (** XDEL deletes the entries with the given ids and no others. *)
  xdel_keeps : forall c f ids w e,
    is_xdel f ids -> e ∈ stream w -> entry_id e ∉ ids -> e ∈ stream (redisCommand c f [] w).2;
  xdel_deletes : forall c f ids w p e,
    is_xdel f ids -> (redisCommand c f [] w).1 = Some p -> type (deref p) <> REDIS_REPLY_ERROR ->
    e ∈ stream (redisCommand c f [] w).2 -> entry_id e ∉ ids;
  (** A command without an answer leaves an error in the context. *)
  command_null : forall c f args w,
    (redisCommand c f args w).1 = None -> err (redisCommand c f args w).2 c <> REDIS_OK
}.

(** ** A reference server *)

(** The entries, and whether the server accepts the password. *)
Record reference : Type := mkReference { entries : list entry; auth_ok : bool }.

(** The entries when they form a stream the contract describes. *)
Definition reference_stream (w : reference) : list entry :=
  if decide (StronglySorted entry_lt (entries w) /\ Forall entry_ok (entries w))
  then entries w else [].

Definition reply_error : redisReply := Reply REDIS_REPLY_ERROR "ERR" [].

Definition reference_command (f : string) (args : list fmt_arg) (w : reference) :
    option replyPtr * reference :=
  if decide (f = AUTH) then
    (Some (mkReplyPtr 1 (if auth_ok w then Reply (reply_type_other 5) "OK" [] else reply_error)), w)
  else if decide (f = XRANGE) then
    match args with
    | [_; arg_u n] => (Some (mkReplyPtr 1 (reply_stream (take (Z.to_nat n) (reference_stream w)))), w)
    | _ => (Some (mkReplyPtr 1 reply_error), w)
    end
  else
    match of_chars <$> split_on space (chars f) with
    | _ :: _ :: ids =>
        (Some (mkReplyPtr 1 (Reply (reply_type_other 3) "" [])),
         mkReference (filter (fun e => entry_id e ∉ ids) (reference_stream w)) (auth_ok w))
    | _ => (Some (mkReplyPtr 1 reply_error), w)
    end.

#[export] Instance reference_hiredis : Hiredis reference := {|
  reply_type_code t := match t with
                       | REDIS_REPLY_STRING => 1
                       | REDIS_REPLY_ARRAY => 2
                       | REDIS_REPLY_ERROR => 6
                       | reply_type_other n => n
                       end;
  redisConnect _ _ w := (Some 1%positive, w);
  redisReconnect _ w := (REDIS_OK, w);
  redisCommand _ f args w := reference_command f args w;
  redisFree _ w := w;
  freeReplyObject _ w := w;
  err _ _ := REDIS_OK;
  errstr _ _ := ""
|}.

Lemma reference_stream_good w :
  StronglySorted entry_lt (reference_stream w) /\ Forall entry_ok (reference_stream w).
Proof. unfold reference_stream. case_decide; [done|]. split; constructor. Qed.

Lemma reference_stream_filter w (P : entry -> Prop) `{!forall x, Decision (P x)} b :
  reference_stream (mkReference (filter P (reference_stream w)) b) = filter P (reference_stream w).
Proof.
  unfold reference_stream at 1. simpl. apply decide_True. destruct (reference_stream_good w) as [Hs Ho].
  split; [by apply StronglySorted_filter|]. rewrite Forall_forall in *.
  intros e [_ He]%list_elem_of_filter. by apply Ho.
Qed.

(** What the reference server does with an XDEL command. *)
Lemma reference_xdel f ids w :
  is_xdel f ids ->
  exists p, reference_command f [] w =
    (Some p, mkReference (filter (fun e => entry_id e ∉ ids) (reference_stream w)) (auth_ok w)) /\
    type (deref p) = reply_type_other 3.
Proof.
  intros [Hp Hw]. unfold reference_command.
  rewrite decide_False by (intros ->; apply Hp; unfold AUTH; cbn; set_solver).
  rewrite decide_False by (intros ->; apply Hp; unfold XRANGE; cbn; set_solver).
  rewrite Hw. by eexists.
Qed.

#[export] Instance reference_server : RedisServer reference reference_stream.
Proof.
  split; try done.
  - intros w. apply reference_stream_good.
  - intros w. apply reference_stream_good.
  - intros c f args w e Hf He. assert ((redisCommand c f args w).2 = w) as ->; [|done].
    cbn -[decide]. unfold reference_command. by destruct Hf as [->| ->]; repeat case_match.
  - intros c n w p. cbn. intros [= <-] _. done.
  - intros c f ids w e Hf He Hid. simpl. destruct (reference_xdel f ids w Hf) as (p & -> & _).
    simpl. rewrite reference_stream_filter. by apply list_elem_of_filter.
  - intros c f ids w p e Hf. simpl. destruct (reference_xdel f ids w Hf) as (p' & -> & _).
    simpl. rewrite reference_stream_filter. by intros _ _ [? _]%list_elem_of_filter.
  - intros c f args w. simpl. unfold reference_command. by repeat case_match.
Qed.

#[export] Instance reference_hiredis_laws : HiredisLaws reference.
Proof. intros c f args w. cbn. unfold reference_command. repeat case_match; naive_solver. Qed.
