(* ===== verification/RedisProducer.v ===== *)
(** * The Redis producer (gwback/src/producer/redis_producer)

    The class with its connection, over an arbitrary hiredis. [getConnection] and [authenticate] call
    each other; the model gives the calls a depth, and the depth used is shown to be enough. Replies
    and the connection are owned by smart pointers: their release is not part of the model. *)

From S2P Require Import Prelude CommonConfig ResolveHost BackConfig Message Hiredis RedisReply RedisServer.

(** The data members. *)
Record RedisProducer : Type := mkRedisProducer {
  config_ : RedisConfig;
  chunkSize_ : Z;
  connection_ : option redisContext
}.

Definition set_connection (c : option redisContext) (p : RedisProducer) : RedisProducer :=
  mkRedisProducer (config_ p) (chunkSize_ p) c.

(** The constructor. *)
Definition RedisProducer_init {W} `{!Netdb W} (redisConfig : RedisConfig)
    (producerConfig : ProducerConfig) : prog W RedisProducer := fun w =>
  let '(host, w1) := resolveHost (redis_host redisConfig) w in
  if str_empty host
  then (Throw (invalid_argument ("Failed to resolve '" +:+ redis_host redisConfig +:+ "'")), w1)
  else (Value (mkRedisProducer
                 (mkRedisConfig host (redis_port redisConfig) (redis_user redisConfig)
                    (redis_password redisConfig))
                 (producer_chunkSize producerConfig) None), w1).

Section producer.
Context {W : Type} `{!Hiredis W}.

Abbreviation st := (env RedisProducer W redis_event).

Definition runCommand (connection : redisContext) (format : string) (args : list fmt_arg) :
    prog st (option replyPtr) :=
  do_command connection (c_str format) args.

(** [authenticate], with the [getConnection] it calls. *)
Definition authenticate_with (getConnection : prog st redisContext) : prog st unit :=
  connection ← getConnection;
  config ← gets (fun s => config_ (members s));
  reply ← runCommand connection "AUTH %s %s"
    [arg_s (c_str (redis_user config)); arg_s (c_str (redis_password config))];
  e ← get_err connection;
  errstr ← get_errstr connection;
  if decide (e <> REDIS_OK) then
    throw (runtime_error ("Failed to authenticate in Redis: " +:+ errstr))
  else if is_error_reply reply then
    throw (runtime_error ("Failed to authenticate in Redis: " +:+
                          c_str (default "" ((fun p => str (deref p)) <$> reply))))
  else mret tt.

(** [getConnection] with at most [depth] nested calls. *)
Fixpoint getConnection_at (depth : nat) : prog st redisContext :=
  match depth with
  | O => undefined
  | S depth' =>
      held ← gets (fun s => connection_ (members s));
      match held with
      | Some c => mret c
      | None =>
          config ← gets (fun s => config_ (members s));
          connection ← do_connect (c_str (redis_host config)) (redis_port config);
          match connection with
          | None => throw (runtime_error "Failed to connect to Redis")
          | Some c =>
              e ← get_err c;
              if decide (e <> REDIS_OK) then
                errstr ← get_errstr c;
                do_free c ;;
                throw (runtime_error ("Failed to connect to Redis: " +:+ errstr))
              else
                modify (set_members (set_connection (Some c))) ;;
                authenticate_with (getConnection_at depth') ;;
                held' ← gets (fun s => connection_ (members s));
                match held' with
                | Some c' => mret c'
                | None => undefined
                end
          end
      end
  end.

Definition getConnection : prog st redisContext := getConnection_at 2.
Definition authenticate : prog st unit := authenticate_with getConnection.

Definition reconnect : prog st unit :=
  connection ← getConnection;
  r ← do_reconnect connection;
  if decide (r <> REDIS_OK) then throw (runtime_error "Failed to reconnect to Redis")
  else authenticate.

(** The state and reply checks [getNext] and [markConsumed] share. *)
Definition check_reply (connection : redisContext) (reply : option replyPtr) : prog st unit :=
  e ← get_err connection;
  errstr ← get_errstr connection;
  if decide (e <> REDIS_OK) then
    throw (runtime_error ("Failed to read from Redis: " +:+ errstr))
  else if is_error_reply reply then
    throw (runtime_error ("Failed to read from Redis: " +:+
                          c_str (default "" ((fun p => str (deref p)) <$> reply))))
  else mret tt.

Definition run_xrange (connection : redisContext) : prog st (option replyPtr) :=
  chunk ← gets (fun s => chunkSize_ (members s));
  runCommand connection "XRANGE %s - + COUNT %u" [arg_s MESSAGES_STREAM; arg_u chunk].

Definition RedisProducer_getNext : prog st Messages :=
  connection ← getConnection;
  reply ← run_xrange connection;
  e ← get_err connection;
  reply ← (if decide (e = REDIS_ERR_EOF \/ e = REDIS_ERR_IO)
           then reconnect ;; run_xrange connection
           else mret reply);
  check_reply connection reply ;;
  match reply with
  | None => throw (runtime_error "Failed to read from Redis: no details known")
  | Some p => lift (messagesFromReply (deref p))
  end.

Definition RedisProducer_markConsumed (messages : Messages) : prog st unit :=
  connection ← getConnection;
  let xdelCommand := makeXdelCommand messages in
  reply ← runCommand connection xdelCommand [];
  e ← get_err connection;
  reply ← (if decide (e = REDIS_ERR_EOF)
           then reconnect ;; runCommand connection xdelCommand []
           else mret reply);
  check_reply connection reply.

#[export] Instance RedisProducer_producer : IProducer st := {|
  getNext := RedisProducer_getNext;
  markConsumed := RedisProducer_markConsumed
|}.

(** ** The mutual recursion ends *)

Lemma getConnection_held depth s c :
  connection_ (members s) = Some c -> getConnection_at (S depth) s = (Value c, s).
Proof. intros H. cbn. unfold mbind, prog_bind, gets. by rewrite H. Qed.

(** The mutual recursion of [getConnection] and [authenticate] ends at the first nested call:
    any larger depth gives the same outcome and state. *)
Theorem getConnection_depth (depth : nat) (s : st) :
  getConnection_at (S (S depth)) s = getConnection s.
Proof.
  unfold getConnection. cbn [getConnection_at]. unfold mbind, prog_bind, gets.
  destruct (connection_ (members s)) as [c|]; [done|].
  by destruct (do_connect _ _ s) as [[[c|]|e|] s1].
Qed.

(** ** No undefined behaviour outside the replies *)

Lemma set_connection_id p c : connection_ p = c -> set_connection c p = p.
Proof. intros <-. by destruct p. Qed.

Lemma getConnection_members (s : st) :
  wp getConnection
    (fun c s' => members s' = set_connection (Some c) (members s))
    (fun _ s' => exists c, members s' = set_connection c (members s)) s.
Proof.
  unfold getConnection. cbn [getConnection_at]. wp_steps.
  destruct (connection_ (members s)) as [c|] eqn:Hc.
  { apply wp_ret. symmetry. by apply set_connection_id. }
  wp_steps. destruct (redisConnect _ _ _) as [[c|] w]; cbn [fst snd]; wp_steps.
  2:{ exists None. symmetry. by apply set_connection_id. }
  case_decide; wp_steps.
  { exists None. symmetry. by apply set_connection_id. }
  unfold authenticate_with, runCommand, set_members. wp_steps. cbn [connection_ set_connection].
  wp_steps. case_decide; [|case_match]; wp_steps; by eauto.
Qed.

Lemma getConnection_safe : safe getConnection.
Proof.
  intros s. pose proof (getConnection_members s) as H. unfold wp in H. unfold defined.
  by destruct (getConnection s) as [[c|e|] s'].
Qed.

#[local] Hint Resolve getConnection_safe : defined.

Lemma authenticate_safe : safe authenticate.
Proof. unfold authenticate, authenticate_with, runCommand. solve_defined. Qed.

#[local] Hint Resolve authenticate_safe : defined.

Lemma reconnect_safe : safe reconnect.
Proof. unfold reconnect. solve_defined. Qed.

#[local] Hint Resolve reconnect_safe : defined.

Lemma markConsumed_safe ms : safe (RedisProducer_markConsumed ms).
Proof. unfold RedisProducer_markConsumed, check_reply, runCommand. solve_defined. Qed.

(** ** A failed authentication *)

Lemma rest_extends t c reply :
  preserves (extends t)
    (e ← get_err c;
     reply ← (if decide (e = REDIS_ERR_EOF \/ e = REDIS_ERR_IO)
              then reconnect ;; run_xrange c
              else mret reply);
     check_reply c reply ;;
     match reply with
     | None => throw (runtime_error "Failed to read from Redis: no details known")
     | Some p => lift (messagesFromReply (deref p))
     end).
Proof.
  unfold reconnect, authenticate, run_xrange, runCommand, check_reply, getConnection.
  cbn [getConnection_at]. unfold authenticate_with, runCommand. solve_preserves.
Qed.

(** With a connection held, reading starts with XRANGE on it. *)
Lemma getNext_held (s : st) c :
  connection_ (members s) = Some c ->
  exists r es, trace (getNext s).2 =
    trace s ++ Command c "XRANGE %s - + COUNT %u"
                 [arg_s "messages"; arg_u (chunkSize_ (members s))] r :: es.
Proof.
  intros Hc. cbn [getNext RedisProducer_producer]. unfold RedisProducer_getNext.
  unfold mbind at 1, prog_bind at 1. unfold getConnection. rewrite (getConnection_held 1 s c Hc).
  unfold mbind at 1, prog_bind at 1. destruct (run_xrange c s) as [o s1] eqn:Hx.
  assert (Hs1 : exists r, o = Value r /\ trace s1 = trace s ++
    [Command c "XRANGE %s - + COUNT %u" [arg_s "messages"; arg_u (chunkSize_ (members s))] r]).
  { unfold run_xrange, runCommand, mbind, prog_bind, gets, call in Hx.
    destruct (redisCommand _ _ _ _) as [r w]. injection Hx as <- <-. by exists r. }
  destruct Hs1 as (r & -> & Ht). destruct (rest_extends (trace s1) c r s1 (extends_refl s1)) as [es He].
  exists r, es. rewrite He, Ht, <-app_assoc. done.
Qed.

(** A connection whose authentication the server refused is kept: reading throws, and the next
    read starts with XRANGE on that connection, with no AUTH before it. *)
Theorem refused_authentication_kept (s : st) c w1 p w2 :
  let cfg := config_ (members s) in
  connection_ (members s) = None ->
  redisConnect (c_str (redis_host cfg)) (redis_port cfg) (world s) = (Some c, w1) ->
  err w1 c = REDIS_OK ->
  redisCommand c "AUTH %s %s"
    [arg_s (c_str (redis_user cfg)); arg_s (c_str (redis_password cfg))] w1 = (Some p, w2) ->
  err w2 c = REDIS_OK -> type (deref p) = REDIS_REPLY_ERROR ->
  let s1 := (getNext s).2 in
  (getNext s).1 = Throw (runtime_error ("Failed to authenticate in Redis: " +:+ c_str (str (deref p)))) /\
  connection_ (members s1) = Some c /\
  exists r es, trace (getNext s1).2 =
    trace s1 ++ Command c "XRANGE %s - + COUNT %u"
                  [arg_s "messages"; arg_u (chunkSize_ (members s1))] r :: es.
Proof.
  cbv zeta. intros Hn Hc He1 Ha He2 Ht.
  assert (exists t, getNext s =
    (Throw (runtime_error ("Failed to authenticate in Redis: " +:+ c_str (str (deref p)))),
     Env (set_connection (Some c) (members s)) w2 t)) as [t Hs].
  { cbn [getNext RedisProducer_producer]. unfold RedisProducer_getNext, getConnection.
    cbn [getConnection_at]. unfold authenticate_with, runCommand, mbind, prog_bind, gets, modify, call.
    rewrite Hn. cbn [world members trace set_members set_connection connection_ config_].
    rewrite Hc. cbn [world members trace]. rewrite He1. cbn [decide].
    destruct (decide (REDIS_OK <> REDIS_OK)) as [|_]; [done|].
    cbn [world members trace set_members set_connection connection_ config_ mret prog_ret].
    change (c_str "AUTH %s %s") with "AUTH %s %s". rewrite Ha. cbn [world members trace].
    rewrite He2. destruct (decide (REDIS_OK <> REDIS_OK)) as [|_]; [done|].
    unfold is_error_reply. rewrite bool_decide_true by done. by eexists. }
  rewrite Hs. cbn [fst snd]. split_and!; [done|done|]. by apply getNext_held.
Qed.

(** ** The contract of [IProducer], given the contract of the server *)

Section contract.
Context (stream : W -> list entry) `{!RedisServer W stream}.

(** The message [m] is the message of an entry of the stream. *)
Definition redis_stored (s : st) (m : Message) : Prop :=
  exists e, e ∈ stream (world s) /\ m = entry_message e.

Definition holds (e : entry) (s : st) : Prop := e ∈ stream (world s).

Lemma connect_holds e h p : preserves (holds e) (do_connect h p).
Proof. apply preserves_call. intros s. apply connect_keeps. Qed.

Lemma free_holds e c : preserves (holds e) (do_free c).
Proof. apply preserves_call. intros s. apply free_keeps. Qed.

Lemma do_reconnect_holds e c : preserves (holds e) (do_reconnect c).
Proof. apply preserves_call. intros s. apply reconnect_keeps. Qed.

Lemma auth_holds e c args : preserves (holds e) (runCommand c AUTH args).
Proof. apply preserves_call. intros s. apply command_keeps. by left. Qed.

Lemma xrange_holds e c args : preserves (holds e) (runCommand c XRANGE args).
Proof. apply preserves_call. intros s. apply command_keeps. by right. Qed.

Lemma set_connection_holds e c : preserves (holds e) (modify (set_members (set_connection c))).
Proof. by apply preserves_modify. Qed.

#[local] Hint Resolve connect_holds free_holds do_reconnect_holds auth_holds xrange_holds
  set_connection_holds : preserved.

Lemma getConnection_holds e : preserves (holds e) getConnection.
Proof.
  unfold getConnection. cbn [getConnection_at]. unfold authenticate_with. solve_preserves.
Qed.

#[local] Hint Resolve getConnection_holds : preserved.

Lemma reconnect_holds e : preserves (holds e) reconnect.
Proof. unfold reconnect, authenticate, authenticate_with. solve_preserves. Qed.

Lemma run_xrange_holds e c : preserves (holds e) (run_xrange c).
Proof. unfold run_xrange. solve_preserves. Qed.

Lemma check_reply_holds e c r : preserves (holds e) (check_reply c r).
Proof. unfold check_reply. solve_preserves. Qed.

#[local] Hint Resolve reconnect_holds run_xrange_holds check_reply_holds : preserved.

Lemma getNext_holds e : preserves (holds e) RedisProducer_getNext.
Proof. unfold RedisProducer_getNext. solve_preserves. Qed.

(** The chunk size never changes. *)
Definition chunk (k : Z) (s : st) : Prop := chunkSize_ (members s) = k.

Lemma chunk_call k {A} (f : W -> A * W) ev : preserves (chunk k) (call f ev).
Proof. by apply preserves_call. Qed.

Lemma chunk_connection k c : preserves (chunk k) (modify (set_members (set_connection c))).
Proof. by apply preserves_modify. Qed.

#[local] Hint Resolve chunk_call chunk_connection : preserved.

Lemma getConnection_chunk k : preserves (chunk k) getConnection.
Proof.
  unfold getConnection. cbn [getConnection_at]. unfold authenticate_with, runCommand.
  solve_preserves.
Qed.

#[local] Hint Resolve getConnection_chunk : preserved.

Lemma reconnect_chunk k : preserves (chunk k) reconnect.
Proof. unfold reconnect, authenticate, authenticate_with, runCommand. solve_preserves. Qed.

Lemma run_xrange_chunk k c : preserves (chunk k) (run_xrange c).
Proof. unfold run_xrange, runCommand. solve_preserves. Qed.

(** What is known of the answer to XRANGE. *)
Definition xrange_answer (k : Z) (reply : option replyPtr) (s : st) : Prop :=
  forall p, reply = Some p -> type (deref p) = REDIS_REPLY_ARRAY ->
    deref p = reply_stream (take (Z.to_nat k) (stream (world s))).

Lemma run_xrange_answer k c s :
  chunk k s -> wp (run_xrange c) (fun r s' => xrange_answer k r s' /\ chunk k s') (fun _ _ => True) s.
Proof.
  intros Hk. eapply (wp_mono _ (fun r s' => xrange_answer k r s' /\ chunk k s')); [|done..].
  apply (wp_invariant _ _ _ (fun _ _ => True)); [apply run_xrange_chunk|done|].
  unfold run_xrange, runCommand. wp_steps. rewrite Hk. intros p Hp Ht. by apply xrange_reply.
Qed.

Lemma check_reply_spec c r s :
  wp (check_reply c r)
    (fun _ s' => s' = s /\ err (world s) c = REDIS_OK /\ is_error_reply r = false)
    (fun _ s' => s' = s) s.
Proof.
  unfold check_reply. wp_steps. case_decide; [by wp_steps|].
  destruct (is_error_reply r) eqn:Hr; wp_steps; [done|].
  by split_and!.
Qed.

Lemma messagesFromReply_stream es :
  Forall entry_ok es -> messagesFromReply (reply_stream es) = Value (entry_message <$> es).
Proof.
  intros Hes. apply messagesFromEntries_spec. eapply Forall_impl; [exact Hes|]. unfold entry_ok. lia.
Qed.

(** Turning the answer into messages. *)
Lemma messagesFromReply_answer k p s :
  xrange_answer k (Some p) s ->
  match messagesFromReply (deref p) with
  | Value ms => ms = entry_message <$> take (Z.to_nat k) (stream (world s))
  | Throw _ => True
  | UB => False
  end.
Proof.
  intros Hr. destruct (decide (type (deref p) = REDIS_REPLY_ARRAY)) as [Ht|Ht].
  - rewrite (Hr p eq_refl Ht), messagesFromReply_stream; [done|apply Forall_take, stream_ok].
  - unfold messagesFromReply. by rewrite decide_True.
Qed.

Lemma getNext_spec k s :
  chunk k s ->
  wp RedisProducer_getNext
    (fun ms s' => ms = entry_message <$> take (Z.to_nat k) (stream (world s')))
    (fun _ _ => True) s.
Proof.
  intros Hk. unfold RedisProducer_getNext. apply wp_bind.
  eapply wp_mono; [apply (wp_invariant (chunk k)), safe_wp, getConnection_safe| |done];
    [apply getConnection_chunk|done|intros c s1 [_ Hk1]; cbn beta].
  apply wp_bind. eapply wp_mono; [by apply run_xrange_answer|intros r s2 [Hr Hk2]; cbn beta|done].
  apply wp_bind, wp_gets, wp_bind.
  eapply (wp_mono _ (xrange_answer k) _ (fun _ _ => True)).
  - case_decide; [|by apply wp_ret]. apply wp_bind.
    eapply wp_mono; [apply (wp_invariant (chunk k)), safe_wp, reconnect_safe| |done];
      [apply reconnect_chunk|done|intros _ s3 [_ Hk3]; cbn beta].
    eapply wp_mono; [by apply run_xrange_answer|by intros ? ? [? _]|done].
  - intros r' s3 Hr'. cbn beta. apply wp_bind.
    eapply wp_mono; [apply check_reply_spec|intros _ s4 (-> & _ & _); cbn beta|done].
    destruct r' as [p|]; [|by apply wp_throw]. pose proof (messagesFromReply_answer k p s3 Hr') as Hm.
    by destruct (messagesFromReply (deref p)) as [ms|e|].
  - done.
Qed.

(** Reading returns the messages of the first entries of the stream, as many as the chunk size
    says or all there are, with strictly ascending ids. *)
Theorem getNext_first_entries (s : st) (ms : Messages) :
  (RedisProducer_getNext s).1 = Value ms ->
  ms = entry_message <$> take (Z.to_nat (chunkSize_ (members s))) (stream (world (RedisProducer_getNext s).2)) /\
  StronglySorted id_lt ms.
Proof.
  intros H. pose proof (wp_value _ _ _ _ _ (getNext_spec _ s eq_refl) H) as Hm. split; [exact Hm|].
  rewrite Hm. set (w := world _). apply entry_messages_ascending.
  - apply (StronglySorted_app_1_l _ _ (drop (Z.to_nat (chunkSize_ (members s))) (stream w))).
    rewrite take_drop. apply stream_sorted.
  - apply Forall_take, stream_ok.
Qed.

Definition xdel_ids (ms : Messages) : list string := (fun m => xdel_id (id m)) <$> ms.

Lemma is_xdel_command ms : Forall in_u64 ms -> is_xdel (makeXdelCommand ms) (xdel_ids ms).
Proof.
  intros Hms. split; [by apply makeXdelCommand_no_percent|]. apply makeXdelCommand_words.
  eapply Forall_impl; [exact Hms|]. unfold in_u64. lia.
Qed.

(** An entry is among the ids of the command exactly when its message is among the messages. *)
Lemma entry_in_ids e ms :
  entry_ok e -> Forall in_u64 ms -> entry_id e ∈ xdel_ids ms <-> id (entry_message e) ∈ id <$> ms.
Proof.
  intros He Hms. rewrite <-(xdel_id_packed e He). unfold xdel_ids. rewrite !list_elem_of_fmap.
  assert (H0 : 0 <= pack_id (ts e) (seq e)) by (apply pack_id_nonneg; apply He).
  split.
  - intros (m & Hm & Hin). exists m. split; [|done]. apply xdel_id_inj; [done| |done].
    rewrite Forall_forall in Hms. by apply Hms.
  - intros (m & Hm & Hin). exists m. simpl in Hm. by rewrite Hm.
Qed.

Lemma xdel_holds e ms c :
  Forall in_u64 ms -> entry_id e ∉ xdel_ids ms ->
  preserves (holds e) (runCommand c (makeXdelCommand ms) []).
Proof.
  intros Hms He. apply preserves_call. intros s Hs. unfold holds. cbn.
  rewrite makeXdelCommand_c_str by done.
  eapply xdel_keeps; [by apply is_xdel_command|done|done].
Qed.

Lemma markConsumed_holds e ms :
  Forall in_u64 ms -> entry_id e ∉ xdel_ids ms -> preserves (holds e) (RedisProducer_markConsumed ms).
Proof.
  intros Hms He. pose proof (fun c => xdel_holds e ms c Hms He).
  unfold RedisProducer_markConsumed. cbv zeta. solve_preserves.
Qed.

(** What is known of the answer to XDEL. *)
Definition xdel_answer (ids : list string) (c : redisContext) (reply : option replyPtr) (s : st) : Prop :=
  match reply with
  | None => err (world s) c <> REDIS_OK
  | Some p => type (deref p) <> REDIS_REPLY_ERROR ->
              forall e, e ∈ stream (world s) -> entry_id e ∉ ids
  end.

Lemma xdel_answer_spec ms c s :
  Forall in_u64 ms ->
  wp (runCommand c (makeXdelCommand ms) []) (xdel_answer (xdel_ids ms) c) (fun _ _ => True) s.
Proof.
  intros Hms. unfold runCommand. rewrite makeXdelCommand_c_str by done. wp_steps. unfold xdel_answer.
  destruct (redisCommand _ _ _ _).1 as [p|] eqn:Hr; cbn; [|by apply command_null].
  intros Ht e He. eapply xdel_deletes; [by apply is_xdel_command|exact Hr|done|done].
Qed.

Lemma markConsumed_spec ms s :
  Forall in_u64 ms ->
  wp (RedisProducer_markConsumed ms)
    (fun _ s' => forall e, e ∈ stream (world s') -> entry_id e ∉ xdel_ids ms) (fun _ _ => True) s.
Proof.
  intros Hms. unfold RedisProducer_markConsumed. cbv zeta. apply wp_bind.
  eapply wp_mono; [apply safe_wp, getConnection_safe|intros c s1 _; cbn beta|done].
  apply wp_bind. eapply wp_mono; [by apply xdel_answer_spec|intros r s2 Hr; cbn beta|done].
  apply wp_bind, wp_gets, wp_bind.
  eapply (wp_mono _ (xdel_answer (xdel_ids ms) c) _ (fun _ _ => True)).
  - case_decide; [|by apply wp_ret]. apply wp_bind.
    eapply wp_mono; [apply safe_wp, reconnect_safe|intros _ s3 _|done]. by apply xdel_answer_spec.
  - intros r' s3 Hr'. cbn beta.
    eapply wp_mono; [apply check_reply_spec|intros _ s4 (-> & Hc & Hn); cbn beta|done].
    destruct r' as [p|]; [|done]. apply Hr'. intros Ht. unfold is_error_reply in Hn.
    by rewrite bool_decide_eq_false in Hn.
  - done.
Qed.

(** Entries with the same id are the same entry of a stream. *)
Lemma sorted_id (l : list entry) e1 e2 :
  StronglySorted entry_lt l -> e1 ∈ l -> e2 ∈ l -> ts e1 = ts e2 -> seq e1 = seq e2 -> e1 = e2.
Proof.
  intros Hl. induction Hl as [|e l Hl IH He]; [by rewrite elem_of_nil|].
  rewrite Forall_forall in He. rewrite !elem_of_cons. unfold entry_lt in He.
  intros [->|H1] [->|H2] Ht Hs; [done| | |by apply IH].
  - specialize (He e2 H2). lia.
  - specialize (He e1 H1). lia.
Qed.

Lemma entry_message_id e1 e2 :
  entry_ok e1 -> entry_ok e2 -> id (entry_message e1) = id (entry_message e2) ->
  ts e1 = ts e2 /\ seq e1 = seq e2.
Proof.
  intros [Ht1 Hs1] [Ht2 Hs2] H. cbn in H. split.
  - by rewrite <-(pack_ts (ts e1) (seq e1)), H, pack_ts.
  - by rewrite <-(pack_seq (ts e1) (seq e1)), H, pack_seq.
Qed.

(** The contract of [IProducer], as the instance the main loop uses. *)
#[export] Instance RedisProducer_laws : ProducerLaws st redis_stored.
Proof.
  split.
  - intros p m1 m2 (e1 & H1 & ->) (e2 & H2 & ->) Hid.
    pose proof (stream_ok (world p)) as Hok. rewrite Forall_forall in Hok.
    destruct (entry_message_id e1 e2) as [Ht Hs]; [by apply Hok|by apply Hok|done|].
    f_equal. by apply (sorted_id (stream (world p))); [apply stream_sorted|..].
  - intros p m (e & He & ->). exists e. split; [|done]. by apply (getNext_holds e).
  - intros p ms H. pose proof (wp_value _ _ _ _ _ (getNext_spec _ p eq_refl) H) as Hn.
    change (RedisProducer_getNext p) with (getNext p) in Hn. rewrite Hn. set (s' := (getNext p).2).
    apply Forall_forall. intros m (e & -> & He)%list_elem_of_fmap.
    pose proof (stream_ok (world s')) as Hok. rewrite Forall_forall in Hok.
    assert (e ∈ stream (world s')) as Hin.
    { apply elem_of_take in He as (i & He & _). by eapply list_elem_of_lookup_2. }
    split; [by exists e|]. apply pack_id_bound. specialize (Hok e Hin). unfold entry_ok in Hok. lia.
  - intros p. apply (wp_defined _ _ _ _ (getNext_spec _ p eq_refl)).
  - intros p ms m Hms _ (e & He & ->) Hid. exists e. split; [|done].
    apply (markConsumed_holds e ms Hms); [|done]. rewrite entry_in_ids; [done| |done].
    pose proof (stream_ok (world p)) as Hok. rewrite Forall_forall in Hok. by apply Hok.
  - intros p ms m Hms Hne H (e & He & ->).
    pose proof (wp_value _ _ _ _ _ (markConsumed_spec ms p Hms) H e He) as Hs.
    rewrite entry_in_ids in Hs; [done| |done]. pose proof (stream_ok (world (markConsumed ms p).2)) as Hok.
    rewrite Forall_forall in Hok. by apply Hok.
  - intros ms _. apply markConsumed_safe.
Qed.

End contract.
End producer.

(** ** Instances on the reference server *)

Definition sample_entry : entry := mkEntry 1662737151107 0 [("data", "hello")].

Definition sample_state (auth : bool) : env RedisProducer reference redis_event :=
  Env (mkRedisProducer (mkRedisConfig "127.0.0.1" 6379 "user" "123") 1000 None)
    (mkReference [sample_entry] auth) [].

Example getNext_sample :
  (getNext (sample_state true)).1 =
  Value [mkMessage (1662737151107 * 2 ^ 22) [104; 101; 108; 108; 111]].
Proof. vm_compute. reflexivity. Qed.

Example markConsumed_sample :
  let s := (getNext (sample_state true)).2 in
  let r := markConsumed [mkMessage (1662737151107 * 2 ^ 22) []] s in
  r.1 = Value tt /\ entries (world r.2) = [].
Proof. vm_compute. split; reflexivity. Qed.

Lemma refused_authentication_kept_witness :
  let s1 := (getNext (sample_state false)).2 in
  (getNext (sample_state false)).1 = Throw (runtime_error "Failed to authenticate in Redis: ERR") /\
  connection_ (members s1) = Some 1%positive /\
  exists r es, trace (getNext s1).2 =
    trace s1 ++ Command 1 "XRANGE %s - + COUNT %u"
                  [arg_s "messages"; arg_u (chunkSize_ (members s1))] r :: es.
Proof.
  exact (refused_authentication_kept (sample_state false) 1 (mkReference [sample_entry] false)
           (mkReplyPtr 1 reply_error) (mkReference [sample_entry] false)
           eq_refl eq_refl eq_refl eq_refl eq_refl eq_refl).
Defined.

Lemma getNext_first_entries_witness :
  [mkMessage (1662737151107 * 2 ^ 22) [104; 101; 108; 108; 111]] =
    entry_message <$> take (Z.to_nat 1000) (reference_stream (world (getNext (sample_state true)).2)) /\
  StronglySorted id_lt [mkMessage (1662737151107 * 2 ^ 22) [104; 101; 108; 108; 111]].
Proof. exact (getNext_first_entries reference_stream (sample_state true) _ getNext_sample). Defined.

