(* ===== verification/Pqxx.v ===== *)
(** * The libpqxx library as the code uses it

    libpqxx is not part of the repository: its functions are the methods of [Pqxx], over an arbitrary
    state [W] of the library, the connections and the database. A call that throws answers [inl].
    [PostgresServer] states what the producer and the writer need of a database with the table of
    messages; it is a hypothesis of the theorems that use it, and [reference_db] keeps it. *)

From S2P Require Import Prelude Message.

(** The address of a [pqxx::connection], and a [pqxx::work]. *)
Abbreviation connection := positive.
Abbreviation work := positive.

(** A parameter of a statement: bytes, or an unsigned number. *)
Inductive sql_param : Type :=
| param_bytes (bs : list Z)
| param_uint (n : Z).

Class Pqxx (W row : Type) : Type := {
  (** [pqxx::connection(string)] *)
  pqxx_connect : string -> W -> (exn + connection) * W;
  (** [pqxx::work{connection}] and its destructor *)
  pqxx_work : connection -> W -> (exn + work) * W;
  work_end : work -> W -> W;
  exec_params : work -> string -> sql_param -> W -> (exn + list row) * W;
  exec : work -> string -> W -> (exn + list row) * W;
  commit : work -> W -> (exn + unit) * W;
  (** [row[i].as<uint64_t>()] and [pqxx::binarystring(row[i])] *)
  as_u64 : row -> nat -> exn + Z;
  binarystring : row -> nat -> exn + list Z
}.

(** The calls of a component, with the library's answers. *)
Inductive pg_event (row : Type) : Type :=
| PgConnect (connectionString : string) (r : exn + connection)
| PgWork (c : connection) (r : exn + work)
| PgWorkEnd (t : work)
| PgExecParams (t : work) (query : string) (p : sql_param) (r : exn + list row)
| PgExec (t : work) (query : string) (r : exn + list row)
| PgCommit (t : work) (r : exn + unit).
Arguments PgConnect {row}.
Arguments PgWork {row}.
Arguments PgWorkEnd {row}.
Arguments PgExecParams {row}.
Arguments PgExec {row}.
Arguments PgCommit {row}.

(** The calls as statements of a component. *)
Abbreviation do_pg_connect cs := (call_throwing (pqxx_connect cs) (PgConnect cs)).
Abbreviation do_work c := (call_throwing (pqxx_work c) (PgWork c)).
Abbreviation do_exec_params t q p := (call_throwing (exec_params t q p) (PgExecParams t q p)).
Abbreviation do_exec t q := (call_throwing (exec t q) (PgExec t q)).
Abbreviation do_commit t := (call_throwing (commit t) (PgCommit t)).

(** The destructor of a [work], as the end of its scope. *)
Definition end_work {M W row} `{!Pqxx W row} (t : work) (s : env M W (pg_event row)) :
    env M W (pg_event row) :=
  Env s.(members) (work_end t s.(world)) (s.(trace) ++ [PgWorkEnd t]).

(** ** The database *)

(** The query is a deletion of the messages with the ids [ids]. *)
Definition is_delete (query : string) (ids : list Z) : Prop :=
  Forall (fun i => 0 <= i) ids /\
  exists body, query = "DELETE FROM messages WHERE id IN (" +:+ body +:+ ")" /\
               (of_chars <$> split_on ","%char (chars body)) = dec <$> ids.

Definition SELECT_MESSAGES : string := "SELECT id, data FROM messages ORDER BY id ASC LIMIT ($1)".

Class PostgresServer (W row : Type) `{!Pqxx W row}
    (table : W -> Messages) (pending : W -> work -> list Z) (gone : W -> Z -> Prop) : Prop := {
  (** The rows in the order of their ids, which are [BIGSERIAL] keys. *)
  table_sorted : forall w, StronglySorted id_lt (table w);
  table_ids : forall w, Forall in_u64 (table w);
  (** Connecting, opening and closing a transaction and running a statement change no committed
      row. [pending w t] are the ids the open transaction [t] deletes when it is committed. *)
  pg_connect_keeps : forall cs w m, m ∈ table w -> m ∈ table (pqxx_connect cs w).2;
  work_keeps : forall c w m, m ∈ table w -> m ∈ table (pqxx_work c w).2;
  work_pending : forall c w t, (pqxx_work c w).1 = inr t -> pending (pqxx_work c w).2 t = [];
  work_end_keeps : forall t w m, m ∈ table w -> m ∈ table (work_end t w);
  exec_params_keeps : forall t q p w m, m ∈ table w -> m ∈ table (exec_params t q p w).2;
  exec_keeps : forall t q w m, m ∈ table w -> m ∈ table (exec t q w).2;
  exec_pending : forall t q w ids,
    is_delete q ids ->
    forall i, i ∈ pending (exec t q w).2 t -> i ∈ ids \/ i ∈ pending w t;
  exec_pending_all : forall t q w ids rows,
    is_delete q ids -> (exec t q w).1 = inr rows -> forall i, i ∈ ids -> i ∈ pending (exec t q w).2 t;
  (** The answer to the selection: the first rows, with their ids and data. *)
  select_answer : forall t n w rows,
    (exec_params t SELECT_MESSAGES (param_uint n) w).1 = inr rows ->
    Forall2 (fun r m => as_u64 r 0 = inr (id m) /\ binarystring r 1 = inr (data m)) rows
      (take (Z.to_nat n) (table (exec_params t SELECT_MESSAGES (param_uint n) w).2));
  (** Committing deletes no other row than the pending ones, even when it fails and the outcome is
      in doubt, and all of them when it succeeds. [gone w i]: the row with the id [i] was deleted; the
      sequence behind the key gives no id twice. *)
  commit_keeps : forall t w m, m ∈ table w -> id m ∉ pending w t -> m ∈ table (commit t w).2;
  commit_gone : forall t w, (commit t w).1 = inr tt ->
    forall i, i ∈ pending w t -> gone (commit t w).2 i;
  work_end_gone : forall t w i, gone w i -> gone (work_end t w) i;
  gone_absent : forall w i, gone w i -> i ∉ id <$> table w
}.

(** ** A reference database *)

(** The rows, the ids the open transaction deletes, and the ids deleted so far. *)
Record reference_db : Type := mkReferenceDb { rows : Messages; opened : list Z; dead : list Z }.

#[export] Instance id_lt_dec : RelDecision id_lt.
Proof. intros m1 m2. unfold id_lt. apply _. Defined.
#[export] Instance in_u64_dec m : Decision (in_u64 m).
Proof. unfold in_u64. apply _. Defined.

(** The rows when they form a table the contract describes. *)
Definition reference_table (w : reference_db) : Messages :=
  if decide (StronglySorted id_lt (rows w) /\ Forall in_u64 (rows w)) then rows w else [].

Definition reference_pending (w : reference_db) (t : work) : list Z := opened w.

Definition reference_gone (w : reference_db) (i : Z) : Prop :=
  i ∈ dead w /\ i ∉ id <$> reference_table w.

(** The ids of a deletion, read from its text. *)
Definition deleted_ids (query : string) : list Z :=
  chars_value <$> split_on ","%char
    (removelast (drop (String.length "DELETE FROM messages WHERE id IN (") (chars query))).

#[export] Instance reference_pqxx : Pqxx reference_db Message := {|
  pqxx_connect _ w := (inr 1%positive, w);
  pqxx_work _ w := (inr 1%positive, mkReferenceDb (rows w) [] (dead w));
  work_end _ w := w;
  exec_params _ q p w :=
    match p with
    | param_uint n => (inr (take (Z.to_nat n) (reference_table w)), w)
    | param_bytes _ => (inr [], w)
    end;
  exec _ q w := (inr [], mkReferenceDb (rows w) (deleted_ids q) (dead w));
  commit _ w :=
    (inr tt, mkReferenceDb (filter (fun m => id m ∉ opened w) (reference_table w)) []
               (opened w ++ dead w));
  as_u64 r n := inr (id r);
  binarystring r n := inr (data r)
|}.

Lemma reference_table_good w :
  StronglySorted id_lt (reference_table w) /\ Forall in_u64 (reference_table w).
Proof. unfold reference_table. case_decide; [done|]. split; constructor. Qed.

Lemma reference_table_filter w (P : Message -> Prop) `{!forall x, Decision (P x)} o d :
  reference_table (mkReferenceDb (filter P (reference_table w)) o d) = filter P (reference_table w).
Proof.
  unfold reference_table at 1. simpl. apply decide_True. destruct (reference_table_good w) as [Hs Ho].
  split; [by apply StronglySorted_filter|]. rewrite Forall_forall in *.
  intros m [_ Hm]%list_elem_of_filter. by apply Ho.
Qed.

Lemma deleted_ids_spec query ids : is_delete query ids -> deleted_ids query = ids.
Proof.
  intros (Hids & body & -> & Hb). unfold deleted_ids. rewrite !chars_app.
  rewrite drop_app_length' by done.
  change (chars ")") with [")"%char]. rewrite removelast_last.
  apply (f_equal (fmap (fun s => chars_value (chars s)))) in Hb.
  rewrite <-!list_fmap_compose in Hb.
  transitivity ((fun s => chars_value (chars s)) ∘ of_chars <$> split_on ","%char (chars body)).
  - apply list_fmap_ext. intros i x _. unfold compose. by rewrite chars_of_chars.
  - rewrite Hb. clear Hb. induction Hids as [|i ids Hi _ IH]; [done|].
    rewrite fmap_cons, IH. unfold compose. by rewrite dec_value.
Qed.

#[export] Instance reference_db_server :
  PostgresServer reference_db Message reference_table reference_pending reference_gone.
Proof.
  split; try done.
  - intros w. apply reference_table_good.
  - intros w. apply reference_table_good.
  - intros t q [bs|n] w m; done.
  - intros t q w ids Hd i Hi. left. by rewrite <-(deleted_ids_spec _ _ Hd).
  - intros t q w ids rs Hd _ i Hi. by rewrite <-(deleted_ids_spec _ _ Hd) in Hi.
  - intros t n w rs. cbn. intros [= <-]. by apply Forall_Forall2_diag, Forall_true.
  - intros t w m Hm Hp. cbn. rewrite reference_table_filter. by apply list_elem_of_filter.
  - intros t w _ i Hi. split; [cbn; set_solver|]. cbn. rewrite reference_table_filter.
    rewrite list_elem_of_fmap. intros (m & -> & [Hm _]%list_elem_of_filter). done.
  - by intros w i [_ H].
Qed.
