(* ===== verification/PostgresProducer.v ===== *)
(** * The PostgreSQL producer (gwback/src/producer/postgres_producer) *)

From S2P Require Import Prelude CommonConfig BackConfig Message Pqxx.

Definition MESSAGES_TABLE : string := "messages".

(** The data members. *)
Record PostgresProducer : Type := mkPostgresProducer {
  connectionString_ : string;
  chunkSize_ : Z;
  connection_ : option connection
}.

Definition set_connection (c : option connection) (p : PostgresProducer) : PostgresProducer :=
  mkPostgresProducer (connectionString_ p) (chunkSize_ p) c.

(** The constructor. *)
Definition PostgresProducer_init (postgresConfig : PostgresConfig) (producerConfig : ProducerConfig) :
    PostgresProducer :=
  mkPostgresProducer (connectionString postgresConfig) (producer_chunkSize producerConfig) None.

(** The text of the deletion. [messages.size() - 1] of an empty vector is the largest [size_t], and
    the loop then reads past the end. *)
Definition delete_query (messages : Messages) : outcome string :=
  match list.last messages with
  | None => UB
  | Some back =>
      mret (fold_left (fun query m => query +:+ dec (id m) +:+ ",") (removelast messages)
              ("DELETE FROM " +:+ MESSAGES_TABLE +:+ " WHERE id IN (")
            +:+ dec (id back) +:+ ")")
  end.

Section producer.
Context {W row : Type} `{!Pqxx W row}.

Abbreviation st := (env PostgresProducer W (pg_event row)).

Definition getConnection : prog st connection :=
  held ← gets (fun s => connection_ (members s));
  match held with
  | Some c => mret c
  | None =>
      cs ← gets (fun s => connectionString_ (members s));
      c ← do_pg_connect cs;
      modify (set_members (set_connection (Some c))) ;;
      mret c
  end.

(** The loop of [getNext] over the rows. *)
Fixpoint messages_of_rows (rows : list row) : outcome Messages :=
  match rows with
  | [] => mret []
  | r :: rows' =>
      i ← of_sum (as_u64 r 0);
      d ← of_sum (binarystring r 1);
      ms ← messages_of_rows rows';
      mret (mkMessage i d :: ms)
  end.

Definition PostgresProducer_getNext : prog st Messages :=
  c ← getConnection;
  t ← do_work c;
  scoped
    (let query := "SELECT id, data FROM " +:+ MESSAGES_TABLE +:+ " ORDER BY id ASC LIMIT ($1)" in
     chunk ← gets (fun s => chunkSize_ (members s));
     rows ← do_exec_params t query (param_uint chunk);
     lift (messages_of_rows rows))
    (end_work t).

Definition PostgresProducer_markConsumed (messages : Messages) : prog st unit :=
  c ← getConnection;
  t ← do_work c;
  scoped
    (query ← lift (delete_query messages);
     do_exec t query ;;
     do_commit t)
    (end_work t).

#[export] Instance PostgresProducer_producer : IProducer st := {|
  getNext := PostgresProducer_getNext;
  markConsumed := PostgresProducer_markConsumed
|}.
End producer.

(** ** The text of the deletion *)

Lemma chars_delete_fold ms acc :
  chars (fold_left (fun query m => query +:+ dec (id m) +:+ ",") ms acc) =
  chars acc ++ flat_map (fun m => chars (dec (id m)) ++ [","%char]) ms.
Proof.
  revert acc. induction ms as [|m ms IH]; intros acc; cbn -[chars].
  - by rewrite app_nil_r.
  - rewrite IH, !chars_app, <-!app_assoc. done.
Qed.

Lemma split_delete ms m :
  Forall in_u64 (ms ++ [m]) ->
  split_on ","%char (flat_map (fun m => chars (dec (id m)) ++ [","%char]) ms ++ chars (dec (id m))) =
  (fun m => chars (dec (id m))) <$> (ms ++ [m]).
Proof.
  induction ms as [|m' ms IH]; intros Hms; cbn [app flat_map fmap list_fmap].
  - rewrite split_on_none; [done|]. apply dec_no_char; [done|].
    apply Forall_cons in Hms as [[? _] _]. done.
  - apply Forall_cons in Hms as [[? _] Hms]. rewrite <-!app_assoc. cbn [app].
    rewrite split_on_app by (by apply dec_no_char). f_equal. by apply IH.
Qed.

(** The ids between the parentheses of the deletion are the ids of the messages. *)
Lemma delete_query_ids ms :
  ms <> [] -> Forall in_u64 ms ->
  exists query, delete_query ms = Value query /\ is_delete query (id <$> ms).
Proof.
  intros Hne Hms. assert (Hids : Forall (fun i => 0 <= i) (id <$> ms)).
  { apply Forall_fmap. eapply Forall_impl; [exact Hms|]. unfold in_u64, compose. lia. } destruct ms as [|m ms _] using rev_ind; [done|]. unfold delete_query.
  rewrite last_snoc, removelast_last. eexists. split; [reflexivity|].
  split; [exact Hids|]. exists (of_chars (flat_map (fun m => chars (dec (id m)) ++ [","%char]) ms ++ chars (dec (id m)))).
  split.
  - apply chars_inj. rewrite !chars_app, chars_delete_fold, chars_of_chars, !chars_app, <-!app_assoc.
    done.
  - rewrite chars_of_chars, split_delete by done. rewrite <-!list_fmap_compose.
    apply list_fmap_ext. intros i x _. apply of_chars_chars.
Qed.

(** ** The contract of [IProducer], given the contract of the database *)

Section contract.
Context {W row : Type} `{!Pqxx W row} (table : W -> Messages) (pending : W -> work -> list Z)
  (gone : W -> Z -> Prop) `{!PostgresServer W row table pending gone}.

Abbreviation st := (env PostgresProducer W (pg_event row)).

(** The message is a row of the table. *)
Definition pg_stored (s : st) (m : Message) : Prop := m ∈ table (world s).

Definition holds (m : Message) (s : st) : Prop := m ∈ table (world s).

Definition chunk (k : Z) (s : st) : Prop := chunkSize_ (members s) = k.

Lemma pg_connect_holds m cs : preserves (holds m) (do_pg_connect cs).
Proof. apply preserves_call_throwing. intros s. apply pg_connect_keeps. Qed.

Lemma pg_work_holds m c : preserves (holds m) (do_work c).
Proof. apply preserves_call_throwing. intros s. apply work_keeps. Qed.

Lemma pg_exec_params_holds m t q p : preserves (holds m) (do_exec_params t q p).
Proof. apply preserves_call_throwing. intros s. apply exec_params_keeps. Qed.

Lemma pg_set_connection_holds m c : preserves (holds m) (modify (set_members (set_connection c))).
Proof. by apply preserves_modify. Qed.

Lemma pg_end_work_holds {A} m t (p : prog st A) :
  preserves (holds m) p -> preserves (holds m) (scoped p (end_work t)).
Proof. intros Hp. apply preserves_scoped; [done|]. intros s. apply work_end_keeps. Qed.

#[local] Hint Resolve pg_connect_holds pg_work_holds pg_exec_params_holds pg_set_connection_holds : preserved.

Lemma pg_getConnection_holds m : preserves (holds m) getConnection.
Proof. unfold getConnection. solve_preserves. Qed.

#[local] Hint Resolve pg_getConnection_holds : preserved.

Lemma pg_getNext_holds m : preserves (holds m) PostgresProducer_getNext.
Proof.
  unfold PostgresProducer_getNext. repeat (apply preserves_bind; [solve_preserves|intros]).
  apply pg_end_work_holds. solve_preserves.
Qed.

Lemma pg_getConnection_spec k s :
  chunk k s -> wp getConnection (fun _ s' => chunk k s') (fun _ _ => True) s.
Proof.
  intros Hk. unfold getConnection. wp_steps. case_match; wp_steps; [done|].
  apply wp_call_throwing; [intros c _|done]. by wp_steps.
Qed.

Lemma messages_of_rows_spec rows ms :
  Forall2 (fun r m => as_u64 r 0 = inr (id m) /\ binarystring r 1 = inr (data m)) rows ms ->
  messages_of_rows rows = Value ms.
Proof.
  induction 1 as [|r m rows ms [Hi Hd] _ IH]; [done|]. simpl. rewrite Hi, Hd. cbn. rewrite IH.
  cbn. by destruct m.
Qed.

Lemma pg_getNext_spec k s :
  chunk k s ->
  wp PostgresProducer_getNext
    (fun ms s' => exists w, ms = take (Z.to_nat k) (table w) /\
                  forall m, m ∈ table w -> m ∈ table (world s'))
    (fun _ _ => True) s.
Proof.
  intros Hk. unfold PostgresProducer_getNext. cbv zeta. apply wp_bind.
  eapply wp_mono; [by apply pg_getConnection_spec|intros c s1 Hk1; cbn beta|done].
  apply wp_bind, wp_call_throwing; [intros t _|done]. apply wp_scoped. wp_steps.
  rewrite Hk1. apply wp_call_throwing; [intros rows Hr|done].
  cbn [world members trace] in *. unfold wp, lift.
  rewrite (messages_of_rows_spec _ _ (select_answer _ _ _ _ Hr)).
  eexists. split; [done|]. intros m. apply work_end_keeps.
Qed.

(** Reading returns the messages of the first rows of the table, as many as the chunk size says
    or all there are, with strictly ascending ids. *)
Theorem getNext_first_rows (s : st) (ms : Messages) :
  (PostgresProducer_getNext s).1 = Value ms ->
  (exists w, ms = take (Z.to_nat (chunkSize_ (members s))) (table w) /\
             forall m, m ∈ table w -> m ∈ table (world (PostgresProducer_getNext s).2)) /\
  StronglySorted id_lt ms.
Proof.
  intros H. destruct (wp_value _ _ _ _ _ (pg_getNext_spec _ s eq_refl) H) as (w & Hm & Hw).
  split; [by exists w|]. rewrite Hm.
  apply (StronglySorted_app_1_l _ _ (drop (Z.to_nat (chunkSize_ (members s))) (table w))).
  rewrite take_drop. apply table_sorted.
Qed.

Lemma pg_getNext_safe : safe PostgresProducer_getNext.
Proof. intros s. apply (wp_defined _ _ _ _ (pg_getNext_spec _ s eq_refl)). Qed.

(** ** Deleting *)

(** The open transaction [t] deletes rows with the ids [ids] only. *)
Definition deletes_only (t : work) (ids : list Z) (s : st) : Prop :=
  forall i, i ∈ pending (world s) t -> i ∈ ids.

Lemma pg_markConsumed_holds m ms :
  Forall in_u64 ms -> ms <> [] -> id m ∉ id <$> ms ->
  preserves (holds m) (PostgresProducer_markConsumed ms).
Proof.
  intros Hms Hne Hid. destruct (delete_query_ids ms Hne Hms) as (q & Hq & Hd).
  unfold PostgresProducer_markConsumed. apply preserves_bind; [apply pg_getConnection_holds|intros c].
  intros s Hs. unfold mbind, prog_bind, call_throwing at 1.
  pose proof (work_keeps c (world s) m Hs) as H1.
  pose proof (work_pending (row := row) c (world s)) as H2.
  destruct (pqxx_work c (world s)) as [[e|t] w1]; [exact H1|]. specialize (H2 t eq_refl).
  cbn in H1, H2. cbn [of_sum]. rewrite Hq. unfold scoped, lift, call_throwing. cbn [world members trace].
  pose proof (exec_keeps t q w1 m H1) as H3. pose proof (exec_pending t q w1 _ Hd) as H4.
  rewrite H2 in H4. destruct (exec t q w1) as [[e|rows] w2]; cbn in H3, H4 |- *.
  { by apply work_end_keeps. }
  assert (Hp : id m ∉ pending w2 t).
  { intros Hp. apply H4 in Hp as [Hp|Hp]; [done|by apply elem_of_nil in Hp]. }
  pose proof (commit_keeps t w2 m H3 Hp) as H5.
  by destruct (commit t w2) as [[e|[]] w3]; apply work_end_keeps.
Qed.

Lemma pg_markConsumed_spec ms s :
  Forall in_u64 ms -> ms <> [] ->
  wp (PostgresProducer_markConsumed ms)
    (fun _ s' => forall i, i ∈ id <$> ms -> gone (world s') i) (fun _ _ => True) s.
Proof.
  intros Hms Hne. destruct (delete_query_ids ms Hne Hms) as (q & Hq & Hd).
  unfold PostgresProducer_markConsumed. apply wp_bind.
  eapply wp_mono; [by apply pg_getConnection_spec|intros c s1 _; cbn beta|done].
  apply wp_bind, wp_call_throwing; [intros t Ht|done]. apply wp_scoped, wp_bind. rewrite Hq.
  apply wp_lift_value, wp_bind, wp_call_throwing; [intros rows Hr|done].
  apply wp_call_throwing; [intros [] Hc|done]. cbn [world members trace end_work] in *.
  intros i Hi. apply work_end_gone, commit_gone; [done|]. by eapply exec_pending_all.
Qed.

Lemma pg_markConsumed_safe ms : ms <> [] -> safe (PostgresProducer_markConsumed (row := row) ms).
Proof.
  intros Hne. destruct ms as [|m ms _] using rev_ind; [done|].
  unfold PostgresProducer_markConsumed, getConnection, delete_query.
  rewrite last_snoc. solve_defined.
Qed.

Lemma sorted_message_id (l : Messages) m1 m2 :
  StronglySorted id_lt l -> m1 ∈ l -> m2 ∈ l -> id m1 = id m2 -> m1 = m2.
Proof.
  intros Hl. induction Hl as [|m l Hl IH Hm]; [by rewrite elem_of_nil|].
  rewrite Forall_forall in Hm. rewrite !elem_of_cons. unfold id_lt in Hm.
  intros [->|H1] [->|H2] Hid; [done| | |by apply IH].
  - specialize (Hm m2 H2). lia.
  - specialize (Hm m1 H1). lia.
Qed.

(** The contract of [IProducer], as the instance the main loop uses. *)
#[export] Instance PostgresProducer_laws : ProducerLaws st pg_stored.
Proof.
  split.
  - intros p m1 m2 H1 H2. by apply (sorted_message_id (table (world p))); [apply table_sorted|..].
  - intros p m. apply (pg_getNext_holds m).
  - intros p ms H. destruct (wp_value _ _ _ _ _ (pg_getNext_spec _ p eq_refl) H) as (w & -> & Hw).
    apply Forall_take, Forall_forall. intros m Hm. split; [by apply Hw|].
    pose proof (table_ids w) as Hi. rewrite Forall_forall in Hi. by apply Hi.
  - apply pg_getNext_safe.
  - intros p ms m Hms Hne Hm Hid. by apply (pg_markConsumed_holds m ms Hms Hne Hid).
  - intros p ms m Hms Hne H Hm Hid.
    pose proof (wp_value _ _ _ _ _ (pg_markConsumed_spec ms p Hms Hne) H _ Hid) as Hg.
    apply gone_absent in Hg. apply Hg. by apply list_elem_of_fmap_2.
  - apply pg_markConsumed_safe.
Qed.

(** C17: the PostgreSQL producer keeps the contract of [IProducer], given the contract of the
    database: an id names one message, reading returns rows of the table and deletes nothing,
    marking deletes no other row than the given ones even when it throws, deletes all of them when
    it returns, and neither runs into undefined behaviour. *)
Theorem PostgresProducer_contract : ProducerLaws st pg_stored.
Proof. apply _. Qed.
End contract.

(** ** Instances on the reference database *)

Definition sample_db : reference_db :=
  mkReferenceDb [mkMessage 3 [104; 105]; mkMessage 7 []; mkMessage 8 [10]] [] [].

Definition sample_state : env PostgresProducer reference_db (pg_event Message) :=
  Env (mkPostgresProducer "host=db" 2 None) sample_db [].

Example pg_getNext_sample : (getNext sample_state).1 = Value [mkMessage 3 [104; 105]; mkMessage 7 []].
Proof. vm_compute. reflexivity. Qed.

Example pg_markConsumed_sample :
  let r := markConsumed [mkMessage 3 []; mkMessage 7 []] sample_state in
  r.1 = Value tt /\ rows (world r.2) = [mkMessage 8 [10]].
Proof. vm_compute. split; reflexivity. Qed.

Lemma getNext_first_rows_witness :
  (exists w, [mkMessage 3 [104; 105]; mkMessage 7 []] = take (Z.to_nat 2) (reference_table w) /\
             forall m, m ∈ reference_table w -> m ∈ reference_table (world (getNext sample_state).2)) /\
  StronglySorted id_lt [mkMessage 3 [104; 105]; mkMessage 7 []].
Proof.
  exact (getNext_first_rows reference_table reference_pending reference_gone sample_state _
           pg_getNext_sample).
Defined.

Lemma PostgresProducer_contract_witness :
  ProducerLaws (env PostgresProducer reference_db (pg_event Message)) (pg_stored reference_table).
Proof. exact (PostgresProducer_contract reference_table reference_pending reference_gone). Defined.
