(* ===== verification/ChunkFile.v ===== *)
(** * Writing a chunk to its file (gwback/src/consumer/consumer.cpp, [saveMessages])

    The first part is the function as one call: the file name, the stream, the content. The stream of
    the standard library holds bytes back until it is flushed, and the device may take only some of
    them. The second part is the threads that run the function at the same time: every flush of every
    stream is a step of its own, and any thread may be stopped at any step when the program ends. *)

From stdpp Require Import relations.
From S2P Require Import Prelude Message.

(** ** Files and streams *)

(** The contents, the paths that can be opened for writing, and how many bytes the device takes for a
    file ([None]: as many as come). *)
Record filesystem : Type := mkFilesystem {
  files : gmap string (list Z);
  writable : string -> bool;
  capacity : string -> option nat
}.

Definition set_file (path : string) (bytes : list Z) (fs : filesystem) : filesystem :=
  mkFilesystem (<[path := bytes]> (files fs)) (writable fs) (capacity fs).

(** What the device keeps of a file with this content. *)
Definition fitting (fs : filesystem) (path : string) (bytes : list Z) : list Z :=
  match capacity fs path with None => bytes | Some k => take k bytes end.

(** A [std::ofstream] that was opened: its place in the file, the bytes it holds back, and whether
    every write succeeded. *)
Record ofstream : Type := mkOfstream {
  file_path : string;
  position : nat;
  pending : list Z;
  good : bool
}.

(** Opened with [trunc]. *)
Definition opened (path : string) : ofstream := mkOfstream path 0 [] true.

(** [write] or [<<]; a stream that is not good takes nothing. *)
Definition put (bytes : list Z) (o : ofstream) : ofstream :=
  if good o then mkOfstream (file_path o) (position o) (pending o ++ bytes) true else o.

(** Writing [bytes] at the place [off] of a file with the content [old]: what is behind them stays,
    and a gap before them is filled with zeros. *)
Definition overwrite (off : nat) (bytes old : list Z) : list Z :=
  match bytes with
  | [] => old
  | _ => take off (old ++ replicate (off - length old) 0) ++ bytes ++ drop (off + length bytes) old
  end.

(** The stream gives [n] of the bytes it holds back to the device. When the device takes fewer, the
    stream is not good any more and forgets the rest. *)
Definition flush (n : nat) (o : ofstream) (fs : filesystem) : ofstream * filesystem :=
  let given := take n (pending o) in
  let taken := match capacity fs (file_path o) with
               | None => given
               | Some k => take (k - position o) given
               end in
  let old := default [] (files fs !! file_path o) in
  let fs' := set_file (file_path o) (overwrite (position o) taken old) fs in
  if decide (length taken < length given)%nat
  then (mkOfstream (file_path o) (position o + length taken) [] false, fs')
  else (mkOfstream (file_path o) (position o + length taken) (drop n (pending o)) (good o), fs').

(** ** The function *)

(** One step of the loop of [saveMessages] over the ids: [minId = min(minId, id)], then
    [maxId = max(minId, id)]. *)
Definition min_max_step (acc : Z * Z) (m : Message) : Z * Z :=
  let minId := Z.min acc.1 (id m) in
  let maxId := Z.max minId (id m) in
  (minId, maxId).

(** The loop starts from the largest and the smallest [uint64_t]. *)
Definition min_max (messages : Messages) : Z * Z := fold_left min_max_step messages (2 ^ 64 - 1, 0).

(** [setw(19) << setfill('0') << minId << '-' << setw(19) << setfill('0') << maxId] *)
Definition fileName (minId maxId : Z) : string :=
  setw 19 "0"%char (dec minId) +:+ "-" +:+ setw 19 "0"%char (dec maxId).

(** [std::filesystem::path(folder) / name] of a relative name: a slash goes between them unless the
    folder is empty or ends with one. *)
Definition path_append (folder name : string) : string :=
  match last (chars folder) with
  | None => name
  | Some c => if decide (c = "/"%char) then folder +:+ name else folder +:+ "/" +:+ name
  end.

Definition fullPath (messages : Messages) (folder : string) : string :=
  let '(minId, maxId) := min_max messages in path_append folder (fileName minId maxId).

(** What is written for a message: its data and a line break. *)
Definition line (m : Message) : list Z := data m ++ [10].
Definition content (messages : Messages) : list Z := flat_map line messages.

(** What the function logs. *)
Inductive report : Type :=
| OpenFailed (path : string)
| Saved (count : nat) (path : string).

(** The loop that writes the messages. *)
Definition put_all (messages : Messages) (o : ofstream) : ofstream :=
  fold_left (fun o m => put (line m) o) messages o.

(** The stream is flushed by its destructor. *)
Definition saveMessages (messages : Messages) (folder : string) (fs : filesystem) :
    option report * filesystem :=
  match messages with
  | [] => (None, fs)
  | _ =>
      let path := fullPath messages folder in
      if writable fs path then
        let o := put_all messages (opened path) in
        let '(_, fs') := flush (length (pending o)) o (set_file path [] fs) in
        (Some (Saved (length messages) path), fs')
      else (Some (OpenFailed path), fs)
  end.

(** ** The threads *)

(** A thread that runs the function: before it opens the file, with the messages it has still to
    write, and at its end. *)
Inductive writer : Type :=
| Starting (messages : Messages)
| Writing (messages todo : Messages) (o : ofstream)
| Finished (messages : Messages) (r : option report).

Inductive writer_step (folder : string) : writer -> filesystem -> writer -> filesystem -> Prop :=
| save_nothing fs :
    writer_step folder (Starting []) fs (Finished [] None) fs
| save_open_fails j fs :
    j <> [] -> writable fs (fullPath j folder) = false ->
    writer_step folder (Starting j) fs (Finished j (Some (OpenFailed (fullPath j folder)))) fs
| save_open j fs :
    j <> [] -> writable fs (fullPath j folder) = true ->
    writer_step folder (Starting j) fs (Writing j j (opened (fullPath j folder)))
      (set_file (fullPath j folder) [] fs)
| save_put j m todo o fs :
    writer_step folder (Writing j (m :: todo) o) fs (Writing j todo (put (line m) o)) fs
| save_flush j todo o n fs :
    (0 < n <= length (pending o))%nat ->
    writer_step folder (Writing j todo o) fs (Writing j todo (flush n o fs).1) (flush n o fs).2
| save_close j o fs :
    writer_step folder (Writing j [] o) fs
      (Finished j (Some (Saved (length j) (file_path o)))) (flush (length (pending o)) o fs).2.

(** Any thread takes the next step. *)
Inductive disk_step (folder : string) :
    list writer * filesystem -> list writer * filesystem -> Prop :=
| thread_step i w w' ws fs fs' :
    ws !! i = Some w -> writer_step folder w fs w' fs' ->
    disk_step folder (ws, fs) (<[i := w']> ws, fs').

Definition job_of (w : writer) : Messages :=
  match w with Starting j | Writing j _ _ | Finished j _ => j end.

Definition is_finished (w : writer) : bool := match w with Finished _ _ => true | _ => false end.

(** The thread is writing the file. *)
Definition writes_to (path : string) (w : writer) : Prop :=
  match w with Writing _ _ o => file_path o = path | _ => False end.

(** The thread has written the file and said so. *)
Definition has_saved (path : string) (w : writer) : Prop :=
  match w with Finished j (Some (Saved n p)) => p = path | _ => False end.

(** ** What a write does to a file *)

Lemma length_overwrite off bytes old n :
  (length old <= n)%nat -> (off + length bytes <= n)%nat -> (length (overwrite off bytes old) <= n)%nat.
Proof.
  intros H1 H2. unfold overwrite. destruct bytes as [|b bytes]; [done|].
  rewrite !length_app, length_take, length_drop, length_app, length_replicate. lia.
Qed.

Lemma lookup_overwrite off bytes old i :
  (i < length old)%nat \/ (off <= i < off + length bytes)%nat ->
  overwrite off bytes old !! i =
  if decide (off <= i < off + length bytes)%nat then bytes !! (i - off)%nat else old !! i.
Proof.
  intros Hi. unfold overwrite. destruct bytes as [|b bytes]; [by rewrite decide_False by (cbn; lia)|].
  set (bs := b :: bytes) in *. set (l := old ++ _).
  assert (Hl : length (take off l) = off).
  { unfold l. rewrite length_take, length_app, length_replicate. lia. }
  case_decide as Hd.
  - rewrite lookup_app_r, Hl by lia. by rewrite lookup_app_l by lia.
  - assert (Ho : (i < length old)%nat) by lia. destruct (decide (i < off)%nat).
    + rewrite lookup_app_l by lia. rewrite lookup_take, decide_True by done.
      unfold l. by rewrite lookup_app_l by done.
    + rewrite lookup_app_r, Hl by lia. rewrite lookup_app_r by lia. rewrite lookup_drop. f_equal. lia.
Qed.

(** The first [n] bytes of a file are those of [t], and the file is no longer than [t]. *)
Definition agrees (n : nat) (f t : list Z) : Prop :=
  take n f = take n t /\ (n <= length t)%nat /\ (length f <= length t)%nat.

Lemma agrees_length n f t : agrees n f t -> (n <= length f)%nat.
Proof. intros (H & Hn & _). apply (f_equal length) in H. rewrite !length_take in H. lia. Qed.

Lemma agrees_lookup n f t i : agrees n f t -> (i < n)%nat -> f !! i = t !! i.
Proof.
  intros (H & _) Hi. rewrite <-(lookup_take_lt f n i), <-(lookup_take_lt t n i) by done. by rewrite H.
Qed.

Lemma agrees_all f t : agrees (length t) f t -> f = t.
Proof.
  intros H. pose proof (agrees_length _ _ _ H) as Hl. destruct H as (H & _ & Hn).
  by rewrite firstn_all, take_ge in H by done.
Qed.

(** A write of the right bytes at the right place keeps what agrees, and extends it when it starts at
    its end. *)
Lemma agrees_overwrite n off bytes f t :
  agrees n f t -> (off + length bytes <= length t)%nat -> bytes = take (length bytes) (drop off t) ->
  agrees n (overwrite off bytes f) t /\
  (n = off -> agrees (off + length bytes) (overwrite off bytes f) t).
Proof.
  intros Ha Hoff Hb. pose proof (agrees_length _ _ _ Ha) as Hn. pose proof Ha as (_ & Hnt & Hft).
  assert (Hin : forall i, (off <= i < off + length bytes)%nat -> bytes !! (i - off)%nat = t !! i).
  { intros i Hi. rewrite Hb, lookup_take_lt, lookup_drop by lia. f_equal. lia. }
  assert (Hk : forall k, (k <= length t)%nat ->
            (forall i, (i < k)%nat -> (i < n)%nat \/ (off <= i < off + length bytes)%nat) ->
            agrees k (overwrite off bytes f) t).
  { intros k Hk Hi. split_and!; [|done|by apply length_overwrite].
    apply list_eq. intros i. destruct (decide (i < k)%nat) as [Hik|]; [|by rewrite !lookup_take_ge by lia].
    rewrite !lookup_take_lt by done. destruct (Hi i Hik) as [Hi'|Hi'];
      (rewrite lookup_overwrite by lia; case_decide; [by apply Hin|]); [by eapply agrees_lookup|lia]. }
  split; [apply Hk; [done|by left]|]. intros ->. apply Hk; [done|]. intros i Hi. lia.
Qed.

Lemma length_line m : (0 < length (line m))%nat.
Proof. unfold line. rewrite length_app. cbn. lia. Qed.

Lemma content_app ms1 ms2 : content (ms1 ++ ms2) = content ms1 ++ content ms2.
Proof. apply flat_map_app. Qed.

Lemma put_all_good ms o :
  good o = true ->
  put_all ms o = mkOfstream (file_path o) (position o) (pending o ++ content ms) true.
Proof.
  revert o. induction ms as [|m ms IH]; intros [p n bs g] Hg; cbn in Hg; subst g.
  { cbn. by rewrite app_nil_r. }
  cbn. rewrite IH by done. cbn. by rewrite <-app_assoc.
Qed.

(** ** One file while the threads run

    The invariant is about one [path]: every chunk whose file this is has the content [chunk]. The
    device keeps the part [kept] of it. *)

Section file.
Context (folder path : string) (chunk : list Z) (start : filesystem).

Abbreviation kept := (fitting start path chunk).

(** The stream has written the first [position] bytes of the chunk and holds the next ones back; a
    stream that failed has written what the device keeps. *)
Definition stream_ok (o : ofstream) (todo : Messages) : Prop :=
  (position o <= length kept)%nat /\
  if good o then drop (position o) chunk = pending o ++ content todo
  else position o = length kept /\ pending o = [].

Definition writer_ok (w : writer) : Prop :=
  (job_of w <> [] -> fullPath (job_of w) folder = path -> content (job_of w) = chunk) /\
  match w with
  | Writing j todo o =>
      j <> [] /\ file_path o = fullPath j folder /\ (file_path o = path -> stream_ok o todo)
  | _ => True
  end.

(** How many bytes of the file are this thread's: [None] when it has not opened it. *)
Definition progress_of (w : writer) : option nat :=
  match w with
  | Writing _ _ o => if decide (file_path o = path) then Some (position o) else None
  | Finished _ (Some (Saved _ p)) => if decide (p = path) then Some (length kept) else None
  | _ => None
  end.

(** Nobody has opened the file, or the bytes of the thread that opened it last are in it. *)
Definition file_ok (ws : list writer) (fs : filesystem) : Prop :=
  (Forall (fun w => progress_of w = None) ws /\ files fs !! path = files start !! path) \/
  exists i w n f, ws !! i = Some w /\ progress_of w = Some n /\
    files fs !! path = Some f /\ agrees n f kept.

Definition same_device (fs : filesystem) : Prop :=
  writable fs = writable start /\ capacity fs = capacity start.

Definition disk_ok (s : list writer * filesystem) : Prop :=
  Forall writer_ok s.1 /\ same_device s.2 /\ file_ok s.1 s.2.

Lemma flush_path n o fs :
  file_path (flush n o fs).1 = file_path o /\
  writable (flush n o fs).2 = writable fs /\ capacity (flush n o fs).2 = capacity fs /\
  forall p, p <> file_path o -> files (flush n o fs).2 !! p = files fs !! p.
Proof.
  unfold flush. case_decide; cbn; split_and!; try done; intros p Hp; by rewrite lookup_insert_ne.
Qed.

Lemma kept_length : (length kept <= length chunk)%nat.
Proof. unfold fitting. case_match; [rewrite length_take; lia|done]. Qed.

(** The bytes the device takes are those of the chunk at this place. *)
Lemma stream_taken o todo r :
  stream_ok o todo ->
  (match capacity start path with None => True | Some k => r <= k - position o end)%nat ->
  let taken := take r (pending o) in
  (position o + length taken <= length kept)%nat /\
  taken = take (length taken) (drop (position o) kept).
Proof.
  intros [Hp Hg] Hr taken. pose proof kept_length as Hk. destruct (good o).
  2:{ destruct Hg as [Hpos Hnil]. unfold taken. rewrite Hnil. destruct r; cbn; (split; [lia|done]). }
  assert (Hl : (position o + length taken <= length chunk)%nat).
  { pose proof (f_equal length Hg) as Hx. rewrite length_drop, length_app in Hx.
    unfold taken. rewrite length_take. lia. }
  assert (Ht : taken = take (length taken) (drop (position o) chunk)).
  { rewrite Hg. unfold taken. rewrite length_take.
    rewrite take_app_le by lia. destruct (decide (r <= length (pending o))%nat).
    - by rewrite Nat.min_l.
    - rewrite Nat.min_r, firstn_all by lia. by rewrite take_ge by lia. }
  assert (Htr : (length taken <= r)%nat) by (unfold taken; rewrite length_take; lia).
  unfold fitting in *. destruct (capacity start path) as [k|]; [|done].
  rewrite length_take in *. split; [lia|]. rewrite skipn_firstn_comm.
  rewrite take_take, Nat.min_l by lia. done.
Qed.

(** What a flush gives the device is [take r] of what the stream holds back. *)
Lemma flush_taken n o fs :
  same_device fs -> file_path o = path ->
  exists r, (match capacity start path with None => True | Some k => r <= k - position o end)%nat /\
    let taken := take r (pending o) in
    flush n o fs =
      (if decide (length taken < length (take n (pending o)))%nat
       then mkOfstream path (position o + length taken) [] false
       else mkOfstream path (position o + length taken) (drop n (pending o)) (good o),
       set_file path (overwrite (position o) taken (default [] (files fs !! path))) fs) /\
    match capacity start path with None => r = n | Some k => r = Nat.min (k - position o) n end.
Proof.
  intros [_ Hc] Hp. unfold flush. rewrite Hp, Hc. destruct (capacity start path) as [k|].
  - exists (Nat.min (k - position o) n). split; [lia|]. rewrite take_take. split; [|done].
    by case_decide.
  - exists n. split; [done|]. split; [|done]. by case_decide.
Qed.

(** The stream after the device took [k] of the [n] bytes it was given. *)
Lemma flushed_ok n r o todo :
  stream_ok o todo ->
  match capacity start path with None => r = n | Some k => r = Nat.min (k - position o) n end ->
  let taken := take r (pending o) in
  (position o + length taken <= length kept)%nat ->
  let o' := if decide (length taken < length (take n (pending o)))%nat
            then mkOfstream path (position o + length taken) [] false
            else mkOfstream path (position o + length taken) (drop n (pending o)) (good o) in
  stream_ok o' todo /\
  (todo = [] -> (length (pending o) <= n)%nat -> position o' = length kept).
Proof.
  intros [Hpos Hg] Hrn taken Hlen. pose proof kept_length as Hk.
  unfold taken in *. rewrite !length_take in *. destruct (good o) eqn:Hgood.
  2:{ destruct Hg as [Hg Hnil]. rewrite Hnil in *. rewrite drop_nil. cbn [length] in *.
      rewrite decide_False by lia. rewrite Nat.min_0_r, Nat.add_0_r in *. cbv zeta.
      unfold stream_ok. cbn. by split_and!. }
  pose proof (f_equal length Hg) as Hx. rewrite length_drop, length_app in Hx.
  assert (Hfull : (r `min` length (pending o) < n `min` length (pending o))%nat ->
                  (position o + r `min` length (pending o))%nat = length kept).
  { unfold fitting in *. destruct (capacity start path) as [k|]; [|lia]. rewrite length_take in *. lia. }
  case_decide as Hd; unfold stream_ok; cbn; [by rewrite Hfull|].
  assert (Hsame : (r `min` length (pending o))%nat = (n `min` length (pending o))%nat).
  { destruct (capacity start path); lia. }
  rewrite Hsame in *. split_and!; [done| |].
  - rewrite <-drop_drop, Hg, drop_app_le by lia. f_equal.
    destruct (decide (n <= length (pending o))%nat); [by rewrite Nat.min_l|].
    rewrite Nat.min_r by lia. rewrite drop_ge, drop_ge by lia. done.
  - intros -> Hn. cbn in Hx. lia.
Qed.

Lemma flush_stream_ok n o todo fs :
  same_device fs -> file_path o = path -> stream_ok o todo ->
  stream_ok (flush n o fs).1 todo /\
  (todo = [] -> (length (pending o) <= n)%nat -> position (flush n o fs).1 = length kept) /\
  forall f m, files fs !! path = Some f -> agrees m f kept ->
    exists f', files (flush n o fs).2 !! path = Some f' /\ agrees m f' kept /\
      (m = position o -> agrees (position (flush n o fs).1) f' kept).
Proof.
  intros Hdev Hp Hs. destruct (flush_taken n o fs Hdev Hp) as (r & Hr & Hf & Hrn).
  destruct (stream_taken o todo r Hs Hr) as [Hlen Hbytes]. set (taken := take r (pending o)) in *.
  cbv zeta in Hf. rewrite Hf. cbn [fst snd files set_file].
  pose proof (flushed_ok n r o todo Hs Hrn Hlen) as [H1 H2]. split_and!; [exact H1|exact H2|].
  intros f m Hfile Ha. rewrite Hfile. cbn.
  destruct (agrees_overwrite m (position o) taken f kept Ha Hlen Hbytes) as [H3 H4].
  eexists. split; [apply lookup_insert_eq|]. split; [done|]. intros Hm.
  destruct (decide (length taken < length (take n (pending o)))%nat); by apply H4.
Qed.

Lemma same_device_flush n o fs : same_device fs -> same_device (flush n o fs).2.
Proof. destruct (flush_path n o fs) as (_ & H1 & H2 & _). unfold same_device. by rewrite H1, H2. Qed.

Lemma put_ok m o todo : stream_ok o (m :: todo) -> stream_ok (put (line m) o) todo.
Proof.
  unfold stream_ok, put. intros [H1 H2]. destruct (good o) eqn:Hg; [|by rewrite Hg]. cbn.
  split; [done|]. by rewrite H2, <-app_assoc.
Qed.

Lemma put_place m o : file_path (put m o) = file_path o /\ position (put m o) = position o.
Proof. unfold put. by destruct (good o). Qed.

(** What a step of one thread does to it and to the file: nothing, opening it, or writing to it. *)
Lemma writer_step_ok w fs w' fs' :
  writer_step folder w fs w' fs' -> writer_ok w -> same_device fs ->
  writer_ok w' /\ job_of w' = job_of w /\ same_device fs' /\
  ((progress_of w' = progress_of w /\ files fs' !! path = files fs !! path) \/
   (progress_of w' = Some 0%nat /\ files fs' !! path = Some []) \/
   exists n n', progress_of w = Some n /\ progress_of w' = Some n' /\
     forall f m, files fs !! path = Some f -> agrees m f kept ->
       exists f', files fs' !! path = Some f' /\ agrees m f' kept /\ (m = n -> agrees n' f' kept)).
Proof.
  intros Hstep [Hjob Hw] Hdev.
  destruct Hstep as [fs|j fs Hj Hwr|j fs Hj Hwr|j m todo o fs|j todo o n fs Hn|j o fs];
    unfold writer_ok; cbn [job_of progress_of] in *.
  - by split_and!; [..|left].
  - by split_and!; [..|left].
  - split_and!; try done; cbn [file_path opened].
    + intros Hp. unfold stream_ok. cbn. rewrite drop_0. split; [lia|]. symmetry. by apply Hjob.
    + case_decide as Hp; [right; left|left]; cbn.
      * by rewrite Hp, lookup_insert_eq.
      * by rewrite lookup_insert_ne.
  - destruct (put_place (line m) o) as [Hp1 Hp2]. rewrite Hp1, Hp2. destruct Hw as (H1 & H2 & H3).
    split_and!; try done; [|by left]. intros Hp. by apply put_ok, H3.
  - destruct Hw as (H1 & H2 & H3). destruct (flush_path n o fs) as (F1 & _ & _ & F2).
    rewrite F1. split_and!; try done; [|by apply same_device_flush|].
    + intros Hp. by apply flush_stream_ok; auto.
    + case_decide as Hp; [right; right|left; by rewrite F2].
      eexists _, _. split_and!; [done|done|]. by eapply flush_stream_ok; auto.
  - destruct Hw as (H1 & H2 & H3). destruct (flush_path (length (pending o)) o fs) as (_ & _ & _ & F2).
    split_and!; try done; [by apply same_device_flush|].
    case_decide as Hp; [right; right|left; by rewrite F2].
    eexists _, _. split_and!; [done|done|].
    destruct (flush_stream_ok (length (pending o)) o [] fs Hdev Hp (H3 Hp)) as (_ & Hpos & Hf).
    rewrite <-Hpos by done. exact Hf.
Qed.

Lemma disk_step_ok s s' : disk_step folder s s' -> disk_ok s -> disk_ok s'.
Proof.
  intros [i w w' ws fs fs' Hi Hstep] (Hws & Hdev & Hfile). cbn in *.
  pose proof (Forall_lookup_1 _ _ _ _ Hws Hi) as Hw.
  destruct (writer_step_ok _ _ _ _ Hstep Hw Hdev) as (Hw' & _ & Hdev' & Heff).
  pose proof (lookup_lt_Some _ _ _ Hi) as Hlen.
  split_and!; [by apply Forall_insert|done|]. cbn. unfold file_ok.
  destruct Heff as [[Hp Hf]|[[Hp Hf]|(n & n' & Hp & Hp' & Hf)]].
  - rewrite Hf. destruct Hfile as [[Hn Hs]|(k & v & n & f & Hk & Hv & Hfk & Ha)].
    + left. split; [|done]. apply Forall_insert; [done|]. rewrite Hp. by eapply Forall_lookup_1 in Hn.
    + right. destruct (decide (i = k)) as [<-|Hne].
      * exists i, w', n, f. simplify_eq. by rewrite list_lookup_insert_eq, Hp.
      * exists k, v, n, f. by rewrite list_lookup_insert_ne.
  - right. exists i, w', 0%nat, []. rewrite list_lookup_insert_eq by done.
    split_and!; try done. split_and!; [done|lia|cbn; lia].
  - destruct Hfile as [[Hn _]|(k & v & m & f & Hk & Hv & Hfk & Ha)].
    { eapply Forall_lookup_1 in Hn; [|exact Hi]. cbn in Hn. congruence. }
    right. destruct (Hf f m Hfk Ha) as (f' & Hf' & Ha' & Hext). destruct (decide (i = k)) as [<-|Hne].
    + simplify_eq. exists i, w', n', f'. rewrite list_lookup_insert_eq by done. by split_and!; auto.
    + exists k, v, m, f'. by rewrite list_lookup_insert_ne.
Qed.

Lemma disk_steps_ok s s' : rtc (disk_step folder) s s' -> disk_ok s -> disk_ok s'.
Proof. induction 1; eauto using disk_step_ok. Qed.

(** When no thread is in the middle of the file, it is whole or as it was. *)
Lemma disk_ok_quiet ws fs :
  disk_ok (ws, fs) -> Forall (fun w => ~ writes_to path w) ws ->
  (Forall (fun w => ~ has_saved path w) ws /\ files fs !! path = files start !! path) \/
  (Exists (has_saved path) ws /\ files fs !! path = Some kept).
Proof.
  intros (_ & _ & Hf) Hq. cbn in Hf. destruct Hf as [[Hn Hs]|(i & w & n & f & Hi & Hp & Hf & Ha)].
  - left. split; [|done]. eapply Forall_impl; [exact Hn|]. intros [|j t o|j [[p|k p]|]] Hw Hs'; cbn in *; try done.
    by rewrite decide_True in Hw.
  - right. pose proof (Forall_lookup_1 _ _ _ _ Hq Hi) as Hw. destruct w as [|j t o|j [[p|k p]|]]; cbn in *; try done.
    + by case_decide.
    + case_decide; [|done]. simplify_eq. rewrite (agrees_all _ _ Ha) in Hf. split; [|done].
      apply Exists_exists. eexists. split; [by eapply list_elem_of_lookup_2|done].
Qed.
End file.

(** ** All files *)

(** Chunks of the same name have the same content. *)
Definition names_agree (folder : string) (jobs : list Messages) : Prop :=
  forall j1 j2, j1 ∈ jobs -> j2 ∈ jobs -> j1 <> [] -> j2 <> [] ->
    fullPath j1 folder = fullPath j2 folder -> content j1 = content j2.

(** The threads when none has run yet. *)
Definition start_all (jobs : list Messages) : list writer := Starting <$> jobs.

(** The thread at its end. *)
Definition finish (folder : string) (fs : filesystem) (j : Messages) : writer :=
  Finished j (saveMessages j folder fs).1.

(** One call after the other. *)
Definition run_jobs (jobs : list Messages) (folder : string) (fs : filesystem) : filesystem :=
  fold_left (fun fs j => (saveMessages j folder fs).2) jobs fs.

Lemma saveMessages_report j folder fs :
  (saveMessages j folder fs).1 =
  match j with
  | [] => None
  | _ => Some (if writable fs (fullPath j folder) then Saved (length j) (fullPath j folder)
               else OpenFailed (fullPath j folder))
  end.
Proof. unfold saveMessages. destruct j; [done|]. case_match; [|done]. by case_match. Qed.

Lemma has_saved_finish folder fs path j :
  has_saved path (finish folder fs j) <-> j <> [] /\ fullPath j folder = path /\ writable fs path = true.
Proof.
  unfold finish. rewrite saveMessages_report. destruct j as [|m j]; cbn [has_saved]; [naive_solver|].
  set (p := fullPath _ _). destruct (writable fs p) eqn:Hw; split; try done.
  - by intros <-.
  - by intros (_ & <- & _).
  - intros (_ & <- & Hw'). congruence.
Qed.

Section run.
Context (folder : string) (start : filesystem) (jobs : list Messages).

(** The part of the invariant that is about the thread alone. *)
Definition thread_ok (w : writer) (j : Messages) : Prop :=
  job_of w = j /\
  match w with
  | Starting _ => True
  | Writing _ _ o => j <> [] /\ file_path o = fullPath j folder /\ writable start (fullPath j folder) = true
  | Finished _ r => w = finish folder start j
  end.

Lemma thread_step_ok w fs w' fs' j :
  writer_step folder w fs w' fs' -> same_device start fs -> thread_ok w j -> thread_ok w' j.
Proof.
  intros Hstep [Hwr _] [<- Hw].
  destruct Hstep as [fs|j fs Hj Hn|j fs Hj Hn|j m todo o fs|j todo o n fs Hn|j o fs];
    unfold thread_ok, finish; cbn [job_of] in *; rewrite ?saveMessages_report, <-?Hwr in *.
  - done.
  - rewrite Hn. by destruct j.
  - done.
  - by rewrite (proj1 (put_place _ _)).
  - by rewrite (proj1 (flush_path _ _ _)).
  - destruct Hw as (H1 & H2 & H3). rewrite H3, H2. by destruct j.
Qed.

Definition run_ok (s : list writer * filesystem) : Prop :=
  Forall2 thread_ok s.1 jobs /\ same_device start s.2.

Lemma disk_step_run_ok s s' : disk_step folder s s' -> run_ok s -> run_ok s'.
Proof.
  intros [i w w' ws fs fs' Hi Hstep] [Hws Hdev]. cbn in *.
  destruct (Forall2_lookup_l _ _ _ _ _ Hws Hi) as (j & Hj & Hw). split; cbn.
  - rewrite <-(list_insert_id jobs i j Hj). apply Forall2_insert; [done|]. by eapply thread_step_ok.
  - destruct Hstep; try done; by apply same_device_flush.
Qed.

Lemma run_ok_start : run_ok (start_all jobs, start).
Proof. split; [|done]. cbn. unfold start_all. apply Forall2_fmap_l, Forall_Forall2_diag, Forall_true. done. Qed.

Lemma run_ok_steps s : rtc (disk_step folder) (start_all jobs, start) s -> run_ok s.
Proof.
  generalize run_ok_start. generalize (start_all jobs, start). intros s0 H0.
  induction 1; eauto using disk_step_run_ok.
Qed.

(** When all threads have finished, each has ended as the call would. *)
Lemma run_ok_finished ws fs :
  run_ok (ws, fs) -> Forall (fun w => is_finished w = true) ws -> ws = finish folder start <$> jobs.
Proof.
  intros [H _] Hf. cbn in H. induction H as [|w j ws js Hw _ IH]; [done|].
  inversion Hf as [|?? Hw' Hf']; subst. rewrite fmap_cons, <-(IH Hf'). f_equal.
  destruct Hw as [<- Hw]. by destruct w.
Qed.

(** The content of a name. *)
Lemma names_agree_chunk path :
  names_agree folder jobs ->
  exists chunk, forall j, j ∈ jobs -> j <> [] -> fullPath j folder = path -> content j = chunk.
Proof.
  intros Hag. destruct (decide (Exists (fun j => j <> [] /\ fullPath j folder = path) jobs)) as [He|He].
  - apply Exists_exists in He as (j & Hj & Hne & <-). exists (content j). intros j' Hj' Hne' Hp. by apply Hag.
  - exists []. intros j Hj Hne Hp. destruct He. apply Exists_exists. by exists j.
Qed.

Lemma disk_ok_steps path chunk s :
  (forall j, j ∈ jobs -> j <> [] -> fullPath j folder = path -> content j = chunk) ->
  rtc (disk_step folder) (start_all jobs, start) s -> disk_ok folder path chunk start s.
Proof.
  intros Hc Hs. eapply disk_steps_ok; [exact Hs|]. split_and!; [|done|]; cbn; unfold start_all.
  - apply Forall_fmap, Forall_forall. intros j Hj. split; [|done]. intros Hne Hp. by apply Hc.
  - left. split; [|done]. apply Forall_fmap, Forall_forall. done.
Qed.

(** The file of a name after all threads have finished. *)
Lemma finished_file path chunk ws fs :
  (forall j, j ∈ jobs -> j <> [] -> fullPath j folder = path -> content j = chunk) ->
  rtc (disk_step folder) (start_all jobs, start) (ws, fs) ->
  Forall (fun w => is_finished w = true) ws ->
  files fs !! path =
    if decide (Exists (fun j => j <> [] /\ fullPath j folder = path /\ writable start path = true) jobs)
    then Some (fitting start path chunk) else files start !! path.
Proof.
  intros Hc Hs Hf. pose proof (run_ok_finished ws fs (run_ok_steps _ Hs) Hf) as Hws.
  assert (Hex : Exists (has_saved path) ws <->
                Exists (fun j => j <> [] /\ fullPath j folder = path /\ writable start path = true) jobs).
  { rewrite Hws, Exists_fmap. unfold compose. by setoid_rewrite has_saved_finish. }
  destruct (disk_ok_quiet folder path chunk start ws fs (disk_ok_steps path chunk _ Hc Hs)) as [[Hn ->]|[He ->]].
  - eapply Forall_impl; [exact Hf|]. by intros [] Hw Hp.
  - rewrite decide_False; [done|]. rewrite <-Hex, Exists_exists. rewrite Forall_forall in Hn.
    intros (w & Hw & Hp). by eapply Hn.
  - rewrite decide_True; [done|]. by apply Hex.
Qed.
End run.

(** ** The calls are a run of the threads *)

Lemma disk_steps_at folder ws1 ws2 a b :
  rtc (fun x y => writer_step folder x.1 x.2 y.1 y.2) a b ->
  rtc (disk_step folder) (ws1 ++ a.1 :: ws2, a.2) (ws1 ++ b.1 :: ws2, b.2).
Proof.
  induction 1 as [|[w fs] [w' fs'] b Hstep _ IH]; [done|]. cbn in *. eapply rtc_l; [|exact IH].
  replace (ws1 ++ w' :: ws2) with (<[length ws1 := w']> (ws1 ++ w :: ws2)) by by rewrite insert_app_r_alt, Nat.sub_diag.
  econstructor; [|exact Hstep]. by apply list_lookup_middle.
Qed.

Lemma put_all_steps folder j todo o fs :
  rtc (fun x y => writer_step folder x.1 x.2 y.1 y.2) (Writing j todo o, fs)
    (Writing j [] (put_all todo o), fs).
Proof.
  revert o. induction todo as [|m todo IH]; intros o; [done|].
  eapply (rtc_l _ _ (Writing j todo (put (line m) o), fs)); [apply save_put|apply IH].
Qed.

Lemma saveMessages_steps folder j fs :
  rtc (fun x y => writer_step folder x.1 x.2 y.1 y.2) (Starting j, fs)
    (finish folder fs j, (saveMessages j folder fs).2).
Proof.
  unfold finish, saveMessages. destruct j as [|m j]; [apply rtc_once, save_nothing|].
  set (ms := m :: j). destruct (writable fs (fullPath ms folder)) eqn:Hw; [|by apply rtc_once, save_open_fails].
  eapply (rtc_l _ _ (Writing ms ms (opened (fullPath ms folder)), set_file (fullPath ms folder) [] fs));
    [by apply save_open|]. etrans; [apply put_all_steps|]. apply rtc_once.
  set (o := put_all ms _). assert (Hp : fullPath ms folder = file_path o) by by unfold o; rewrite put_all_good.
  rewrite Hp. destruct (flush _ o _) as [o' fs'] eqn:Hf. cbn [fst snd].
  replace fs' with (flush (length (pending o)) o (set_file (file_path o) [] fs)).2 by by rewrite Hf.
  apply save_close.
Qed.

Lemma saveMessages_device j folder fs : same_device fs (saveMessages j folder fs).2.
Proof.
  unfold saveMessages. destruct j as [|m j]; [done|]. case_match; [|done].
  match goal with |- context [flush ?n ?o ?f] => pose proof (same_device_flush fs n o f) as Hd end.
  destruct (flush _ _ _) as [o fs']. by apply Hd.
Qed.

Lemma finish_device folder fs fs' j : same_device fs fs' -> finish folder fs' j = finish folder fs j.
Proof. intros [Hw _]. unfold finish. rewrite !saveMessages_report. by rewrite Hw. Qed.

Lemma run_jobs_steps_from folder jobs ws fs :
  rtc (disk_step folder) (ws ++ start_all jobs, fs)
    (ws ++ (finish folder fs <$> jobs), run_jobs jobs folder fs).
Proof.
  revert ws fs. induction jobs as [|j jobs IH]; intros ws fs; [done|].
  etrans.
  { apply (disk_steps_at _ ws (start_all jobs) (Starting j, fs)
      (finish folder fs j, (saveMessages j folder fs).2)), saveMessages_steps. }
  cbn [fst snd].
  specialize (IH (ws ++ [finish folder fs j]) (saveMessages j folder fs).2).
  rewrite <-!app_assoc in IH. cbn in IH.
  erewrite (list_fmap_ext _ (finish folder fs)) in IH; [exact IH|].
  intros _ j' _. apply finish_device, saveMessages_device.
Qed.

Lemma run_jobs_steps folder jobs fs :
  rtc (disk_step folder) (start_all jobs, fs) (finish folder fs <$> jobs, run_jobs jobs folder fs).
Proof. apply (run_jobs_steps_from folder jobs []). Qed.

Lemma finish_finished folder fs jobs : Forall (fun w => is_finished w = true) (finish folder fs <$> jobs).
Proof. apply Forall_fmap, Forall_forall. done. Qed.

Lemma names_agree_perm folder jobs jobs' : jobs ≡ₚ jobs' -> names_agree folder jobs -> names_agree folder jobs'.
Proof. intros Hp H j1 j2. rewrite <-Hp. apply H. Qed.

(** C19: the threads do not disturb each other. Whatever way the flushes of their streams interleave, when
    all have finished the files are those of calling [saveMessages] for one chunk after the other, in
    any order, and every thread reports what that call reports, provided chunks of the same name have
    the same content. *)
Theorem interleaving_sequential (folder : string) (jobs order : list Messages) (fs fs' : filesystem)
    (ws : list writer) :
  names_agree folder jobs -> jobs ≡ₚ order ->
  rtc (disk_step folder) (start_all jobs, fs) (ws, fs') ->
  Forall (fun w => is_finished w = true) ws ->
  files fs' = files (run_jobs order folder fs) /\ ws = finish folder fs <$> jobs.
Proof.
  intros Hag Hp Hs Hf.
  split; [|by eapply run_ok_finished; [eapply run_ok_steps|]]. apply map_eq. intros path.
  destruct (names_agree_chunk folder jobs path Hag) as [chunk Hc].
  rewrite (finished_file folder fs jobs path chunk ws fs') by done.
  rewrite (finished_file folder fs order path chunk _ _) with (2 := run_jobs_steps folder order fs);
    [|by intros j; rewrite <-Hp; apply Hc|apply finish_finished].
  apply decide_ext. by rewrite Hp.
Qed.

(** The files after one call. *)
Lemma saveMessages_files j folder fs :
  j <> [] ->
  let path := fullPath j folder in
  let fs' := (saveMessages j folder fs).2 in
  (writable fs path = true -> files fs' !! path = Some (fitting fs path (content j))) /\
  (forall p, p <> path -> files fs' !! p = files fs !! p).
Proof.
  intros Hne path fs'. pose proof (run_jobs_steps folder [j] fs) as Hs. cbn in Hs. fold fs' in Hs.
  assert (Hfin : Forall (fun w => is_finished w = true) [finish folder fs j]) by by constructor.
  split.
  - intros Hw. rewrite (finished_file folder fs [j] path (content j) _ _) with (2 := Hs);
      [|by intros j' ->%list_elem_of_singleton|exact Hfin].
    rewrite decide_True; [done|]. by constructor.
  - intros p Hp. rewrite (finished_file folder fs [j] p [] _ _) with (2 := Hs);
      [|by intros j' ->%list_elem_of_singleton _ Hp'|exact Hfin].
    rewrite decide_False; [done|].
    inversion 1 as [?? (_ & Hp' & _)|?? Hx]; [done|by inversion Hx].
Qed.

(** ** The range in the file name *)

(** The smallest id. *)
Definition min_id (messages : Messages) : Z := foldr (fun m a => Z.min (id m) a) (2 ^ 64 - 1) messages.

Lemma min_id_snoc messages m : min_id (messages ++ [m]) = Z.min (min_id messages) (id m).
Proof.
  unfold min_id. generalize (2 ^ 64 - 1). induction messages as [|k l IH]; intros z; cbn; [lia|].
  rewrite IH. lia.
Qed.

Lemma min_id_le messages m : m ∈ messages -> min_id messages <= id m.
Proof.
  induction messages as [|k l IH]; cbn; [by rewrite elem_of_nil|]. unfold min_id in *.
  rewrite elem_of_cons. intros [->|H]; [lia|]. specialize (IH H). lia.
Qed.

Lemma min_max_spec messages :
  (min_max messages).1 = min_id messages /\
  forall back, last messages = Some back ->
    (min_max messages).2 = Z.max (min_id messages) (id back).
Proof.
  unfold min_max. induction messages as [|m messages [IH _]] using rev_ind; [done|].
  rewrite fold_left_app, min_id_snoc. cbn. rewrite IH. split; [done|].
  intros back. rewrite last_snoc. by intros [= ->].
Qed.

Lemma min_max_last messages back :
  last messages = Some back -> min_max messages = (min_id messages, id back).
Proof.
  intros Hb. destruct (min_max_spec messages) as [H1 H2]. specialize (H2 back Hb).
  pose proof (min_id_le messages back (last_Some_elem_of _ _ Hb)).
  rewrite (surjective_pairing (min_max messages)), H1, H2. f_equal. lia.
Qed.

Lemma ascending_last messages back m :
  StronglySorted id_lt messages -> last messages = Some back -> m ∈ messages -> id m <= id back.
Proof.
  destruct messages as [|k l _] using rev_ind; [done|]. rewrite last_snoc.
  intros [Hs _]%StronglySorted_app [= ->]. rewrite elem_of_app, list_elem_of_singleton.
  intros [Hm| ->]; [|done]. specialize (Hs m back Hm). unfold id_lt in Hs.
  rewrite list_elem_of_singleton in Hs. specialize (Hs eq_refl). lia.
Qed.

(** The two numbers of the file name are the smallest id of the chunk and the id of its last
    message. For a chunk with ascending ids, as a producer reads them, they are the smallest and
    the largest id: the name covers every message of the file. *)
Theorem min_max_result (messages : Messages) (back : Message) :
  last messages = Some back ->
  min_max messages = (min_id messages, id back) /\
  (forall m, m ∈ messages -> (min_max messages).1 <= id m) /\
  (StronglySorted id_lt messages -> forall m, m ∈ messages -> id m <= (min_max messages).2).
Proof.
  intros Hb. rewrite (min_max_last _ _ Hb). split_and!; [done|apply min_id_le|].
  intros Hs m. by apply ascending_last.
Qed.

Definition two_messages : Messages := [mkMessage 5 [104; 105]; mkMessage 7 [10]].

Lemma min_max_result_witness :
  min_max two_messages = (5, 7) /\
  (forall m, m ∈ two_messages -> (min_max two_messages).1 <= id m) /\
  (StronglySorted id_lt two_messages ->
   forall m, m ∈ two_messages -> id m <= (min_max two_messages).2).
Proof. exact (min_max_result two_messages (mkMessage 7 [10]) eq_refl). Defined.

(** ** The file name *)

(** The ids whose printed form fits the width of the name. *)
Definition fits_width (i : Z) : Prop := 0 <= i < 10 ^ 19.

Lemma setw_dec_length i : fits_width i -> length (chars (setw 19 "0"%char (dec i))) = 19%nat.
Proof. intros H. apply setw_length, (dec_length i 19); [exact H|lia]. Qed.

Lemma path_append_inj folder name1 name2 :
  path_append folder name1 = path_append folder name2 -> name1 = name2.
Proof.
  intros H. apply chars_inj. unfold path_append in H. apply (f_equal chars) in H.
  destruct (last (chars folder)) as [x|]; [|done].
  destruct (decide (x = "/"%char)); rewrite !chars_app in H; by repeat apply app_inv_head in H.
Qed.

Lemma fileName_inj a b c d :
  fits_width a -> fits_width b -> fits_width c -> fits_width d ->
  fileName a b = fileName c d -> a = c /\ b = d.
Proof.
  intros Ha Hb Hc Hd Hn. apply (f_equal chars) in Hn. unfold fileName in Hn. rewrite !chars_app in Hn.
  apply app_inj_1 in Hn as [H1 H2]; [|by rewrite !setw_dec_length].
  apply app_inv_head in H2. destruct Ha, Hb, Hc, Hd.
  split; [rewrite <-(setw_value 19 a), H1, setw_value by done|
          rewrite <-(setw_value 19 b), H2, setw_value by done]; done.
Qed.

(** For ids below 10^19 a file name has 39 characters and names one pair of ids; a relative name
    below the same folder does too. *)
Theorem fileName_exact (folder : string) (a b c d : Z) :
  fits_width a -> fits_width b -> fits_width c -> fits_width d ->
  length (chars (fileName a b)) = 39%nat /\
  (path_append folder (fileName a b) = path_append folder (fileName c d) -> a = c /\ b = d).
Proof.
  intros Ha Hb Hc Hd. split.
  - unfold fileName. by rewrite !chars_app, !length_app, !setw_dec_length.
  - intros H%path_append_inj. by apply fileName_inj.
Qed.

Lemma fileName_exact_witness :
  length (chars (fileName 5 7)) = 39%nat /\
  (path_append "/tmp" (fileName 5 7) = path_append "/tmp" (fileName 5 7) -> 5 = 5 /\ 7 = 7).
Proof. apply (fileName_exact "/tmp" 5 7 5 7); unfold fits_width; lia. Defined.

(** ** The content of a file *)

Lemma split_content messages :
  Forall (fun m => 10 ∉ data m) messages ->
  split_on 10 (content messages) = (data <$> messages) ++ [[]].
Proof.
  induction 1 as [|m ms Hm _ IH]; [done|]. cbn [content flat_map]. unfold line at 1. rewrite <-app_assoc.
  cbn [app]. rewrite split_on_app by done. rewrite fmap_cons. cbn [app]. f_equal. exact IH.
Qed.

(** Saving a chunk writes one file, truncating it: the file then holds what the device takes of the
    data of every message with a line break after each, and no other file changes. When no data holds
    a line break, the lines are the data of the messages in order. The call reports success whenever
    the file could be opened, also when the device took only a part. A path that cannot be opened
    loses the chunk, and the report names it. *)
Theorem saveMessages_result (messages : Messages) (folder : string) (fs : filesystem) :
  messages <> [] ->
  let path := fullPath messages folder in
  let '(report, fs') := saveMessages messages folder fs in
  (writable fs path = true ->
     report = Some (Saved (length messages) path) /\
     files fs' !! path = Some (fitting fs path (content messages)) /\
     (forall p, p <> path -> files fs' !! p = files fs !! p) /\
     (Forall (fun m => 10 ∉ data m) messages ->
        split_on 10 (content messages) = (data <$> messages) ++ [[]])) /\
  (writable fs path = false -> report = Some (OpenFailed path) /\ fs' = fs).
Proof.
  intros Hne path. pose proof (saveMessages_report messages folder fs) as Hr.
  pose proof (saveMessages_files messages folder fs Hne) as [Hf Ho].
  destruct (saveMessages messages folder fs) as [report fs'] eqn:Hs. cbn in Hr, Hf, Ho. fold path in Hr, Hf, Ho.
  destruct messages as [|m ms]; [done|]. split; intros Hw; rewrite Hw in Hr.
  - split_and!; [done|by apply Hf|done|apply split_content].
  - split; [done|]. unfold saveMessages in Hs. fold path in Hs. rewrite Hw in Hs. by injection Hs.
Qed.


Definition empty_fs : filesystem := mkFilesystem ∅ (fun _ => true) (fun _ => None).
(** A disk that takes four bytes for every file. *)
Definition full_fs : filesystem := mkFilesystem ∅ (fun _ => true) (fun _ => Some 4%nat).

Lemma saveMessages_result_witness :
  let path := fullPath two_messages "/out" in
  let '(report, fs') := saveMessages two_messages "/out" full_fs in
  (writable full_fs path = true ->
     report = Some (Saved 2 path) /\
     files fs' !! path = Some (fitting full_fs path (content two_messages)) /\
     (forall p, p <> path -> files fs' !! p = files full_fs !! p) /\
     (Forall (fun m => 10 ∉ data m) two_messages ->
        split_on 10 (content two_messages) = (data <$> two_messages) ++ [[]])) /\
  (writable full_fs path = false -> report = Some (OpenFailed path) /\ fs' = full_fs).
Proof. exact (saveMessages_result two_messages "/out" full_fs ltac:(done)). Defined.

(** The message is said to be saved, and its last byte is missing. *)
Example saved_in_part :
  let '(report, fs') := saveMessages two_messages "/out" full_fs in
  report = Some (Saved 2 (fullPath two_messages "/out")) /\
  files fs' !! fullPath two_messages "/out" = Some [104; 105; 10; 10] /\
  content two_messages = [104; 105; 10; 10; 10].
Proof. vm_compute. split_and!; reflexivity. Qed.

(** ** Every thread ends *)

(** An upper bound of the steps a thread has still to take. *)
Definition steps_left (w : writer) : nat :=
  match w with
  | Starting j => 2 + 2 * length (content j)
  | Writing _ todo o => 1 + 2 * length (content todo) + length (pending o)
  | Finished _ _ => 0
  end.

Lemma writer_step_left folder w fs w' fs' :
  writer_step folder w fs w' fs' -> (steps_left w' < steps_left w)%nat.
Proof.
  destruct 1 as [fs|j fs Hj Hn|j fs Hj Hn|j m todo o fs|j todo o n fs Hn|j o fs]; cbn [steps_left opened pending length]; try lia.
  - change (content (m :: todo)) with (line m ++ content todo). rewrite length_app.
    pose proof (length_line m). unfold put. case_match; cbn [pending]; rewrite ?length_app; lia.
  - unfold flush. case_decide; cbn [fst pending length]; rewrite ?length_drop; lia.
Qed.

Lemma disk_step_left folder s s' :
  disk_step folder s s' -> (sum_list (steps_left <$> s'.1) < sum_list (steps_left <$> s.1))%nat.
Proof.
  intros [i w w' ws fs fs' Hi Hstep%writer_step_left]. cbn.
  pose proof (lookup_lt_Some _ _ _ Hi). rewrite <-(take_drop_middle ws i w Hi) at 2.
  rewrite insert_take_drop by done. rewrite !fmap_app, !fmap_cons.
  rewrite !sum_list_with_app. cbn. lia.
Qed.

Lemma writer_can_step folder w fs :
  is_finished w = false -> exists w' fs', writer_step folder w fs w' fs'.
Proof.
  destruct w as [j|j todo o|j r]; intros Hw; [| |done].
  - destruct (decide (j = [])) as [->|Hj]; [eexists _, _; apply save_nothing|].
    destruct (writable fs (fullPath j folder)) eqn:Hp;
      eexists _, _; [by apply save_open|by apply save_open_fails].
  - destruct todo as [|m todo]; eexists _, _; [apply save_close|apply save_put].
Qed.

(** A chunk whose thread has finished. *)
Lemma finished_chunk folder jobs j fs fs' ws :
  names_agree folder jobs -> rtc (disk_step folder) (start_all jobs, fs) (ws, fs') ->
  j <> [] -> writable fs (fullPath j folder) = true ->
  finish folder fs j ∈ ws -> Forall (fun w => ~ writes_to (fullPath j folder) w) ws ->
  files fs' !! fullPath j folder = Some (fitting fs (fullPath j folder) (content j)).
Proof.
  intros Hag Hs Hj Hw Hin Hq. destruct (names_agree_chunk folder jobs (fullPath j folder) Hag) as [chunk Hc].
  destruct (run_ok_steps folder fs jobs _ Hs) as [Hok _]. cbn in Hok.
  assert (Hjob : j ∈ jobs).
  { apply list_elem_of_lookup in Hin as [i Hi]. destruct (Forall2_lookup_l _ _ _ _ _ Hok Hi) as (j' & Hj' & <- & _).
    by eapply list_elem_of_lookup_2. }
  destruct (disk_ok_quiet folder (fullPath j folder) chunk fs ws fs') as [[Hn _]|[_ ->]].
  - by eapply disk_ok_steps.
  - done.
  - rewrite Forall_forall in Hn. destruct (Hn _ Hin). by apply has_saved_finish.
  - by rewrite (Hc j Hjob Hj eq_refl).
Qed.



(** ** A run of two threads *)

Definition job_a : Messages := [mkMessage 5 [104; 105]].
Definition job_b : Messages := [mkMessage 7 [10]; mkMessage 8 []].

Lemma sample_names_agree : names_agree "/out" [job_a; job_b].
Proof.
  intros j1 j2. rewrite !elem_of_cons, !elem_of_nil.
  intros [->|[->|[]]] [->|[->|[]]] _ _ H; try done; vm_compute in H; discriminate.
Qed.

(** Both open their files, the second flushes one byte, and ends while the first has written nothing. *)
Lemma sample_run :
  exists ws fs',
    rtc (disk_step "/out") (start_all [job_a; job_b], full_fs) (ws, fs') /\
    ws !! 0%nat = Some (Writing job_a [] (put_all job_a (opened (fullPath job_a "/out")))) /\
    ws !! 1%nat = Some (finish "/out" full_fs job_b) /\
    files fs' !! fullPath job_a "/out" = Some [].
Proof.
  eexists _, _. split.
  { eapply rtc_l; [eapply (thread_step _ 0); [reflexivity|by apply save_open]|].
    eapply rtc_l; [eapply (thread_step _ 1); [reflexivity|by apply save_open]|].
    eapply rtc_l; [eapply (thread_step _ 1); [reflexivity|apply save_put]|].
    eapply rtc_l; [eapply (thread_step _ 1); [reflexivity|apply (save_flush _ _ _ _ 1); cbn; lia]|].
    eapply rtc_l; [eapply (thread_step _ 0); [reflexivity|apply save_put]|].
    eapply rtc_l; [eapply (thread_step _ 1); [reflexivity|apply save_put]|].
    eapply rtc_l; [eapply (thread_step _ 1); [reflexivity|apply save_close]|]. apply rtc_refl. }
  split_and!; vm_compute; reflexivity.
Qed.

Lemma sample_run_end :
  exists ws fs', rtc (disk_step "/out") (start_all [job_a; job_b], full_fs) (ws, fs') /\
    Forall (fun w => is_finished w = true) ws.
Proof.
  eexists _, _. split.
  { eapply rtc_l; [eapply (thread_step _ 0); [reflexivity|by apply save_open]|].
    eapply rtc_l; [eapply (thread_step _ 1); [reflexivity|by apply save_open]|].
    eapply rtc_l; [eapply (thread_step _ 1); [reflexivity|apply save_put]|].
    eapply rtc_l; [eapply (thread_step _ 0); [reflexivity|apply save_put]|].
    eapply rtc_l; [eapply (thread_step _ 1); [reflexivity|apply save_put]|].
    eapply rtc_l; [eapply (thread_step _ 1); [reflexivity|apply save_close]|].
    eapply rtc_l; [eapply (thread_step _ 0); [reflexivity|apply save_close]|]. apply rtc_refl. }
  by repeat constructor.
Qed.

Lemma interleaving_sequential_witness :
  exists ws fs', rtc (disk_step "/out") (start_all [job_a; job_b], full_fs) (ws, fs') /\
    files fs' = files (run_jobs [job_b; job_a] "/out" full_fs) /\
    ws = finish "/out" full_fs <$> [job_a; job_b].
Proof.
  destruct sample_run_end as (ws & fs' & Hs & Hf). exists ws, fs'. split; [done|].
  apply (interleaving_sequential "/out" [job_a; job_b] [job_b; job_a] full_fs fs' ws);
    [apply sample_names_agree|apply Permutation_swap|done|done].
Defined.


