(* ===== verification/Consumer.v ===== *)
(** * The message consumer (gwback/src/consumer)

    The consumer collects messages and hands every full chunk to a detached thread that writes one
    file (ChunkFile). Starting a thread can fail: the trace of the consumer's calls holds every chunk
    it tried to hand over, with the result. *)

From stdpp Require Import relations.
From S2P Require Import Prelude BackConfig Message ChunkFile.

(** The constructor of [std::thread], over an arbitrary state of the system. *)
Class Threads (T : Type) : Type := thread_create : T -> (exn + unit) * T.

(** A thread that is to save a chunk, and whether it could be started. *)
Inductive thread_event : Type := SaveThread (chunk : Messages) (r : exn + unit).

(** ** The class *)

Record MessageConsumer : Type := mkMessageConsumer {
  chunkSize_ : Z;
  outputFolder_ : string;
  buffer_ : Messages
}.

(** The constructor; reserving capacity changes no value. *)
Definition MessageConsumer_init (config : ConsumerConfig) : MessageConsumer :=
  mkMessageConsumer (chunkSize config) (outputFolder config) [].

Definition set_buffer (b : Messages) (c : MessageConsumer) : MessageConsumer :=
  mkMessageConsumer (chunkSize_ c) (outputFolder_ c) b.

Definition push (m : Message) (c : MessageConsumer) : MessageConsumer := set_buffer (buffer_ c ++ [m]) c.

(** A message after [std::move]: its vector is empty, its id stays. *)
Definition moved_from (m : Message) : Message := mkMessage (id m) [].

Section consumer.
Context {T : Type} `{!Threads T}.

Abbreviation st := (env MessageConsumer T thread_event).

(** The buffer is moved into the arguments of the thread before it is started, which leaves it empty;
    when the thread cannot be started, the arguments are destroyed. *)
Definition flushBuffer : prog st unit :=
  messages ← gets (fun s => buffer_ (members s));
  modify (set_members (set_buffer [])) ;;
  call_throwing thread_create (SaveThread messages).

(** The body of the loop of [operator()]. *)
Definition consume_one (m : Message) : prog st unit :=
  modify (set_members (push m)) ;;
  c ← gets members;
  if chunkSize_ c <=? Z.of_nat (length (buffer_ c)) then flushBuffer else mret tt.

(** [operator()]: its loop, which also changes the argument. *)
Fixpoint consume_loop (messages : Messages) : prog st Messages :=
  match messages with
  | [] => mret []
  | m :: messages' =>
      consume_one m ;;
      moved ← consume_loop messages';
      mret (moved_from m :: moved)
  end.

Definition MessageConsumer_call (messages : Messages) : prog st (bool * Messages) :=
  moved ← consume_loop messages;
  mret (true, moved).

(** The destructor: the rest of the buffer is written by the thread that destroys the consumer. *)
Definition MessageConsumer_destroy (c : st) (fs : filesystem) : option report * filesystem :=
  saveMessages (buffer_ (members c)) (outputFolder_ (members c)) fs.

(** ** Reading the trace *)

(** The chunks the consumer tried to hand over, those whose thread was started, and the others. *)
Definition chunks (s : st) : list Messages := (fun '(SaveThread c _) => c) <$> trace s.
Definition spawned (s : st) : list Messages :=
  omap (fun '(SaveThread c r) => match r with inr _ => Some c | inl _ => None end) (trace s).
Definition dropped (s : st) : list Messages :=
  omap (fun '(SaveThread c r) => match r with inl _ => Some c | inr _ => None end) (trace s).

(** Every message the consumer has taken, in the order it took them. *)
Definition received (s : st) : Messages := concat (chunks s) ++ buffer_ (members s).

(** Those that a thread got or that are in the buffer. *)
Definition delivered (s : st) : Messages := concat (spawned s) ++ buffer_ (members s).

(** What the threads and the destructor save. *)
Definition all_jobs (s : st) : list Messages := spawned s ++ [buffer_ (members s)].

Lemma chunks_split s chunk : chunk ∈ chunks s <-> chunk ∈ spawned s \/ chunk ∈ dropped s.
Proof.
  unfold chunks, spawned, dropped. induction (trace s) as [|[c [e|[]]] tr IH]; cbn;
    rewrite ?elem_of_nil, ?elem_of_cons, ?IH; naive_solver.
Qed.

Lemma elem_of_concat {A} (x : A) (ls : list (list A)) : x ∈ concat ls <-> exists l, l ∈ ls /\ x ∈ l.
Proof.
  rewrite list_elem_of_In, in_concat. by setoid_rewrite list_elem_of_In.
Qed.

Lemma received_split s m : m ∈ received s <-> m ∈ delivered s \/ m ∈ concat (dropped s).
Proof.
  unfold received, delivered. rewrite !elem_of_app, !elem_of_concat.
  setoid_rewrite chunks_split. naive_solver.
Qed.

Lemma delivered_job s m : m ∈ delivered s <-> exists j, j ∈ all_jobs s /\ m ∈ j.
Proof.
  unfold delivered, all_jobs. rewrite elem_of_app, elem_of_concat. setoid_rewrite elem_of_app.
  setoid_rewrite list_elem_of_singleton. naive_solver.
Qed.

(** ** Chunking *)

(** The buffer is never full between calls, and every chunk is exactly full. *)
Definition consumer_ok (s : st) : Prop :=
  let c := members s in
  0 < chunkSize_ c /\
  Z.of_nat (length (buffer_ c)) < chunkSize_ c /\
  Forall (fun chunk => Z.of_nat (length chunk) = chunkSize_ c) (chunks s).

(** [s'] comes from [s] by taking [ms]. *)
Definition took (ms : Messages) (s s' : st) : Prop :=
  consumer_ok s' /\ received s' = received s ++ ms /\
  chunkSize_ (members s') = chunkSize_ (members s) /\
  outputFolder_ (members s') = outputFolder_ (members s) /\
  spawned s `prefix_of` spawned s'.

(** The last chunk of [s'] is lost: its thread could not be started. *)
Definition lost_chunk (s s' : st) : Prop :=
  buffer_ (members s') = [] /\ exists chunk, chunk <> [] /\ dropped s' = dropped s ++ [chunk] /\
    last (chunks s') = Some chunk.

Lemma took_refl s : consumer_ok s -> took [] s s.
Proof. intros H. unfold took. by rewrite app_nil_r. Qed.

Lemma took_trans ms1 ms2 s s1 s2 : took ms1 s s1 -> took ms2 s1 s2 -> took (ms1 ++ ms2) s s2.
Proof.
  intros (_ & A1 & A2 & A3 & A4) (B0 & B1 & B2 & B3 & B4). unfold took.
  rewrite B1, A1, <-app_assoc, B2, B3. split_and!; try done. by etrans.
Qed.

Lemma consume_one_spec m s :
  consumer_ok s ->
  wp (consume_one m) (fun _ s' => took [m] s s' /\ dropped s' = dropped s)
    (fun _ s' => took [m] s s' /\ lost_chunk s s') s.
Proof.
  intros (H0 & H1 & H2). unfold consume_one, flushBuffer. wp_steps. unfold set_members, push, set_buffer.
  cbn [members world trace chunkSize_ buffer_ outputFolder_]. rewrite length_app. cbn [length].
  assert (Hr : received s ++ [m] = concat (chunks s) ++ buffer_ (members s) ++ [m]).
  { unfold received. by rewrite <-app_assoc. }
  case_match eqn:E; wp_steps; unfold set_members, set_buffer; cbn [members world trace chunkSize_ buffer_ outputFolder_].
  2:{ apply Z.leb_gt in E. split; [|done]. unfold took. rewrite Hr. split_and!; try done.
      unfold consumer_ok. cbn. rewrite length_app. by split_and!. }
  apply Z.leb_le in E. set (chunk := buffer_ (members s) ++ [m]).
  assert (Ht : forall r w, took [m] s
    (Env (mkMessageConsumer (chunkSize_ (members s)) (outputFolder_ (members s)) []) w
         (trace s ++ [SaveThread chunk r]))).
  { intros r w. unfold took, consumer_ok, received, chunks, spawned. cbn. rewrite !fmap_app, omap_app, concat_app.
    cbn. fold (chunks s). rewrite !app_nil_r. split_and!; try done.
    - apply Forall_app. split; [done|]. repeat constructor. unfold chunk. rewrite length_app. cbn. lia.
    - by eexists. }
  apply wp_call_throwing; [intros [] _|intros e _]; cbn [members world trace]; (split; [apply Ht|]).
  - unfold dropped. cbn. rewrite omap_app. cbn. by rewrite app_nil_r.
  - split; [done|]. exists chunk. unfold dropped, chunks. cbn. rewrite omap_app, fmap_app. cbn.
    split_and!; [by unfold chunk; destruct (buffer_ (members s))|done|by rewrite last_snoc].
Qed.

(** A call that throws has taken a part of its argument. *)
Definition interrupted (ms : Messages) (s s' : st) : Prop :=
  exists taken rest, ms = taken ++ rest /\ taken <> [] /\ took taken s s' /\ lost_chunk s s'.

Lemma consume_loop_spec ms s :
  consumer_ok s ->
  wp (consume_loop ms)
    (fun moved s' => moved = moved_from <$> ms /\ took ms s s' /\ dropped s' = dropped s)
    (fun _ s' => interrupted ms s s') s.
Proof.
  revert s. induction ms as [|m ms IH]; intros s Hs; cbn [consume_loop].
  { apply wp_ret. split_and!; [done|by apply took_refl|done]. }
  apply wp_bind. eapply wp_mono; [by apply consume_one_spec|..]; cbn beta.
  - intros _ s1 [H1 Hd1]. apply wp_bind. eapply wp_mono; [apply IH, H1|..]; cbn beta.
    + intros moved s2 (-> & H2 & Hd2). apply wp_ret. split_and!; [done| |by rewrite Hd2].
      by apply (took_trans [m] ms s s1).
    + intros e s2 (taken & rest & -> & Hne & H2 & Hb & chunk & Hc & Hd & Hl). exists (m :: taken), rest.
      split_and!; [done|done|by apply (took_trans [m] taken s s1)|]. split; [done|]. exists chunk.
      by rewrite Hd, Hd1.
  - intros e s1 [H1 Hl]. by exists [m], ms.
Qed.

Lemma MessageConsumer_call_spec ms s :
  consumer_ok s ->
  wp (MessageConsumer_call ms)
    (fun r s' => r = (true, moved_from <$> ms) /\ took ms s s' /\ dropped s' = dropped s)
    (fun _ s' => interrupted ms s s') s.
Proof.
  intros Hs. unfold MessageConsumer_call. apply wp_bind.
  eapply wp_mono; [by apply consume_loop_spec| |done]. intros moved s1 (-> & ?). by apply wp_ret.
Qed.

(** C18: consuming keeps every message exactly once and in order: the chunks followed by the buffer grow
    by exactly the messages given; every chunk has the configured size and the buffer stays below it;
    the call reports success, and the ids in its argument survive while the data is moved out. Only a
    thread that cannot be started makes the call throw: it has then taken a first part of the
    messages, and the chunk of that thread, with what was in the buffer before, is in no thread and
    not in the buffer. *)
Theorem consume_chunks (messages : Messages) (s : st) :
  consumer_ok s ->
  wp (MessageConsumer_call messages)
    (fun r s' => r = (true, moved_from <$> messages) /\ consumer_ok s' /\
       received s' = received s ++ messages /\ spawned s `prefix_of` spawned s' /\
       dropped s' = dropped s)
    (fun _ s' => consumer_ok s' /\ buffer_ (members s') = [] /\
       (exists taken rest, messages = taken ++ rest /\ taken <> [] /\
          received s' = received s ++ taken) /\
       exists chunk, chunk <> [] /\ dropped s' = dropped s ++ [chunk] /\ last (chunks s') = Some chunk) s.
Proof.
  intros Hs. eapply wp_mono; [by apply MessageConsumer_call_spec|..]; cbn beta.
  - intros r s' (-> & (? & ? & _ & _ & ?) & ?). by split_and!.
  - intros e s' (taken & rest & -> & Hne & (? & ? & _) & ? & chunk & ?). split_and!; [done|done| |by exists chunk].
    by exists taken, rest.
Qed.
End consumer.

(** ** The files of all chunks *)

(** The data of the message is on disk, in a file that holds it with its line break. *)
Definition saved (fs : filesystem) (m : Message) : Prop :=
  exists path before after, files fs !! path = Some (before ++ line m ++ after).

Lemma content_saved fs path ms m :
  files fs !! path = Some (content ms) -> m ∈ ms -> saved fs m.
Proof.
  intros Hf (l1 & l2 & ->)%list_elem_of_split. rewrite content_app in Hf. by eexists _, _, _.
Qed.

(** The device takes all of every file. *)
Definition roomy (fs : filesystem) : Prop :=
  (forall path, writable fs path = true) /\ (forall path, capacity fs path = None).

Section exit.
Context {T : Type} `{!Threads T}.
Implicit Types s : env MessageConsumer T thread_event.

(** The disk at the end of the program, when the destructor of the consumer has returned: its threads
    have come as far as they have, in any interleaving. *)
Definition disk_at_exit s (fs fs' : filesystem) (ws : list writer) : Prop :=
  rtc (disk_step (outputFolder_ (members s))) (start_all (all_jobs s), fs) (ws, fs') /\
  finish (outputFolder_ (members s)) fs (buffer_ (members s)) ∈ ws.

(** The thread of the chunk has come to its end, and no other writes a file of this name. *)
Definition chunk_done s (fs : filesystem) (ws : list writer) (j : Messages) : Prop :=
  finish (outputFolder_ (members s)) fs j ∈ ws /\
  Forall (fun w => ~ writes_to (fullPath j (outputFolder_ (members s))) w) ws.

Lemma exit_saved s fs fs' ws j m :
  disk_at_exit s fs fs' ws -> names_agree (outputFolder_ (members s)) (all_jobs s) -> roomy fs ->
  chunk_done s fs ws j -> m ∈ j -> saved fs' m.
Proof.
  intros [Hs _] Hag [Hw Hc] [Hin Hq] Hm. eapply (content_saved _ (fullPath j _)); [|exact Hm].
  rewrite (finished_chunk _ _ j fs fs' ws Hag Hs); try done.
  - unfold fitting. by rewrite Hc.
  - by intros ->; apply elem_of_nil in Hm.
Qed.

Lemma all_done s fs fs' ws j :
  rtc (disk_step (outputFolder_ (members s))) (start_all (all_jobs s), fs) (ws, fs') ->
  Forall (fun w => is_finished w = true) ws -> j ∈ all_jobs s -> chunk_done s fs ws j.
Proof.
  intros Hs Hf Hj. split.
  - rewrite (run_ok_finished _ _ _ _ _ (run_ok_steps _ _ _ _ Hs) Hf). by apply list_elem_of_fmap_2.
  - eapply Forall_impl; [exact Hf|]. intros [] Hw Hp; done.
Qed.
End exit.

(** Chunks of a list with strictly ascending ids have different names. *)

Lemma min_id_attained ms :
  ms <> [] -> Forall (fun m => fits_width (id m)) ms -> exists m, m ∈ ms /\ id m = min_id ms.
Proof.
  intros Hne Hf. induction Hf as [|m ms Hm _ IH]; [done|]. cbn. fold (min_id ms).
  destruct (decide (ms = [])) as [->|Hms].
  { exists m. unfold fits_width in Hm. cbn. split; [set_solver|lia]. }
  destruct (IH Hms) as (k & Hk & Hid).
  destruct (Z.min_spec (id m) (min_id ms)) as [[_ ->]|[_ ->]]; [exists m|exists k]; set_solver.
Qed.

Lemma ascending_chunk_unique chunks j1 j2 m1 m2 :
  StronglySorted id_lt (concat chunks) -> j1 ∈ chunks -> j2 ∈ chunks -> m1 ∈ j1 -> m2 ∈ j2 ->
  id m1 = id m2 -> j1 = j2.
Proof.
  intros Hs H1 H2 Hm1 Hm2 Hid. induction chunks as [|j chunks IH]; [by apply elem_of_nil in H1|].
  cbn in Hs. apply StronglySorted_app in Hs as (Hlt & _ & Hs).
  assert (Hin : forall k m, k ∈ chunks -> m ∈ k -> m ∈ concat chunks).
  { intros k m Hk Hm. apply list_elem_of_In, in_concat. exists k. by rewrite <-!list_elem_of_In. }
  unfold id_lt in Hlt. apply elem_of_cons in H1 as [->|H1], H2 as [->|H2]; [done| | |by apply IH].
  - specialize (Hlt m1 m2 Hm1 (Hin _ _ H2 Hm2)). lia.
  - specialize (Hlt m2 m1 Hm2 (Hin _ _ H1 Hm1)). lia.
Qed.

Lemma ascending_names_agree folder chunks :
  StronglySorted id_lt (concat chunks) -> Forall (fun m => fits_width (id m)) (concat chunks) ->
  names_agree folder chunks.
Proof.
  intros Hs Hf j1 j2 H1 H2 Hn1 Hn2 He.
  assert (Hfit : forall j, j ∈ chunks -> Forall (fun m => fits_width (id m)) j).
  { intros j Hj. rewrite Forall_forall in *. intros m Hm. apply Hf. apply list_elem_of_In, in_concat.
    exists j. by rewrite <-!list_elem_of_In. }
  assert (Hr : forall j, j ∈ chunks -> j <> [] -> exists m back, m ∈ j /\ fits_width (id m) /\
            fits_width (id back) /\ min_max j = (id m, id back)).
  { intros j Hj Hne. destruct (min_id_attained j Hne (Hfit j Hj)) as (m & Hm & Hid).
    destruct (last j) as [back|] eqn:Hb; [|by apply last_None in Hb].
    exists m, back. rewrite (min_max_last _ _ Hb), Hid.
    pose proof (Hfit j Hj) as Hall. rewrite Forall_forall in Hall.
    split_and!; [done|by rewrite <-Hid; apply Hall|by apply Hall, last_Some_elem_of|done]. }
  destruct (Hr j1 H1 Hn1) as (m1 & b1 & Hm1 & Hf1 & Hb1 & He1).
  destruct (Hr j2 H2 Hn2) as (m2 & b2 & Hm2 & Hf2 & Hb2 & He2).
  unfold fullPath in He. rewrite He1, He2 in He. apply path_append_inj, fileName_inj in He as [Hid _];
    [|done..]. by rewrite (ascending_chunk_unique chunks j1 j2 m1 m2).
Qed.


Lemma all_jobs_chunk {T} (s : env MessageConsumer T thread_event) j :
  j ∈ all_jobs s -> j ∈ chunks s ++ [buffer_ (members s)].
Proof. unfold all_jobs. rewrite !elem_of_app, chunks_split. naive_solver. Qed.

(** C22: when the ids the consumer has taken ascend and have at most 19 digits, and the device takes
    every file, the files never overwrite each other: however the threads and the destructor
    interleave, when all have finished every message a thread got or the buffer held is on disk, and
    every chunk is the whole content of the file of its name. *)
Theorem ascending_saved {T : Type} (s : env MessageConsumer T thread_event) (fs fs' : filesystem)
    (ws : list writer) :
  StronglySorted id_lt (received s) -> Forall (fun m => fits_width (id m)) (received s) ->
  roomy fs ->
  rtc (disk_step (outputFolder_ (members s))) (start_all (all_jobs s), fs) (ws, fs') ->
  Forall (fun w => is_finished w = true) ws ->
  (forall m, m ∈ delivered s -> saved fs' m) /\
  (forall j, j ∈ all_jobs s -> j <> [] ->
     files fs' !! fullPath j (outputFolder_ (members s)) = Some (content j)).
Proof.
  intros Hs Hf [Hw Hc] Hrun Hfin.
  assert (Hd : received s = concat (chunks s ++ [buffer_ (members s)])).
  { unfold received. by rewrite concat_app; cbn; rewrite app_nil_r. }
  rewrite Hd in Hs, Hf. pose proof (ascending_names_agree (outputFolder_ (members s)) _ Hs Hf) as Hag.
  assert (Hag' : names_agree (outputFolder_ (members s)) (all_jobs s)).
  { intros j1 j2 H1 H2. by apply Hag; apply all_jobs_chunk. }
  assert (Hfile : forall j, j ∈ all_jobs s -> j <> [] ->
            files fs' !! fullPath j (outputFolder_ (members s)) = Some (content j)).
  { intros j Hj Hne. destruct (all_done s fs fs' ws j Hrun Hfin Hj) as [H1 H2].
    rewrite (finished_chunk _ _ j fs fs' ws Hag' Hrun) by done. unfold fitting. by rewrite Hc. }
  split; [|exact Hfile]. intros m (j & Hj & Hm)%delivered_job. eapply content_saved; [|exact Hm].
  apply Hfile; [done|]. by intros ->; apply elem_of_nil in Hm.
Qed.

(** ** Instances *)

(** Threads that start as the list says, and all later ones. *)
#[export] Instance scripted_threads : Threads (list (exn + unit)) := fun w =>
  match w with
  | [] => (inr tt, [])
  | r :: w' => (r, w')
  end.

Definition four_messages : Messages := two_messages ++ [mkMessage 8 []; mkMessage 9 [1]].

Definition new_consumer (w : list (exn + unit)) : env MessageConsumer (list (exn + unit)) thread_event :=
  Env (mkMessageConsumer 3 "/out" []) w [].

Lemma new_consumer_ok w : consumer_ok (new_consumer w).
Proof. split_and!; [reflexivity..|constructor]. Qed.

Definition small_consumer : env MessageConsumer (list (exn + unit)) thread_event :=
  (MessageConsumer_call four_messages (new_consumer [])).2.

(** [EAGAIN] of [pthread_create] *)
Definition no_thread : exn := runtime_error "Resource temporarily unavailable".

Lemma consume_chunks_witness :
  let s := new_consumer [inl no_thread] in
  wp (MessageConsumer_call four_messages)
    (fun r s' => r = (true, moved_from <$> four_messages) /\ consumer_ok s' /\
       received s' = received s ++ four_messages /\ spawned s `prefix_of` spawned s' /\
       dropped s' = dropped s)
    (fun _ s' => consumer_ok s' /\ buffer_ (members s') = [] /\
       (exists taken rest, four_messages = taken ++ rest /\ taken <> [] /\
          received s' = received s ++ taken) /\
       exists chunk, chunk <> [] /\ dropped s' = dropped s ++ [chunk] /\ last (chunks s') = Some chunk) s.
Proof. apply consume_chunks, new_consumer_ok. Defined.

(** The call whose thread cannot be started: three messages are gone. *)
Example consume_no_thread :
  MessageConsumer_call four_messages (new_consumer [inl no_thread]) =
    (Throw no_thread, Env (mkMessageConsumer 3 "/out" []) []
       [SaveThread (two_messages ++ [mkMessage 8 []]) (inl no_thread)]).
Proof. reflexivity. Qed.

Lemma small_consumer_run :
  rtc (disk_step "/out") (start_all (all_jobs small_consumer), empty_fs)
    (finish "/out" empty_fs <$> all_jobs small_consumer,
     run_jobs (all_jobs small_consumer) "/out" empty_fs).
Proof. apply run_jobs_steps. Qed.

Lemma ascending_saved_witness :
  let fs' := run_jobs (all_jobs small_consumer) "/out" empty_fs in
  (forall m, m ∈ four_messages -> saved fs' m) /\
  (forall j, j ∈ [two_messages ++ [mkMessage 8 []]; [mkMessage 9 [1]]] -> j <> [] ->
     files fs' !! fullPath j "/out" = Some (content j)).
Proof.
  apply (ascending_saved small_consumer empty_fs _ (finish "/out" empty_fs <$> all_jobs small_consumer)).
  - change (received small_consumer) with four_messages. unfold four_messages, two_messages.
    repeat constructor.
  - change (received small_consumer) with four_messages. unfold four_messages, two_messages, fits_width.
    repeat constructor; cbn; lia.
  - done.
  - apply small_consumer_run.
  - apply finish_finished.
Defined.

(** When the same messages are consumed twice, as after a deletion that failed, a chunk can end
    before its largest id: its file name then gives the id of the last message as the end of the
    range and leaves out a message that is in the file. *)
Theorem repeated_chunk_name :
  exists s chunk m,
    (MessageConsumer_call two_messages ≫= fun _ => MessageConsumer_call two_messages)
      (new_consumer []) = (Value (true, moved_from <$> two_messages), s) /\
    spawned s = [chunk] /\ m ∈ chunk /\
    fullPath chunk "/out" = "/out/0000000000000000005-0000000000000000005" /\
    ~ (5 <= id m <= 5).
Proof.
  exists (Env (mkMessageConsumer 3 "/out" [mkMessage 7 [10]]) []
            [SaveThread (two_messages ++ [mkMessage 5 [104; 105]]) (inr tt)]),
    (two_messages ++ [mkMessage 5 [104; 105]]), (mkMessage 7 [10]).
  split_and!; try by vm_compute.
  - unfold two_messages. set_solver.
  - simpl. lia.
Qed.
