(* ===== verification/BackMain.v ===== *)
(** * The back end's main loop (gwback/src/main.cpp)

    [runLoop] moves messages from a producer to the consumer, over any producer that keeps the
    contract [ProducerLaws]. The values the loop reads from the atomic flag [run] are a list: it is
    the environment that clears the flag. Pauses and log lines change no state of the model. *)

From stdpp Require Import relations.
From S2P Require Import Prelude CommonConfig ProgramOptions Log ResolveHost BackConfig Message Hiredis.
From S2P Require Import RedisReply RedisServer RedisProducer Pqxx PostgresProducer ChunkFile Consumer.

Section loop.
Context {P : Type} `{!IProducer P} {T : Type} `{!Threads T}.

Record back : Type := mkBack { producer : P; consumer : env MessageConsumer T thread_event }.

Definition on_producer {A} (m : prog P A) : prog back A := fun s =>
  let '(o, p) := m (producer s) in (o, mkBack p (consumer s)).

Definition on_consumer {A} (m : prog (env MessageConsumer T thread_event) A) : prog back A := fun s =>
  let '(o, c) := m (consumer s) in (o, mkBack (producer s) c).

(** The body of the loop. *)
Definition iteration : prog back unit :=
  try_catch
    (messages ← on_producer getNext;
     if decide (messages = []) then mret tt
     else
       r ← on_consumer (MessageConsumer_call messages);
       let '(ok, messages') := r in
       if (ok : bool) then on_producer (markConsumed messages') else mret tt)
    (fun _ => mret tt).

(** [while (run) { ... }]: the loop reads the values [runs], one at the head of every iteration. *)
Fixpoint runLoop (runs : list bool) : prog back unit :=
  match runs with
  | true :: runs' => iteration ;; runLoop runs'
  | _ => mret tt
  end.

(** ** No message is lost *)

Context (stored : P -> Message -> Prop) `{!ProducerLaws P stored}.

(** The message is in the storage or the consumer has taken it. *)
Definition accounted (m : Message) (s : back) : Prop :=
  stored (producer s) m \/ m ∈ received (consumer s).

Lemma moved_ids (ms : Messages) : id <$> (moved_from <$> ms) = id <$> ms.
Proof. rewrite <-list_fmap_compose. by apply list_fmap_ext. Qed.

Lemma moved_in_u64 (p : P) ms :
  (getNext p).1 = Value ms -> Forall in_u64 (moved_from <$> ms).
Proof.
  intros H. apply Forall_fmap. eapply Forall_impl; [by apply getNext_reads|]. by intros m [_ ?].
Qed.

Lemma moved_nonempty (ms : Messages) : ms <> [] -> moved_from <$> ms <> [].
Proof. by destruct ms. Qed.

(** What one iteration does when it reads messages: it hands them over, then marks them; when a thread
    cannot be started it marks nothing. *)
Lemma iteration_reads s ms :
  consumer_ok (consumer s) -> (getNext (producer s)).1 = Value ms -> ms <> [] ->
  let p1 := (getNext (producer s)).2 in
  exists c',
    (took ms (consumer s) c' /\ dropped c' = dropped (consumer s) /\
     iteration s = (Value tt, mkBack (markConsumed (moved_from <$> ms) p1).2 c')) \/
    (interrupted ms (consumer s) c' /\ iteration s = (Value tt, mkBack p1 c')).
Proof.
  intros Hc Hg Hne p1. pose proof (MessageConsumer_call_spec ms (consumer s) Hc) as Hcall.
  pose proof (markConsumed_defined _ (moved_nonempty ms Hne) p1) as Hd. subst p1.
  unfold iteration, try_catch, mbind, prog_bind, on_producer, on_consumer, wp in *.
  destruct (getNext (producer s)) as [o p1]. cbn in Hg, Hd |- *. subst o. rewrite decide_False by done.
  cbn. destruct (MessageConsumer_call ms (consumer s)) as [[r|e|] c']; [| |done]; exists c'.
  - left. destruct Hcall as (-> & Ht & Hdr). split_and!; [done|done|]. cbn.
    by destruct (markConsumed _ p1) as [[[]|e|] p2].
  - by right.
Qed.

Lemma iteration_idle s :
  match (getNext (producer s)).1 with Value ms => ms = [] | _ => True end ->
  iteration s = (Value tt, mkBack (getNext (producer s)).2 (consumer s)).
Proof.
  intros H. pose proof (getNext_defined (producer s)) as Hd.
  unfold iteration, try_catch, mbind, prog_bind, on_producer.
  destruct (getNext (producer s)) as [[ms|e|] p1]; cbn in *; [by subst|done|done].
Qed.

(** A message that was in the storage before a reading is still there, or was read, after the marking. *)
Lemma marked_or_kept p ms m :
  (getNext p).1 = Value ms -> ms <> [] -> stored p m ->
  stored (markConsumed (moved_from <$> ms) (getNext p).2).2 m \/ m ∈ ms.
Proof.
  intros Hg Hne Hm. apply (getNext_keeps p) in Hm. destruct (decide (id m ∈ id <$> ms)) as [Hin|Hin].
  - right. apply list_elem_of_fmap in Hin as (m' & Hid & Hm').
    pose proof (getNext_reads p ms Hg) as Hr. rewrite Forall_forall in Hr.
    destruct (Hr m' Hm') as [Hm'' _]. by rewrite (stored_id _ m m' Hm Hm'' Hid).
  - left. apply markConsumed_keeps; [by eapply moved_in_u64|by apply moved_nonempty|done|].
    by rewrite moved_ids.
Qed.

Lemma iteration_spec s :
  consumer_ok (consumer s) ->
  (iteration s).1 = Value tt /\ consumer_ok (consumer (iteration s).2) /\
  outputFolder_ (members (consumer (iteration s).2)) = outputFolder_ (members (consumer s)) /\
  forall m, accounted m s -> accounted m (iteration s).2.
Proof.
  intros Hc.
  assert (Hidle : iteration s = (Value tt, mkBack (getNext (producer s)).2 (consumer s)) ->
    (iteration s).1 = Value tt /\ consumer_ok (consumer (iteration s).2) /\
    outputFolder_ (members (consumer (iteration s).2)) = outputFolder_ (members (consumer s)) /\
    forall m, accounted m s -> accounted m (iteration s).2).
  { intros ->. split_and!; try done. intros m [Hm|Hm]; [left; by apply getNext_keeps|by right]. }
  destruct (getNext (producer s)).1 as [ms|e|] eqn:Hg;
    [|apply Hidle, iteration_idle; by rewrite Hg..].
  destruct (decide (ms = [])) as [->|Hne]; [apply Hidle, iteration_idle; by rewrite Hg|].
  destruct (iteration_reads s ms Hc Hg Hne)
    as (c' & [((Hok & Hr & _ & Hf & _) & _ & ->)|((taken & rest & -> & _ & (Hok & Hr & _ & Hf & _) & _) & ->)]).
  - split_and!; [done|done|done|]. intros m Hm. unfold accounted. cbn. rewrite Hr, elem_of_app.
    destruct Hm as [Hm|Hm]; [|by right; left].
    destruct (marked_or_kept (producer s) ms m Hg Hne Hm) as [?|?]; [by left|by right; right].
  - split_and!; [done|done|done|]. intros m Hm. unfold accounted. cbn. rewrite Hr, elem_of_app.
    destruct Hm as [Hm|Hm]; [left; by apply getNext_keeps|by right; left].
Qed.

(** What an iteration does to the messages and to the producer: it reads, and then marks or does not. *)
Lemma iteration_keeps s :
  consumer_ok (consumer s) ->
  consumer_ok (consumer (iteration s).2) /\
  (forall m, stored (producer s) m -> accounted m (iteration s).2) /\
  (forall m, m ∈ received (consumer s) -> m ∈ received (consumer (iteration s).2)) /\
  (producer (iteration s).2 = (getNext (producer s)).2 \/
   exists ms, producer (iteration s).2 = (markConsumed ms (getNext (producer s)).2).2).
Proof.
  intros Hc. destruct (iteration_spec s Hc) as (_ & Hok & _ & Hacc).
  split_and!; [done|intros m Hm; apply Hacc; by left|..].
  all: destruct (getNext (producer s)).1 as [ms|e|] eqn:Hg;
    [|rewrite iteration_idle by (by rewrite Hg); by auto..].
  all: destruct (decide (ms = [])) as [->|Hne]; [rewrite iteration_idle by (by rewrite Hg); by auto|].
  all: destruct (iteration_reads s ms Hc Hg Hne)
    as (c' & [((_ & Hr & _) & _ & ->)|((taken & rest & _ & _ & (_ & Hr & _) & _) & ->)]); cbn; eauto.
  all: intros m Hm; rewrite Hr; apply elem_of_app; by left.
Qed.

Lemma runLoop_spec runs s :
  consumer_ok (consumer s) ->
  (runLoop runs s).1 = Value tt /\ consumer_ok (consumer (runLoop runs s).2) /\
  outputFolder_ (members (consumer (runLoop runs s).2)) = outputFolder_ (members (consumer s)) /\
  forall m, accounted m s -> accounted m (runLoop runs s).2.
Proof.
  revert s. induction runs as [|[|] runs IH]; intros s Hc; [done| |done].
  cbn [runLoop]. unfold mbind, prog_bind. destruct (iteration_spec s Hc) as (H1 & H2 & H3 & H4).
  destruct (iteration s) as [o s1]. cbn in *. subst o.
  destruct (IH s1 H2) as (G1 & G2 & G3 & G4). rewrite G3. split_and!; auto.
Qed.

(** C3: at-least-once delivery. However often the loop runs and whatever call throws, the loop
    returns as soon as it reads a cleared flag, without undefined behaviour, and every message that
    was in the storage still is, or the consumer has taken it with its data: a thread got it, or it is
    in the buffer, or it was in a chunk whose thread could not be started. The loop deletes nothing it
    has not handed over. *)
Theorem runLoop_no_loss (runs : list bool) (s : back) :
  consumer_ok (consumer s) ->
  exists s',
    runLoop runs s = (Value tt, s') /\
    consumer_ok (consumer s') /\
    forall m, stored (producer s) m ->
      stored (producer s') m \/ m ∈ delivered (consumer s') \/ m ∈ concat (dropped (consumer s')).
Proof.
  intros Hc. destruct (runLoop_spec runs s Hc) as (H1 & H2 & _ & H3).
  exists (runLoop runs s).2. split_and!; [by rewrite <-H1; destruct (runLoop runs s)|done|].
  intros m Hm. destruct (H3 m (or_introl Hm)) as [H|H%received_split]; [by left|by right].
Qed.

(** An iteration that reads messages and marks them without an exception, with threads that start,
    hands over exactly these messages, in order, and none of them is in the storage afterwards, so they
    are not read again. When a thread cannot be started nothing is marked: all of them are read again. *)
Theorem iteration_delivers (s : back) (ms : Messages) :
  consumer_ok (consumer s) ->
  (getNext (producer s)).1 = Value ms -> ms <> [] ->
  (markConsumed (moved_from <$> ms) (getNext (producer s)).2).1 = Value tt ->
  exists s',
    iteration s = (Value tt, s') /\
    ((dropped (consumer s') = dropped (consumer s) /\
      received (consumer s') = received (consumer s) ++ ms /\
      Forall (fun m => ~ stored (producer s') m) ms) \/
     (length (dropped (consumer s')) = S (length (dropped (consumer s))) /\
      producer s' = (getNext (producer s)).2 /\ Forall (stored (producer s')) ms)).
Proof.
  intros Hc Hg Hne Hm.
  destruct (iteration_reads s ms Hc Hg Hne)
    as (c' & [((_ & Hr & _) & Hd & ->)|((taken & rest & _ & _ & _ & _ & chunk & _ & Hd & _) & ->)]);
    (eexists; split; [reflexivity|]); [left|right]; (split_and!; [|done|]); try done.
  - apply Forall_forall. intros m Hin Hst. cbn in Hst.
    apply (markConsumed_deletes (getNext (producer s)).2 (moved_from <$> ms)) in Hst.
    + apply Hst. rewrite moved_ids. by apply list_elem_of_fmap_2.
    + by eapply moved_in_u64.
    + by apply moved_nonempty.
    + done.
  - cbn. rewrite Hd, length_app. cbn. lia.
  - eapply Forall_impl; [by apply getNext_reads|]. by intros m [? _].
Qed.
End loop.
Arguments back P T : clear implicits.

(** ** The producer behind the pointer *)

(** [std::unique_ptr<IProducer>]: one of two producers, called through the interface. *)
Section dispatch.
Context {P Q : Type}.

Definition on_left {A} (m : prog P A) : P -> outcome A * (P + Q) := fun p =>
  let '(o, p') := m p in (o, inl p').
Definition on_right {A} (m : prog Q A) : Q -> outcome A * (P + Q) := fun q =>
  let '(o, q') := m q in (o, inr q').

Context `{!IProducer P, !IProducer Q}.

#[export] Instance sum_producer : IProducer (P + Q) := {|
  getNext s := match s with inl p => on_left getNext p | inr q => on_right getNext q end;
  markConsumed ms s :=
    match s with inl p => on_left (markConsumed ms) p | inr q => on_right (markConsumed ms) q end
|}.

Context (storedP : P -> Message -> Prop) (storedQ : Q -> Message -> Prop).

Definition sum_stored (s : P + Q) (m : Message) : Prop :=
  match s with inl p => storedP p m | inr q => storedQ q m end.

Lemma on_left_result {A} (m : prog P A) p :
  (on_left m p).1 = (m p).1 /\ (on_left m p).2 = inl (m p).2.
Proof. unfold on_left. by destruct (m p). Qed.

Lemma on_right_result {A} (m : prog Q A) q :
  (on_right m q).1 = (m q).1 /\ (on_right m q).2 = inr (m q).2.
Proof. unfold on_right. by destruct (m q). Qed.

#[export] Instance sum_laws `{!ProducerLaws P storedP, !ProducerLaws Q storedQ} :
  ProducerLaws (P + Q) sum_stored.
Proof.
  split.
  - intros [p|q]; [exact (stored_id p)|exact (stored_id q)].
  - intros [p|q] m; cbn -[on_left on_right]; rewrite ?(proj2 (on_left_result _ _)), ?(proj2 (on_right_result _ _));
      [exact (getNext_keeps p m)|exact (getNext_keeps q m)].
  - intros [p|q] ms; cbn -[on_left on_right]; rewrite ?(proj1 (on_left_result _ _)), ?(proj1 (on_right_result _ _)), ?(proj2 (on_left_result _ _)), ?(proj2 (on_right_result _ _));
      [exact (getNext_reads p ms)|exact (getNext_reads q ms)].
  - intros [p|q]; cbn -[on_left on_right]; rewrite ?(proj1 (on_left_result _ _)), ?(proj1 (on_right_result _ _));
      [exact (getNext_defined p)|exact (getNext_defined q)].
  - intros [p|q] ms m; cbn -[on_left on_right]; rewrite ?(proj2 (on_left_result _ _)), ?(proj2 (on_right_result _ _));
      [exact (markConsumed_keeps p ms m)|exact (markConsumed_keeps q ms m)].
  - intros [p|q] ms m; cbn -[on_left on_right]; rewrite ?(proj1 (on_left_result _ _)), ?(proj1 (on_right_result _ _)), ?(proj2 (on_left_result _ _)), ?(proj2 (on_right_result _ _));
      [exact (markConsumed_deletes p ms m)|exact (markConsumed_deletes q ms m)].
  - intros ms Hms [p|q]; cbn -[on_left on_right]; rewrite ?(proj1 (on_left_result _ _)), ?(proj1 (on_right_result _ _));
      [exact (markConsumed_defined ms Hms p)|exact (markConsumed_defined ms Hms q)].
Qed.
End dispatch.

(** ** The program *)

Section program.
Context {argv vm view : Type} `{!ProgramOptions argv vm, !Toml view, !TomlFile view}.
(** The two libraries and what lies behind them, and the threads of the system, share no state. *)
Context {Wp row : Type} `{!Pqxx Wp row} {Wr : Type} `{!Netdb Wr, !Hiredis Wr}.
Context {T : Type} `{!Threads T}.

Abbreviation any_producer :=
  (env PostgresProducer Wp (pg_event row) + env RedisProducer Wr redis_event)%type.

(** [None]: the usage or the error was printed and the program stops. *)
Definition parseArguments (args : argv) : option string :=
  match store args with
  | inl _ => None
  | inr m => if count_help m then None
             else match notify m with inl _ => None | inr configPath => Some configPath end
  end.

(** The choice of the producer; [*config.redis] of an empty optional is undefined behaviour. *)
Definition make_producer (config : Config) (wp : Wp) (wr : Wr) : outcome any_producer :=
  match postgres config with
  | Some c => Value (inl (Env (PostgresProducer_init c (BackConfig.producer config)) wp []))
  | None =>
      match redis config with
      | None => UB
      | Some c =>
          match RedisProducer_init c (BackConfig.producer config) wr with
          | (Value p, wr') => Value (inr (Env p wr' []))
          | (Throw e, _) => Throw e
          | (UB, _) => UB
          end
      end
  end.

(** The consumer when its object is made. *)
Definition start_consumer (config : ConsumerConfig) (th : T) : env MessageConsumer T thread_event :=
  Env (MessageConsumer_init config) th [].

(** [main]: how it ends, the logging core, and the loop's state when the thread was joined. An
    exception that leaves the loop leaves the thread. *)
Definition main (args : argv) (runs : list bool) (core : log_core) (wp : Wp) (wr : Wr) (th : T) :
    ending * log_core * option (back any_producer T) :=
  match parseArguments args with
  | None => (Exit EXIT_FAILURE, core, None)
  | Some configPath =>
      match parseConfig configPath BackConfig.initial_Config with
      | (Value true, config) =>
          let core' := (initLog (BackConfig.log config) core).2 in
          match make_producer config wp wr with
          | Value p =>
              (* [std::thread(runLoop, ...)]; its exception is caught *)
              match thread_create th with
              | (inl _, _) => (Exit EXIT_FAILURE, core', None)
              | (inr _, th') =>
                  match runLoop runs (mkBack p (start_consumer (BackConfig.consumer config) th')) with
                  | (Value _, s) => (Exit EXIT_SUCCESS, core', Some s)
                  | (Throw e, s) => (Terminated e, core', Some s)
                  | (UB, s) => (Undefined, core', Some s)
                  end
              end
          | Throw _ => (Exit EXIT_FAILURE, core', None)
          | UB => (Undefined, core', None)
          end
      | (Value false, _) => (Exit EXIT_FAILURE, core, None)
      | (Throw e, _) => (Terminated e, core, None)
      | (UB, _) => (Undefined, core, None)
      end
  end.

(** A parsed configuration starts a consumer in a good state and names a storage. *)
Lemma parsed_config configPath config :
  parseConfig configPath BackConfig.initial_Config = (Value true, config) ->
  (forall th, consumer_ok (start_consumer (BackConfig.consumer config) th)) /\
  (is_Some (postgres config) \/ is_Some (redis config)).
Proof.
  intros H. apply config_file_iff in H as (table & _ & H); [|apply fillConfig_safe].
  apply fillConfig_sound in H as (_ & _ & _ & Hst & [_ [Hn _]] & _). split; [intros th|done].
  unfold consumer_ok. cbn. unfold integer_or in Hn. case_match; split_and!; try done; lia.
Qed.

Lemma make_producer_defined config wp wr :
  is_Some (postgres config) \/ is_Some (redis config) -> make_producer config wp wr <> UB.
Proof.
  unfold make_producer, RedisProducer_init. intros [[c ->]|[c Hc]]; [done|]. rewrite Hc.
  destruct (postgres config); [done|]. destruct (resolveHost _ _) as [h w]. by destruct (str_empty h).
Qed.

Lemma parseConfig_returns configPath config :
  exists b c, parseConfig configPath config = (Value b, c).
Proof. apply (config_file_iff fillConfig), fillConfig_safe. Qed.

(** The program stopped before the loop. *)
Ltac no_loop := eexists _, _, None; split_and!; [reflexivity|split; [done|by intros []]|done].

End program.

(** ** Instances on the reference database *)

Abbreviation pg_back :=
  (back (env PostgresProducer reference_db (pg_event Message)) (list (exn + unit))).

Definition sample_back : pg_back :=
  mkBack PostgresProducer.sample_state (new_consumer []).

Lemma runLoop_no_loss_witness :
  exists s', runLoop [true; true; true; false] sample_back = (Value tt, s') /\
    consumer_ok (consumer s') /\
    forall m, pg_stored reference_table (producer sample_back) m ->
      pg_stored reference_table (producer s') m \/ m ∈ delivered (consumer s') \/
      m ∈ concat (dropped (consumer s')).
Proof.
  apply (runLoop_no_loss (pg_stored reference_table) [true; true; true; false] sample_back), new_consumer_ok.
Defined.

Lemma iteration_delivers_witness :
  let ms := [mkMessage 3 [104; 105]; mkMessage 7 []] in
  exists s', iteration sample_back = (Value tt, s') /\
    ((dropped (consumer s') = [] /\ received (consumer s') = ms /\
      Forall (fun m => ~ pg_stored reference_table (producer s') m) ms) \/
     (length (dropped (consumer s')) = 1%nat /\
      producer s' = (getNext (producer sample_back)).2 /\
      Forall (pg_stored reference_table (producer s')) ms)).
Proof.
  apply (iteration_delivers (pg_stored reference_table) sample_back).
  - apply new_consumer_ok.
  - exact pg_getNext_sample.
  - discriminate.
  - vm_compute. reflexivity.
Defined.

(** An iteration deletes messages from the storage before they are on disk: after it the message
    is in no table row and in no chunk handed to a thread, only in the memory of the consumer. *)
Theorem deleted_before_saved :
  exists (s : pg_back) m,
    pg_stored reference_table (producer s) m /\
    (iteration s).1 = Value tt /\
    let s' := (iteration s).2 in
    ~ pg_stored reference_table (producer s') m /\
    spawned (consumer s') = [] /\ m ∈ buffer_ (members (consumer s')).
Proof.
  exists sample_back, (mkMessage 3 [104; 105]).
  assert (Hi : iteration sample_back = (Value tt,
    mkBack (producer (iteration sample_back).2)
      (Env (mkMessageConsumer 3 "/out" [mkMessage 3 [104; 105]; mkMessage 7 []]) [] []))) by (by vm_compute).
  assert (Ht : reference_table (world (producer (iteration sample_back).2)) = [mkMessage 8 [10]])
    by (by vm_compute).
  cbv zeta. rewrite Hi. split_and!; [|done| |done|cbn; set_solver].
  - unfold pg_stored. vm_compute. left.
  - unfold pg_stored. cbn [producer snd]. rewrite Ht. set_solver.
Qed.

(** When a thread cannot be started, messages that earlier iterations have deleted from the storage are
    lost: the first iteration takes two of three messages into the buffer and deletes them, the second
    completes the chunk and cannot start its thread. *)
Theorem failed_thread_loses :
  let s : pg_back := mkBack PostgresProducer.sample_state (new_consumer [inl no_thread]) in
  let m := mkMessage 3 [104; 105] in
  pg_stored reference_table (producer s) m /\
  (runLoop [true; true] s).1 = Value tt /\
  let s' := (runLoop [true; true] s).2 in
  ~ pg_stored reference_table (producer s') m /\ ~ m ∈ delivered (consumer s').
Proof.
  cbv zeta. set (s := mkBack _ _ : pg_back).
  assert (Ht : reference_table (world (producer (runLoop [true; true] s).2)) = [mkMessage 8 [10]])
    by (by vm_compute).
  assert (Hd : delivered (consumer (runLoop [true; true] s).2) = []) by (by vm_compute).
  split_and!; [unfold pg_stored; vm_compute; left|by vm_compute| |].
  - unfold pg_stored. cbn [snd]. rewrite Ht. set_solver.
  - rewrite Hd. apply not_elem_of_nil.
Qed.

(** The program does not wait for the threads it has detached: it can end, the destructor of the consumer
    done, while a thread has not written its chunk, whose messages are in the storage no more. *)
Theorem exit_before_saved :
  let s : pg_back :=
    mkBack PostgresProducer.sample_state (Env (mkMessageConsumer 2 "/out" []) [] []) in
  let m := mkMessage 3 [104; 105] in
  pg_stored reference_table (producer s) m /\
  (runLoop [true] s).1 = Value tt /\
  let s' := (runLoop [true] s).2 in
  ~ pg_stored reference_table (producer s') m /\
  exists fs' ws, disk_at_exit (consumer s') empty_fs fs' ws /\ ~ saved fs' m.
Proof.
  cbv zeta. set (s := mkBack _ _ : pg_back).
  assert (Ht : reference_table (world (producer (runLoop [true] s).2)) = [mkMessage 8 [10]])
    by (by vm_compute).
  assert (Hj : all_jobs (consumer (runLoop [true] s).2) = [[mkMessage 3 [104; 105]; mkMessage 7 []]; []])
    by (by vm_compute).
  assert (Hf : outputFolder_ (members (consumer (runLoop [true] s).2)) = "/out") by (by vm_compute).
  assert (Hb : buffer_ (members (consumer (runLoop [true] s).2)) = []) by (by vm_compute).
  split_and!; [unfold pg_stored; vm_compute; left|by vm_compute| |].
  - unfold pg_stored. cbn [snd]. rewrite Ht. set_solver.
  - exists empty_fs, [Starting [mkMessage 3 [104; 105]; mkMessage 7 []]; Finished [] None].
    unfold disk_at_exit. rewrite Hj, Hf, Hb. split_and!.
    + apply rtc_once. apply (thread_step _ 1 (Starting []) (Finished [] None)); [done|apply save_nothing].
    + set_solver.
    + intros (path & before & after & H). cbn in H. by rewrite lookup_empty in H.
Qed.

(** ** The whole back end over the reference libraries *)

#[local] Instance sample_file : TomlFile toml_value := fun _ =>
  inr (TTable [("postgres", pg_table "user" "123");
               ("consumer", TTable [("chunk_size", TInteger 2); ("output_folder", TString "/out")]);
               ("producer", TTable [("chunk_size", TInteger 2)])]).

#[local] Instance no_netdb : Netdb reference := {|
  getaddrinfo _ _ _ _ w := (None, w);
  freeaddrinfo w := w;
  inet_ntoa _ := ""
|}.

Definition sample_main (runs : list bool) :=
  main (argv := option string) (Some "gwback.toml") runs (mkLogCore None 0)
    PostgresProducer.sample_db (mkReference [] true) ([] : list (exn + unit)).

