(* ===== verification/Handler.v ===== *)
(** * The handler interface (gwfront/src/handler/interface.hpp, universal_handler.hpp)

    A handler answers a request body with a [Result]. [UniversalHandler] is a template over a checker
    and a writer: the classes [Checker] and [Writer] are what it needs of them, and [CheckerLaws] and
    [WriterLaws] what its theorems rely on. *)

From S2P Require Import Prelude.

(** [IHandler::Error] and [IHandler::Result]. *)
Inductive Error : Type := OK | GENERIC | BAD_DATA | STORAGE_UNAVAILABLE.

#[export] Instance Error_eq_dec : EqDecision Error.
Proof. solve_decision. Defined.

Record Result : Type := mkResult { error : Error; message : string }.

(** [std::thread::id] *)
Abbreviation thread_id := positive.

(** [class IHandler]: the call runs on the thread [t] and changes the handler's state. *)
Class IHandler (H : Type) : Type := handle : thread_id -> string -> prog H Result.

(** [Checker::Result], of the same shape in every checker. *)
Record CheckResult : Type := mkCheckResult { ok : bool; check_message : string }.

Class Checker : Type := check : string -> outcome CheckResult.

(** [Writer::Error] and [Writer::Result], of the same shape in every writer. *)
Inductive WriteError : Type := WRITE_OK | WRITE_GENERIC | WRITE_STORAGE_UNAVAILABLE.

#[export] Instance WriteError_eq_dec : EqDecision WriteError.
Proof. solve_decision. Defined.

Record WriteResult : Type := mkWriteResult { write_error : WriteError; write_message : string }.

Class Writer (S : Type) : Type := write : thread_id -> string -> prog S WriteResult.

Section handler.
Context {S : Type} `{!Checker, !Writer S}.

(** [UniversalHandler::operator()] *)
Definition UniversalHandler_call (t : thread_id) (data : string) : prog S Result :=
  checkResult ← lift (check data);
  if negb (ok checkResult) then mret (mkResult BAD_DATA (check_message checkResult))
  else
    writeResult ← write t data;
    match write_error writeResult with
    | WRITE_GENERIC => mret (mkResult GENERIC (write_message writeResult))
    | WRITE_STORAGE_UNAVAILABLE => mret (mkResult STORAGE_UNAVAILABLE (write_message writeResult))
    | _ => mret (mkResult OK "")
    end.

#[export] Instance UniversalHandler_handler : IHandler S := UniversalHandler_call.

(** ** What the handler promises *)

(** A checker never throws and runs into no undefined behaviour. *)
Class CheckerLaws : Prop := check_returns : forall data, exists r, check data = Value r.

(** [stored s]: the data the storage has confirmed to the writer, as bytes, the oldest first. A write
    returns, keeps what was stored, and adds its data exactly when it reports success. *)
Class WriterLaws (stored : S -> list (list Z)) (good : S -> Prop) : Prop := {
  write_good : forall t data, preserves good (write t data);
  write_returns : forall t data s, good s ->
    exists r s', write t data s = (Value r, s') /\
      stored s' = stored s ++ (if decide (write_error r = WRITE_OK) then [bytes_of data] else [])
}.

(** What the layers above the handler need. *)
Class HandlerLaws (H : Type) `{!IHandler H} (stored : H -> list (list Z)) (good : H -> Prop) : Prop :=
  handle_returns : forall t data s, good s ->
    exists r s', handle t data s = (Value r, s') /\ good s' /\
      stored s' = stored s ++ (if decide (error r = OK) then [bytes_of data] else []).

#[export] Instance UniversalHandler_laws `{!CheckerLaws} stored good `{!WriterLaws stored good} :
  HandlerLaws S stored good.
Proof.
  intros t data s Hs. destruct (check_returns data) as [c Hc].
  destruct (write_returns t data s Hs) as (w & s' & Hw & Hst).
  pose proof (write_good t data s Hs) as Hg. rewrite Hw in Hg.
  unfold handle, UniversalHandler_handler, UniversalHandler_call, mbind, prog_bind, lift.
  rewrite Hc. destruct (negb (ok c)).
  - exists (mkResult BAD_DATA (check_message c)), s. cbn. by rewrite app_nil_r.
  - rewrite Hw. by destruct w as [[] m]; eexists _, s'.
Qed.

(** C27: the handler always answers. It answers OK with an empty message exactly when the checker
    accepts the data and the storage then confirmed it, once; BAD_DATA with the checker's
    message exactly when the checker rejects it, and then the writer is not called and no state
    changes; otherwise the writer's error and message, with nothing confirmed by the storage. *)
Theorem UniversalHandler_result `{!CheckerLaws} stored good `{!WriterLaws stored good}
    (t : thread_id) (data : string) (s : S) :
  good s ->
  exists c r s',
    check data = Value c /\ handle t data s = (Value r, s') /\ good s' /\
    (error r = OK <-> ok c = true /\ stored s' = stored s ++ [bytes_of data]) /\
    (error r = BAD_DATA <-> ok c = false) /\
    (error r = OK -> message r = "") /\
    (error r = BAD_DATA -> message r = check_message c /\ s' = s) /\
    (error r <> OK -> stored s' = stored s) /\
    (error r = GENERIC \/ error r = STORAGE_UNAVAILABLE ->
       exists w, write t data s = (Value w, s') /\ message r = write_message w /\
         (error r = GENERIC <-> write_error w = WRITE_GENERIC)).
Proof.
  intros Hs. destruct (check_returns data) as [c Hc].
  destruct (write_returns t data s Hs) as (w & s' & Hw & Hst).
  pose proof (write_good t data s Hs) as Hg. rewrite Hw in Hg. cbn in Hg.
  assert (Hne : forall x : list Z, stored s <> stored s ++ [x]).
  { intros x Hx. apply (f_equal length) in Hx. rewrite length_app in Hx. cbn in Hx. lia. }
  exists c. unfold handle, UniversalHandler_handler, UniversalHandler_call, mbind, prog_bind, lift.
  rewrite Hc. destruct (ok c) eqn:Ho; cbn [negb].
  2:{ exists (mkResult BAD_DATA (check_message c)), s. split_and!; cbn; try done; naive_solver. }
  rewrite Hw. destruct w as [[] m]; cbn in Hst |- *; eexists _, s';
    rewrite ?app_nil_r in Hst; rewrite ?Hst;
    (split_and!; [reflexivity|reflexivity|assumption|..]); cbn; try naive_solver.
Qed.
End handler.
Arguments CheckerLaws : clear implicits.
Arguments CheckerLaws {_}.
