(* ===== verification/Store.v ===== *)
(** * The storage both programs share

    The front end writes to a storage and the back end reads it. This file states what each of them
    promises about the storage itself: [StoreWriter] for a writer of the front end, [StoreProducer]
    for a producer of the back end, over a state [W] of the storage. [held w m]: the storage holds the
    message [m]; [known w i]: it has held a message with the id [i] at some time. *)

From S2P Require Import Prelude Message Handler.

(** A component that runs on another state of what it shares. *)
Definition with_world {M W E} (w : W) (s : env M W E) : env M W E := Env (members s) w (trace s).

Lemma with_world_id {M W E} (s : env M W E) : with_world (world s) s = s.
Proof. by destruct s. Qed.

Section store.
Context {W : Type} (held : W -> Message -> Prop) (known : W -> Z -> Prop).

(** Nothing is deleted and no id forgotten. *)
Definition keeps (w w' : W) : Prop :=
  (forall m, held w m -> held w' m) /\ (forall i, known w i -> known w' i).

#[export] Instance keeps_preorder : PreOrder keeps.
Proof.
  split; [by intros w|]. intros w1 w2 w3 [H1 H2] [H3 H4]. split; auto.
Qed.

(** A new message with the data [bs] came between [w] and [w'], with an id that was not used before. *)
Definition added (bs : list Z) (w w' : W) : Prop :=
  exists m, data m = bs /\ held w' m /\ ~ known w (id m).

(** What is held has an id that is known. *)
Class Store : Prop := held_known : forall w m, held w m -> known w (id m).

Class StoreWriter {M E : Type} `{!Writer (env M W E)} (stored : env M W E -> list (list Z))
    (good : env M W E -> Prop) : Prop := {
  (** What others do to the storage changes neither the record of what was confirmed to this writer
      nor its own state. *)
  stored_world : forall w s, stored (with_world w s) = stored s;
  good_world : forall w s, good s -> good (with_world w s);
  (** A write returns, deletes nothing, and when it reports success, the data is in the storage as a new
      message. *)
  write_stores : forall t d s, good s ->
    exists r s', write t d s = (Value r, s') /\ good s' /\ keeps (world s) (world s') /\
      stored s' = stored s ++ (if decide (write_error r = WRITE_OK) then [bytes_of d] else []) /\
      (write_error r = WRITE_OK -> added (bytes_of d) (world s) (world s'))
}.

Class StoreProducer {M E : Type} `{!IProducer (env M W E)} : Prop := {
  store_producer_laws :: ProducerLaws (env M W E) (fun s => held (world s));
  getNext_known : forall p i, known (world p) i -> known (world (getNext p).2) i;
  markConsumed_known : forall ms p i, known (world p) i -> known (world (markConsumed ms p).2) i
}.
End store.
