(* ===== verification/WaitSignal.v ===== *)
(** * Waiting for a signal (common/utils/wait_signal.cpp)

    The signal masks of the threads of a process, as POSIX describes them: [sigprocmask] changes the
    mask of the calling thread, a new thread inherits the mask of its creator, and a signal sent to
    the process goes to one of the threads that wait for it or do not block it. *)

From stdpp Require Import functions.
From S2P Require Import Prelude Handler.

Inductive signal : Type := SIGINT | SIGTERM | SIGQUIT | other_signal (n : Z).

#[export] Instance signal_eq_dec : EqDecision signal.
Proof. solve_decision. Defined.

(** The blocked signals of each thread, and the signals some thread waits for with [sigwait]. *)
Record process : Type := mkProcess {
  blocked : thread_id -> list signal;
  waits_for : thread_id -> list signal
}.

(** [sigemptyset] and the three calls of [sigaddset]. *)
Definition signalSet : list signal := [SIGINT; SIGTERM; SIGQUIT].

(** [waitSignal] on the thread [t], up to the wait: the mask and what [sigwait] waits for. *)
Definition waitSignal (t : thread_id) (p : process) : process :=
  mkProcess (<[t := blocked p t ++ signalSet]> (blocked p)) (<[t := signalSet]> (waits_for p)).

(** [std::thread] started by [t]. *)
Definition start_thread (t new : thread_id) (p : process) : process :=
  mkProcess (<[new := blocked p t]> (blocked p)) (<[new := []]> (waits_for p)).

(** The thread may be given a signal that is sent to the process. *)
Definition may_receive (p : process) (t : thread_id) (s : signal) : Prop :=
  s ∈ waits_for p t \/ s ∉ blocked p t.

(** The waiting thread is a receiver of the three signals, and of nothing it blocked. But a worker
    that was started before the wait, as both programs start theirs, did not inherit the mask: the
    signal that asks the program to stop may go to it, where its default action ends the process
    without the orderly stop. *)
Theorem worker_may_receive (main worker : thread_id) (p : process) (s : signal) :
  main <> worker -> s ∈ signalSet -> s ∉ blocked p main ->
  let p' := waitSignal main (start_thread main worker p) in
  may_receive p' main s /\ s ∈ blocked p' main /\ may_receive p' worker s /\ ~ s ∈ waits_for p' worker.
Proof.
  intros Hne Hs Hb p'. assert (Hne' : worker <> main) by congruence.
  assert (H1 : waits_for p' main = signalSet) by apply fn_lookup_insert.
  assert (H2 : blocked p' main = blocked p main ++ signalSet).
  { unfold p', waitSignal, start_thread. cbn. rewrite fn_lookup_insert.
    by rewrite (fn_lookup_insert_ne (blocked p) worker main) by done. }
  assert (H3 : waits_for p' worker = []).
  { unfold p', waitSignal, start_thread. cbn. rewrite fn_lookup_insert_ne by done.
    apply fn_lookup_insert. }
  assert (H4 : blocked p' worker = blocked p main).
  { unfold p', waitSignal, start_thread. cbn. rewrite fn_lookup_insert_ne by done.
    apply fn_lookup_insert. }
  unfold may_receive. rewrite H1, H2, H3, H4.
  split_and!; [by left|by apply elem_of_app; right|by right|by intros ?%elem_of_nil].
Qed.

Lemma worker_may_receive_witness :
  let p' := waitSignal 1 (start_thread 1 2 (mkProcess (fun _ => []) (fun _ => []))) in
  may_receive p' 1%positive SIGTERM /\ SIGTERM ∈ blocked p' 1%positive /\
  may_receive p' 2%positive SIGTERM /\ ~ SIGTERM ∈ waits_for p' 2%positive.
Proof.
  apply (worker_may_receive 1 2 (mkProcess (fun _ => []) (fun _ => [])) SIGTERM);
    [done|unfold signalSet; set_solver|cbn; set_solver].
Defined.
