(* ===== verification/FlatbuffersChecker.v ===== *)
(** * The FlatBuffers checker (gwfront/src/handler/flatbuffers_checker.cpp)

    The library and the accessors it generates from common/messages/instrument.fbs are not part of
    the repository: the methods of [Instruments]. Reading a field of a buffer that was not verified
    can be undefined behaviour; [InstrumentsLaws] says that it is not after a verification. *)

From S2P Require Import Prelude Handler.

Class Instruments (Instrument : Type) : Type := {
  VerifyInstrumentBuffer : string -> bool;
  GetInstrument : string -> Instrument;
  (** [const flatbuffers::String* str0() const], ...: [None] is a null pointer *)
  str0 : Instrument -> outcome (option string);
  str1 : Instrument -> outcome (option string);
  str2 : Instrument -> outcome (option string);
  str3 : Instrument -> outcome (option string);
  str4 : Instrument -> outcome (option string);
  str5 : Instrument -> outcome (option string);
  str6 : Instrument -> outcome (option string);
  str7 : Instrument -> outcome (option string);
  str8 : Instrument -> outcome (option string);
  str9 : Instrument -> outcome (option string);
  str10 : Instrument -> outcome (option string);
  str11 : Instrument -> outcome (option string);
  str12 : Instrument -> outcome (option string);
  str13 : Instrument -> outcome (option string);
  str14 : Instrument -> outcome (option string);
  str15 : Instrument -> outcome (option string);
  str16 : Instrument -> outcome (option string);
  str17 : Instrument -> outcome (option string);
  str18 : Instrument -> outcome (option string);
  str19 : Instrument -> outcome (option string);
  str20 : Instrument -> outcome (option string);
  str21 : Instrument -> outcome (option string);
  str22 : Instrument -> outcome (option string);
  str23 : Instrument -> outcome (option string);
  str24 : Instrument -> outcome (option string);
  str25 : Instrument -> outcome (option string);
  str26 : Instrument -> outcome (option string);
  str27 : Instrument -> outcome (option string);
  str28 : Instrument -> outcome (option string);
  str29 : Instrument -> outcome (option string);
  str30 : Instrument -> outcome (option string);
  str31 : Instrument -> outcome (option string)
}.

Section check.
Context {Instrument : Type} `{!Instruments Instrument}.

(** [!str || str->size() == 0] *)
Definition missing (str : option string) : bool :=
  match str with
  | None => true
  | Some s => (String.length s =? 0)%nat
  end.

Definition missing_field (field : string) : CheckResult :=
  mkCheckResult false ("field '" +:+ field +:+ "' is missing").

(** The blocks for [str16] to [str31] and the end of the function. *)
Definition check_str16_31 (instrument : Instrument) : outcome CheckResult :=
  str ← str16 instrument;
  if missing str then mret (missing_field "str16") else
  str ← str17 instrument;
  if missing str then mret (missing_field "str17") else
  str ← str18 instrument;
  if missing str then mret (missing_field "str18") else
  str ← str19 instrument;
  if missing str then mret (missing_field "str19") else
  str ← str20 instrument;
  if missing str then mret (missing_field "str20") else
  str ← str21 instrument;
  if missing str then mret (missing_field "str21") else
  str ← str22 instrument;
  if missing str then mret (missing_field "str22") else
  str ← str23 instrument;
  if missing str then mret (missing_field "str23") else
  str ← str24 instrument;
  if missing str then mret (missing_field "str24") else
  str ← str25 instrument;
  if missing str then mret (missing_field "str25") else
  str ← str26 instrument;
  if missing str then mret (missing_field "str26") else
  str ← str27 instrument;
  if missing str then mret (missing_field "str27") else
  str ← str28 instrument;
  if missing str then mret (missing_field "str28") else
  str ← str29 instrument;
  if missing str then mret (missing_field "str29") else
  str ← str30 instrument;
  if missing str then mret (missing_field "str30") else
  str ← str31 instrument;
  if missing str then mret (missing_field "str31") else
  mret (mkCheckResult true "").

(** The blocks for [str0] to [str15] and what follows them. *)
Definition check_str0_15 (instrument : Instrument) : outcome CheckResult :=
  str ← str0 instrument;
  if missing str then mret (missing_field "str0") else
  str ← str1 instrument;
  if missing str then mret (missing_field "str1") else
  str ← str2 instrument;
  if missing str then mret (missing_field "str2") else
  str ← str3 instrument;
  if missing str then mret (missing_field "str3") else
  str ← str4 instrument;
  if missing str then mret (missing_field "str4") else
  str ← str5 instrument;
  if missing str then mret (missing_field "str5") else
  str ← str6 instrument;
  if missing str then mret (missing_field "str6") else
  str ← str7 instrument;
  if missing str then mret (missing_field "str7") else
  str ← str8 instrument;
  if missing str then mret (missing_field "str8") else
  str ← str9 instrument;
  if missing str then mret (missing_field "str9") else
  str ← str10 instrument;
  if missing str then mret (missing_field "str10") else
  str ← str11 instrument;
  if missing str then mret (missing_field "str11") else
  str ← str12 instrument;
  if missing str then mret (missing_field "str12") else
  str ← str13 instrument;
  if missing str then mret (missing_field "str13") else
  str ← str14 instrument;
  if missing str then mret (missing_field "str14") else
  str ← str15 instrument;
  if missing str then mret (missing_field "str15") else
  check_str16_31 instrument.

Definition FlatbuffersChecker_check (data : string) : outcome CheckResult :=
  if negb (VerifyInstrumentBuffer data)
  then mret (mkCheckResult false "data is not a valid flatbuffer instrument")
  else
    let instrument := GetInstrument data in
    check_str0_15 instrument.

#[export] Instance FlatbuffersChecker_checker : Checker := FlatbuffersChecker_check.

(** ** What the check decides *)

(** The string fields of the schema, with their names. *)
Definition string_fields : list (string * (Instrument -> outcome (option string))) :=
  [("str0", str0); ("str1", str1); ("str2", str2); ("str3", str3); ("str4", str4); ("str5",
   str5); ("str6", str6); ("str7", str7); ("str8", str8); ("str9", str9); ("str10", str10);
   ("str11", str11); ("str12", str12); ("str13", str13); ("str14", str14); ("str15", str15);
   ("str16", str16); ("str17", str17); ("str18", str18); ("str19", str19); ("str20", str20);
   ("str21", str21); ("str22", str22); ("str23", str23); ("str24", str24); ("str25", str25);
   ("str26", str26); ("str27", str27); ("str28", str28); ("str29", str29); ("str30", str30);
   ("str31", str31)].

(** A verified buffer can be read. *)
Class InstrumentsLaws : Prop :=
  verified_reads : forall data, VerifyInstrumentBuffer data = true ->
    Forall (fun field => exists v, field.2 (GetInstrument data) = Value v) string_fields.

(** The check of a list of fields, one after the other. *)
Fixpoint check_all (fields : list (string * (Instrument -> outcome (option string))))
    (instrument : Instrument) : outcome CheckResult :=
  match fields with
  | [] => mret (mkCheckResult true "")
  | (name, read) :: fields' =>
      str ← read instrument;
      if missing str then mret (missing_field name) else check_all fields' instrument
  end.

Lemma check_str0_15_all instrument : check_str0_15 instrument = check_all string_fields instrument.
Proof. reflexivity. Qed.

(** A field of a record that is there and not empty. *)
Definition filled (instrument : Instrument)
    (field : string * (Instrument -> outcome (option string))) : Prop :=
  exists s, field.2 instrument = Value (Some s) /\ s <> "".

Lemma missing_false v : missing v = false <-> exists s, v = Some s /\ s <> "".
Proof. destruct v as [[|c s]|]; cbn; naive_solver. Qed.

Lemma check_all_spec fields instrument :
  Forall (fun field => exists v, field.2 instrument = Value v) fields ->
  exists r, check_all fields instrument = Value r /\
    (ok r = true <-> Forall (filled instrument) fields) /\
    (ok r = true -> check_message r = "") /\
    (ok r = false -> exists before field after,
       fields = before ++ field :: after /\ Forall (filled instrument) before /\
       ~ filled instrument field /\ r = missing_field field.1).
Proof.
  induction 1 as [|[name read] fields [v Hv] _ IH]; [by eexists; split_and!|].
  cbn in Hv. cbn [check_all]. rewrite Hv. cbn.
  assert (Hf : filled instrument (name, read) <-> missing v = false).
  { rewrite missing_false. unfold filled. cbn. rewrite Hv. naive_solver. }
  destruct (missing v) eqn:Hm.
  - exists (missing_field name). rewrite Forall_cons, Hf. split_and!; try done.
    + by split; [|intros []].
    + intros _. exists [], (name, read), fields. rewrite Hf. by split_and!.
  - destruct IH as (r & -> & H1 & H2 & H3). exists r. rewrite Forall_cons, Hf.
    split_and!; [done|naive_solver|done|]. intros Hr.
    destruct (H3 Hr) as (before & field & after & -> & Hb & Hn & ->).
    exists ((name, read) :: before), field, after. split_and!; [done| |done|done].
    constructor; [by apply Hf|done].
Qed.

(** C28: the check always returns and reads no field of a buffer that was not verified. It accepts
    exactly the verified buffers in which all of the 32 string fields are there and not empty, with
    an empty message; otherwise the message says that the buffer is invalid, or names the first
    field, in the order of the schema, that is not filled. *)
Theorem FlatbuffersChecker_exact `{!InstrumentsLaws} (data : string) :
  exists r, FlatbuffersChecker_check data = Value r /\
    (ok r = true <->
       VerifyInstrumentBuffer data = true /\
       Forall (filled (GetInstrument data)) string_fields) /\
    (ok r = true -> check_message r = "") /\
    (VerifyInstrumentBuffer data = false ->
       check_message r = "data is not a valid flatbuffer instrument") /\
    (VerifyInstrumentBuffer data = true -> ok r = false ->
       exists before field after,
         string_fields = before ++ field :: after /\
         Forall (filled (GetInstrument data)) before /\ ~ filled (GetInstrument data) field /\
         check_message r = "field '" +:+ field.1 +:+ "' is missing").
Proof.
  unfold FlatbuffersChecker_check. destruct (VerifyInstrumentBuffer data) eqn:Hv; cbn [negb].
  - destruct (check_all_spec string_fields (GetInstrument data) (verified_reads data Hv))
      as (r & Hr & H1 & H2 & H3).
    exists r. rewrite <-Hr. split_and!; [done|naive_solver|done|done|]. intros _ Ho.
    destruct (H3 Ho) as (b & f & a & ? & ? & ? & ->). by exists b, f, a.
  - eexists. split_and!; [reflexivity|cbn; naive_solver..].
Qed.

#[export] Instance FlatbuffersChecker_laws `{!InstrumentsLaws} : CheckerLaws.
Proof.
  intros data. unfold check, FlatbuffersChecker_checker, FlatbuffersChecker_check.
  destruct (VerifyInstrumentBuffer data) eqn:Hv; [|by eexists].
  destruct (check_all_spec string_fields (GetInstrument data) (verified_reads data Hv)) as (r & Hr & _).
  by exists r.
Qed.
End check.
Arguments InstrumentsLaws Instrument {_}.

(** ** A concrete format: one line per field, [-] for a field that is absent *)

Definition lines_of (data : string) : list string := of_chars <$> split_on newline (chars data).

Definition read_line (i : nat) (l : list string) : outcome (option string) :=
  match l !! i with
  | None => UB
  | Some s => Value (if decide (s = "-") then None else Some s)
  end.

#[export] Instance plain_instruments : Instruments (list string) := {|
  VerifyInstrumentBuffer data := (32 <=? length (lines_of data))%nat;
  GetInstrument data := lines_of data;
  str0 l := read_line 0 l;
  str1 l := read_line 1 l;
  str2 l := read_line 2 l;
  str3 l := read_line 3 l;
  str4 l := read_line 4 l;
  str5 l := read_line 5 l;
  str6 l := read_line 6 l;
  str7 l := read_line 7 l;
  str8 l := read_line 8 l;
  str9 l := read_line 9 l;
  str10 l := read_line 10 l;
  str11 l := read_line 11 l;
  str12 l := read_line 12 l;
  str13 l := read_line 13 l;
  str14 l := read_line 14 l;
  str15 l := read_line 15 l;
  str16 l := read_line 16 l;
  str17 l := read_line 17 l;
  str18 l := read_line 18 l;
  str19 l := read_line 19 l;
  str20 l := read_line 20 l;
  str21 l := read_line 21 l;
  str22 l := read_line 22 l;
  str23 l := read_line 23 l;
  str24 l := read_line 24 l;
  str25 l := read_line 25 l;
  str26 l := read_line 26 l;
  str27 l := read_line 27 l;
  str28 l := read_line 28 l;
  str29 l := read_line 29 l;
  str30 l := read_line 30 l;
  str31 l := read_line 31 l
|}.

#[export] Instance plain_instruments_laws : InstrumentsLaws (list string).
Proof.
  intros data Hv%Nat.leb_le. cbn [GetInstrument plain_instruments].
  assert (Hr : forall i, (i < 32)%nat -> exists v, read_line i (lines_of data) = Value v).
  { intros i Hi. unfold read_line. destruct (lines_of data !! i) eqn:E; [by eexists|].
    apply lookup_ge_None in E. lia. }
  unfold string_fields. repeat (constructor; [cbn [snd]; apply Hr; lia|]). constructor.
Qed.

Definition full_instrument : string := of_chars (flat_map (fun _ => ["x"%char; newline]) (seq 0 32)).

Example check_sample : FlatbuffersChecker_check full_instrument = Value (mkCheckResult true "").
Proof. vm_compute. reflexivity. Qed.

Lemma FlatbuffersChecker_exact_witness :
  let data := of_chars (flat_map (fun i => [if (i =? 5)%nat then "-"%char else "x"%char; newline])
                          (seq 0 32)) in
  FlatbuffersChecker_check data = Value (mkCheckResult false "field 'str5' is missing") /\
  exists r, FlatbuffersChecker_check data = Value r /\
    (ok r = true <->
       VerifyInstrumentBuffer data = true /\
       Forall (filled (GetInstrument data)) string_fields) /\
    (ok r = true -> check_message r = "") /\
    (VerifyInstrumentBuffer data = false ->
       check_message r = "data is not a valid flatbuffer instrument") /\
    (VerifyInstrumentBuffer data = true -> ok r = false ->
       exists before field after,
         string_fields = before ++ field :: after /\
         Forall (filled (GetInstrument data)) before /\ ~ filled (GetInstrument data) field /\
         check_message r = "field '" +:+ field.1 +:+ "' is missing").
Proof. split; [vm_compute; reflexivity|apply FlatbuffersChecker_exact]. Defined.
