(* ===== verification/JsonChecker.v ===== *)
(** * The JSON checker (gwfront/src/handler/json_checker.cpp)

    The library nlohmann::json is not part of the repository: the methods of [Json], over an
    arbitrary type of values. *)

From S2P Require Import Prelude Handler.

Class Json (json : Type) : Type := {
  (** [nlohmann::json::parse(data, nullptr, false)], which does not throw *)
  parse : string -> json;
  is_discarded : json -> bool;
  (** [json.find(field)], [None] for [json.end()] *)
  find : json -> string -> option json;
  is_number_integer : json -> bool;
  is_number_float : json -> bool;
  is_string : json -> bool
}.

Section check.
Context {json : Type} `{!Json json}.

Definition checkIntegerField (j : json) (field : string) : option CheckResult :=
  match find j field with
  | None => Some (mkCheckResult false ("field '" +:+ field +:+ "' is missing"))
  | Some it =>
      if negb (is_number_integer it)
      then Some (mkCheckResult false ("field '" +:+ field +:+ "' is not an integer"))
      else None
  end.

Definition checkDoubleField (j : json) (field : string) : option CheckResult :=
  match find j field with
  | None => Some (mkCheckResult false ("field '" +:+ field +:+ "' is missing"))
  | Some it =>
      if negb (is_number_float it) && negb (is_number_integer it)
      then Some (mkCheckResult false ("field '" +:+ field +:+ "' is not a double"))
      else None
  end.

Definition checkStringField (j : json) (field : string) : option CheckResult :=
  match find j field with
  | None => Some (mkCheckResult false ("field '" +:+ field +:+ "' is missing"))
  | Some it =>
      if negb (is_string it)
      then Some (mkCheckResult false ("field '" +:+ field +:+ "' is not a string"))
      else None
  end.

(** [for (int i = 0; i < count; ++i) { result = checkField(json, prefix + to_string(i)); if (result)
    return *result; }], from [i] with [left] rounds to go. *)
Fixpoint check_loop (checkField : string -> option CheckResult) (prefix : string) (left : nat) (i : Z) :
    option CheckResult :=
  match left with
  | O => None
  | S left' =>
      match checkField (prefix +:+ dec i) with
      | Some result => Some result
      | None => check_loop checkField prefix left' (i + 1)
      end
  end.

Definition JsonChecker_check (data : string) : outcome CheckResult :=
  let j := parse data in
  if is_discarded j then mret (mkCheckResult false "data is not a valid json")
  else
    match check_loop (checkIntegerField j) "int" 6 0 with
    | Some result => mret result
    | None =>
        match check_loop (checkDoubleField j) "double" 6 0 with
        | Some result => mret result
        | None =>
            match check_loop (checkStringField j) "str" 32 0 with
            | Some result => mret result
            | None => mret (mkCheckResult true "")
            end
        end
    end.

#[export] Instance JsonChecker_checker : Checker := JsonChecker_check.

#[export] Instance JsonChecker_laws : CheckerLaws.
Proof.
  intros data. unfold check, JsonChecker_checker, JsonChecker_check.
  destruct (is_discarded _); [by eexists|]. by repeat case_match; eexists.
Qed.

(** ** What the check decides *)

(** The kinds of fields the schema has. *)
Inductive field_kind : Type := IntegerField | DoubleField | StringField.

Definition has_kind (k : field_kind) (v : json) : Prop :=
  match k with
  | IntegerField => is_number_integer v = true
  | DoubleField => is_number_float v = true \/ is_number_integer v = true
  | StringField => is_string v = true
  end.

Definition kind_name (k : field_kind) : string :=
  match k with
  | IntegerField => "an integer"
  | DoubleField => "a double"
  | StringField => "a string"
  end.

(** The fields of the schema common/messages/instrument.fbs, in its order. *)
Definition schema : list (string * field_kind) :=
  ((fun i => ("int" +:+ dec i, IntegerField)) <$> seqZ 0 6) ++
  ((fun i => ("double" +:+ dec i, DoubleField)) <$> seqZ 0 6) ++
  ((fun i => ("str" +:+ dec i, StringField)) <$> seqZ 0 32).

(** The value has the field with a value of its kind. *)
Definition has_field (j : json) (f : string * field_kind) : Prop :=
  exists v, find j f.1 = Some v /\ has_kind f.2 v.

(** The result for a field that is not there, or of another kind. *)
Definition complaint (j : json) (f : string * field_kind) : CheckResult :=
  mkCheckResult false ("field '" +:+ f.1 +:+ "' is " +:+
    match find j f.1 with None => "missing" | Some _ => "not " +:+ kind_name f.2 end).

Definition check_field (j : json) (k : field_kind) : string -> option CheckResult :=
  match k with
  | IntegerField => checkIntegerField j
  | DoubleField => checkDoubleField j
  | StringField => checkStringField j
  end.

(** [r] is the first complaint about the fields [fs], if any. *)
Definition first_complaint (j : json) (fs : list (string * field_kind)) (r : option CheckResult) : Prop :=
  match r with
  | None => Forall (has_field j) fs
  | Some c => exists before f after, fs = before ++ f :: after /\ Forall (has_field j) before /\
                ~ has_field j f /\ c = complaint j f
  end.

Lemma check_field_spec j k name :
  match check_field j k name with
  | None => has_field j (name, k)
  | Some c => ~ has_field j (name, k) /\ c = complaint j (name, k)
  end.
Proof.
  unfold has_field, complaint. cbn [fst snd].
  destruct k; cbn [check_field has_kind kind_name];
    unfold checkIntegerField, checkDoubleField, checkStringField;
    (destruct (find j name) as [v|]; [|split; [by intros (? & ? & ?)|done]]).
  - destruct (is_number_integer v) eqn:E; cbn; [by eexists|split; [|done]]. naive_solver congruence.
  - destruct (is_number_float v) eqn:E1, (is_number_integer v) eqn:E2; cbn; eauto.
    split; [|done]. naive_solver congruence.
  - destruct (is_string v) eqn:E; cbn; [by eexists|split; [|done]]. naive_solver congruence.
Qed.

Lemma check_loop_spec j k prefix n i :
  first_complaint j ((fun i => (prefix +:+ dec i, k)) <$> seqZ i (Z.of_nat n))
    (check_loop (check_field j k) prefix n i).
Proof.
  revert i. induction n as [|n IH]; intros i; [constructor|].
  rewrite seqZ_cons, fmap_cons by lia. replace (Z.pred (Z.of_nat (S n))) with (Z.of_nat n) by lia.
  specialize (IH (Z.succ i)). pose proof (check_field_spec j k (prefix +:+ dec i)) as Hc.
  cbn [check_loop]. change (i + 1) with (Z.succ i). destruct (check_field _ _ _) as [c|].
  - destruct Hc as [Hn ->]. by eexists [], _, _.
  - destruct (check_loop _ _ _ _) as [c|]; [|by constructor].
    destruct IH as (b & f & a & -> & Hb & Hf & ->). exists ((prefix +:+ dec i, k) :: b), f, a.
    split_and!; [done|by constructor|done|done].
Qed.

Lemma first_complaint_app j fs1 fs2 r1 r2 :
  first_complaint j fs1 r1 -> first_complaint j fs2 r2 ->
  first_complaint j (fs1 ++ fs2) (match r1 with Some c => Some c | None => r2 end).
Proof.
  intros H1 H2. destruct r1 as [c|]; cbn in *.
  - destruct H1 as (b & f & a & -> & ? & ? & ->). exists b, f, (a ++ fs2).
    by rewrite <-app_assoc.
  - destruct r2 as [c|]; cbn in *; [|by apply Forall_app].
    destruct H2 as (b & f & a & -> & ? & ? & ->). exists (fs1 ++ b), f, a.
    rewrite <-app_assoc. split_and!; [done|by apply Forall_app|done|done].
Qed.

(** What the check decides. *)
Lemma JsonChecker_spec (data : string) :
  exists r, JsonChecker_check data = Value r /\
    (ok r = true <-> is_discarded (parse data) = false /\ Forall (has_field (parse data)) schema) /\
    (ok r = true -> check_message r = "") /\
    (is_discarded (parse data) = true -> check_message r = "data is not a valid json") /\
    (is_discarded (parse data) = false -> ok r = false ->
       exists before f after,
         schema = before ++ f :: after /\ Forall (has_field (parse data)) before /\
         ~ has_field (parse data) f /\ r = complaint (parse data) f).
Proof.
  unfold JsonChecker_check. set (j := parse data). destruct (is_discarded j).
  { eexists. split_and!; [reflexivity|cbn; naive_solver..]. }
  pose proof (first_complaint_app j _ _ _ _ (check_loop_spec j IntegerField "int" 6 0)
    (first_complaint_app j _ _ _ _ (check_loop_spec j DoubleField "double" 6 0)
      (check_loop_spec j StringField "str" 32 0))) as H.
  change (first_complaint j schema
    (match check_loop (checkIntegerField j) "int" 6 0 with Some c => Some c | None =>
     match check_loop (checkDoubleField j) "double" 6 0 with Some c => Some c | None =>
     check_loop (checkStringField j) "str" 32 0 end end)) in H.
  repeat case_match; (eexists; split; [reflexivity|]).
  1-3: destruct H as (b & f & a & Hs & Hb & Hf & ->); split_and!; try done;
    [split; [done|intros [_ Hall]; rewrite Hs in Hall; apply Forall_app in Hall as [_ Hall];
      by apply Forall_cons in Hall as [? _]]|by eexists _, _, _].
  split_and!; try done.
Qed.
(** C29: the check always returns, and depends only on what the parser reports. It accepts exactly
    the data that parses to a value with every field of the schema and of the schema's kind (an
    integer also counts as a double), with an empty message; otherwise the message says that the data
    is no JSON, or names the first field, in the order of the schema, that is missing or of another
    kind, and which of the two it is. *)
Theorem JsonChecker_exact (data : string) :
  exists r, JsonChecker_check data = Value r /\
    (ok r = true <-> is_discarded (parse data) = false /\ Forall (has_field (parse data)) schema) /\
    (ok r = true -> check_message r = "") /\
    (is_discarded (parse data) = true -> check_message r = "data is not a valid json") /\
    (is_discarded (parse data) = false -> ok r = false ->
       exists before f after,
         schema = before ++ f :: after /\ Forall (has_field (parse data)) before /\
         ~ has_field (parse data) f /\ r = complaint (parse data) f).
Proof. apply JsonChecker_spec. Qed.
End check.

(** ** A concrete format: one field name per line, whose first letter is its kind *)

Definition first_letter (v : list string) (c : ascii) : bool :=
  match v with String d _ :: _ => bool_decide (d = c) | _ => false end.

#[export] Instance plain_json : Json (list string) := {|
  parse data := of_chars <$> split_on newline (chars data);
  is_discarded j := bool_decide (j = [""]);
  find j field := if decide (field ∈ j) then Some [field] else None;
  is_number_integer v := first_letter v "i"%char;
  is_number_float v := first_letter v "d"%char;
  is_string v := first_letter v "s"%char
|}.

Definition full_json : string :=
  of_chars (flat_map (fun f => chars f.1 ++ [newline]) schema).

Example check_full : JsonChecker_check full_json = Value (mkCheckResult true "").
Proof. vm_compute. reflexivity. Qed.

Example check_missing :
  JsonChecker_check "int0" = Value (mkCheckResult false "field 'int1' is missing").
Proof. vm_compute. reflexivity. Qed.
