(* ===== verification/ConnectionPool.v ===== *)
(** * The connections of the threads (gwfront/src/handler/postgres_writer, redis_writer)

    Both writers keep a vector of connections, each for the exclusive use of one thread, and look it
    up under a shared mutex. The first part is the vector and its search. *)

From stdpp Require Import functions.
From S2P Require Import Prelude Handler.

(** [struct ExclusiveConnection]: a thread and the address of its connection. *)
Record ExclusiveConnection : Type := mkExclusiveConnection {
  threadId : thread_id;
  connection : positive
}.

(** [std::find_if] by the thread, and [it->connection] of what it found. *)
Definition find_thread (t : thread_id) (l : list ExclusiveConnection) : option positive :=
  (fun '(_, ec) => connection ec) <$> list_find (fun ec => threadId ec = t) l.

#[global] Arguments find_thread : simpl never.

(** A thread has at most one entry. *)
Definition one_entry (l : list ExclusiveConnection) : Prop := NoDup (threadId <$> l).

Lemma find_thread_app t l ec :
  find_thread t (l ++ [ec]) =
  match find_thread t l with
  | Some c => Some c
  | None => if decide (threadId ec = t) then Some (connection ec) else None
  end.
Proof.
  unfold find_thread. induction l as [|x l IH]; cbn; [by destruct (decide (threadId ec = t))|].
  destruct (decide (threadId x = t)); [done|].
  destruct (list_find _ (l ++ [ec])) as [[i a]|], (list_find _ l) as [[j b]|]; cbn in *; done.
Qed.

Lemma find_thread_none t l : find_thread t l = None <-> t ∉ threadId <$> l.
Proof.
  unfold find_thread. rewrite fmap_None, list_find_None, Forall_forall, list_elem_of_fmap.
  naive_solver.
Qed.

(** [l'] is [l], or [l] with an entry for the thread [t], which had none: what a call of
    [findConnection] on this thread may do. *)
Definition pool_step (t : thread_id) (l l' : list ExclusiveConnection) : Prop :=
  l' = l \/ (find_thread t l = None /\ exists c, l' = l ++ [mkExclusiveConnection t c]).

Lemma pool_step_spec t l l' :
  one_entry l -> pool_step t l l' ->
  one_entry l' /\ l `prefix_of` l' /\
  (forall t', t' <> t -> find_thread t' l' = find_thread t' l) /\
  (forall c, find_thread t l = Some c -> l' = l).
Proof.
  intros Hok [->|(Hn & c & ->)]; [by split_and!|]. split_and!; [|by eexists| |congruence].
  - unfold one_entry. rewrite fmap_app. apply NoDup_app. split; [done|]. cbn. split.
    + intros x Hx ->%list_elem_of_singleton. by apply find_thread_none in Hn.
    + apply NoDup_singleton.
  - intros t' Ht. rewrite find_thread_app. cbn. rewrite decide_False by done.
    by destruct (find_thread t' l).
Qed.

(** A search that found nothing and the push after it. *)
Lemma pool_step_push t l l' c :
  pool_step t l l' -> find_thread t l' = None -> pool_step t l (l' ++ [mkExclusiveConnection t c]).
Proof.
  intros [->|(Hn & c' & ->)] Hf; right.
  - split; [done|by exists c].
  - rewrite find_thread_app, Hn in Hf. cbn in Hf. by rewrite decide_True in Hf by done.
Qed.

(** ** The threads in [findConnection]

    The second part is the interleaving. A thread locks the mutex shared to search and exclusively to
    push. [PostgresWriter] opens the connection under the exclusive lock, [RedisWriter] before it
    locks; [under_lock] says which of the two runs. *)

(** Where a thread is. *)
Inductive point : Type :=
| Outside                      (** not in [findConnection] *)
| Searching                    (** holds the shared lock *)
| NotFound                     (** between the two blocks *)
| Creating                     (** holds the exclusive lock, has no connection yet *)
| Created (c : positive)       (** has a connection, waits for the exclusive lock *)
| Pushing (c : positive)       (** holds the exclusive lock and the new connection *)
| Found (c : positive).        (** has returned, writes on its connection *)

(** The vector, the holders of the mutex, the addresses of the connections created and not freed, and
    the threads. *)
Record pool_state : Type := mkPoolState {
  entries : list ExclusiveConnection;
  shared_by : gset thread_id;
  exclusive_by : option thread_id;
  allocated : gset positive;
  at_point : thread_id -> point
}.

Definition initial_pool : pool_state := mkPoolState [] ∅ None ∅ (fun _ => Outside).

Inductive pool_transition (under_lock : bool) (t : thread_id) : pool_state -> pool_state -> Prop :=
| lock_shared l r a p :
    p t = Outside ->
    pool_transition under_lock t (mkPoolState l r None a p)
      (mkPoolState l ({[t]} ∪ r) None a (<[t := Searching]> p))
| search_found l r e a p c :
    p t = Searching -> find_thread t l = Some c ->
    pool_transition under_lock t (mkPoolState l r e a p)
      (mkPoolState l (r ∖ {[t]}) e a (<[t := Found c]> p))
| search_fails l r e a p :
    p t = Searching -> find_thread t l = None ->
    pool_transition under_lock t (mkPoolState l r e a p)
      (mkPoolState l (r ∖ {[t]}) e a (<[t := NotFound]> p))
| create_unlocked l r e a p c :
    under_lock = false -> p t = NotFound -> c ∉ a ->
    pool_transition under_lock t (mkPoolState l r e a p)
      (mkPoolState l r e ({[c]} ∪ a) (<[t := Created c]> p))
| create_unlocked_fails l r e a p :
    under_lock = false -> p t = NotFound ->
    pool_transition under_lock t (mkPoolState l r e a p) (mkPoolState l r e a (<[t := Outside]> p))
| lock_created l a p c :
    p t = Created c ->
    pool_transition under_lock t (mkPoolState l ∅ None a p)
      (mkPoolState l ∅ (Some t) a (<[t := Pushing c]> p))
| lock_to_create l a p :
    under_lock = true -> p t = NotFound ->
    pool_transition under_lock t (mkPoolState l ∅ None a p)
      (mkPoolState l ∅ (Some t) a (<[t := Creating]> p))
| create_locked l r e a p c :
    p t = Creating -> c ∉ a ->
    pool_transition under_lock t (mkPoolState l r e a p)
      (mkPoolState l r e ({[c]} ∪ a) (<[t := Pushing c]> p))
| create_locked_fails l r e a p :
    p t = Creating ->
    pool_transition under_lock t (mkPoolState l r e a p) (mkPoolState l r None a (<[t := Outside]> p))
| push l r e a p c :
    p t = Pushing c ->
    pool_transition under_lock t (mkPoolState l r e a p)
      (mkPoolState (l ++ [mkExclusiveConnection t c]) r None a (<[t := Found c]> p))
| leave l r e a p c :
    p t = Found c ->
    pool_transition under_lock t (mkPoolState l r e a p) (mkPoolState l r e a (<[t := Outside]> p)).

(** The states the threads can reach, in any order of their steps. *)
Inductive reachable (under_lock : bool) : pool_state -> Prop :=
| reach_initial : reachable under_lock initial_pool
| reach_step t s s' :
    reachable under_lock s -> pool_transition under_lock t s s' -> reachable under_lock s'.

(** A connection the thread has made and not pushed yet. *)
Definition held (p : point) : option positive :=
  match p with Created c | Pushing c => Some c | _ => None end.
Definition holds_exclusive (p : point) : bool :=
  match p with Creating | Pushing _ => true | _ => false end.
(** The thread has no entry. *)
Definition lacks (p : point) : bool :=
  match p with NotFound | Creating | Created _ | Pushing _ => true | _ => false end.

Record pool_inv (s : pool_state) : Prop := mkPoolInv {
  inv_shared : forall t, t ∈ shared_by s <-> at_point s t = Searching;
  inv_exclusive : forall t, exclusive_by s = Some t <-> holds_exclusive (at_point s t) = true;
  inv_mutex : is_Some (exclusive_by s) -> shared_by s = ∅;
  inv_threads : one_entry (entries s);
  inv_connections : NoDup (connection <$> entries s);
  inv_allocated : forall c, c ∈ connection <$> entries s -> c ∈ allocated s;
  inv_found : forall t c, at_point s t = Found c -> find_thread t (entries s) = Some c;
  inv_lacks : forall t, lacks (at_point s t) = true -> find_thread t (entries s) = None;
  inv_held : forall t c, held (at_point s t) = Some c ->
    c ∈ allocated s /\ c ∉ connection <$> entries s;
  inv_distinct : forall t1 t2 c,
    held (at_point s t1) = Some c -> held (at_point s t2) = Some c -> t1 = t2
}.

Lemma at_insert (p : thread_id -> point) t t' x :
  (<[t := x]> p) t' = if decide (t = t') then x else p t'.
Proof.
  destruct (decide (t = t')) as [->|]; [apply fn_lookup_insert|by apply fn_lookup_insert_ne].
Qed.

(** What the invariant says of the thread that moves. *)
Ltac know_mover H1 H2 H7 H8 H9 :=
  match goal with Hp : ?p ?t = _ |- _ =>
    pose proof (H1 t); pose proof (H2 t); pose proof (H7 t); pose proof (H8 t); pose proof (H9 t);
    rewrite Hp in *; cbn in *
  end.

(** Splits the goals and hypotheses about the points of the threads. *)
Ltac split_points :=
  cbn in *; intros *; rewrite ?at_insert; repeat case_decide; subst; cbn in *;
  rewrite ?elem_of_union, ?elem_of_difference, ?elem_of_singleton.

(** The vector after a push of a thread without an entry and a connection that is not in it. *)
Lemma push_entries t c l :
  one_entry l -> NoDup (connection <$> l) -> find_thread t l = None -> c ∉ connection <$> l ->
  one_entry (l ++ [mkExclusiveConnection t c]) /\
  NoDup (connection <$> l ++ [mkExclusiveConnection t c]).
Proof.
  intros Ht Hc Hf Hn. unfold one_entry. rewrite !fmap_app. apply find_thread_none in Hf.
  split; apply NoDup_app; (split_and!; [done| |apply NoDup_singleton]); cbn;
    by intros x Hx ->%list_elem_of_singleton.
Qed.

Lemma pool_transition_inv under_lock t s s' :
  pool_transition under_lock t s s' -> pool_inv s -> pool_inv s'.
Proof.
  intros Hstep [H1 H2 H3 H4 H5 H6 H7 H8 H9 H10].
  destruct Hstep; cbn in *; know_mover H1 H2 H7 H8 H9; split; split_points; try done;
    try rewrite H1; try rewrite <-H2; eauto 3.
  all: try solve [intuition (congruence || eauto 3)].
  all: try solve [intros He; rewrite (H3 He); set_solver].
  (* the connections made and not pushed *)
  all: try solve [intros [= ->]; split; [by left|]; by intros ?%H6].
  all: try solve [intros Hh; destruct (H9 _ _ Hh); auto].
  all: try solve [intros [= ->] Hh; by destruct (H9 _ _ Hh)].
  all: try solve [intros Hh [= ->]; by destruct (H9 _ _ Hh)].
  all: try solve [intros [= ->] Hh; eapply H10; [|exact Hh];
    match goal with Hp : _ = Created _ |- _ => by rewrite Hp end].
  all: try solve [intros Hh [= ->]; eapply H10; [exact Hh|];
    match goal with Hp : _ = Created _ |- _ => by rewrite Hp end].
  (* the push *)
  all: match goal with Hp : ?p ?t = Pushing ?c |- _ =>
         destruct (H9 t c) as [Hca Hcn]; [by rewrite Hp|];
         assert (Hf := H8 t); rewrite Hp in Hf; specialize (Hf eq_refl);
         destruct (push_entries t c _ H4 H5 Hf Hcn) as [Hl1 Hl2] end; try done.
  all: rewrite ?find_thread_app, ?fmap_app, ?elem_of_app; cbn; rewrite ?list_elem_of_singleton.
  - intros [Hx| ->]; [by apply H6|done].
  - intros [= ->]. by rewrite Hf, decide_True.
  - intros Hx. by rewrite (H7 _ _ Hx).
  - intros Hx. by rewrite (H8 _ Hx), decide_False.
  - intros Hx. destruct (H9 _ _ Hx) as [Ha Hn]. split; [done|]. intros [Hy|Hy]; [done|]. subst c0.
    match goal with Hne : t <> t0 |- _ => apply Hne end. eapply H10; [|exact Hx].
    match goal with Hp : p t = Pushing c |- _ => by rewrite Hp end.
Qed.

Lemma reachable_inv under_lock s : reachable under_lock s -> pool_inv s.
Proof.
  induction 1 as [|t s s' _ IH Hs]; [|by eapply pool_transition_inv].
  split; cbn; intros; try done; try set_solver; constructor.
Qed.

(** C24: whatever the interleaving of the worker threads, and for both writers, two threads never use
    one connection, a thread has at most one entry in the vector, and the connection a thread has
    found is the one in its entry. *)
Theorem pool_exclusive (under_lock : bool) (s : pool_state) :
  reachable under_lock s ->
  one_entry (entries s) /\
  (forall t c, at_point s t = Found c -> find_thread t (entries s) = Some c) /\
  (forall t1 t2 c, at_point s t1 = Found c -> at_point s t2 = Found c -> t1 = t2).
Proof.
  intros H%reachable_inv. destruct H. split_and!; [done|done|]. intros t1 t2 c Hc1 Hc2.
  apply inv_found0 in Hc1, Hc2.
  assert (He : forall t, find_thread t (entries s) = Some c ->
            exists i, entries s !! i = Some (mkExclusiveConnection t c)).
  { intros t. unfold find_thread. intros ([i ec] & Hi & Hc)%fmap_Some. simpl in Hc; subst c.
    apply list_find_Some in Hi as (Hi & <- & _). exists i. by destruct ec. }
  apply He in Hc1 as [i Hi], Hc2 as [j Hj].
  assert (i = j) as <-; [|congruence].
  eapply NoDup_lookup; [exact inv_connections0| |]; rewrite list_lookup_fmap, ?Hi, ?Hj; done.
Qed.

(** C31: the vector is free of races: when a step of a thread changes it, this thread holds the
    exclusive lock, no thread is searching and no other thread holds the exclusive lock. Entries are
    only added at the end. *)
Theorem pool_race_free (under_lock : bool) (t : thread_id) (s s' : pool_state) :
  reachable under_lock s -> pool_transition under_lock t s s' ->
  entries s `prefix_of` entries s' /\
  (entries s' <> entries s ->
     exclusive_by s = Some t /\
     (forall t', at_point s t' <> Searching) /\
     (forall t', t' <> t -> holds_exclusive (at_point s t') = false)).
Proof.
  intros H%reachable_inv Hs. destruct H as [H1 H2 H3 _ _ _ _ _ _ _]. destruct Hs; cbn in *;
    try (split; [done|]; by intros).
  split; [by eexists|intros _].
  assert (He : e = Some t) by (apply H2; by match goal with Hp : p t = _ |- _ => rewrite Hp end).
  split_and!; [done| |].
  - intros t' Ht'%H1. rewrite H3 in Ht' by (by rewrite He). set_solver.
  - intros t' Ht'. destruct (holds_exclusive (p t')) eqn:Hx; [|done]. apply H2 in Hx. congruence.
Qed.

(** C32: the threads never block each other for good: in every reachable state in which some thread is
    in [findConnection] or on its connection, some thread can take a step that is not an entry into
    the function. *)
Theorem pool_progress (under_lock : bool) (s : pool_state) (t : thread_id) :
  reachable under_lock s -> at_point s t <> Outside ->
  exists t' s', pool_transition under_lock t' s s' /\ at_point s t' <> Outside.
Proof.
  intros Hr Ht. pose proof (reachable_inv _ _ Hr) as [H1 H2 H3 _ _ _ _ _ _ _].
  destruct s as [l r e a p]; cbn in *.
  destruct e as [tx|].
  { pose proof (proj1 (H2 tx) eq_refl) as Hx. destruct (p tx) eqn:Hp; try done.
    - exists tx. eexists. split; [by eapply create_locked_fails|by rewrite Hp].
    - exists tx. eexists. split; [by eapply push|by rewrite Hp]. }
  destruct (decide (r = ∅)) as [->|Hne].
  2:{ apply set_choose_L in Hne as [tr Htr]. pose proof (proj1 (H1 tr) Htr) as Hp. exists tr.
      destruct (find_thread tr l) as [c|] eqn:Hf; eexists; (split; [|by rewrite Hp]).
      - by eapply search_found.
      - by eapply search_fails. }
  exists t. destruct (p t) eqn:Hp; try done.
  - apply H1 in Hp. set_solver.
  - destruct under_lock; eexists; (split; [|done]); [by eapply lock_to_create|by eapply create_unlocked_fails].
  - assert (None = Some t) as [=]; apply H2; by rewrite Hp.
  - eexists. split; [by eapply lock_created|done].
  - assert (None = Some t) as [=]; apply H2; by rewrite Hp.
  - eexists. split; [by eapply leave|done].
Qed.

(** ** A run of one thread *)

Definition walk (ps : list point) : thread_id -> point :=
  fold_left (fun p x => <[1%positive := x]> p) ps (fun _ => Outside).

(** The thread 1 holds the exclusive lock and its new connection, and then has pushed it. *)
Definition pushing_state : pool_state :=
  mkPoolState [] ∅ (Some 1%positive) {[1%positive]} (walk [Searching; NotFound; Created 1; Pushing 1]).
Definition pushed_state : pool_state :=
  mkPoolState [mkExclusiveConnection 1 1] ∅ None {[1%positive]}
    (walk [Searching; NotFound; Created 1; Pushing 1; Found 1]).

Lemma pushing_reachable : reachable false pushing_state.
Proof.
  unfold pushing_state. eapply (reach_step _ 1).
  2:{ apply (lock_created false 1 [] {[1%positive]} (walk [Searching; NotFound; Created 1])).
      vm_compute. reflexivity. }
  eapply (reach_step _ 1).
  2:{ assert ({[1%positive]} = ({[1%positive]} ∪ ∅ : gset positive)) as -> by set_solver.
      by apply (create_unlocked false 1 [] ∅ None ∅ (walk [Searching; NotFound]) 1). }
  eapply (reach_step _ 1).
  2:{ assert (∅ = ({[1%positive]} ∪ ∅ : gset positive) ∖ {[1%positive]}) as E by set_solver.
      rewrite E at 1. by apply (search_fails false 1 [] ({[1%positive]} ∪ ∅) None ∅ (walk [Searching])). }
  eapply (reach_step _ 1); [apply reach_initial|].
  by apply (lock_shared false 1 [] ∅ ∅ (walk [])).
Qed.

Lemma pushed_transition : pool_transition false 1 pushing_state pushed_state.
Proof. by apply (push false 1 [] ∅ (Some 1%positive) {[1%positive]} (walk [Searching; NotFound; Created 1; Pushing 1]) 1). Qed.

Lemma pool_exclusive_witness :
  one_entry (entries pushed_state) /\
  (forall t c, at_point pushed_state t = Found c -> find_thread t (entries pushed_state) = Some c) /\
  (forall t1 t2 c, at_point pushed_state t1 = Found c -> at_point pushed_state t2 = Found c -> t1 = t2).
Proof.
  exact (pool_exclusive false pushed_state (reach_step _ 1 _ _ pushing_reachable pushed_transition)).
Defined.

Lemma pool_race_free_witness :
  entries pushing_state `prefix_of` entries pushed_state /\
  (entries pushed_state <> entries pushing_state ->
     exclusive_by pushing_state = Some 1%positive /\
     (forall t', at_point pushing_state t' <> Searching) /\
     (forall t', t' <> 1%positive -> holds_exclusive (at_point pushing_state t') = false)).
Proof. exact (pool_race_free false 1 _ _ pushing_reachable pushed_transition). Defined.

Lemma pool_progress_witness :
  exists t' s', pool_transition false t' pushing_state s' /\ at_point pushing_state t' <> Outside.
Proof. apply (pool_progress false pushing_state 1 pushing_reachable). vm_compute. discriminate. Defined.
