(* ===== verification/PostgresWriter.v ===== *)
(** * The PostgreSQL writer (gwfront/src/handler/postgres_writer)

    One call of [write] on one thread, over an arbitrary libpqxx. The interleaving of the threads in
    [findConnection] is the subject of ConnectionPool, that of whole calls of PostgresThreads. *)

From S2P Require Import Prelude CommonConfig Message Pqxx Handler ConnectionPool.

Definition MESSAGES_TABLE : string := "messages".
Definition RECONNECT_RETRIES : nat := 2.

(** The data members; the mutex has no value of its own. *)
Record PostgresWriter : Type := mkPostgresWriter {
  connectionString_ : string;
  connections_ : list ExclusiveConnection
}.

(** The constructor. *)
Definition PostgresWriter_init (config : PostgresConfig) : PostgresWriter :=
  mkPostgresWriter (connectionString config) [].

Definition push_back (ec : ExclusiveConnection) (w : PostgresWriter) : PostgresWriter :=
  mkPostgresWriter (connectionString_ w) (connections_ w ++ [ec]).

Section writer.
Context {W row : Type} `{!Pqxx W row}.

Abbreviation st := (env PostgresWriter W (pg_event row)).

Definition findConnection (t : thread_id) : prog st Pqxx.connection :=
  it ← gets (fun s => find_thread t (connections_ (members s)));
  match it with
  | Some c => mret c
  | None =>
      cs ← gets (fun s => connectionString_ (members s));
      c ← do_pg_connect cs;
      modify (set_members (push_back (mkExclusiveConnection t c))) ;;
      mret c
  end.

Definition INSERT : string := "INSERT INTO " +:+ MESSAGES_TABLE +:+ " (data) VALUES ($1)".

(** The body of the [try] block. *)
Definition insert (t : thread_id) (data : string) : prog st WriteResult :=
  connection ← findConnection t;
  work ← do_work connection;
  scoped
    (do_exec_params work INSERT (param_bytes (bytes_of data)) ;;
     do_commit work ;;
     mret (mkWriteResult WRITE_OK ""))
    (end_work work).

(** The loop, with [retriesLeft] retries left. *)
Fixpoint write_loop (retriesLeft : nat) (t : thread_id) (data : string) : prog st WriteResult :=
  try_catch (insert t data) (fun e =>
    match e with
    | broken_connection what =>
        match retriesLeft with
        | S retriesLeft' => write_loop retriesLeft' t data
        | O => mret (mkWriteResult WRITE_STORAGE_UNAVAILABLE what)
        end
    | _ => mret (mkWriteResult WRITE_GENERIC (what e))
    end).

Definition PostgresWriter_write (t : thread_id) (data : string) : prog st WriteResult :=
  write_loop RECONNECT_RETRIES t data.

#[export] Instance PostgresWriter_writer : Writer st := PostgresWriter_write.

(** ** What the database confirmed *)

(** A reading of the trace: the data of the insertion of the open transaction, if there is one, and
    the data of the insertions whose commit was confirmed, the oldest first. *)
Definition scan (acc : option (list Z) * list (list Z)) (ev : pg_event row) :
    option (list Z) * list (list Z) :=
  match ev with
  | PgExecParams _ q (param_bytes bs) (inr _) => (if decide (q = INSERT) then Some bs else acc.1, acc.2)
  | PgCommit _ (inr tt) => (None, acc.2 ++ option_list acc.1)
  | PgWork _ _ | PgWorkEnd _ => (None, acc.2)
  | _ => acc
  end.

Definition ledger (s : st) : option (list Z) * list (list Z) := fold_left scan (trace s) (None, []).

Definition confirmed (s : st) : list (list Z) := (ledger s).2.

(** No transaction is open. *)
Definition closed (s : st) : Prop := (ledger s).1 = None.

(** The ledger after one more event. *)
Lemma ledger_snoc m w tr ev :
  ledger (Env m w (tr ++ [ev])) = scan (fold_left scan tr (None, [])) ev.
Proof. unfold ledger. cbn [trace]. by rewrite fold_left_app. Qed.

Lemma findConnection_ledger t s :
  wp (findConnection t) (fun _ s' => ledger s' = ledger s) (fun _ s' => ledger s' = ledger s) s.
Proof.
  unfold findConnection. wp_steps. case_match; wp_steps; [done|].
  apply wp_call_throwing; intros x _; wp_steps; unfold set_members; cbn [members world trace];
    apply ledger_snoc.
Qed.

Lemma insert_ledger t data s :
  closed s ->
  wp (insert t data)
    (fun r s' => closed s' /\ r = mkWriteResult WRITE_OK "" /\
                 confirmed s' = confirmed s ++ [bytes_of data])
    (fun _ s' => closed s' /\ confirmed s' = confirmed s) s.
Proof.
  unfold closed, confirmed. intros Hs. unfold insert. apply wp_bind.
  eapply wp_mono; [apply findConnection_ledger|intros c s1 H1; cbn beta|].
  2:{ intros e s1 H1. by rewrite H1. }
  destruct (ledger s) as [o l] eqn:Hl. cbn in Hs |- *. subst o. unfold ledger in H1.
  apply wp_bind, wp_call_throwing; [intros w _|intros e _; rewrite ledger_snoc, H1; done].
  apply wp_scoped, wp_bind, wp_call_throwing; cbn [members world trace];
    [intros rs _|intros e _; unfold end_work; cbn [members world trace];
      rewrite ledger_snoc, !fold_left_app, H1; done].
  apply wp_bind, wp_call_throwing; cbn [members world trace];
    [intros [] _; wp_steps|intros e _]; unfold end_work; cbn [members world trace];
    rewrite ledger_snoc, !fold_left_app, H1; cbn; by rewrite ?decide_True by done.
Qed.

(** ** The retries *)

(** [n] tries in a row that ended in a broken connection lead from [s] to [s']. *)
Fixpoint broken_run (t : thread_id) (data : string) (n : nat) (s s' : st) : Prop :=
  match n with
  | O => s' = s
  | S n' => exists what s1, insert t data s = (Throw (broken_connection what), s1) /\
              broken_run t data n' s1 s'
  end.

(** What the loop makes of the outcome of the last try. *)
Definition write_answer (o : outcome WriteResult) : option WriteResult :=
  match o with
  | Value r => Some r
  | Throw (broken_connection what) => Some (mkWriteResult WRITE_STORAGE_UNAVAILABLE what)
  | Throw e => Some (mkWriteResult WRITE_GENERIC (what e))
  | UB => None
  end.

Definition is_broken (o : outcome WriteResult) : Prop :=
  exists what, o = Throw (broken_connection what).

Lemma insert_safe t data : safe (insert t data).
Proof. unfold insert, findConnection. solve_defined. Qed.

Lemma write_loop_spec n t data s :
  exists k s1 o s' r,
    (k <= n)%nat /\ broken_run t data k s s1 /\ insert t data s1 = (o, s') /\
    (is_broken o -> k = n) /\ write_answer o = Some r /\ write_loop n t data s = (Value r, s').
Proof.
  revert s. induction n as [|n IH]; intros s; pose proof (insert_safe t data s) as Hd;
    cbn [write_loop]; unfold try_catch; destruct (insert t data s) as [o s1] eqn:Hi;
    cbn in Hd; destruct o as [r|[w|w|w|w]|]; try done;
    try (eexists 0%nat, s, _, s1, _; split_and!;
         [lia|done|exact Hi|try lia; intros [? ?]; done|reflexivity|reflexivity]).
  destruct (IH s1) as (k & s2 & o & s' & r & Hk & Hb & Ho & Hbr & Ha & Hw).
  exists (S k), s2, o, s', r. split_and!; [lia|by exists w, s1|done| |done|done].
  intros H. by rewrite (Hbr H).
Qed.

Lemma broken_run_ledger t data n s s' :
  closed s -> broken_run t data n s s' -> closed s' /\ confirmed s' = confirmed s.
Proof.
  revert s. induction n as [|n IH]; intros s Hs; cbn; [by intros ->|].
  intros (w & s1 & Hi & Hb). pose proof (insert_ledger t data s Hs) as H. unfold wp in H.
  rewrite Hi in H. destruct H as [H1 H2]. destruct (IH s1 H1 Hb) as [H3 H4]. by rewrite H4, H2.
Qed.


Lemma write_ledger t data s :
  closed s ->
  exists r s', write t data s = (Value r, s') /\ closed s' /\
    confirmed s' = confirmed s ++ (if decide (write_error r = WRITE_OK) then [bytes_of data] else []).
Proof.
  intros Hs. destruct (write_loop_spec RECONNECT_RETRIES t data s)
    as (k & s1 & o & s' & r & _ & Hb & Hi & _ & Ha & Hw).
  destruct (broken_run_ledger _ _ _ _ _ Hs Hb) as [Hs1 Hc1]. exists r, s'. split; [exact Hw|].
  pose proof (insert_ledger t data s1 Hs1) as H. unfold wp in H. rewrite Hi in H.
  destruct o as [x|e|]; [| |done].
  - destruct H as (Hs' & -> & Hc'). injection Ha as <-. split; [done|]. by rewrite Hc', Hc1.
  - destruct H as (Hs' & Hc'). split; [done|]. rewrite Hc', Hc1, decide_False, app_nil_r; [done|].
    by destruct e; injection Ha as <-.
Qed.

#[export] Instance PostgresWriter_laws : WriterLaws confirmed closed.
Proof.
  split.
  - intros t data s Hs. destruct (write_ledger t data s Hs) as (r & s' & -> & ? & _). done.
  - intros t data s Hs. destruct (write_ledger t data s Hs) as (r & s' & ? & _ & ?). eauto.
Qed.

(** C6: a write reports success exactly when the database confirmed the commit of an insertion of the
    data, byte by byte: then that insertion is the only one confirmed during the call, whatever
    failed and was retried before; otherwise no insertion was confirmed. No transaction is left
    open. *)
Theorem write_confirmed (t : thread_id) (data : string) (s : st) :
  closed s ->
  exists r s', write t data s = (Value r, s') /\ closed s' /\
    (write_error r = WRITE_OK <-> confirmed s' = confirmed s ++ [bytes_of data]) /\
    (write_error r <> WRITE_OK <-> confirmed s' = confirmed s).
Proof.
  intros Hs. destruct (write_ledger t data s Hs) as (r & s' & Hw & Hc & Hl). exists r, s'.
  assert (Hne : confirmed s <> confirmed s ++ [bytes_of data]).
  { intros Hx. apply (f_equal length) in Hx. rewrite length_app in Hx. cbn in Hx. lia. }
  rewrite Hl. case_decide as Hd; rewrite ?app_nil_r; split_and!; try done; naive_solver.
Qed.

(** ** The connections of the threads *)

Definition pool (s : st) : list ExclusiveConnection := connections_ (members s).

(** A thread has one entry. *)
Definition pool_ok (s : st) : Prop := one_entry (pool s).

Lemma pool_call_throwing {A} (P : list ExclusiveConnection -> Prop) (f : W -> (exn + A) * W) ev :
  preserves (S := st) (fun s => P (pool s)) (call_throwing f ev).
Proof. by apply preserves_call_throwing. Qed.

Lemma findConnection_pool t l : preserves (fun s => pool_step t l (pool s)) (findConnection t).
Proof.
  intros s Hs. unfold findConnection, mbind, prog_bind, gets. fold (pool s).
  destruct (find_thread t (pool s)) as [c|] eqn:Hf; [exact Hs|].
  unfold call_throwing. destruct (pqxx_connect _ _) as [[e|c] w]; cbn; [exact Hs|].
  by apply pool_step_push.
Qed.

Lemma write_pool_step t data l : preserves (fun s => pool_step t l (pool s)) (write t data).
Proof.
  pose proof (findConnection_pool t l). unfold write, PostgresWriter_writer, PostgresWriter_write.
  generalize RECONNECT_RETRIES. intros n.
  assert (Hi : preserves (fun s => pool_step t l (pool s)) (insert t data)).
  { unfold insert. apply preserves_bind; [done|intros c].
    apply preserves_bind; [by apply (pool_call_throwing (pool_step t l))|intros w].
    apply preserves_scoped; [|done].
    apply preserves_bind; [by apply (pool_call_throwing (pool_step t l))|intros _].
    apply preserves_bind; [by apply (pool_call_throwing (pool_step t l))|intros _].
    apply preserves_ret. }
  induction n as [|n IH]; cbn [write_loop]; apply preserves_try_catch; try done;
    intros []; first [apply IH|apply preserves_ret].
Qed.

(** The connection the thread uses was in the pool before, or is added. *)
Lemma insert_connected t data s r s' :
  insert t data s = (Value r, s') -> is_Some (find_thread t (pool s')).
Proof.
  unfold insert. intros (c & s1 & Hc & H)%prog_bind_value.
  assert (H1 : is_Some (find_thread t (pool s1))).
  { unfold findConnection, mbind, prog_bind, gets in Hc. fold (pool s) in Hc.
    destruct (find_thread t (pool s)) as [c'|] eqn:Hf; [injection Hc as <- <-; by eexists|].
    unfold call_throwing in Hc. destruct (pqxx_connect _ _) as [[e|c'] w]; cbn in Hc; [done|].
    injection Hc as <- <-.
    change (pool _) with (pool s ++ [mkExclusiveConnection t c']). rewrite find_thread_app, Hf.
    rewrite decide_True by done. by eexists. }
  revert H. set (m := do_work c ≫= _). intros H.
  assert (Hp : preserves (fun x => is_Some (find_thread t (pool x))) m).
  { unfold m. repeat first [apply preserves_bind; [|intros ?]|apply preserves_scoped; [|done]
      |apply preserves_ret|by apply (pool_call_throwing (fun l => is_Some (find_thread t l)))]. }
  specialize (Hp s1 H1). by rewrite H in Hp.
Qed.

(** The connections of the threads stay apart: a write gives its thread at most one new entry,
    and only when it had none, never changes the entries of other threads, and a thread whose write
    succeeded has a connection, which its later writes use. *)
Theorem write_pool (t : thread_id) (data : string) (s : st) :
  pool_ok s ->
  exists r s', write t data s = (Value r, s') /\ pool_ok s' /\
    pool s `prefix_of` pool s' /\
    (forall t', t' <> t -> find_thread t' (pool s') = find_thread t' (pool s)) /\
    (forall c, find_thread t (pool s) = Some c -> pool s' = pool s) /\
    (write_error r = WRITE_OK -> is_Some (find_thread t (pool s'))).
Proof.
  intros Hok. destruct (write_loop_spec RECONNECT_RETRIES t data s)
    as (k & s1 & o & s' & r & _ & _ & Hi & _ & Ha & Hw). exists r, s'. split; [exact Hw|].
  pose proof (write_pool_step t data (pool s) s (or_introl eq_refl)) as Hp.
  unfold write, PostgresWriter_writer, PostgresWriter_write in Hp. rewrite Hw in Hp. cbn in Hp.
  assert (Hc : write_error r = WRITE_OK -> is_Some (find_thread t (pool s'))).
  { intros Hr. destruct o as [x|e|]; [by eapply insert_connected| |done].
    by destruct e; injection Ha as <-. }
  destruct (pool_step_spec t (pool s) (pool s') Hok Hp) as (H1 & H2 & H3 & H4). by split_and!.
Qed.
End writer.

(** ** Instances on the reference database *)

Definition sample_writer : env PostgresWriter reference_db (pg_event Message) :=
  Env (PostgresWriter_init (mkPostgresConfig "db" 5432 "test" "user" "123")) (mkReferenceDb [] [] []) [].

Lemma write_confirmed_witness :
  exists r s', write 1%positive "hi" sample_writer = (Value r, s') /\ closed s' /\
    (write_error r = WRITE_OK <-> confirmed s' = [[104; 105]]) /\
    (write_error r <> WRITE_OK <-> confirmed s' = []).
Proof. exact (write_confirmed 1 "hi" sample_writer eq_refl). Defined.

Lemma write_pool_witness :
  exists r s', write 1%positive "hi" sample_writer = (Value r, s') /\ pool_ok s' /\
    pool sample_writer `prefix_of` pool s' /\
    (forall t', t' <> 1%positive ->
       find_thread t' (pool s') = find_thread t' (pool sample_writer)) /\
    (forall c, find_thread 1 (pool sample_writer) = Some c -> pool s' = pool sample_writer) /\
    (write_error r = WRITE_OK -> is_Some (find_thread 1 (pool s'))).
Proof. apply (write_pool 1 "hi" sample_writer). constructor. Defined.

Example write_sample :
  let r := write 1%positive "hi" sample_writer in
  r.1 = Value (mkWriteResult WRITE_OK "") /\
  trace r.2 = [PgConnect "host=db port=5432 dbname=test user=user password=123" (inr 1%positive);
               PgWork 1 (inr 1%positive); PgExecParams 1 INSERT (param_bytes [104; 105]) (inr []);
               PgCommit 1 (inr tt); PgWorkEnd 1].
Proof. vm_compute. split; reflexivity. Qed.
