(* ===== verification/PostgresStore.v ===== *)
(** * PostgreSQL as the storage of both programs

    [PostgresServer] (Pqxx) is the contract of the database the producer relies on. [PostgresInserts]
    adds what the writer needs of it: an insertion whose commit is confirmed makes a new row. With both,
    the PostgreSQL writer keeps [StoreWriter] and the PostgreSQL producer [StoreProducer] (Store). A
    reference database with insertions, selections and deletions keeps both contracts. *)

From S2P Require Import Prelude CommonConfig Message Pqxx PostgresProducer Handler Store ConnectionPool PostgresWriter.

(** [known w i]: a committed row has had the id [i]; [staged w t]: the data of the rows that the open
    transaction [t] inserts. *)
Class PostgresInserts (W row : Type) `{!Pqxx W row} (table : W -> Messages)
    (pending : W -> work -> list Z) (known : W -> Z -> Prop) (staged : W -> work -> list (list Z)) :
    Prop := {
  table_known : forall w m, m ∈ table w -> known w (id m);
  connect_known : forall cs w i, known w i -> known (pqxx_connect cs w).2 i;
  work_known : forall c w i, known w i -> known (pqxx_work c w).2 i;
  work_end_known : forall t w i, known w i -> known (work_end t w) i;
  exec_params_known : forall t q p w i, known w i -> known (exec_params t q p w).2 i;
  exec_known : forall t q w i, known w i -> known (exec t q w).2 i;
  commit_known : forall t w i, known w i -> known (commit t w).2 i;
  (** A new transaction inserts nothing; an insertion adds one row and deletes none. *)
  work_staged : forall c w t, (pqxx_work c w).1 = inr t -> staged (pqxx_work c w).2 t = [];
  insert_staged : forall t bs w rows,
    (exec_params t INSERT (param_bytes bs) w).1 = inr rows ->
    staged (exec_params t INSERT (param_bytes bs) w).2 t = staged w t ++ [bs];
  insert_pending : forall t bs w,
    pending (exec_params t INSERT (param_bytes bs) w).2 t = pending w t;
  (** A confirmed commit makes a row of every insertion, with an id that no committed row has had: the
      sequence behind the key gives no number twice. *)
  commit_inserts : forall t w, (commit t w).1 = inr tt ->
    Forall (fun bs => exists m, data m = bs /\ m ∈ table (commit t w).2 /\ ~ known w (id m)) (staged w t)
}.

Section store.
Context {W row : Type} `{!Pqxx W row} (table : W -> Messages) (pending : W -> work -> list Z)
  (gone : W -> Z -> Prop) (known : W -> Z -> Prop) (staged : W -> work -> list (list Z)).
Context `{!PostgresServer W row table pending gone, !PostgresInserts W row table pending known staged}.

Abbreviation writer := (env PostgresWriter W (pg_event row)).
Abbreviation producer := (env PostgresProducer W (pg_event row)).

(** The rows are the messages. *)
Definition pg_held (w : W) (m : Message) : Prop := m ∈ table w.

#[export] Instance pg_store : Store pg_held known.
Proof. intros w m. apply table_known. Qed.

Abbreviation pg_keeps := (keeps pg_held known).

Lemma keeps_connect cs w : pg_keeps w (pqxx_connect cs w).2.
Proof. split; [intros m; apply pg_connect_keeps|intros i; by apply connect_known]. Qed.

Lemma keeps_work c w : pg_keeps w (pqxx_work c w).2.
Proof. split; [intros m; apply work_keeps|intros i; by apply work_known]. Qed.

Lemma keeps_work_end t w : pg_keeps w (work_end t w).
Proof. split; [intros m; apply work_end_keeps|intros i; by apply work_end_known]. Qed.

Lemma keeps_exec_params t q p w : pg_keeps w (exec_params t q p w).2.
Proof. split; [intros m; apply exec_params_keeps|intros i; by apply exec_params_known]. Qed.

Lemma keeps_commit t w : pending w t = [] -> pg_keeps w (commit t w).2.
Proof.
  intros Hp. split; [|intros i; by apply commit_known].
  intros m Hm. apply commit_keeps; [done|]. rewrite Hp. apply not_elem_of_nil.
Qed.

(** ** The writer *)

Lemma findConnection_store t (s : writer) :
  wp (findConnection t) (fun _ s' => pg_keeps (world s) (world s'))
    (fun _ s' => pg_keeps (world s) (world s')) s.
Proof.
  unfold findConnection. wp_steps. case_match; wp_steps; [done|].
  apply wp_call_throwing; intros x _; wp_steps; apply keeps_connect.
Qed.

Lemma insert_store t d (s : writer) :
  wp (insert t d)
    (fun _ s' => pg_keeps (world s) (world s') /\ added pg_held known (bytes_of d) (world s) (world s'))
    (fun _ s' => pg_keeps (world s) (world s')) s.
Proof.
  unfold insert. apply wp_bind. eapply wp_mono; [apply findConnection_store|intros c s1 H1; cbn beta|done].
  set (w0 := world s) in *. set (w1 := world s1) in *.
  pose proof (keeps_work c w1) as H2. pose proof (work_pending (row := row) c w1) as Hp.
  pose proof (work_staged (row := row) c w1) as Hs.
  apply wp_bind, wp_call_throwing; fold w1; [intros k Hk|intros e _; etrans; [exact H1|exact H2]].
  specialize (Hp k Hk). specialize (Hs k Hk). set (w2 := (pqxx_work c w1).2) in *.
  apply wp_scoped, wp_bind. pose proof (keeps_exec_params k INSERT (param_bytes (bytes_of d)) w2) as H3.
  apply wp_call_throwing; cbn [world members trace];
    [intros rs Hr|intros e _; etrans; [exact H1|etrans; [exact H2|etrans; [exact H3|apply keeps_work_end]]]].
  pose proof (insert_staged k (bytes_of d) w2 rs Hr) as Hs2. rewrite Hs in Hs2.
  pose proof (insert_pending (row := row) k (bytes_of d) w2) as Hp2. rewrite Hp in Hp2.
  set (w3 := (exec_params k INSERT _ w2).2) in *. pose proof (keeps_commit k w3 Hp2) as H4.
  assert (H5 : pg_keeps w0 w3) by (etrans; [exact H1|etrans; [exact H2|exact H3]]).
  apply wp_bind, wp_call_throwing; cbn [world members trace]; [intros [] Hc|intros e _];
    [wp_steps|]; unfold end_work; cbn [world members trace];
    set (w4 := (commit k w3).2) in *; pose proof (keeps_work_end k w4) as H6.
  all: assert (H7 : pg_keeps w0 (work_end k w4)) by (etrans; [exact H5|etrans; [exact H4|exact H6]]).
  2: exact H7.
  split; [exact H7|].
  pose proof (commit_inserts k w3 Hc) as Hi. rewrite Hs2 in Hi. apply Forall_singleton in Hi as (m & Hm & Hin & Hnew).
  exists m. split_and!; [done|by apply H6|]. intros Hk0. by apply Hnew, H5.
Qed.

Lemma write_loop_store n t d (s : writer) :
  wp (write_loop n t d)
    (fun r s' => pg_keeps (world s) (world s') /\
       (write_error r = WRITE_OK -> added pg_held known (bytes_of d) (world s) (world s')))
    (fun _ _ => False) s.
Proof.
  assert (Hgen : forall s0 : writer, pg_keeps (world s) (world s0) ->
    wp (write_loop n t d)
      (fun r s' => pg_keeps (world s) (world s') /\
         (write_error r = WRITE_OK -> added pg_held known (bytes_of d) (world s) (world s')))
      (fun _ _ => False) s0); [|by apply Hgen].
  induction n as [|n IH]; intros s0 H0; cbn [write_loop]; apply wp_try_catch;
    (eapply wp_mono; [apply insert_store|..]; cbn beta).
  1,3: intros r s1 [H1 (m & Hm & Hin & Hnew)]; (split; [etrans; [exact H0|exact H1]|]); intros _; exists m;
    (split_and!; [done|done|]); intros Hk; by apply Hnew, H0.
  - intros e s1 H1. destruct e; apply wp_ret; (split; [etrans; [exact H0|exact H1]|done]).
  - intros e s1 H1. assert (H2 : pg_keeps (world s) (world s1)) by (etrans; [exact H0|exact H1]).
    destruct e; try (apply wp_ret; by split). by apply IH.
Qed.

#[export] Instance postgres_store_writer : StoreWriter pg_held known (M := PostgresWriter) confirmed closed.
Proof.
  split; [done|done|]. intros t d s Hs. destruct (write_ledger t d s Hs) as (r & s' & Hw & Hc & Hl).
  exists r, s'. pose proof (write_loop_store RECONNECT_RETRIES t d s) as H.
  unfold write, PostgresWriter_writer, PostgresWriter_write in Hw |- *. unfold wp in H. rewrite Hw in H.
  destruct H as [H1 H2]. by split_and!.
Qed.

(** ** The producer *)

Definition knows (i : Z) (s : producer) : Prop := known (world s) i.

Lemma knows_call {A} i (f : W -> (exn + A) * W) (ev : exn + A -> pg_event row) :
  (forall w, known w i -> known (f w).2 i) -> preserves (knows i) (call_throwing f ev).
Proof. intros H. apply preserves_call_throwing. intros s. apply H. Qed.

Lemma pg_getConnection_knows i : preserves (knows i) PostgresProducer.getConnection.
Proof.
  unfold PostgresProducer.getConnection. apply preserves_bind; [apply preserves_gets|]. intros [c|].
  - apply preserves_ret.
  - apply preserves_bind; [apply preserves_gets|intros cs].
    apply preserves_bind; [apply knows_call; intros w; apply connect_known|intros c].
    apply preserves_bind; [by apply preserves_modify|intros _; apply preserves_ret].
Qed.

#[export] Instance postgres_store_producer : StoreProducer pg_held known (M := PostgresProducer).
Proof.
  split; [exact (PostgresProducer_laws table pending gone)|..].
  - intros p i Hi. revert p Hi. change (preserves (knows i) PostgresProducer_getNext).
    unfold PostgresProducer_getNext. apply preserves_bind; [apply pg_getConnection_knows|intros c].
    apply preserves_bind; [apply knows_call; intros w; apply work_known|intros t].
    apply preserves_scoped; [|intros s Hs; exact (work_end_known t (world s) i Hs)].
    apply preserves_bind; [apply preserves_gets|intros n].
    apply preserves_bind; [apply knows_call; intros w; apply exec_params_known|intros rs; apply preserves_lift].
  - intros ms p i Hi. revert p Hi. change (preserves (knows i) (PostgresProducer_markConsumed ms)).
    unfold PostgresProducer_markConsumed. apply preserves_bind; [apply pg_getConnection_knows|intros c].
    apply preserves_bind; [apply knows_call; intros w; apply work_known|intros t].
    apply preserves_scoped; [|intros s Hs; exact (work_end_known t (world s) i Hs)].
    apply preserves_bind; [apply preserves_lift|intros q].
    apply preserves_bind; [apply knows_call; intros w; apply exec_known|intros _].
    apply knows_call. intros w. apply commit_known.
Qed.
End store.

(** ** A reference database with insertions

    One transaction at a time, which inserts or deletes. The ids come from a sequence that ends at
    2^63, as that of a [BIGSERIAL] key does. *)

Record insert_db : Type := mkInsertDb {
  db_rows : Messages;          (** the committed rows *)
  db_staged : Messages;        (** the rows the open transaction inserts *)
  db_deleting : list Z;        (** the ids the open transaction deletes *)
  db_dead : list Z;            (** the ids deleted so far *)
  db_used : list Z;            (** the ids committed rows have had *)
  db_next : Z                  (** the next number of the sequence *)
}.

Definition db_ok (w : insert_db) : Prop :=
  StronglySorted id_lt (db_rows w ++ db_staged w) /\
  Forall (fun m => 0 <= id m < db_next w) (db_rows w ++ db_staged w) /\
  0 <= db_next w <= 2 ^ 63 /\
  Forall (fun m => id m ∈ db_used w) (db_rows w) /\
  Forall (fun m => id m ∉ db_used w) (db_staged w) /\
  Forall (fun i => i < db_next w) (db_used w) /\
  (db_staged w = [] \/ db_deleting w = []).

#[export] Instance db_ok_dec w : Decision (db_ok w).
Proof. unfold db_ok. apply _. Defined.

Definition db_table (w : insert_db) : Messages := if decide (db_ok w) then db_rows w else [].
Definition db_pending (w : insert_db) (t : work) : list Z := db_deleting w.
Definition db_gone (w : insert_db) (i : Z) : Prop := i ∈ db_dead w /\ i ∉ id <$> db_table w.
Definition db_known (w : insert_db) (i : Z) : Prop := i ∈ db_used w.
Definition db_inserts (w : insert_db) (t : work) : list (list Z) := data <$> db_staged w.

Definition db_error : exn := std_exception "ERROR".

(** A call on a database in order; any other refuses it. *)
Definition on_db {A} (f : insert_db -> (exn + A) * insert_db) (w : insert_db) : (exn + A) * insert_db :=
  if decide (db_ok w) then f w else (inl db_error, w).

Definition db_rollback (w : insert_db) : insert_db :=
  mkInsertDb (db_rows w) [] [] (db_dead w) (db_used w) (db_next w).

Definition db_insert (bs : list Z) (w : insert_db) : (exn + list Message) * insert_db :=
  if decide (db_deleting w = [] /\ db_next w < 2 ^ 63)
  then (inr [], mkInsertDb (db_rows w) (db_staged w ++ [mkMessage (db_next w) bs]) [] (db_dead w)
                  (db_used w) (db_next w + 1))
  else (inl db_error, w).

Definition db_delete (ids : list Z) (w : insert_db) : (exn + list Message) * insert_db :=
  if decide (db_staged w = [])
  then (inr [], mkInsertDb (db_rows w) [] ids (db_dead w) (db_used w) (db_next w))
  else (inl db_error, w).

Definition db_commit (w : insert_db) : (exn + unit) * insert_db :=
  (inr tt, mkInsertDb (filter (fun m => id m ∉ db_deleting w) (db_rows w) ++ db_staged w) [] []
             (db_deleting w ++ db_dead w) ((id <$> db_staged w) ++ db_used w) (db_next w)).

#[export] Instance insert_pqxx : Pqxx insert_db Message := {|
  pqxx_connect _ := on_db (fun w => (inr 1%positive, w));
  pqxx_work _ := on_db (fun w => (inr 1%positive, db_rollback w));
  work_end _ w := if decide (db_ok w) then db_rollback w else w;
  exec_params _ q p :=
    on_db (fun w => match p with
                    | param_uint n => (inr (take (Z.to_nat n) (db_rows w)), w)
                    | param_bytes bs => db_insert bs w
                    end);
  exec _ q := on_db (db_delete (deleted_ids q));
  commit _ := on_db db_commit;
  as_u64 r n := inr (id r);
  binarystring r n := inr (data r)
|}.

Lemma db_ok_rows w : db_ok w -> StronglySorted id_lt (db_rows w) /\ Forall in_u64 (db_rows w).
Proof.
  intros (H1 & H2 & H3 & _). split; [by eapply StronglySorted_app_1_l|].
  apply Forall_app in H2 as [H2 _]. eapply Forall_impl; [exact H2|]. unfold in_u64. cbn. lia.
Qed.

Lemma db_rollback_ok w : db_ok w -> db_ok (db_rollback w).
Proof.
  intros (H1 & H2 & H3 & H4 & H5 & H6 & H7). unfold db_ok, db_rollback. cbn. rewrite app_nil_r.
  apply Forall_app in H2 as [H2 _]. split_and!; try done; try lia; [by eapply StronglySorted_app_1_l|by left].

Qed.

Lemma db_insert_ok bs w : db_ok w -> db_ok (db_insert bs w).2.
Proof.
  intros (H1 & H2 & H3 & H4 & H5 & H6 & H7). unfold db_insert. case_decide as Hd; cbn; [|done].
  unfold db_ok. cbn. rewrite app_assoc. split_and!; try lia; try done; try by right.
  - apply StronglySorted_app. split_and!; [|done|repeat constructor].
    intros m1 m2 Hm1 ->%list_elem_of_singleton. rewrite Forall_forall in H2. unfold id_lt. cbn.
    by apply H2.
  - apply Forall_app. split; [|repeat constructor; cbn; lia].
    eapply Forall_impl; [exact H2|]. cbn. lia.
  - apply Forall_app. split; [done|]. repeat constructor. cbn. intros Hu.
    rewrite Forall_forall in H6. specialize (H6 _ Hu). lia.
  - eapply Forall_impl; [exact H6|]. cbn. lia.
Qed.

Lemma db_delete_ok ids w : db_ok w -> db_ok (db_delete ids w).2.
Proof.
  intros (H1 & H2 & H3 & H4 & H5 & H6 & H7). unfold db_delete. case_decide as Hd; cbn; [|done].
  rewrite Hd in *. unfold db_ok. cbn. split_and!; try done; try lia. by left.
Qed.

Lemma StronglySorted_filter_app {A} (R : relation A) (P : A -> Prop) `{!forall x, Decision (P x)} l1 l2 :
  StronglySorted R (l1 ++ l2) -> StronglySorted R (filter P l1 ++ l2).
Proof.
  intros (H1 & H2 & H3)%StronglySorted_app. apply StronglySorted_app. split_and!; [|by apply StronglySorted_filter|done].
  intros x1 x2 [_ Hx]%list_elem_of_filter Hx2. by apply H1.
Qed.

Lemma db_commit_ok w : db_ok w -> db_ok (db_commit w).2.
Proof.
  intros (H1 & H2 & H3 & H4 & H5 & H6 & H7). unfold db_ok. cbn. rewrite app_nil_r.
  assert (Hin : forall m, m ∈ filter (fun m => id m ∉ db_deleting w) (db_rows w) ++ db_staged w ->
                m ∈ db_rows w ++ db_staged w).
  { intros m. rewrite !elem_of_app, list_elem_of_filter. naive_solver. }
  apply Forall_app in H2 as [H2 H2']. rewrite Forall_forall in H2, H2', H4.
  rewrite Forall_forall in H6.
  split_and!; try lia; try done; try apply Forall_forall.
  - by apply StronglySorted_filter_app.
  - intros m Hm. apply Hin, elem_of_app in Hm as [Hm|Hm]; auto.
  - intros m. rewrite !elem_of_app, list_elem_of_filter. intros [[_ Hm]|Hm]; [right; by apply H4|left].
    by apply list_elem_of_fmap_2.
  - intros i. rewrite elem_of_app. intros [(m & -> & Hm)%list_elem_of_fmap|Hi]; [by apply H2'|by apply H6].
  - by left.
Qed.

Lemma db_table_ok w : db_ok w -> db_table w = db_rows w.
Proof. intros. unfold db_table. by rewrite decide_True. Qed.

Lemma db_table_rows w m : m ∈ db_table w -> db_ok w /\ m ∈ db_rows w.
Proof. unfold db_table. case_decide; [done|]. by intros ?%elem_of_nil. Qed.

(** What holds of the answer of a call that a database in order gives, and of its refusal. *)
Lemma on_db_cases {A} (f : insert_db -> (exn + A) * insert_db) w (Q : (exn + A) * insert_db -> Prop) :
  (db_ok w -> Q (f w)) -> (~ db_ok w -> Q (inl db_error, w)) -> Q (on_db f w).
Proof. unfold on_db. case_decide; auto. Qed.

#[local] Arguments deleted_ids : simpl never.

#[export] Instance insert_db_server : PostgresServer insert_db Message db_table db_pending db_gone.
Proof.
  split.
  - intros w. unfold db_table. case_decide; [by apply db_ok_rows|constructor].
  - intros w. unfold db_table. case_decide; [by apply db_ok_rows|constructor].
  - intros cs w m Hm. cbn. by apply on_db_cases.
  - intros c w m Hm. cbn. apply on_db_cases; [intros Hw|done]. cbn.
    rewrite db_table_ok by by apply db_rollback_ok. by apply db_table_rows in Hm as [_ ?].
  - intros c w t. cbn. by apply on_db_cases.
  - intros t w m Hm. cbn. case_decide; [|done].
    rewrite db_table_ok by by apply db_rollback_ok. by apply db_table_rows in Hm as [_ ?].
  - intros t q p w m Hm. cbn. apply on_db_cases; [intros Hw|done]. destruct p as [bs|n]; [|done].
    rewrite db_table_ok by by apply db_insert_ok. apply db_table_rows in Hm as [_ ?].
    unfold db_insert. by case_decide.
  - intros t q w m Hm. cbn. apply on_db_cases; [intros Hw|done].
    rewrite db_table_ok by by apply db_delete_ok. apply db_table_rows in Hm as [_ ?].
    unfold db_delete. by case_decide.
  - intros t q w ids Hq i. cbn. apply on_db_cases; [intros Hw|by right]. unfold db_delete, db_pending.
    rewrite (deleted_ids_spec _ _ Hq). case_decide; cbn; auto.
  - intros t q w ids rows Hq. cbn. apply on_db_cases; [intros Hw|done]. unfold db_delete, db_pending.
    rewrite (deleted_ids_spec _ _ Hq). by case_decide.
  - intros t n w rows. cbn. apply on_db_cases; [|done]. intros Hw [= <-]. cbn.
    rewrite db_table_ok by done. by apply Forall_Forall2_diag, Forall_true.
  - intros t w m Hm Hp. cbn. apply on_db_cases; [intros Hw|done].
    rewrite db_table_ok by by apply db_commit_ok. apply db_table_rows in Hm as [_ Hm].
    cbn. apply elem_of_app. left. by apply list_elem_of_filter.
  - intros t w. cbn. apply on_db_cases; [|done]. intros Hw _ i Hi. split; [cbn; set_solver|].
    rewrite db_table_ok by by apply db_commit_ok. cbn.
    rewrite list_elem_of_fmap. intros (m & -> & Hm). apply elem_of_app in Hm as [[Hm _]%list_elem_of_filter|Hm]; [done|].
    destruct Hw as (_ & _ & _ & _ & _ & _ & [Hs|Hd]); [rewrite Hs in Hm; by apply elem_of_nil in Hm|].
    unfold db_pending in Hi. rewrite Hd in Hi. by apply elem_of_nil in Hi.
  - intros t w i [H1 H2]. cbn. case_decide; [|done]. split; [done|].
    rewrite db_table_ok in * by (done || by apply db_rollback_ok). done.
  - by intros w i [_ H].
Qed.

#[export] Instance insert_db_inserts : PostgresInserts insert_db Message db_table db_pending db_known db_inserts.
Proof.
  split.
  - intros w m [(_ & _ & _ & H & _) Hm]%db_table_rows. rewrite Forall_forall in H. by apply H.
  - intros cs w i Hi. cbn. by apply on_db_cases.
  - intros c w i Hi. cbn. by apply on_db_cases.
  - intros t w i Hi. cbn. by case_decide.
  - intros t q p w i Hi. cbn. apply on_db_cases; [intros Hw|done]. destruct p; [|done].
    unfold db_insert. by case_decide.
  - intros t q w i Hi. cbn. apply on_db_cases; [intros Hw|done]. unfold db_delete. by case_decide.
  - intros t w i Hi. cbn. apply on_db_cases; [intros Hw|done]. unfold db_known in *. cbn. set_solver.
  - intros c w t. cbn. by apply on_db_cases.
  - intros t bs w rows. cbn. apply on_db_cases; [intros Hw|done]. unfold db_insert, db_inserts.
    case_decide; [|done]. intros _. cbn. by rewrite fmap_app.
  - intros t bs w. cbn. apply on_db_cases; [intros Hw|done]. unfold db_insert, db_pending.
    case_decide as Hd; [|done]. by destruct Hd as [-> _].
  - intros t w. cbn. apply on_db_cases; [|done]. intros Hw _. unfold db_inserts.
    apply Forall_fmap, Forall_forall. intros m Hm. exists m. split; [done|].
    rewrite db_table_ok by by apply db_commit_ok. split; [cbn; set_solver|].
    destruct Hw as (_ & _ & _ & _ & H & _). rewrite Forall_forall in H. by apply H.
Qed.
