(* ===== verification/Interleaving.v ===== *)
(** * Code whose atomic steps interleave

    The other files run a call as a whole. Here code is a tree of atomic steps, so that the steps of
    several threads can interleave: [run_code] executes it alone and is related to the code of the other
    files; [threads_step] lets any thread take its next step. A thread is proved with [rely], a
    postcondition of its code under what other threads may do between its steps. *)

From stdpp Require Import functions relations.
From S2P Require Import Prelude Handler.

(** ** Code of one thread *)

Inductive code (S A : Type) : Type :=
| Ret (o : outcome A)
| Atomic (B : Type) (m : prog S B) (k : outcome B -> code S A).
Arguments Ret {S A} o.
Arguments Atomic {S A B} m k.

Fixpoint code_bind {S A B} (f : A -> code S B) (c : code S A) : code S B :=
  match c with
  | Ret (Value a) => f a
  | Ret (Throw e) => Ret (Throw e)
  | Ret UB => Ret UB
  | Atomic m k => Atomic m (fun o => code_bind f (k o))
  end.

#[export] Instance code_ret {S} : MRet (code S) := fun A a => Ret (Value a).
#[export] Instance code_mbind {S} : MBind (code S) := fun A B f c => code_bind f c.

(** One statement as a step. *)
Definition atomic {S A} (m : prog S A) : code S A := Atomic m Ret.

(** [try { c } catch (e) { h e }] *)
Fixpoint code_try {S A} (c : code S A) (h : exn -> code S A) : code S A :=
  match c with
  | Ret (Throw e) => h e
  | Ret o => Ret o
  | Atomic m k => Atomic m (fun o => code_try (k o) h)
  end.

(** The destructor [d] runs at the end of the scope, as a step of its own. *)
Fixpoint code_scoped {S A} (c : code S A) (d : S -> S) : code S A :=
  match c with
  | Ret UB => Ret UB
  | Ret o => Atomic (modify d) (fun _ => Ret o)
  | Atomic m k => Atomic m (fun o => code_scoped (k o) d)
  end.

(** The code alone. *)
Fixpoint run_code {S A} (c : code S A) : prog S A := fun s =>
  match c with
  | Ret o => (o, s)
  | Atomic m k => let '(o, s') := m s in run_code (k o) s'
  end.

(** Code that does the same from every state. *)
Definition same_code {S A} (m1 m2 : prog S A) : Prop := forall s, m1 s = m2 s.

#[export] Instance same_code_equiv {S A} : Equivalence (@same_code S A).
Proof.
  split; [by intros m s|by intros m1 m2 H s; rewrite H|by intros m1 m2 m3 H1 H2 s; rewrite H1, H2].
Qed.

#[export] Instance same_code_bind {S A B} :
  Proper (pointwise_relation A same_code ==> same_code ==> same_code) (@mbind (prog S) _ A B).
Proof.
  intros f1 f2 Hf m1 m2 Hm s. unfold mbind, prog_bind. rewrite (Hm s).
  destruct (m2 s) as [[a|e|] s']; [apply Hf|done|done].
Qed.

#[export] Instance same_code_try {S A} :
  Proper (same_code ==> pointwise_relation exn same_code ==> same_code) (@try_catch S A).
Proof.
  intros m1 m2 Hm h1 h2 Hh s. unfold try_catch. rewrite (Hm s).
  destruct (m2 s) as [[a|e|] s']; [done|apply Hh|done].
Qed.

#[export] Instance same_code_scoped {S A} : Proper (same_code ==> eq ==> same_code) (@scoped S A).
Proof. intros m1 m2 Hm d ? <- s. unfold scoped. by rewrite (Hm s). Qed.

Lemma run_atomic {S A} (m : prog S A) : same_code (run_code (atomic m)) m.
Proof. intros s. cbn. by destruct (m s). Qed.

Lemma run_ret {S A} (a : A) : same_code (S := S) (run_code (mret a)) (mret a).
Proof. by intros s. Qed.

Lemma run_bind {S A B} (c : code S A) (f : A -> code S B) :
  same_code (run_code (c ≫= f)) (run_code c ≫= fun a => run_code (f a)).
Proof.
  induction c as [[a|e|]|X m k IH]; intros s; try done. cbn.
  unfold mbind, prog_bind at 1. cbn. destruct (m s) as [o s']. apply IH.
Qed.

Lemma run_try {S A} (c : code S A) (h : exn -> code S A) :
  same_code (run_code (code_try c h)) (try_catch (run_code c) (fun e => run_code (h e))).
Proof.
  induction c as [[a|e|]|X m k IH]; intros s; try done. cbn. unfold try_catch. cbn.
  destruct (m s) as [o s']. apply IH.
Qed.

Lemma run_scoped {S A} (c : code S A) (d : S -> S) : same_code (run_code (code_scoped c d)) (scoped (run_code c) d).
Proof.
  induction c as [[a|e|]|X m k IH]; intros s; try done. cbn. unfold scoped. cbn.
  destruct (m s) as [o s']. apply IH.
Qed.

(** ** Postconditions under interference

    [rely R G c Q s]: from [s], where others may at any time change the state as [R] says, every step
    of the code changes it as [G] says, and the code ends with [Q]. *)

Section rely.
Context {S : Type} (R G : S -> S -> Prop).

Fixpoint rely {A} (c : code S A) (Q : outcome A -> S -> Prop) (s : S) : Prop :=
  match c with
  | Ret o => Q o s
  | Atomic m k => forall s1, R s s1 -> G s1 (m s1).2 /\ rely (k (m s1).1) Q (m s1).2
  end.

Lemma rely_mono {A} (c : code S A) (Q Q' : outcome A -> S -> Prop) s :
  rely c Q s -> (forall o s', Q o s' -> Q' o s') -> rely c Q' s.
Proof.
  revert s. induction c as [o|B m k IH]; intros s; cbn; [auto|]. intros Hc HQ s1 Hs1.
  destruct (Hc s1 Hs1) as [H1 H2]. split; [done|]. by eapply IH.
Qed.

Lemma rely_bind {A B} (c : code S A) (f : A -> code S B) Q s :
  rely c (fun o s' => match o with
                      | Value a => rely (f a) Q s'
                      | Throw e => Q (Throw e) s'
                      | UB => Q UB s'
                      end) s ->
  rely (c ≫= f) Q s.
Proof.
  revert s. induction c as [[a|e|]|X m k IH]; intros s H; try done.
  intros s1 Hs1. destruct (H s1 Hs1) as [H1 H2]. split; [done|]. by apply IH.
Qed.

Lemma rely_try {A} (c : code S A) h Q s :
  rely c (fun o s' => match o with Throw e => rely (h e) Q s' | _ => Q o s' end) s ->
  rely (code_try c h) Q s.
Proof.
  revert s. induction c as [[a|e|]|X m k IH]; intros s H; try done.
  intros s1 Hs1. destruct (H s1 Hs1) as [H1 H2]. split; [done|]. by apply IH.
Qed.

Lemma rely_scoped {A} (c : code S A) d Q s :
  rely c (fun o s' => match o with
                      | UB => Q UB s'
                      | _ => forall s1, R s' s1 -> G s1 (d s1) /\ Q o (d s1)
                      end) s ->
  rely (code_scoped c d) Q s.
Proof.
  revert s. induction c as [[a|e|]|X m k IH]; intros s H; try done.
  intros s1 Hs1. destruct (H s1 Hs1) as [H1 H2]. split; [done|]. by apply IH.
Qed.

Lemma rely_atomic {A} (m : prog S A) Q s :
  (forall s1, R s s1 -> G s1 (m s1).2 /\ Q (m s1).1 (m s1).2) -> rely (atomic m) Q s.
Proof. done. Qed.
End rely.

(** A state that others have changed is as good as before. *)
Lemma rely_stable {S A} (R G : S -> S -> Prop) `{!Transitive R} (c : code S A) Q s s1 :
  (forall o s s', Q o s -> R s s' -> Q o s') -> rely R G c Q s -> R s s1 -> rely R G c Q s1.
Proof.
  intros HQ. destruct c as [o|B m k]; cbn; [by eauto|]. intros H H1 s2 H2. apply H. by etrans.
Qed.

(** ** Threads that call one object

    [body t d] is the code of a call on the thread [t] with the data [d]. The threads share the data
    members and the library; each has its own trace. A thread calls again when it has returned. [others]
    is what the rest of the world does to the library's state. *)

Section threads.
Context {M W E A : Type} (body : thread_id -> string -> code (env M W E) A) (others : W -> W -> Prop).

Record threads : Type := mkThreads {
  shared : M;
  storage : W;
  traces : thread_id -> list E;
  running : thread_id -> option (string * code (env M W E) A);
  finished : thread_id -> list (string * outcome A)
}.

(** What the thread [t] sees. *)
Definition view (t : thread_id) (x : threads) : env M W E := Env (shared x) (storage x) (traces x t).

Inductive threads_step (t : thread_id) : threads -> threads -> Prop :=
| call_begins m w tr r f d :
    r t = None ->
    threads_step t (mkThreads m w tr r f) (mkThreads m w tr (<[t := Some (d, body t d)]> r) f)
| step_taken m w tr r f d B (p : prog (env M W E) B) k o s :
    r t = Some (d, Atomic p k) -> p (Env m w (tr t)) = (o, s) ->
    threads_step t (mkThreads m w tr r f)
      (mkThreads (members s) (world s) (<[t := trace s]> tr) (<[t := Some (d, k o)]> r) f)
| call_returns m w tr r f d o :
    r t = Some (d, Ret o) ->
    threads_step t (mkThreads m w tr r f)
      (mkThreads m w tr (<[t := None]> r) (<[t := f t ++ [(d, o)]]> f)).

(** A step of some thread, or of another client of the storage. *)
Inductive threads_next : threads -> threads -> Prop :=
| thread_next t x y : threads_step t x y -> threads_next x y
| others_next m w w' tr r f : others w w' -> threads_next (mkThreads m w tr r f) (mkThreads m w' tr r f).

Definition new_threads (m : M) (w : W) : threads :=
  mkThreads m w (fun _ => []) (fun _ => None) (fun _ => []).

Lemma fn_insert_cases {X} (p : thread_id -> X) t t' x :
  (<[t := x]> p) t' = if decide (t' = t) then x else p t'.
Proof.
  destruct (decide (t' = t)) as [->|]; [apply fn_lookup_insert|by apply fn_lookup_insert_ne].
Qed.

(** A call that has begun returns after some steps of its own thread alone. *)
Lemma call_ends t x d c :
  running x t = Some (d, c) ->
  exists y o, rtc (threads_step t) x y /\ running y t = None /\ finished y t = finished x t ++ [(d, o)].
Proof.
  revert x. induction c as [o|B p k IH]; intros [m w tr r f] Hr; cbn in Hr.
  - exists (mkThreads m w tr (<[t := None]> r) (<[t := f t ++ [(d, o)]]> f)), o.
    split; [by apply rtc_once, call_returns|]. cbn. by rewrite !fn_insert_cases, !decide_True.
  - destruct (p (Env m w (tr t))) as [o s] eqn:Hp.
    set (x1 := mkThreads (members s) (world s) (<[t := trace s]> tr) (<[t := Some (d, k o)]> r) f).
    destruct (IH o x1) as (y & o' & Hs & H); [by cbn; rewrite fn_insert_cases, decide_True|].
    exists y, o'. split; [|done]. eapply rtc_l; [by eapply step_taken|done].
Qed.

Lemma thread_steps t x y : rtc (threads_step t) x y -> rtc threads_next x y.
Proof. apply rtc_subrel. by econstructor. Qed.

(** A turn of the thread [t], which calls with [d] when it is not in a call. *)
Definition take_turn (turn : thread_id * string) (x : threads) : threads :=
  let '(t, d) := turn in
  let '(mkThreads m w tr r f) := x in
  match r t with
  | None => mkThreads m w tr (<[t := Some (d, body t d)]> r) f
  | Some (d', Ret o) => mkThreads m w tr (<[t := None]> r) (<[t := f t ++ [(d', o)]]> f)
  | Some (d', Atomic p k) =>
      let '(o, s) := p (Env m w (tr t)) in
      mkThreads (members s) (world s) (<[t := trace s]> tr) (<[t := Some (d', k o)]> r) f
  end.

Definition take_turns (turns : list (thread_id * string)) (x : threads) : threads :=
  fold_left (fun x turn => take_turn turn x) turns x.

Lemma take_turns_steps turns x : rtc threads_next x (take_turns turns x).
Proof.
  revert x. induction turns as [|[t d] turns IH]; intros x; [done|]. eapply rtc_l; [|apply IH].
  destruct x as [m w tr r f]. cbn. apply (thread_next t).
  destruct (r t) as [[d' [o|B p k]]|] eqn:Hr; [by apply call_returns| |by apply call_begins].
  destruct (p (Env m w (tr t))) as [o s] eqn:Hp. by eapply step_taken.
Qed.

(** ** An invariant of the threads

    [R t] is what the thread [t] allows others to do, [G t] what its own steps do. [P t h] holds of what
    it sees when it has returned from the calls [h]; [J t] at any time. [apart] holds of the traces of
    two threads at any time: what one owns is not the other's. *)

Section invariant.
Context (R G : thread_id -> env M W E -> env M W E -> Prop)
  (P : thread_id -> list (string * outcome A) -> env M W E -> Prop) (J : thread_id -> env M W E -> Prop)
  (apart : list E -> list E -> Prop).

Record compatible : Prop := mkCompatible {
  R_preorder : forall t, PreOrder (R t);
  R_others : forall t m w w' tr, others w w' -> R t (Env m w tr) (Env m w' tr);
  apart_sym : Symmetric apart;
  G_R : forall t t' s s' tr, t' <> t -> G t s s' -> J t' (Env (members s) (world s) tr) ->
    apart (trace s) tr ->
    R t' (Env (members s) (world s) tr) (Env (members s') (world s') tr) /\ apart (trace s') tr;
  P_stable : forall t h s s', P t h s -> R t s s' -> P t h s';
  J_R : forall t s s', J t s -> R t s s' -> J t s';
  J_G : forall t s s', J t s -> G t s s' -> J t s';
  body_rely : forall t h d s, P t h s -> rely (R t) (G t) (body t d) (fun o => P t (h ++ [(d, o)])) s
}.

Definition thread_ok (t : thread_id) (x : threads) : Prop :=
  J t (view t x) /\
  match running x t with
  | None => P t (finished x t) (view t x)
  | Some (d, c) => rely (R t) (G t) c (fun o => P t (finished x t ++ [(d, o)])) (view t x)
  end.

Definition all_ok (x : threads) : Prop :=
  (forall t, thread_ok t x) /\ forall t t', t <> t' -> apart (traces x t) (traces x t').

Context (Hc : compatible).

(** What another thread or client does leaves the thread in order. *)
Lemma thread_ok_stable t x y :
  running y t = running x t -> finished y t = finished x t -> R t (view t x) (view t y) ->
  thread_ok t x -> thread_ok t y.
Proof.
  destruct Hc as [H1 _ _ _ H4 H5 _ _]. intros Hr Hf HR [HJ HP]. pose proof (H1 t).
  split; [by eapply H5|]. rewrite Hr, Hf. destruct (running x t) as [[d c]|]; [|by eapply H4].
  by eapply rely_stable; [apply _|intros o s s' ? ?; by eapply H4| |].
Qed.

(** A step of the thread keeps it in order, and is a step of [G] or changes nothing that others see. *)
Lemma threads_step_self t x y :
  threads_step t x y -> thread_ok t x ->
  thread_ok t y /\ (view t y = view t x \/ G t (view t x) (view t y)).
Proof.
  pose proof Hc as [H1 _ _ _ _ _ H6 H7]. intros Hs [HJ HP].
  destruct Hs as [m w tr r f d Hr|m w tr r f d B p k o s Hr Hp|m w tr r f d o Hr];
    unfold thread_ok, view in *; cbn in *; rewrite Hr in HP; rewrite !fn_insert_cases, !decide_True by done.
  - split; [split; [done|by apply H7]|by left].
  - destruct (HP (Env m w (tr t))) as [HG Hk]; [apply H1|]. rewrite Hp in HG, Hk. cbn in HG, Hk.
    assert (Env (members s) (world s) (trace s) = s) as -> by by destruct s.
    split; [split; [by eapply H6|done]|by right].
  - split; [done|by left].
Qed.

(** A step of a thread changes no other thread's trace or calls. *)
Lemma threads_step_frame t t' x y :
  threads_step t x y -> t' <> t ->
  traces y t' = traces x t' /\ running y t' = running x t' /\ finished y t' = finished x t'.
Proof. intros Hs Hne. by destruct Hs; cbn; rewrite ?fn_insert_cases, ?decide_False. Qed.

Lemma threads_step_ok t x y : threads_step t x y -> all_ok x -> all_ok y.
Proof.
  pose proof Hc as [H1 _ Hsym H3 _ _ _ _]. intros Hs [Hx Ha].
  destruct (threads_step_self t x y Hs (Hx t)) as [Hy HG].
  assert (Hother : forall t', t' <> t ->
    R t' (view t' x) (view t' y) /\ apart (traces y t) (traces y t')).
  { intros t' Hne. destruct (threads_step_frame t t' x y Hs Hne) as (Ht & _ & _).
    unfold view in *. rewrite Ht. destruct HG as [Hv|HG].
    - injection Hv as -> -> ->. split; [apply H1|by apply Ha].
    - apply (H3 t t' _ _ _ Hne HG); [by apply Hx|by apply Ha]. }
  split.
  - intros t'. destruct (decide (t' = t)) as [->|Hne]; [done|].
    destruct (threads_step_frame t t' x y Hs Hne) as (_ & Hr & Hf). destruct (Hother t' Hne) as [HR _].
    by apply (thread_ok_stable t' x).
  - intros t1 t2 Hne. destruct (decide (t1 = t)) as [->|H1'], (decide (t2 = t)) as [->|H2']; [done|..].
    + by apply Hother.
    + by apply Hsym, Hother.
    + destruct (threads_step_frame t t1 x y Hs H1') as (-> & _), (threads_step_frame t t2 x y Hs H2') as (-> & _).
      by apply Ha.
Qed.

Lemma threads_ok x y : rtc threads_next x y -> all_ok x -> all_ok y.
Proof.
  pose proof Hc as [_ H2 _ _ _ _ _ _].
  induction 1 as [|x y z Hs _ IH]; [done|]. intros Hx. apply IH.
  destruct Hs as [t x y Hs|m w w' tr r f Ho]; [by eapply threads_step_ok|]. destruct Hx as [Hx Ha].
  split; [|done]. intros t. apply (thread_ok_stable t (mkThreads m w tr r f)); [done|done| |apply Hx].
  by apply H2.
Qed.
End invariant.
End threads.

(** ** The calls of a writer *)

(** The data of the calls that reported success, the oldest first. *)
Definition confirmed_calls (h : list (string * outcome WriteResult)) : list (list Z) :=
  omap (fun '(d, o) => match o with
                       | Value r => if decide (write_error r = WRITE_OK) then Some (bytes_of d) else None
                       | _ => None
                       end) h.

Definition returned (h : list (string * outcome WriteResult)) : Prop :=
  Forall (fun '(_, o) => exists r, o = Value r) h.

Lemma confirmed_calls_snoc h d o :
  confirmed_calls (h ++ [(d, o)]) = confirmed_calls h ++ confirmed_calls [(d, o)].
Proof. apply omap_app. Qed.

Lemma returned_snoc h d o : returned (h ++ [(d, o)]) <-> returned h /\ exists r, o = Value r.
Proof.
  unfold returned. rewrite Forall_app, Forall_cons. split; [by intros [? [? _]]|]. intros [? ?].
  by split_and!.
Qed.
