(* ===== verification/PostgresThreads.v ===== *)
(** * Threads that write to PostgreSQL at the same time

    [PostgresWriter::write] as a tree of atomic steps: every call of the library is one, and so are the
    search and the push, each under its lock (ConnectionPool shows that the locks make them atomic).
    Alone the tree is [PostgresWriter_write]; [threads_step] interleaves the calls of any number of
    threads on one writer and one database. Each thread has its own trace. *)

From stdpp Require Import functions relations.
From S2P Require Import Prelude Message Pqxx CommonConfig Handler ConnectionPool PostgresWriter Interleaving.

Section threads.
Context {W row : Type} `{!Pqxx W row}.

Abbreviation st := (env PostgresWriter W (pg_event row)).

(** ** The code *)

Definition find_code (t : thread_id) : code st Pqxx.connection :=
  it ← atomic (gets (fun s => find_thread t (connections_ (members s))));
  match it with
  | Some c => mret c
  | None =>
      cs ← atomic (gets (fun s => connectionString_ (members s)));
      c ← atomic (do_pg_connect cs);
      atomic (modify (set_members (push_back (mkExclusiveConnection t c)))) ;;
      mret c
  end.

Definition insert_code (t : thread_id) (data : string) : code st WriteResult :=
  connection ← find_code t;
  work ← atomic (do_work connection);
  code_scoped
    (atomic (do_exec_params work INSERT (param_bytes (bytes_of data))) ;;
     atomic (do_commit work) ;;
     mret (mkWriteResult WRITE_OK ""))
    (end_work work).

Fixpoint loop_code (retriesLeft : nat) (t : thread_id) (data : string) : code st WriteResult :=
  code_try (insert_code t data) (fun e =>
    match e with
    | broken_connection what =>
        match retriesLeft with
        | S retriesLeft' => loop_code retriesLeft' t data
        | O => mret (mkWriteResult WRITE_STORAGE_UNAVAILABLE what)
        end
    | _ => mret (mkWriteResult WRITE_GENERIC (what e))
    end).

Definition write_code (t : thread_id) (data : string) : code st WriteResult :=
  loop_code RECONNECT_RETRIES t data.

(** ** Alone *)

(** Advances over one atomic step on both sides. *)
Ltac same_step :=
  first [apply run_ret | rewrite run_bind; apply same_code_bind; [intros ?|apply run_atomic]].

Lemma find_code_run t : same_code (run_code (find_code t)) (findConnection t).
Proof.
  unfold find_code, findConnection. same_step. case_match; repeat same_step.
Qed.

Lemma insert_code_run t data : same_code (run_code (insert_code t data)) (insert t data).
Proof.
  unfold insert_code, insert. rewrite run_bind. apply same_code_bind; [intros c|apply find_code_run].
  same_step. rewrite run_scoped. apply same_code_scoped; [|done]. repeat same_step.
Qed.


(** ** With other threads *)

(** The thread uses the connection of its own entry. *)
Definition own (t : thread_id) (s : st) (ev : pg_event row) : Prop :=
  match ev with PgWork c _ => find_thread t (pool s) = Some c | _ => True end.

(** What the thread [t] lets others do, and what it does itself. *)
Definition pg_rely (t : thread_id) (s s' : st) : Prop :=
  trace s' = trace s /\ find_thread t (pool s') = find_thread t (pool s) /\ (pool_ok s -> pool_ok s').

Definition pg_guarantee (t : thread_id) (s s' : st) : Prop :=
  (forall t', t' <> t -> find_thread t' (pool s') = find_thread t' (pool s)) /\
  (forall c, find_thread t (pool s) = Some c -> find_thread t (pool s') = Some c) /\
  (pool_ok s -> pool_ok s') /\
  exists es, trace s' = trace s ++ es /\ Forall (own t s') es.

Definition between_calls (t : thread_id) (h : list (string * outcome WriteResult)) (s : st) : Prop :=
  closed s /\ confirmed s = confirmed_calls h /\ returned h.

Definition in_order (t : thread_id) (s : st) : Prop := pool_ok s /\ Forall (own t s) (trace s).

Abbreviation pg_rely_code t := (rely (pg_rely t) (pg_guarantee t)).

#[local] Instance pg_rely_preorder t : PreOrder (pg_rely t).
Proof.
  split; [by intros s|]. intros s1 s2 s3 (H1 & H2 & H3) (H4 & H5 & H6).
  split_and!; [by rewrite H4|by rewrite H5|auto].
Qed.

(** Reading a member. *)
Lemma rely_gets t {A} (f : st -> A) Q s :
  (forall s1, pg_rely t s s1 -> Q (Value (f s1)) s1) -> pg_rely_code t (atomic (gets f)) Q s.
Proof.
  intros H s1 Hs1. split; [|by apply H]. split_and!; cbn; try done. exists []. by rewrite app_nil_r.
Qed.

(** A call of the library. *)
Lemma rely_pg_call t {A} (f : W -> (exn + A) * W) ev Q s :
  (forall r w s1, pg_rely t s s1 ->
     own t s1 (ev r) /\ Q (of_sum r) (Env (members s1) w (trace s1 ++ [ev r]))) ->
  pg_rely_code t (atomic (call_throwing f ev)) Q s.
Proof.
  intros H s1 Hs1. cbn. unfold call_throwing. destruct (f (world s1)) as [r w] eqn:Hf. cbn.
  destruct (H r w s1 Hs1) as [Ho HQ]. split; [|done]. split_and!; cbn; try done.
  exists [ev r]. split; [done|]. by repeat constructor.
Qed.

(** The search and, when it fails, a new connection. *)
Lemma find_code_rely t s Q :
  (forall c s', ledger s' = ledger s -> find_thread t (pool s') = Some c -> Q (Value c) s') ->
  (forall e s', ledger s' = ledger s -> Q (Throw e) s') ->
  pg_rely_code t (find_code t) Q s.
Proof.
  intros HV HT. unfold find_code. apply rely_bind, rely_gets. intros s1 (H1 & H2 & _). fold (pool s1).
  assert (Hl : ledger s1 = ledger s) by (unfold ledger; by rewrite H1).
  destruct (find_thread t (pool s1)) as [c|] eqn:Hf; [by apply HV|].
  apply rely_bind, rely_gets. intros s2 (H3 & H4 & _).
  apply rely_bind, rely_pg_call. intros r w s3 (H5 & H6 & _). split; [done|].
  assert (Hl3 : forall (w' : W) (m : PostgresWriter), ledger (Env m w' (trace s3 ++ [PgConnect (connectionString_ (members s2)) r])) = ledger s).
  { intros w' m. rewrite ledger_snoc, <-Hl. unfold ledger. by rewrite H5, H3. }
  destruct r as [e|c]; cbn [of_sum]; [by apply HT|].
  apply rely_bind. intros s4 (H7 & H8 & _). cbn in H7, H8.
  assert (Hn : find_thread t (pool s4) = None) by (unfold pool in *; cbn in *; congruence).
  assert (Hp : pool_step t (pool s4) (pool s4 ++ [mkExclusiveConnection t c])) by (right; eauto).
  set (s5 := set_members (push_back (mkExclusiveConnection t c)) s4).
  assert (H5' : pool s5 = pool s4 ++ [mkExclusiveConnection t c]) by done.
  change (pg_guarantee t s4 s5 /\ Q (Value c) s5). split.
  - split_and!; rewrite ?H5'.
    + intros t' Ht'. rewrite find_thread_app. cbn. rewrite decide_False by done. by case_match.
    + intros c' Hc'. congruence.
    + intros Hok. unfold pool_ok. rewrite H5'. by apply (pool_step_spec t (pool s4)).
    + exists []. by rewrite app_nil_r.
  - apply HV; [|rewrite H5', find_thread_app, Hn; cbn; by rewrite decide_True].
    unfold ledger. cbn. rewrite H7. exact (Hl3 w (members s3)).
Qed.

(** The result of a try, for the ledger of before. *)
Definition tried (data : string) (l : list (list Z)) (o : outcome WriteResult) (s : st) : Prop :=
  closed s /\
  match o with
  | Value r => r = mkWriteResult WRITE_OK "" /\ confirmed s = l ++ [bytes_of data]
  | Throw _ => confirmed s = l
  | UB => False
  end.

Lemma insert_code_rely t data s :
  closed s -> pg_rely_code t (insert_code t data) (tried data (confirmed s)) s.
Proof.
  unfold closed, tried, confirmed. intros Hs. unfold insert_code. apply rely_bind, find_code_rely.
  2:{ intros e s' Hl. unfold closed. by rewrite Hl. }
  intros c s1 H1 Hc. unfold closed, confirmed. destruct (ledger s) as [o l] eqn:Hl. cbn in Hs. subst o. cbn [snd].
  unfold ledger in H1.
  apply rely_bind, rely_pg_call. intros r w s2 (H2 & H3 & _). split; [cbn; by rewrite H3|].
  destruct r as [e|work]; cbn [of_sum]; [rewrite ledger_snoc, H2, H1; done|].
  apply rely_scoped, rely_bind, rely_pg_call. intros r w3 s3 (H4 & _). split; [done|]. cbn in H4.
  destruct r as [e|rs]; cbn [of_sum].
  { intros s4 (H5 & _). cbn in H5. unfold end_work. split.
    - split_and!; cbn; try done. eexists. split; [done|]. by repeat constructor.
    - rewrite ledger_snoc, H5, H4, !fold_left_app, H2, H1. done. }
  apply rely_bind, rely_pg_call. intros r w4 s4 (H5 & _). split; [done|]. cbn in H5.
  assert (He : forall (s5 : st) (w5 : W), trace s5 = trace s4 ++ [PgCommit work r] ->
    ledger (Env (members s5) w5 (trace s5 ++ [PgWorkEnd work])) =
      (None, l ++ match r with inr _ => [bytes_of data] | inl _ => [] end)).
  { intros s5 w5 ->. rewrite ledger_snoc, H5, H4, !fold_left_app, H2, H1. cbn.
    rewrite decide_True by done. destruct r as [e|[]]; cbn; by rewrite ?app_nil_r. }
  assert (Hg : forall s5, pg_guarantee t s5 (end_work work s5)).
  { intros s5. split_and!; cbn; try done. eexists. split; [done|]. by repeat constructor. }
  destruct r as [e|[]]; cbn [of_sum]; intros s5 (H6 & _); cbn in H6; (split; [apply Hg|]);
    unfold end_work; rewrite (He s5 _ H6); by rewrite ?app_nil_r.
Qed.

(** The result of a call, for the ledger of before. *)
Definition wrote (data : string) (l : list (list Z)) (o : outcome WriteResult) (s : st) : Prop :=
  closed s /\ exists r, o = Value r /\
    confirmed s = l ++ (if decide (write_error r = WRITE_OK) then [bytes_of data] else []).

Lemma write_code_rely t data s :
  closed s -> pg_rely_code t (write_code t data) (wrote data (confirmed s)) s.
Proof.
  unfold write_code. generalize RECONNECT_RETRIES. intros n. revert s.
  induction n as [|n IH]; intros s Hs; cbn [loop_code]; apply rely_try;
    (eapply rely_mono; [by apply insert_code_rely|]); (intros [r|e|] s'; unfold tried;
    [intros (Hs' & -> & H'); split; [done|]; by exists (mkWriteResult WRITE_OK "")
    |intros [Hs' H']; destruct e|by intros [_ []]]).
  all: first [rewrite <-H'; by apply IH
             |split; [done|]; eexists; (split; [reflexivity|]); cbn; by rewrite app_nil_r].
Qed.

(** Other clients of the database do what they like; the threads need not be kept apart. *)
Abbreviation any_change := (fun _ _ : W => True).
Abbreviation no_bounds := (fun _ _ : list (pg_event row) => True).

Lemma pg_compatible :
  compatible write_code any_change pg_rely pg_guarantee between_calls in_order no_bounds.
Proof.
  split.
  - apply _.
  - done.
  - done.
  - intros t t' s s' tr Ht (H1 & _ & H3 & _) _ _. split; [|done]. split_and!; [done|by apply H1|exact H3].
  - intros t h s s' (H1 & H2 & H3) (H4 & _). unfold between_calls, closed, confirmed, ledger in *.
    by rewrite H4.
  - intros t s s' [H1 H2] (H3 & H4 & H5). split; [auto|]. rewrite H3. eapply Forall_impl; [exact H2|].
    intros []; cbn; by rewrite ?H4.
  - intros t s s' [H1 H2] (_ & H4 & H5 & es & He & H6). split; [auto|]. rewrite He. apply Forall_app.
    split; [|done]. eapply Forall_impl; [exact H2|]. intros []; cbn; auto.
  - intros t h d s (H1 & H2 & H3). eapply rely_mono; [by apply write_code_rely|].
    intros o s' (H4 & r & -> & H5). split_and!; [done| |apply returned_snoc; eauto].
    rewrite H5, H2, confirmed_calls_snoc. cbn. by case_decide.
Qed.

Abbreviation pg_threads_next := (threads_next (E := pg_event row) write_code any_change).
Abbreviation new_pg_threads config w := (new_threads (PostgresWriter_init config) w).

Lemma pg_threads_ok config w x t :
  rtc pg_threads_next (new_pg_threads config w) x ->
  thread_ok pg_rely pg_guarantee between_calls in_order t x.
Proof.
  intros Hs. apply (threads_ok _ _ _ _ _ _ _ pg_compatible _ _ Hs). split; [|done]. intros t'. split; cbn.
  - split; [apply NoDup_nil_2|done].
  - split_and!; [done|done|constructor].
Qed.

End threads.

(** ** Two threads on the reference database *)

Definition sample_threads :
    threads (M := PostgresWriter) (W := reference_db) (E := pg_event Message) (A := WriteResult) :=
  new_threads (PostgresWriter_init (mkPostgresConfig "db" 5432 "test" "user" "123")) (mkReferenceDb [] [] []).

(** The turns of the threads 1 and 2 alternate. *)
Definition alternating : list (thread_id * string) :=
  concat (replicate 10 [(1%positive, "one"); (2%positive, "two")]).

Example both_confirmed :
  let x := take_turns write_code alternating sample_threads in
  confirmed (view 1 x) = [[111; 110; 101]] /\ confirmed (view 2 x) = [[116; 119; 111]] /\
  threadId <$> connections_ (shared x) = [1%positive; 2%positive].
Proof. vm_compute. by split_and!. Qed.

