(* ===== verification/RedisWriter.v ===== *)
(** * The Redis writer (gwfront/src/handler/redis_writer)

    One call of [write] on one thread, over an arbitrary hiredis. The code releases replies and
    failed connections by hand, so the releases are part of the model. The interleaving of the threads
    in [findConnection] is the subject of ConnectionPool, that of whole calls of RedisThreads. *)

From S2P Require Import Prelude CommonConfig ResolveHost Hiredis RedisServer Handler ConnectionPool.

Definition MESSAGES_STREAM : string := "messages".
Definition DATA_FIELD : string := "data".

(** The data members; the mutex has no value of its own. *)
Record RedisWriter : Type := mkRedisWriter {
  config_ : RedisConfig;
  connections_ : list ExclusiveConnection
}.

(** The constructor. *)
Definition RedisWriter_init {W} `{!Netdb W} (config : RedisConfig) : prog W RedisWriter := fun w =>
  let '(host, w1) := resolveHost (redis_host config) w in
  if str_empty host
  then (Throw (invalid_argument ("Failed to resolve '" +:+ redis_host config +:+ "'")), w1)
  else (Value (mkRedisWriter
                 (mkRedisConfig host (redis_port config) (redis_user config) (redis_password config))
                 []), w1).

Definition push_back (ec : ExclusiveConnection) (w : RedisWriter) : RedisWriter :=
  mkRedisWriter (config_ w) (connections_ w ++ [ec]).

(** [struct CheckedConnection]: a connection or null, and an error text. *)
Record CheckedConnection : Type := mkCheckedConnection {
  checked : option redisContext;
  checked_error : string
}.

(** [reply->str] of an error reply, as a [std::string]. *)
Definition reply_text (reply : option replyPtr) : string :=
  c_str (default "" ((fun p => str (deref p)) <$> reply)).

Section writer.
Context {W : Type} `{!Hiredis W}.

Abbreviation st := (env RedisWriter W redis_event).

Definition authenticate (connection : redisContext) : prog st CheckedConnection :=
  config ← gets (fun s => config_ (members s));
  reply ← do_command connection "AUTH %s %s"
    [arg_s (c_str (redis_user config)); arg_s (c_str (redis_password config))];
  e ← get_err connection;
  errstr ← get_errstr connection;
  if decide (e <> REDIS_OK) then mret (mkCheckedConnection None errstr)
  else if is_error_reply reply then
    let result := mkCheckedConnection None (reply_text reply) in
    do_free_reply reply ;;
    mret result
  else
    do_free_reply reply ;;
    mret (mkCheckedConnection (Some connection) "").

Definition createConnection : prog st CheckedConnection :=
  config ← gets (fun s => config_ (members s));
  connection ← do_connect (c_str (redis_host config)) (redis_port config);
  match connection with
  | None => mret (mkCheckedConnection None "Failed to connect to Redis")
  | Some c =>
      e ← get_err c;
      errstr ← get_errstr c;
      if decide (e <> REDIS_OK) then
        do_free c ;;
        mret (mkCheckedConnection None errstr)
      else
        result ← authenticate c;
        (match checked result with
         | None => do_free c
         | Some _ => mret tt
         end) ;;
        mret result
  end.

Definition reconnect (connection : redisContext) : prog st CheckedConnection :=
  r ← do_reconnect connection;
  if decide (r <> REDIS_OK) then mret (mkCheckedConnection None "Failed to reconnect to Redis")
  else authenticate connection.

Definition findConnection (t : thread_id) : prog st CheckedConnection :=
  it ← gets (fun s => find_thread t (connections_ (members s)));
  match it with
  | Some c => mret (mkCheckedConnection (Some c) "")
  | None =>
      createdConnection ← createConnection;
      match checked createdConnection with
      | None => mret (mkCheckedConnection None (checked_error createdConnection))
      | Some c =>
          modify (set_members (push_back (mkExclusiveConnection t c))) ;;
          mret (mkCheckedConnection (Some c) "")
      end
  end.

Definition XADD : string := "XADD %s * %s %b".

Definition run_xadd (connection : redisContext) (data : string) : prog st (option replyPtr) :=
  do_command connection XADD [arg_s MESSAGES_STREAM; arg_s DATA_FIELD; arg_b data].

(** The end of [write]: the checks of the connection state and of the reply, and its release. *)
Definition check_reply (connection : redisContext) (reply : option replyPtr) : prog st WriteResult :=
  e ← get_err connection;
  errstr ← get_errstr connection;
  let result :=
    match e with
    | REDIS_ERR_EOF | REDIS_ERR_IO => mkWriteResult WRITE_STORAGE_UNAVAILABLE errstr
    | REDIS_OK => mkWriteResult WRITE_OK ""
    | _ => mkWriteResult WRITE_GENERIC errstr
    end in
  let result :=
    if is_error_reply reply then mkWriteResult WRITE_GENERIC (reply_text reply) else result in
  do_free_reply reply ;;
  mret result.

Definition RedisWriter_write (t : thread_id) (data : string) : prog st WriteResult :=
  checkedConnection ← findConnection t;
  match checked checkedConnection with
  | None => mret (mkWriteResult WRITE_STORAGE_UNAVAILABLE (checked_error checkedConnection))
  | Some connection =>
      reply ← run_xadd connection data;
      e ← get_err connection;
      if decide (e = REDIS_ERR_EOF \/ e = REDIS_ERR_IO) then
        do_free_reply reply ;;
        checkedConnection ← reconnect connection;
        match checked checkedConnection with
        | None => mret (mkWriteResult WRITE_STORAGE_UNAVAILABLE (checked_error checkedConnection))
        | Some connection =>
            reply ← run_xadd connection data;
            check_reply connection reply
        end
      else check_reply connection reply
  end.

#[export] Instance RedisWriter_writer : Writer st := RedisWriter_write.

(** ** Reading the trace *)

(** The replies the library gave, and those released, by their addresses. *)
Definition received (tr : list redis_event) : list positive :=
  omap (fun ev => match ev with Command _ _ _ (Some p) => Some (addr p) | _ => None end) tr.
Definition released (tr : list redis_event) : list positive :=
  omap (fun ev => match ev with FreeReply (Some p) => Some (addr p) | _ => None end) tr.

(** The connections opened, and those freed. *)
Definition opened (tr : list redis_event) : list redisContext :=
  omap (fun ev => match ev with Connect _ _ r => r | _ => None end) tr.
Definition freed (tr : list redis_event) : list redisContext :=
  omap (fun ev => match ev with Free c => Some c | _ => None end) tr.

(** The data of the XADD commands the server answered, and not with an error. *)
Definition added (ev : redis_event) : option (list Z) :=
  match ev with
  | Command _ f [_; _; arg_b data] (Some p) =>
      if decide (f = XADD /\ type (deref p) <> REDIS_REPLY_ERROR) then Some (bytes_of data) else None
  | _ => None
  end.

Definition pool (s : st) : list ExclusiveConnection := connections_ (members s).
Definition confirmed (s : st) : list (list Z) := omap added (trace s).

(** Every reply was released, once and before the next one came. Every connection that was opened
    was freed, or is in the pool, or is one of [held]. *)
Definition balanced_with (held : list redisContext) (s : st) : Prop :=
  received (trace s) = released (trace s) /\
  opened (trace s) ≡ₚ freed (trace s) ++ (connection <$> pool s) ++ held.

Definition balanced (s : st) : Prop := balanced_with [] s.

(** ** The books of the writer

    [books l k held r s]: the pool is [l], the data of [k] was confirmed, the connections [held] are
    open outside the pool, and of the replies only [r] is not released yet. *)
Definition books (l : list ExclusiveConnection) (k : list (list Z)) (held : list redisContext)
    (r : option replyPtr) (s : st) : Prop :=
  received (trace s) = released (trace s) ++ option_list (addr <$> r) /\
  opened (trace s) ≡ₚ freed (trace s) ++ (connection <$> l) ++ held /\
  pool s = l /\ confirmed s = k.

Lemma books_balanced s : balanced s <-> books (pool s) (confirmed s) [] None s.
Proof. unfold balanced, balanced_with, books. cbn. rewrite !app_nil_r. naive_solver. Qed.

(** Reads the trace over one more event. *)
Ltac read_trace :=
  unfold books, received, released, opened, freed, confirmed, pool in *; cbn [trace members world] in *;
  rewrite ?omap_app; cbn [omap list_omap option_list fmap option_fmap option_map].

Lemma free_reply_books l k held r s X :
  books l k held r s -> wp (do_free_reply r) (fun _ s' => books l k held None s') X s.
Proof.
  intros H. apply wp_call. read_trace. destruct H as (H1 & H2 & H3 & H4).
  rewrite !app_nil_r. by split_and!.
Qed.

Lemma command_books `{!HiredisLaws W} l k held c f args s X :
  books l k held None s ->
  wp (do_command c f args)
    (fun r s' => books l (k ++ option_list (added (Command c f args r))) held r s' /\
                 (r = None <-> err (world s') c <> REDIS_OK)) X s.
Proof.
  intros H. apply wp_call. split; [|apply command_error]. set (r := (redisCommand _ _ _ _).1).
  read_trace. destruct H as (H1 & H2 & H3 & H4). rewrite !app_nil_r in *. split_and!; try done.
  - by rewrite H1; destruct r.
  - by rewrite H4; destruct (added _).
Qed.

Lemma connect_books l k host port s X :
  books l k [] None s ->
  wp (do_connect host port) (fun c s' => books l k (option_list c) None s') X s.
Proof.
  intros H. apply wp_call. set (c := (redisConnect _ _ _).1). read_trace.
  destruct H as (H1 & H2 & H3 & H4). rewrite !app_nil_r in *. split_and!; try done.
  destruct c as [c|]; cbn; rewrite ?app_nil_r; [|done]. by rewrite H2, app_assoc.
Qed.

Lemma free_books l k c s X :
  books l k [c] None s -> wp (do_free c) (fun _ s' => books l k [] None s') X s.
Proof.
  intros H. apply wp_call. read_trace. destruct H as (H1 & H2 & H3 & H4).
  rewrite !app_nil_r in *. split_and!; try done. rewrite H2, <-app_assoc. f_equiv.
  apply Permutation_app_comm.
Qed.

Lemma reconnect_books l k held c s X :
  books l k held None s -> wp (do_reconnect c) (fun _ s' => books l k held None s') X s.
Proof. intros H. apply wp_call. read_trace. rewrite !app_nil_r in *. naive_solver. Qed.

Lemma push_books l k t c s X :
  books l k [c] None s ->
  wp (modify (set_members (push_back (mkExclusiveConnection t c))))
    (fun _ s' => books (l ++ [mkExclusiveConnection t c]) k [] None s') X s.
Proof.
  intros H. apply wp_modify. unfold set_members. read_trace. destruct H as (H1 & H2 & H3 & H4).
  rewrite fmap_app, !app_nil_r in *. split_and!; try done. cbn. by rewrite H3.
Qed.

(** A function that hands out a connection gives its own one, or none. *)
Definition hands_out (c : redisContext) (r : CheckedConnection) : Prop :=
  checked r = Some c \/ checked r = None.

Section laws.
Context `{!HiredisLaws W}.

Lemma authenticate_books l k held c s X :
  books l k held None s ->
  wp (authenticate c) (fun r s' => books l k held None s' /\ hands_out c r) X s.
Proof.
  intros H. unfold authenticate. apply wp_bind, wp_gets, wp_bind.
  eapply wp_mono; [by apply command_books|intros r s1 [H1 He]; cbn beta in *|done].
  rewrite app_nil_r in H1. wp_steps. case_decide as Hd.
  - wp_steps. apply He in Hd as ->. split; [done|by right].
  - case_match; apply wp_bind;
      (eapply wp_mono; [by apply free_reply_books|intros ? s2 H2; cbn beta in *|done]);
      wp_steps; (split; [done|]); [by right|by left].
Qed.

Lemma createConnection_books l k s X :
  books l k [] None s ->
  wp createConnection (fun r s' => books l k (option_list (checked r)) None s') X s.
Proof.
  intros H. unfold createConnection. apply wp_bind, wp_gets, wp_bind.
  eapply wp_mono; [by apply connect_books|intros [c|] s1 H1; cbn beta in *|done]; [|by wp_steps].
  wp_step. wp_step. wp_step. wp_step. case_decide.
  - apply wp_bind. eapply wp_mono; [by apply free_books|intros ? s2 H2; cbn beta in *|done]. by wp_steps.
  - apply wp_bind. eapply wp_mono; [by apply authenticate_books|intros r s2 [H2 Hr]; cbn beta in *|done].
    apply wp_bind. destruct Hr as [Hr|Hr]; rewrite Hr.
    + wp_steps. by rewrite Hr.
    + eapply wp_mono; [by apply free_books|intros ? s3 H3; cbn beta in *|done]. wp_steps. by rewrite Hr.
Qed.

Lemma findConnection_books t l k s X :
  books l k [] None s ->
  wp (findConnection t)
    (fun r s' => exists l', books l' k [] None s' /\ pool_step t l l' /\ checked r = find_thread t l') X s.
Proof.
  intros H. unfold findConnection. wp_step. wp_step. fold (pool s).
  assert (pool s = l) as -> by apply H. destruct (find_thread t l) as [c|] eqn:Hf.
  { wp_steps. exists l. split_and!; [done|by left|done]. }
  apply wp_bind. eapply wp_mono; [by apply createConnection_books|intros r s1 H1; cbn beta in *|done].
  destruct (checked r) as [c|].
  - apply wp_bind. eapply wp_mono; [by eapply (push_books _ _ t)|intros ? s2 H2; cbn beta in *|done].
    wp_steps. eexists. split_and!; [exact H2|by apply pool_step_push; [left|]|].
    rewrite find_thread_app, Hf. cbn. by rewrite decide_True by done.
  - wp_steps. exists l. split_and!; [done|by left|done].
Qed.

Lemma check_reply_books l k r c data s X :
  books l (k ++ option_list (added (Command c XADD [arg_s MESSAGES_STREAM; arg_s DATA_FIELD; arg_b data] r)))
    [] r s ->
  (r = None <-> err (world s) c <> REDIS_OK) ->
  wp (check_reply c r)
    (fun res s' =>
       books l (k ++ (if decide (write_error res = WRITE_OK) then [bytes_of data] else [])) [] None s') X s.
Proof.
  intros H He. unfold check_reply. wp_step. wp_step. wp_step. wp_step. apply wp_bind.
  eapply wp_mono; [by apply free_reply_books|intros ? s1 H1; cbn beta in *|done]. apply wp_ret.
  unfold added in H1. destruct r as [p|]; cbn [is_error_reply] in *.
  - assert (Hok : err (world s) c = REDIS_OK).
    { destruct (decide (err (world s) c = REDIS_OK)) as [|Hn]; [done|]. by apply He in Hn. }
    rewrite Hok. case_bool_decide as Ht; cbn [write_error].
    + rewrite decide_False in H1 by naive_solver. by rewrite decide_False.
    + rewrite decide_True in H1 by done. by rewrite decide_True.
  - assert (Hn : err (world s) c <> REDIS_OK) by by apply He.
    by destruct (err (world s) c); rewrite decide_False.
Qed.

Lemma run_xadd_books l k c data s X :
  books l k [] None s ->
  wp (run_xadd c data)
    (fun r s' => books l (k ++ option_list
        (added (Command c XADD [arg_s MESSAGES_STREAM; arg_s DATA_FIELD; arg_b data] r))) [] r s' /\
      (r = None <-> err (world s') c <> REDIS_OK)) X s.
Proof. intros H. by apply command_books. Qed.

Lemma write_books t data l k s X :
  books l k [] None s ->
  wp (write t data)
    (fun res s' => exists l', pool_step t l l' /\
       (write_error res = WRITE_OK -> is_Some (find_thread t l')) /\
       books l' (k ++ (if decide (write_error res = WRITE_OK) then [bytes_of data] else [])) [] None s') X s.
Proof.
  intros H. unfold write, RedisWriter_writer, RedisWriter_write. apply wp_bind.
  eapply wp_mono; [by eapply findConnection_books|intros r s1 (l' & H1 & Hp & Hr); cbn beta in *|done].
  destruct (checked r) as [c|].
  2:{ wp_steps. exists l'. rewrite decide_False, app_nil_r by done. by split_and!. }
  assert (Hl : is_Some (find_thread t l')) by by eexists.
  apply wp_bind. eapply wp_mono; [by eapply run_xadd_books|intros x s2 [H2 He]; cbn beta in *|done].
  wp_step. wp_step. case_decide as Hd.
  - assert (x = None) as -> by (apply He; by destruct Hd as [->| ->]).
    rewrite app_nil_r in H2. apply wp_bind.
    eapply wp_mono; [by apply free_reply_books|intros ? s3 H3; cbn beta in *|done].
    unfold reconnect. apply wp_bind, wp_bind.
    eapply wp_mono; [by apply reconnect_books|intros o s4 H4; cbn beta in *|done].
    assert (Hnone : forall s msg, books l' k [] None s ->
      wp (mret (mkWriteResult WRITE_STORAGE_UNAVAILABLE msg)) (fun res s' => exists l'',
        pool_step t l l'' /\ (write_error res = WRITE_OK -> is_Some (find_thread t l'')) /\
        books l'' (k ++ (if decide (write_error res = WRITE_OK) then [bytes_of data] else [])) [] None s')
        X s).
    { intros. apply wp_ret. exists l'. rewrite decide_False, app_nil_r by done. by split_and!. }
    case_decide; [wp_step; by apply Hnone|].
    eapply wp_mono; [by apply authenticate_books|intros y s5 [H5 Hy]; cbn beta in *|done].
    destruct Hy as [-> | ->]; [|by apply Hnone]. apply wp_bind.
    eapply wp_mono; [by eapply run_xadd_books|intros z s6 [H6 Hz]; cbn beta in *|done].
    eapply wp_mono; [by eapply check_reply_books|intros res s7 H7; cbn beta in *|done]. by exists l'.
  - eapply wp_mono; [by eapply check_reply_books|intros res s3 H3; cbn beta in *|done]. by exists l'.
Qed.
Lemma write_result t data s :
  balanced s ->
  exists r s', write t data s = (Value r, s') /\ balanced s' /\
    pool_step t (pool s) (pool s') /\
    (write_error r = WRITE_OK -> is_Some (find_thread t (pool s'))) /\
    confirmed s' = confirmed s ++ (if decide (write_error r = WRITE_OK) then [bytes_of data] else []).
Proof.
  intros Hs%books_balanced. pose proof (write_books t data _ _ s (fun _ _ => False) Hs) as H.
  unfold wp in H. destruct (write t data s) as [[r|e|] s']; [|done..].
  destruct H as (l' & Hp & Hf & Hb). pose proof Hb as (_ & _ & Hl & Hc). subst l'.
  exists r, s'. split_and!; try done. apply books_balanced. by rewrite Hc.
Qed.

#[export] Instance RedisWriter_laws : WriterLaws confirmed balanced.
Proof.
  split.
  - intros t data s Hs. by destruct (write_result t data s Hs) as (r & s' & -> & ? & _).
  - intros t data s Hs. destruct (write_result t data s Hs) as (r & s' & ? & _ & _ & _ & ?). eauto.
Qed.

(** C7: a write always returns. It reports success exactly when the server answered an XADD of the
    data, byte by byte, with no error: then this is the only one answered so during the call, even
    after a reconnection; otherwise there was none. *)
Theorem write_added (t : thread_id) (data : string) (s : st) :
  balanced s ->
  exists r s', write t data s = (Value r, s') /\
    (write_error r = WRITE_OK <-> confirmed s' = confirmed s ++ [bytes_of data]) /\
    (write_error r <> WRITE_OK <-> confirmed s' = confirmed s).
Proof.
  intros Hs. destruct (write_result t data s Hs) as (r & s' & Hw & _ & _ & _ & Hl). exists r, s'.
  assert (Hne : confirmed s <> confirmed s ++ [bytes_of data]).
  { intros Hx. apply (f_equal length) in Hx. rewrite length_app in Hx. cbn in Hx. lia. }
  rewrite Hl. case_decide as Hd; rewrite ?app_nil_r; split_and!; try done; naive_solver.
Qed.

(** The releases by hand are right on every path, through failed connections, reconnections and
    authentications: when a write returns every reply was released, once and before the next one came,
    and every connection opened was freed once or is in the pool; no pooled connection was freed. The
    pool gains at most one entry, of the calling thread when it had none; no other entry changes. *)
Theorem write_releases (t : thread_id) (data : string) (s : st) :
  balanced s -> one_entry (pool s) ->
  let s' := (write t data s).2 in
  received (trace s') = released (trace s') /\
  opened (trace s') ≡ₚ freed (trace s') ++ (connection <$> pool s') /\
  one_entry (pool s') /\ pool s `prefix_of` pool s' /\
  (forall t', t' <> t -> find_thread t' (pool s') = find_thread t' (pool s)) /\
  (forall c, find_thread t (pool s) = Some c -> pool s' = pool s).
Proof.
  intros Hs Ho. destruct (write_result t data s Hs) as (r & s' & Hw & Hb & Hp & _).
  cbv zeta. rewrite Hw. destruct Hb as [H1 H2]. rewrite app_nil_r in H2.
  destruct (pool_step_spec t (pool s) (pool s') Ho Hp) as (H3 & H4 & H5 & H6). by split_and!.
Qed.
End laws.

(** With an entry for the thread, a write starts with XADD on its connection. *)
Lemma write_held t data s c :
  find_thread t (pool s) = Some c ->
  exists es, trace (write t data s).2 =
    trace s ++ Command c XADD [arg_s MESSAGES_STREAM; arg_s DATA_FIELD; arg_b data]
      (redisCommand c XADD [arg_s MESSAGES_STREAM; arg_s DATA_FIELD; arg_b data] (world s)).1 :: es.
Proof.
  intros Hf. unfold write, RedisWriter_writer, RedisWriter_write.
  assert (Hfc : findConnection t s = (Value (mkCheckedConnection (Some c) ""), s)).
  { unfold findConnection, mbind, prog_bind, gets. fold (pool s). by rewrite Hf. }
  unfold mbind at 1, prog_bind at 1. rewrite Hfc. cbn [checked].
  match goal with |- context [(run_xadd c data ≫= ?K) s] => set (rest := K) end.
  assert (Hp : forall r tr, preserves (extends tr) (rest r)).
  { intros r tr. unfold rest, reconnect, authenticate, run_xadd, check_reply. solve_preserves. }
  unfold mbind, prog_bind, run_xadd, call.
  destruct (redisCommand c XADD _ (world s)) as [r w]. cbn [fst].
  destruct (Hp r _ _ (extends_refl (Env (members s) w (trace s ++ [Command c XADD
    [arg_s MESSAGES_STREAM; arg_s DATA_FIELD; arg_b data] r])))) as [es He].
  exists es. rewrite He. cbn [trace]. by rewrite <-app_assoc.
Qed.

(** A connection whose authentication fails after a reconnection stays in the pool: the write
    reports the storage unavailable, and the next write of the thread starts with XADD on this
    connection, with no AUTH before it. *)
Theorem failed_reauthentication_kept (t : thread_id) (data : string) (s : st) c r1 w1 w2 p w3 :
  let cfg := config_ (members s) in
  let xadd := [arg_s MESSAGES_STREAM; arg_s DATA_FIELD; arg_b data] in
  find_thread t (pool s) = Some c ->
  redisCommand c XADD xadd (world s) = (r1, w1) -> err w1 c = REDIS_ERR_EOF ->
  redisReconnect c (freeReplyObject r1 w1) = (REDIS_OK, w2) ->
  redisCommand c "AUTH %s %s"
    [arg_s (c_str (redis_user cfg)); arg_s (c_str (redis_password cfg))] w2 = (Some p, w3) ->
  err w3 c = REDIS_OK -> type (deref p) = REDIS_REPLY_ERROR ->
  let s1 := (write t data s).2 in
  (write t data s).1 = Value (mkWriteResult WRITE_STORAGE_UNAVAILABLE (c_str (str (deref p)))) /\
  find_thread t (pool s1) = Some c /\
  forall data', exists es, trace (write t data' s1).2 =
    trace s1 ++ Command c XADD [arg_s MESSAGES_STREAM; arg_s DATA_FIELD; arg_b data']
      (redisCommand c XADD [arg_s MESSAGES_STREAM; arg_s DATA_FIELD; arg_b data'] (world s1)).1 :: es.
Proof.
  cbv zeta. intros Hf Hx He1 Hr Ha He3 Ht.
  assert (exists w tr, write t data s =
    (Value (mkWriteResult WRITE_STORAGE_UNAVAILABLE (c_str (str (deref p)))),
     Env (members s) w tr)) as (w & tr & Hs).
  { unfold write, RedisWriter_writer, RedisWriter_write, findConnection, run_xadd, mbind, prog_bind,
      gets, call. fold (pool s). rewrite Hf. cbn [checked mret prog_ret members world trace].
    rewrite Hx. cbn [members world trace]. rewrite He1, decide_True by by left.
    cbn [members world trace]. unfold reconnect, mbind, prog_bind, call. cbn [members world trace].
    rewrite Hr. rewrite decide_False by by intros []. unfold authenticate, mbind, prog_bind, gets, call.
    cbn [members world trace]. rewrite Ha. cbn [members world trace].
    rewrite He3, decide_False by by intros []. unfold is_error_reply. rewrite bool_decide_true by done.
    cbn. eauto. }
  rewrite Hs. cbn [fst snd]. split_and!; [done|done|]. intros data'. by apply write_held.
Qed.
End writer.

(** ** Instances on the reference server *)

Definition sample_writer : env RedisWriter reference redis_event :=
  Env (mkRedisWriter (mkRedisConfig "127.0.0.1" 6379 "user" "123") []) (mkReference [] true) [].

Lemma write_added_witness :
  exists r s', write 1%positive "hi" sample_writer = (Value r, s') /\
    (write_error r = WRITE_OK <-> confirmed s' = [[104; 105]]) /\
    (write_error r <> WRITE_OK <-> confirmed s' = []).
Proof. apply (write_added 1 "hi" sample_writer). split; reflexivity. Defined.

Lemma write_releases_witness :
  let s' := (write 1%positive "hi" sample_writer).2 in
  received (trace s') = released (trace s') /\
  opened (trace s') ≡ₚ freed (trace s') ++ (connection <$> pool s') /\
  one_entry (pool s') /\ pool sample_writer `prefix_of` pool s' /\
  (forall t', t' <> 1%positive -> find_thread t' (pool s') = find_thread t' (pool sample_writer)) /\
  (forall c, find_thread 1 (pool sample_writer) = Some c -> pool s' = pool sample_writer).
Proof. apply (write_releases 1 "hi" sample_writer); [split; reflexivity|constructor]. Defined.

(** A server that was restarted with another password: the connection is at its end, and AUTH is
    refused after the reconnection. The state is the field [err] of the one connection. *)
#[local] Instance restarted_hiredis : Hiredis err_code := {|
  reply_type_code t := 0;
  redisConnect _ _ w := (Some 1%positive, w);
  redisReconnect _ _ := (REDIS_OK, REDIS_OK);
  redisCommand _ f _ _ :=
    if decide (f = XADD) then (None, REDIS_ERR_EOF) else (Some (mkReplyPtr 1 reply_error), REDIS_OK);
  redisFree _ w := w;
  freeReplyObject _ w := w;
  err w _ := w;
  errstr _ _ := "Server closed the connection"
|}.

Definition restarted_state : env RedisWriter err_code redis_event :=
  Env (mkRedisWriter (mkRedisConfig "127.0.0.1" 6379 "user" "123") [mkExclusiveConnection 1 1])
    REDIS_OK [].

Lemma failed_reauthentication_kept_witness :
  let s1 := (write 1%positive "hi" restarted_state).2 in
  (write 1%positive "hi" restarted_state).1 =
    Value (mkWriteResult WRITE_STORAGE_UNAVAILABLE "ERR") /\
  find_thread 1 (pool s1) = Some 1%positive /\
  forall data', exists es, trace (write 1%positive data' s1).2 =
    trace s1 ++ Command 1 XADD [arg_s MESSAGES_STREAM; arg_s DATA_FIELD; arg_b data']
      (redisCommand 1 XADD [arg_s MESSAGES_STREAM; arg_s DATA_FIELD; arg_b data'] (world s1)).1 :: es.
Proof.
  exact (failed_reauthentication_kept 1 "hi" restarted_state 1 None REDIS_ERR_EOF REDIS_OK
           (mkReplyPtr 1 reply_error) REDIS_OK eq_refl eq_refl eq_refl eq_refl eq_refl eq_refl eq_refl).
Defined.
