(* ===== verification/RedisThreads.v ===== *)
(** * Threads that write to Redis at the same time

    [RedisWriter::write] as a tree of atomic steps: every call of hiredis is one, every reading of a
    field of a connection, and the search and the push of [findConnection], each under its lock. Alone
    the tree is [RedisWriter_write]; the threads of Interleaving run any number of them on one writer.
    hiredis allows that threads use different contexts at the same time: [HiredisContexts] states what a
    call may do to other contexts. That the threads keep to their own contexts is a theorem. *)

From stdpp Require Import functions relations.
From S2P Require Import Prelude CommonConfig Hiredis Handler ConnectionPool RedisWriter Interleaving.

(** [open w c]: the context [c] was allocated and not freed. What [redisConnect] gives was not allocated,
    and a call changes the error of its own context only. *)
Class HiredisContexts (W : Type) `{!Hiredis W} (open : W -> redisContext -> Prop) : Prop := {
  connect_fresh : forall h p w c, (redisConnect h p w).1 = Some c ->
    ~ open w c /\ open (redisConnect h p w).2 c;
  connect_others : forall h p w c, open w c ->
    open (redisConnect h p w).2 c /\ err (redisConnect h p w).2 c = err w c;
  reconnect_open : forall c w c', open w c' -> open (redisReconnect c w).2 c';
  reconnect_others : forall c w c', open w c' -> c' <> c ->
    err (redisReconnect c w).2 c' = err w c';
  command_open : forall c f args w c', open w c' -> open (redisCommand c f args w).2 c';
  command_others : forall c f args w c', open w c' -> c' <> c ->
    err (redisCommand c f args w).2 c' = err w c';
  free_others : forall c w c', open w c' -> c' <> c ->
    open (redisFree c w) c' /\ err (redisFree c w) c' = err w c';
  free_reply_contexts : forall r w c, open w c ->
    open (freeReplyObject r w) c /\ err (freeReplyObject r w) c = err w c
}.

Section threads.
Context {W : Type} `{!Hiredis W}.

Abbreviation st := (env RedisWriter W redis_event).

(** ** The code *)

Abbreviation step_err c := (atomic (get_err c)).
Abbreviation step_errstr c := (atomic (get_errstr c)).

Definition authenticate_code (connection : redisContext) : code st CheckedConnection :=
  config ← atomic (gets (fun s => config_ (members s)));
  reply ← atomic (do_command connection "AUTH %s %s"
    [arg_s (c_str (redis_user config)); arg_s (c_str (redis_password config))]);
  e ← step_err connection;
  errstr ← step_errstr connection;
  if decide (e <> REDIS_OK) then mret (mkCheckedConnection None errstr)
  else if is_error_reply reply then
    let result := mkCheckedConnection None (reply_text reply) in
    atomic (do_free_reply reply) ;;
    mret result
  else
    atomic (do_free_reply reply) ;;
    mret (mkCheckedConnection (Some connection) "").

Definition createConnection_code : code st CheckedConnection :=
  config ← atomic (gets (fun s => config_ (members s)));
  connection ← atomic (do_connect (c_str (redis_host config)) (redis_port config));
  match connection with
  | None => mret (mkCheckedConnection None "Failed to connect to Redis")
  | Some c =>
      e ← step_err c;
      errstr ← step_errstr c;
      if decide (e <> REDIS_OK) then
        atomic (do_free c) ;;
        mret (mkCheckedConnection None errstr)
      else
        result ← authenticate_code c;
        (match checked result with
         | None => atomic (do_free c)
         | Some _ => mret tt
         end) ;;
        mret result
  end.

Definition reconnect_code (connection : redisContext) : code st CheckedConnection :=
  r ← atomic (do_reconnect connection);
  if decide (r <> REDIS_OK) then mret (mkCheckedConnection None "Failed to reconnect to Redis")
  else authenticate_code connection.

Definition findConnection_code (t : thread_id) : code st CheckedConnection :=
  it ← atomic (gets (fun s => find_thread t (connections_ (members s))));
  match it with
  | Some c => mret (mkCheckedConnection (Some c) "")
  | None =>
      createdConnection ← createConnection_code;
      match checked createdConnection with
      | None => mret (mkCheckedConnection None (checked_error createdConnection))
      | Some c =>
          atomic (modify (set_members (push_back (mkExclusiveConnection t c)))) ;;
          mret (mkCheckedConnection (Some c) "")
      end
  end.

Definition check_reply_code (connection : redisContext) (reply : option replyPtr) : code st WriteResult :=
  e ← step_err connection;
  errstr ← step_errstr connection;
  let result :=
    match e with
    | REDIS_ERR_EOF | REDIS_ERR_IO => mkWriteResult WRITE_STORAGE_UNAVAILABLE errstr
    | REDIS_OK => mkWriteResult WRITE_OK ""
    | _ => mkWriteResult WRITE_GENERIC errstr
    end in
  let result :=
    if is_error_reply reply then mkWriteResult WRITE_GENERIC (reply_text reply) else result in
  atomic (do_free_reply reply) ;;
  mret result.

Definition redis_write_code (t : thread_id) (data : string) : code st WriteResult :=
  checkedConnection ← findConnection_code t;
  match checked checkedConnection with
  | None => mret (mkWriteResult WRITE_STORAGE_UNAVAILABLE (checked_error checkedConnection))
  | Some connection =>
      reply ← atomic (run_xadd connection data);
      e ← step_err connection;
      if decide (e = REDIS_ERR_EOF \/ e = REDIS_ERR_IO) then
        atomic (do_free_reply reply) ;;
        checkedConnection ← reconnect_code connection;
        match checked checkedConnection with
        | None => mret (mkWriteResult WRITE_STORAGE_UNAVAILABLE (checked_error checkedConnection))
        | Some connection =>
            reply ← atomic (run_xadd connection data);
            check_reply_code connection reply
        end
      else check_reply_code connection reply
  end.

(** ** Alone *)

(** Advances over one atomic step on both sides. *)
Ltac same_step :=
  first [apply run_ret | rewrite run_bind; apply same_code_bind; [intros ?|apply run_atomic]].

Lemma authenticate_code_run c : same_code (run_code (authenticate_code c)) (authenticate c).
Proof. unfold authenticate_code, authenticate. repeat same_step. repeat case_match; repeat same_step. Qed.

Lemma createConnection_code_run : same_code (run_code createConnection_code) createConnection.
Proof.
  unfold createConnection_code, createConnection. do 2 same_step. case_match; [|same_step].
  do 2 same_step. case_match; [repeat same_step|].
  rewrite run_bind. apply same_code_bind; [intros r|apply authenticate_code_run].
  rewrite run_bind. apply same_code_bind; [intros ?; same_step|].
  case_match; [apply run_ret|apply run_atomic].
Qed.

Lemma reconnect_code_run c : same_code (run_code (reconnect_code c)) (reconnect c).
Proof.
  unfold reconnect_code, reconnect. same_step. case_match; [same_step|apply authenticate_code_run].
Qed.

Lemma findConnection_code_run t : same_code (run_code (findConnection_code t)) (findConnection t).
Proof.
  unfold findConnection_code, findConnection. same_step. case_match; [same_step|].
  rewrite run_bind. apply same_code_bind; [intros r|apply createConnection_code_run].
  case_match; repeat same_step.
Qed.

Lemma check_reply_code_run c r : same_code (run_code (check_reply_code c r)) (check_reply c r).
Proof. unfold check_reply_code, check_reply. repeat same_step. Qed.

(** The steps are those of the code: a thread that runs alone does what [RedisWriter_write] does, from
    every state, with every server. *)
Theorem redis_write_code_alone (t : thread_id) (data : string) :
  forall s : st, run_code (redis_write_code t data) s = RedisWriter_write t data s.
Proof.
  change (same_code (run_code (redis_write_code t data)) (RedisWriter_write t data)).
  unfold redis_write_code, RedisWriter_write.
  rewrite run_bind. apply same_code_bind; [intros r|apply findConnection_code_run].
  case_match; [|same_step]. do 2 same_step. case_match; [|apply check_reply_code_run].
  same_step. rewrite run_bind. apply same_code_bind; [intros r'|apply reconnect_code_run].
  case_match; [|same_step]. same_step. apply check_reply_code_run.
Qed.

(** ** What a thread owns *)

(** The contexts opened and not freed along a trace. *)
Definition own_event (o : gset redisContext) (ev : redis_event) : gset redisContext :=
  match ev with
  | Connect _ _ (Some c) => {[c]} ∪ o
  | Free c => o ∖ {[c]}
  | _ => o
  end.

Definition owned (tr : list redis_event) : gset redisContext := fold_left own_event tr ∅.
#[local] Arguments owned : simpl never.

Lemma owned_snoc tr ev : owned (tr ++ [ev]) = own_event (owned tr) ev.
Proof. unfold owned. by rewrite fold_left_app. Qed.

(** The context an event uses. *)
Definition used (ev : redis_event) : option redisContext :=
  match ev with Reconnect c _ | Command c _ _ _ | Free c => Some c | _ => None end.

(** Every call was made on a context that the thread owned then. *)
Definition uses_own (tr : list redis_event) : Prop :=
  forall tr1 ev tr2 c, tr = tr1 ++ ev :: tr2 -> used ev = Some c -> c ∈ owned tr1.

Lemma uses_own_snoc tr ev :
  uses_own tr -> (forall c, used ev = Some c -> c ∈ owned tr) -> uses_own (tr ++ [ev]).
Proof.
  intros Htr Hev tr1 ev' tr2 c Heq Hc. destruct tr2 as [|ev2 tr2 _] using rev_ind.
  - apply app_inj_tail in Heq as [-> ->]. by apply Hev.
  - rewrite app_comm_cons, app_assoc in Heq. apply app_inj_tail in Heq as [-> _]. by eapply Htr.
Qed.

(** ** With other threads *)

Section contexts.
Context (open : W -> redisContext -> Prop) `{!HiredisLaws W, !HiredisContexts W open}.

(** Between [w] and [w'] nothing happened to the contexts of [P]. *)
Definition contexts_kept (P : redisContext -> Prop) (w w' : W) : Prop :=
  forall c, P c -> open w c -> open w' c /\ err w' c = err w c.

(** What others do who have no context of this process. *)
Definition other_clients (w w' : W) : Prop := contexts_kept (fun _ => True) w w'.

Definition redis_rely (t : thread_id) (s s' : st) : Prop :=
  trace s' = trace s /\ find_thread t (pool s') = find_thread t (pool s) /\
  (one_entry (pool s) -> one_entry (pool s')) /\
  contexts_kept (fun c => c ∈ owned (trace s)) (world s) (world s').

Definition redis_guarantee (t : thread_id) (s s' : st) : Prop :=
  (forall t', t' <> t -> find_thread t' (pool s') = find_thread t' (pool s)) /\
  (one_entry (pool s) -> one_entry (pool s')) /\
  (uses_own (trace s) -> uses_own (trace s')) /\
  contexts_kept (fun c => c ∉ owned (trace s)) (world s) (world s') /\
  (forall c, c ∈ owned (trace s') -> open (world s') c /\ (c ∈ owned (trace s) \/ ~ open (world s) c)).

Definition redis_in_order (t : thread_id) (s : st) : Prop :=
  one_entry (pool s) /\ uses_own (trace s) /\ forall c, c ∈ owned (trace s) -> open (world s) c.

(** The traces of two threads: no context belongs to both. *)
Definition disjoint_owners (tr1 tr2 : list redis_event) : Prop := owned tr1 ## owned tr2.

#[local] Instance redis_rely_preorder t : PreOrder (redis_rely t).
Proof.
  split; [by intros s; split_and!|]. intros s1 s2 s3 (H1 & H2 & H3 & H4) (H5 & H6 & H7 & H8).
  split_and!; [by rewrite H5|by rewrite H6|auto|].
  intros c Hc Ho. destruct (H4 c Hc Ho) as [Ho2 <-]. apply H8; [by rewrite H1|done].
Qed.

(** The books of a thread: its entry is [e], the data of [k] was confirmed to it, the contexts [held] are
    open outside the pool, and of the replies only [r] is not released yet. *)
Definition account (t : thread_id) (e : option redisContext) (k : list (list Z))
    (held : list redisContext) (r : option replyPtr) (s : st) : Prop :=
  received (trace s) = released (trace s) ++ option_list (addr <$> r) /\
  owned (trace s) = list_to_set (option_list e ++ held) /\
  find_thread t (pool s) = e /\ confirmed s = k /\
  forall c, c ∈ owned (trace s) -> open (world s) c.

Lemma account_stable t e k held r s s' :
  account t e k held r s -> redis_rely t s s' -> account t e k held r s'.
Proof.
  intros (H1 & H2 & H3 & H4 & H5) (H6 & H7 & _ & H8). unfold account, confirmed in *. rewrite H6, H7.
  split_and!; try done. intros c Hc. apply H8; [done|by apply H5].
Qed.

Abbreviation redis_rely_code t := (rely (redis_rely t) (redis_guarantee t)).

Lemma guarantee_refl t s :
  (forall c, c ∈ owned (trace s) -> open (world s) c) -> redis_guarantee t s s.
Proof. intros Ho. split_and!; try done. intros c Hc. split; [by apply Ho|by left]. Qed.

(** Reading: a member, or a field of a context that the thread owns. *)
Lemma rely_read t {A} (f : st -> A) e k held r Q s :
  account t e k held r s ->
  (forall s', redis_rely t s s' -> account t e k held r s' -> Q (Value (f s')) s') ->
  redis_rely_code t (atomic (gets f)) Q s.
Proof.
  intros Ha HQ s' Hs'. pose proof (account_stable _ _ _ _ _ _ _ Ha Hs') as Ha'.
  split; [apply guarantee_refl, Ha'|by apply HQ].
Qed.

Lemma rely_err t c e k held r Q s :
  account t e k held r s -> c ∈ owned (trace s) ->
  (forall s', account t e k held r s' -> c ∈ owned (trace s') -> err (world s') c = err (world s) c ->
     Q (Value (err (world s) c)) s') ->
  redis_rely_code t (step_err c) Q s.
Proof.
  intros Ha Hc HQ. eapply rely_read; [exact Ha|]. intros s' (H1 & _ & _ & H2) Ha'.
  destruct (H2 c Hc) as [_ He]; [by apply Ha|]. rewrite He. apply HQ; [done|by rewrite H1|done].
Qed.

Lemma rely_errstr t c e k held r Q s :
  account t e k held r s -> c ∈ owned (trace s) ->
  (forall s', account t e k held r s' -> c ∈ owned (trace s') -> err (world s') c = err (world s) c ->
     forall m, Q (Value m) s') ->
  redis_rely_code t (step_errstr c) Q s.
Proof.
  intros Ha Hc HQ. eapply rely_read; [exact Ha|]. intros s' (H1 & _ & _ & H2) Ha'.
  destruct (H2 c Hc) as [_ He]; [by apply Ha|]. apply HQ; [done|by rewrite H1|done].
Qed.

(** A call of the library. *)
Lemma rely_call t {A} (f : W -> A * W) (ev : A -> redis_event) e k held r Q s :
  account t e k held r s ->
  (forall s1, account t e k held r s1 ->
     let a := (f (world s1)).1 in let w := (f (world s1)).2 in
     let s2 := Env (members s1) w (trace s1 ++ [ev a]) in
     (forall c, used (ev a) = Some c -> c ∈ owned (trace s1)) /\
     contexts_kept (fun c => c ∉ owned (trace s1)) (world s1) w /\
     (forall c, c ∈ own_event (owned (trace s1)) (ev a) ->
        open w c /\ (c ∈ owned (trace s1) \/ ~ open (world s1) c)) /\
     Q (Value a) s2) ->
  redis_rely_code t (atomic (call f ev)) Q s.
Proof.
  intros Ha HQ s1 Hs1. destruct (HQ s1 (account_stable _ _ _ _ _ _ _ Ha Hs1)) as (H1 & H2 & H3 & H4).
  unfold call. destruct (f (world s1)) as [a w]. cbn in *. split; [|done].
  split_and!; cbn; [done|done| |done|].
  - intros Hu. by apply uses_own_snoc.
  - intros c. rewrite owned_snoc. apply H3.
Qed.

(** Reads the books over one more event. *)
Ltac read_account :=
  unfold account, received, released, confirmed, pool in *; cbn [trace members world] in *;
  rewrite ?owned_snoc, ?omap_app; cbn [omap list_omap option_list fmap option_fmap option_map own_event].

(** A call that opens and frees nothing. *)
Lemma kept_owned (tr : list redis_event) (w w' : W) :
  (forall c, c ∈ owned tr -> open w c) -> (forall c, open w c -> open w' c) ->
  forall c, c ∈ owned tr -> open w' c /\ (c ∈ owned tr \/ ~ open w c).
Proof. intros H1 H2 c Hc. auto. Qed.

Lemma rely_command t c f args e k held Q s :
  account t e k held None s -> c ∈ owned (trace s) ->
  (forall r s', account t e (k ++ option_list (added (Command c f args r))) held r s' ->
     c ∈ owned (trace s') -> (r = None <-> err (world s') c <> REDIS_OK) -> Q (Value r) s') ->
  redis_rely_code t (atomic (do_command c f args)) Q s.
Proof.
  intros Ha Hc HQ. eapply rely_call; [exact Ha|]. intros s1 Ha1. cbv zeta.
  assert (Hc1 : c ∈ owned (trace s1)).
  { destruct Ha as (_ & E & _), Ha1 as (_ & E1 & _). by rewrite E1, <-E. }
  pose proof Ha1 as (_ & _ & _ & _ & Ho). set (r := (redisCommand c f args (world s1)).1).
  split_and!; [by intros c' [= <-]| |cbn [own_event]; apply kept_owned; [done|intros c'; apply command_open]|].
  - intros c' Hn Ho'. split; [by apply command_open|]. apply command_others; [done|]. by intros ->.
  - apply HQ; [|cbn; rewrite owned_snoc; done|apply command_error]. destruct Ha1 as (H1 & H2 & H3 & H4 & H5).
    read_account. rewrite !app_nil_r in *. split_and!; try done.
    + by rewrite H1; destruct r.
    + by rewrite H4; destruct (added _).
    + intros c' Hc'. by apply command_open, H5.
Qed.

Lemma rely_reconnect t c e k held Q s :
  account t e k held None s -> c ∈ owned (trace s) ->
  (forall r s', account t e k held None s' -> c ∈ owned (trace s') -> Q (Value r) s') ->
  redis_rely_code t (atomic (do_reconnect c)) Q s.
Proof.
  intros Ha Hc HQ. eapply rely_call; [exact Ha|]. intros s1 Ha1. cbv zeta.
  assert (Hc1 : c ∈ owned (trace s1)).
  { destruct Ha as (_ & E & _), Ha1 as (_ & E1 & _). by rewrite E1, <-E. }
  pose proof Ha1 as (_ & _ & _ & _ & Ho).
  split_and!; [by intros c' [= <-]| |cbn [own_event]; apply kept_owned; [done|intros c'; apply reconnect_open]|].
  - intros c' Hn Ho'. split; [by apply reconnect_open|]. apply reconnect_others; [done|]. by intros ->.
  - apply HQ; [|cbn; by rewrite owned_snoc]. destruct Ha1 as (H1 & H2 & H3 & H4 & H5).
    read_account. rewrite !app_nil_r in *. split_and!; try done.
    intros c' Hc'. by apply reconnect_open, H5.
Qed.

Lemma rely_free_reply t e k held r Q s :
  account t e k held r s ->
  (forall s', account t e k held None s' -> Q (Value tt) s') ->
  redis_rely_code t (atomic (do_free_reply r)) Q s.
Proof.
  intros Ha HQ. eapply rely_call; [exact Ha|]. intros s1 Ha1. cbv zeta. cbn [fst snd].
  pose proof Ha1 as (_ & _ & _ & _ & Ho).
  split_and!; [done| |cbn [own_event]; apply kept_owned; [done|intros c' Hx; by apply (free_reply_contexts r _ _ Hx)]|].
  - intros c' _ Ho'. by apply free_reply_contexts.
  - apply HQ. destruct Ha1 as (H1 & H2 & H3 & H4 & H5).
    read_account. rewrite !app_nil_r in *. split_and!; try done.
    intros c' Hc'. by apply (free_reply_contexts r _ _ (H5 c' Hc')).
Qed.

Lemma rely_connect t host port k Q s :
  account t None k [] None s ->
  (forall r s', account t None k (option_list r) None s' -> Q (Value r) s') ->
  redis_rely_code t (atomic (do_connect host port)) Q s.
Proof.
  intros Ha HQ. eapply rely_call; [exact Ha|]. intros s1 Ha1. cbv zeta.
  pose proof Ha1 as (_ & _ & _ & _ & Ho).
  assert (Hown : forall c, c ∈ own_event (owned (trace s1)) (Connect host port (redisConnect host port (world s1)).1) ->
    open (redisConnect host port (world s1)).2 c /\ (c ∈ owned (trace s1) \/ ~ open (world s1) c)).
  { intros c'. destruct (redisConnect host port (world s1)).1 as [c|] eqn:Hr; cbn [own_event].
    - rewrite elem_of_union, elem_of_singleton. intros [->|Hc']; [by destruct (connect_fresh _ _ _ _ Hr); auto|].
      split; [by apply (connect_others host port _ _ (Ho _ Hc'))|by left].
    - intros Hc'. split; [by apply (connect_others host port _ _ (Ho _ Hc'))|by left]. }
  split_and!; [done| |done|].
  - intros c' _ Ho'. by apply connect_others.
  - apply HQ. revert Hown. set (r := (redisConnect host port (world s1)).1). intros Hown.
    destruct Ha1 as (H1 & H2 & H3 & H4 & H5). read_account. rewrite !app_nil_r in *. split_and!; try done.
    + rewrite H2. destruct r as [c|]; cbn; [|done]. set_solver.
    + intros c' Hc'. by apply Hown.
Qed.

Lemma rely_free t c k Q s :
  account t None k [c] None s ->
  (forall s', account t None k [] None s' -> Q (Value tt) s') ->
  redis_rely_code t (atomic (do_free c)) Q s.
Proof.
  intros Ha HQ. eapply rely_call; [exact Ha|]. intros s1 Ha1. cbv zeta. cbn [fst snd].
  pose proof Ha1 as (_ & E & _ & _ & Ho). cbn in E.
  assert (Hown : forall c', c' ∈ owned (trace s1) ∖ {[c]} ->
    open (redisFree c (world s1)) c' /\ (c' ∈ owned (trace s1) \/ ~ open (world s1) c')).
  { intros c' [Hc' Hne]%elem_of_difference. split; [|by left].
    apply (free_others c _ c' (Ho c' Hc')). set_solver. }
  split_and!; [intros c' [= <-]; rewrite E; set_solver| |done|].
  - intros c' Hn Ho'. apply (free_others c _ c' Ho'). rewrite E in Hn. set_solver.
  - apply HQ. destruct Ha1 as (H1 & H2 & H3 & H4 & H5). read_account. rewrite !app_nil_r in *.
    split_and!; try done; [rewrite H2; set_solver|]. intros c' Hc'. by apply Hown.
Qed.

Lemma rely_push t c k Q s :
  account t None k [c] None s ->
  (forall s', account t (Some c) k [] None s' -> Q (Value tt) s') ->
  redis_rely_code t (atomic (modify (set_members (push_back (mkExclusiveConnection t c))))) Q s.
Proof.
  intros Ha HQ s1 Hs1. pose proof (account_stable _ _ _ _ _ _ _ Ha Hs1) as Ha1.
  set (s2 := set_members (push_back (mkExclusiveConnection t c)) s1).
  change (redis_guarantee t s1 s2 /\ Q (Value tt) s2).
  assert (Hp : pool s2 = pool s1 ++ [mkExclusiveConnection t c]) by done.
  pose proof Ha1 as (H1 & H2 & H3 & H4 & H5).
  assert (Hps : pool_step t (pool s1) (pool s2)) by (rewrite Hp; right; eauto).
  split; [|apply HQ; split_and!; try done].
  - pose proof (guarantee_refl t s1 H5) as (_ & _ & G3 & G4 & G5). split_and!; try done.
    + intros t' Ht'. rewrite Hp, find_thread_app. cbn. rewrite decide_False by done. by case_match.
    + intros Hok. by apply (pool_step_spec t (pool s1)).
  - rewrite Hp, find_thread_app, H3. cbn. by rewrite decide_True.
Qed.

(** ** The functions *)

Lemma authenticate_rely t c e k held Q s :
  account t e k held None s -> c ∈ owned (trace s) ->
  (forall r s', account t e k held None s' -> c ∈ owned (trace s') -> hands_out c r -> Q (Value r) s') ->
  redis_rely_code t (authenticate_code c) Q s.
Proof.
  intros Ha Hc HQ. unfold authenticate_code.
  apply rely_bind. eapply rely_read; [exact Ha|]. intros s1 Hr1 Ha1.
  assert (Hc1 : c ∈ owned (trace s1)) by (destruct Hr1 as (-> & _); done).
  apply rely_bind, (rely_command t c _ _ e k held); [done|done|]. intros r s2 Ha2 Hc2 He.
  cbn [added option_list] in Ha2. rewrite app_nil_r in Ha2.
  apply rely_bind. eapply rely_err; [exact Ha2|done|]. intros s3 Ha3 Hc3 E3.
  apply rely_bind. eapply rely_errstr; [exact Ha3|done|]. intros s4 Ha4 Hc4 _ m.
  case_decide as Hd; [apply He in Hd; subst r; apply HQ; [done|done|by right]|].
  assert (Hown : forall s5, account t e k held None s5 -> c ∈ owned (trace s5)).
  { intros s5 (_ & E5 & _). destruct Ha4 as (_ & E4 & _). by rewrite E5, <-E4. }
  case_match; apply rely_bind; (eapply rely_free_reply; [exact Ha4|]); intros s5 Ha5;
    (apply HQ; [done|by apply Hown|]); [by right|by left].
Qed.

Lemma createConnection_rely t k Q s :
  account t None k [] None s ->
  (forall r s', account t None k (option_list (checked r)) None s' -> Q (Value r) s') ->
  redis_rely_code t createConnection_code Q s.
Proof.
  intros Ha HQ. unfold createConnection_code.
  apply rely_bind. eapply rely_read; [exact Ha|]. intros s1 _ Ha1.
  apply rely_bind, (rely_connect t _ _ k); [done|]. intros [c|] s2 Ha2; [|by apply HQ].
  assert (Hown : forall s', account t None k [c] None s' -> c ∈ owned (trace s')).
  { intros s' (_ & -> & _). cbn. set_solver. }
  apply rely_bind. eapply rely_err; [exact Ha2|by apply Hown|]. intros s3 Ha3 _ _.
  apply rely_bind. eapply rely_errstr; [exact Ha3|by apply Hown|]. intros s4 Ha4 _ _ m.
  case_decide.
  { apply rely_bind, (rely_free t c k); [done|]. intros s5 Ha5. by apply HQ. }
  apply rely_bind, (authenticate_rely t c None k [c]); [done|by apply Hown|]. intros r s5 Ha5 _ Hr.
  apply rely_bind. destruct Hr as [Hr|Hr]; rewrite Hr; [apply HQ; by rewrite Hr|].
  apply (rely_free t c k); [done|]. intros s6 Ha6. apply HQ. by rewrite Hr.
Qed.

Lemma reconnect_rely t c e k held Q s :
  account t e k held None s -> c ∈ owned (trace s) ->
  (forall r s', account t e k held None s' -> c ∈ owned (trace s') -> hands_out c r -> Q (Value r) s') ->
  redis_rely_code t (reconnect_code c) Q s.
Proof.
  intros Ha Hc HQ. unfold reconnect_code.
  apply rely_bind, (rely_reconnect t c e k held); [done|done|]. intros r s1 Ha1 Hc1.
  case_decide; [by apply HQ; [..|right]|by apply (authenticate_rely t c e k held)].
Qed.

Lemma findConnection_rely t e k Q s :
  account t e k [] None s ->
  (forall r s' e', account t e' k [] None s' -> checked r = e' -> Q (Value r) s') ->
  redis_rely_code t (findConnection_code t) Q s.
Proof.
  intros Ha HQ. unfold findConnection_code.
  apply rely_bind. eapply rely_read; [exact Ha|]. intros s1 _ Ha1. fold (pool s1).
  pose proof Ha1 as (_ & _ & Hf & _). rewrite Hf. destruct e as [c|]; [by eapply HQ|].
  apply rely_bind, (createConnection_rely t k); [done|]. intros r s2 Ha2.
  destruct (checked r) as [c|]; [|by eapply HQ].
  apply rely_bind, (rely_push t c k); [done|]. intros s3 Ha3. by eapply HQ.
Qed.

(** What an answer to XADD says of the data, with the error of its context. *)
Lemma check_reply_rely t c r data e k Q s :
  account t e (k ++ option_list (added (Command c XADD [arg_s MESSAGES_STREAM; arg_s DATA_FIELD; arg_b data] r)))
    [] r s ->
  c ∈ owned (trace s) -> (r = None <-> err (world s) c <> REDIS_OK) ->
  (forall res s', account t e (k ++ (if decide (write_error res = WRITE_OK) then [bytes_of data] else [])) [] None s' ->
     Q (Value res) s') ->
  redis_rely_code t (check_reply_code c r) Q s.
Proof.
  intros Ha Hc He HQ. unfold check_reply_code.
  apply rely_bind. eapply rely_err; [exact Ha|done|]. intros s1 Ha1 Hc1 _.
  apply rely_bind. eapply rely_errstr; [exact Ha1|done|]. intros s2 Ha2 _ _ m. cbv zeta.
  apply rely_bind. eapply rely_free_reply; [exact Ha2|]. intros s3 Ha3. apply HQ.
  unfold added in Ha3. destruct r as [p|]; cbn [is_error_reply].
  - assert (Hok : err (world s) c = REDIS_OK).
    { destruct (decide (err (world s) c = REDIS_OK)) as [|Hn]; [done|]. by apply He in Hn. }
    rewrite Hok. case_bool_decide as Ht; cbn [write_error].
    + rewrite decide_False in Ha3 by naive_solver. by rewrite decide_False.
    + rewrite decide_True in Ha3 by done. by rewrite decide_True.
  - assert (Hn : err (world s) c <> REDIS_OK) by by apply He.
    by destruct (err (world s) c); rewrite decide_False.
Qed.

Lemma redis_write_rely t data e k Q s :
  account t e k [] None s ->
  (forall res s' e', account t e' (k ++ (if decide (write_error res = WRITE_OK) then [bytes_of data] else []))
     [] None s' -> Q (Value res) s') ->
  redis_rely_code t (redis_write_code t data) Q s.
Proof.
  intros Ha HQ. unfold redis_write_code.
  apply rely_bind, (findConnection_rely t e k); [done|]. intros r s1 e1 Ha1 Hr.
  assert (Hno : forall s' m, account t e1 k [] None s' -> Q (Value (mkWriteResult WRITE_STORAGE_UNAVAILABLE m)) s').
  { intros s' m Ha'. apply (HQ _ _ e1). by rewrite decide_False, app_nil_r. }
  rewrite Hr. destruct e1 as [c|]; [|by apply Hno].
  assert (Hown : forall k' r' s', account t (Some c) k' [] r' s' -> c ∈ owned (trace s')).
  { intros k' r' s' (_ & -> & _). cbn. set_solver. }
  apply rely_bind, (rely_command t c _ _ (Some c) k []); [done|by eapply Hown|]. intros x s2 Ha2 Hc2 He.
  apply rely_bind. eapply rely_err; [exact Ha2|done|]. intros s3 Ha3 Hc3 E3.
  case_decide as Hd.
  2:{ eapply (check_reply_rely t c x data (Some c) k); [done|done|by rewrite E3|]. intros res s4. by apply HQ. }
  assert (x = None) as -> by (apply He; intros E; rewrite E in Hd; by destruct Hd).
  apply rely_bind. eapply rely_free_reply; [exact Ha3|]. intros s4 Ha4.
  cbn [added option_list] in Ha4. rewrite app_nil_r in Ha4.
  apply rely_bind, (reconnect_rely t c (Some c) k []); [done|by eapply Hown|]. intros r' s5 Ha5 Hc5 [Hr'|Hr'];
    rewrite Hr'; [|by apply Hno].
  apply rely_bind, (rely_command t c _ _ (Some c) k []); [done|done|]. intros y s6 Ha6 Hc6 He6.
  eapply (check_reply_rely t c y data (Some c) k); [done|done|done|]. intros res s7. by apply HQ.
Qed.

(** ** The threads *)

Definition redis_between_calls (t : thread_id) (h : list (string * outcome WriteResult)) (s : st) : Prop :=
  (exists e, account t e (confirmed_calls h) [] None s) /\ returned h.

Lemma redis_compatible :
  compatible redis_write_code other_clients redis_rely redis_guarantee redis_between_calls redis_in_order
    disjoint_owners.
Proof.
  split.
  - apply _.
  - intros t m w w' tr Ho. split_and!; try done. intros c _. by apply Ho.
  - intros tr1 tr2 Hd. unfold disjoint_owners in *. set_solver.
  - intros t t' s s' tr Ht (G1 & G2 & _ & G4 & G5) (_ & _ & Jo) Hd. unfold disjoint_owners in *. split.
    + split_and!; [done|by apply G1|exact G2|]. intros c Hc Ho. apply (G4 c); [|done]. set_solver.
    + intros c Hc Hc'. destruct (G5 c Hc) as [_ [Hc2|Hn]]; [set_solver|]. by apply Hn, Jo.
  - intros t h s s' [[e Ha] Hr] HR. split; [|done]. exists e. by eapply account_stable.
  - intros t s s' (J1 & J2 & J3) (R1 & _ & R3 & R4). split_and!; [by apply R3|by rewrite R1|].
    rewrite R1. intros c Hc. apply R4; [done|by apply J3].
  - intros t s s' (J1 & J2 & J3) (_ & G2 & G3 & _ & G5). split_and!; [by apply G2|by apply G3|].
    intros c Hc. by apply G5.
  - intros t h d s [[e Ha] Hr]. apply (redis_write_rely t d e (confirmed_calls h)); [done|].
    intros res s' e' Ha'. split; [|apply returned_snoc; eauto]. exists e'.
    rewrite confirmed_calls_snoc. cbn. by case_decide.
Qed.

Abbreviation redis_threads_next := (threads_next redis_write_code other_clients).
Abbreviation new_redis_threads config w := (new_threads (mkRedisWriter config []) w).

Lemma redis_threads_ok config w x :
  rtc redis_threads_next (new_redis_threads config w) x ->
  all_ok redis_rely redis_guarantee redis_between_calls redis_in_order disjoint_owners x.
Proof.
  intros Hs. apply (threads_ok _ _ _ _ _ _ _ redis_compatible _ _ Hs). split; [|done].
  intros t. split.
  - split_and!; [apply NoDup_nil_2| |done]. intros tr1 ev tr2 c Heq. by destruct tr1.
  - split; [|constructor]. exists None. by split_and!.
Qed.

(** C9: any number of threads write at the same time: their steps, and what other clients do to the
    server, come in any order. In every state they can reach no two threads own one context, and each
    call was made on a context that its thread owned: none is used by two threads, none after it was
    freed, not even when the allocator gives its address again. Between its calls a thread has released
    every reply, owns exactly the context of its entry in the vector, if it has one, and what the server
    has confirmed to it is the data of its calls that reported success, in their order, each once. A call
    under way needs no other thread to return, and never ends with an exception. *)
Theorem concurrent_added (config : RedisConfig) (w : W) (x : threads) :
  rtc redis_threads_next (new_redis_threads config w) x ->
  one_entry (connections_ (shared x)) /\
  (forall t t', t <> t' -> owned (traces x t) ## owned (traces x t')) /\
  forall t,
    uses_own (traces x t) /\ returned (finished x t) /\
    (running x t = None ->
       confirmed (view t x) = confirmed_calls (finished x t) /\
       received (traces x t) = released (traces x t) /\
       owned (traces x t) = list_to_set (option_list (find_thread t (connections_ (shared x))))) /\
    (running x t <> None -> exists y d r,
       rtc (threads_step redis_write_code t) x y /\ running y t = None /\
       finished y t = finished x t ++ [(d, Value r)]).
Proof.
  intros Hs. destruct (redis_threads_ok config w x Hs) as [Hx Hd].
  split; [by apply (Hx 1%positive)|]. split; [done|]. intros t.
  destruct (Hx t) as [(_ & Ho & _) HP]. split; [done|].
  destruct (running x t) as [[d c]|] eqn:Hr.
  2:{ destruct HP as [(e & H1 & H2 & H3 & H4 & _) Hret]. rewrite !app_nil_r in *.
      split_and!; try done. change (owned (traces x t)) with (owned (trace (view t x))). rewrite H2. by rewrite <-H3. }
  destruct (call_ends redis_write_code t x d c Hr) as (y & o & Hy & Hry & Hf).
  destruct (redis_threads_ok config w y) as [Hy' _]; [etrans; [exact Hs|by eapply thread_steps]|].
  destruct (Hy' t) as [_ HQ]. rewrite Hry, Hf in HQ. destruct HQ as (_ & [Hv [r ->]]%returned_snoc).
  split_and!; [done|done|]. intros _. by exists y, d, r.
Qed.
End contexts.
End threads.

(** ** A library with many contexts *)

(** The open contexts; every command is answered. *)
#[export] Instance many_contexts : Hiredis (gset positive) := {|
  reply_type_code t := 0;
  redisConnect _ _ w := (Some (fresh w), {[fresh w]} ∪ w);
  redisReconnect _ w := (REDIS_OK, w);
  redisCommand _ _ _ w := (Some (mkReplyPtr 1 (Reply REDIS_REPLY_STRING "OK" [])), w);
  redisFree c w := w ∖ {[c]};
  freeReplyObject _ w := w;
  err _ _ := REDIS_OK;
  errstr _ _ := ""
|}.

#[export] Instance many_contexts_laws : HiredisLaws (gset positive).
Proof. intros c f args w. cbn. by split. Qed.

#[export] Instance many_contexts_open : HiredisContexts (gset positive) (fun w c => c ∈ w).
Proof.
  split; cbn; try done.
  - intros _ _ w c [= <-]. split; [apply is_fresh|set_solver].
  - set_solver.
  - set_solver.
Qed.

(** ** Two threads *)

Abbreviation sample_redis_config := (mkRedisConfig "127.0.0.1" 6379 "user" "123").

Definition sample_redis_threads : threads (M := RedisWriter) (E := redis_event) (A := WriteResult) :=
  new_threads (mkRedisWriter sample_redis_config []) (∅ : gset positive).

(** The turns of the threads 1 and 2 alternate. *)
Definition redis_alternating : list (thread_id * string) :=
  concat (replicate 20 [(1%positive, "one"); (2%positive, "two")]).

Example both_added :
  let x := take_turns redis_write_code redis_alternating sample_redis_threads in
  confirmed (view 1 x) = [[111; 110; 101]] /\ confirmed (view 2 x) = [[116; 119; 111]] /\
  connections_ (shared x) = [mkExclusiveConnection 1 1; mkExclusiveConnection 2 2].
Proof. vm_compute. by split_and!. Qed.

Lemma concurrent_added_witness :
  let x := take_turns redis_write_code redis_alternating sample_redis_threads in
  one_entry (connections_ (shared x)) /\
  (forall t t', t <> t' -> owned (traces x t) ## owned (traces x t')) /\
  forall t,
    uses_own (traces x t) /\ returned (finished x t) /\
    (running x t = None ->
       confirmed (view t x) = confirmed_calls (finished x t) /\
       received (traces x t) = released (traces x t) /\
       owned (traces x t) = list_to_set (option_list (find_thread t (connections_ (shared x))))) /\
    (running x t <> None -> exists y d r,
       rtc (threads_step redis_write_code t) x y /\ running y t = None /\
       finished y t = finished x t ++ [(d, Value r)]).
Proof.
  exact (concurrent_added (fun w c => c ∈ w) sample_redis_config ∅ _
           (take_turns_steps redis_write_code _ redis_alternating sample_redis_threads)).
Defined.
