(* ===== verification/RedisStore.v ===== *)
(** * Redis as the storage of both programs

    [RedisServer] is the contract of the server the producer relies on. [RedisInserts] adds what the
    writer needs of it: an XADD that is answered without an error makes a new entry. With both, the
    Redis writer keeps [StoreWriter] and the Redis producer [StoreProducer] (Store). A reference server
    with XADD, XRANGE and XDEL keeps both contracts. *)

From S2P Require Import Prelude CommonConfig Message Hiredis RedisReply RedisServer RedisProducer.
From S2P Require Import Handler Store ConnectionPool RedisWriter.

(** The new entry of an XADD with the data [d]. *)
Definition xadd_args (d : string) : list fmt_arg := [arg_s MESSAGES_STREAM; arg_s DATA_FIELD; arg_b d].

(** [known w i]: an entry of the stream has had the id [i], packed into 64 bits. *)
Class RedisInserts (W : Type) `{!Hiredis W} (stream : W -> list entry) (known : W -> Z -> Prop) : Prop := {
  stream_known : forall w e, e ∈ stream w -> known w (id (entry_message e));
  redis_connect_known : forall h p w i, known w i -> known (redisConnect h p w).2 i;
  reconnect_known : forall c w i, known w i -> known (redisReconnect c w).2 i;
  free_known : forall c w i, known w i -> known (redisFree c w) i;
  free_reply_known : forall r w i, known w i -> known (freeReplyObject r w) i;
  command_known : forall c f args w i, known w i -> known (redisCommand c f args w).2 i;
  free_reply_keeps : forall r w e, e ∈ stream w -> e ∈ stream (freeReplyObject r w);
  (** XADD deletes nothing, and when it is answered without an error there is an entry with the one
      field, under an id that no entry has had. *)
  xadd_keeps : forall c d w e, e ∈ stream w -> e ∈ stream (redisCommand c XADD (xadd_args d) w).2;
  xadd_adds : forall c d w p,
    (redisCommand c XADD (xadd_args d) w).1 = Some p -> type (deref p) <> REDIS_REPLY_ERROR ->
    exists e, e ∈ stream (redisCommand c XADD (xadd_args d) w).2 /\ fields e = [(DATA_FIELD, d)] /\
      ~ known w (id (entry_message e))
}.

Section store.
Context {W : Type} `{!Hiredis W} (stream : W -> list entry) (known : W -> Z -> Prop).
Context `{!HiredisLaws W, !RedisServer W stream, !RedisInserts W stream known}.

Abbreviation writer := (env RedisWriter W redis_event).
Abbreviation producer := (env RedisProducer W redis_event).

(** The messages of the entries. *)
Definition redis_held (w : W) (m : Message) : Prop := exists e, e ∈ stream w /\ m = entry_message e.

#[export] Instance redis_store : Store redis_held known.
Proof. intros w m (e & He & ->). by apply stream_known. Qed.

Abbreviation redis_keeps := (keeps redis_held known).

Lemma keeps_entries w w' :
  (forall e, e ∈ stream w -> e ∈ stream w') -> (forall i, known w i -> known w' i) -> redis_keeps w w'.
Proof. intros H1 H2. split; [|done]. intros m (e & He & ->). exists e. auto. Qed.

(** ** The writer *)

(** The storage has lost nothing since [w0]. *)
Definition since (w0 : W) (s : writer) : Prop := redis_keeps w0 (world s).

Lemma since_call {A} w0 (f : W -> A * W) (ev : A -> redis_event) :
  (forall w, redis_keeps w (f w).2) -> preserves (S := writer) (since w0) (call f ev).
Proof. intros H. apply preserves_call. intros s Hs. unfold since in *. etrans; [exact Hs|apply H]. Qed.

Lemma since_connect w0 h p : preserves (since w0) (do_connect h p).
Proof. apply since_call. intros w. apply keeps_entries; [apply connect_keeps|by apply redis_connect_known]. Qed.

Lemma since_reconnect w0 c : preserves (since w0) (do_reconnect c).
Proof. apply since_call. intros w. apply keeps_entries; [apply reconnect_keeps|by apply reconnect_known]. Qed.

Lemma since_free w0 c : preserves (since w0) (do_free c).
Proof. apply since_call. intros w. apply keeps_entries; [intros e; apply free_keeps|intros i; by apply free_known]. Qed.

Lemma since_free_reply w0 r : preserves (since w0) (do_free_reply r).
Proof.
  apply since_call. intros w.
  apply keeps_entries; [intros e; apply free_reply_keeps|intros i; by apply free_reply_known].
Qed.

Lemma since_auth w0 c args : preserves (since w0) (do_command c AUTH args).
Proof.
  apply since_call. intros w.
  apply keeps_entries; [intros e; apply command_keeps; by left|intros i; by apply command_known].
Qed.

Lemma since_xadd w0 c d : preserves (since w0) (run_xadd c d).
Proof.
  apply since_call. intros w.
  apply keeps_entries; [intros e; apply xadd_keeps|intros i; by apply command_known].
Qed.

Lemma since_push w0 ec : preserves (since w0) (modify (set_members (push_back ec))).
Proof. by apply preserves_modify. Qed.

#[local] Hint Resolve since_connect since_reconnect since_free since_free_reply since_auth since_xadd
  since_push : preserved.

Lemma findConnection_since w0 t : preserves (since w0) (findConnection t).
Proof. unfold findConnection, createConnection, authenticate. solve_preserves. Qed.

Lemma reconnect_since w0 c : preserves (since w0) (reconnect c).
Proof. unfold reconnect, authenticate. solve_preserves. Qed.

#[local] Hint Resolve findConnection_since reconnect_since : preserved.

Lemma write_since w0 t d : preserves (since w0) (RedisWriter_write t d).
Proof. unfold RedisWriter_write, check_reply. solve_preserves. Qed.

(** What an answer without an error says. *)
Definition answered (w0 : W) (d : string) (r : option replyPtr) (s : writer) : Prop :=
  forall p, r = Some p -> type (deref p) <> REDIS_REPLY_ERROR -> Store.added redis_held known (bytes_of d) w0 (world s).

Lemma run_xadd_answered w0 c d s :
  since w0 s ->
  wp (run_xadd c d)
    (fun r s' => answered w0 d r s' /\ (r = None <-> err (world s') c <> REDIS_OK)) (fun _ _ => False) s.
Proof.
  intros Hs. apply wp_call. split; [|apply command_error]. intros p Hp Hne. cbn [world].
  destruct (xadd_adds c d (world s) p Hp Hne) as (e & He & Hf & Hk). exists (entry_message e).
  split_and!; [|by exists e|by intros ?%Hs].
  unfold entry_message, entry_data. cbn. by rewrite Hf.
Qed.

Lemma check_reply_answered w0 c r d s :
  answered w0 d r s -> (r = None <-> err (world s) c <> REDIS_OK) ->
  wp (check_reply c r)
    (fun res s' => write_error res = WRITE_OK -> Store.added redis_held known (bytes_of d) w0 (world s'))
    (fun _ _ => False) s.
Proof.
  intros Ha He. unfold check_reply. wp_steps. intros Hok. unfold set_members. cbn [world].
  assert (Hadd : Store.added redis_held known (bytes_of d) w0 (world s)).
  { destruct r as [p|]; cbn [is_error_reply] in Hok.
    - case_bool_decide as Ht; [done|]. by apply (Ha p).
    - assert (Hn : err (world s) c <> REDIS_OK) by by apply He. by destruct (err (world s) c). }
  destruct Hadd as (m & Hm & (e & Hin & ->) & Hk). exists (entry_message e).
  split_and!; [done| |done]. exists e. split; [by apply free_reply_keeps|done].
Qed.

Lemma write_answered t d s :
  wp (RedisWriter_write t d)
    (fun res s' => write_error res = WRITE_OK -> Store.added redis_held known (bytes_of d) (world s) (world s'))
    (fun _ _ => True) s.
Proof.
  set (w0 := world s). assert (H0 : since w0 s) by by unfold since.
  assert (Hinv : forall A (m : prog writer A) s1, preserves (since w0) m -> safe m -> since w0 s1 ->
            wp m (fun _ s' => since w0 s') (fun _ _ => True) s1).
  { intros A m s1 Hp Hd Hs1. specialize (Hp s1 Hs1). specialize (Hd s1). unfold wp.
    by destruct (m s1) as [[a|e|] s2]. }
  unfold RedisWriter_write. apply wp_bind.
  eapply wp_mono; [apply Hinv; [apply findConnection_since| |done]|intros r s1 H1; cbn beta|done].
  { unfold findConnection, createConnection, authenticate. solve_defined. }
  destruct (checked r) as [c|]; [|by wp_steps].
  apply wp_bind. eapply wp_mono;
    [apply (wp_invariant (since w0)); [apply since_xadd|done|by apply (run_xadd_answered w0)]
    |intros x s2 [[Ha He] H2]; cbn beta|by intros e s2 []].
  apply wp_bind, wp_gets. case_decide as Hd.
  - apply wp_bind. eapply wp_mono; [apply Hinv; [apply since_free_reply|solve_defined|done]|intros ? s3 H3; cbn beta|done].
    apply wp_bind. eapply wp_mono; [apply Hinv; [apply reconnect_since| |done]|intros r' s4 H4; cbn beta|done].
    { unfold reconnect, authenticate. solve_defined. }
    destruct (checked r') as [c'|]; [|by wp_steps].
    apply wp_bind. eapply wp_mono; [by apply (run_xadd_answered w0)|intros y s5 [Ha' He']; cbn beta|by intros e s5 []].
    eapply wp_mono; [by apply check_reply_answered|done|done].
  - eapply wp_mono; [by apply check_reply_answered|done|done].
Qed.

#[export] Instance redis_store_writer : StoreWriter redis_held known (M := RedisWriter) confirmed balanced.
Proof.
  split; [done|done|]. intros t d s Hs.
  destruct (write_returns (stored := confirmed) (good := balanced) t d s Hs) as (r & s' & Hw & Hl).
  pose proof (write_good (stored := confirmed) (good := balanced) t d s Hs) as Hg.
  pose proof (write_answered t d s) as Ha. pose proof (write_since (world s) t d s) as Hk.
  unfold write, RedisWriter_writer in *. unfold wp in Ha. rewrite Hw in Ha, Hg, Hk.
  exists r, s'. split_and!; [done|done| |done|done]. apply Hk. by unfold since.
Qed.

(** ** The producer *)

Definition knows (i : Z) (s : producer) : Prop := known (world s) i.

Lemma knows_connect i h p : preserves (knows i) (do_connect h p).
Proof. apply preserves_call. intros s Hs. unfold knows in *. by apply redis_connect_known. Qed.

Lemma knows_reconnect i c : preserves (knows i) (do_reconnect c).
Proof. apply preserves_call. intros s Hs. unfold knows in *. by apply reconnect_known. Qed.

Lemma knows_free i c : preserves (knows i) (do_free c).
Proof. apply preserves_call. intros s Hs. unfold knows in *. by apply free_known. Qed.

Lemma knows_command i c f args : preserves (knows i) (do_command c f args).
Proof. apply preserves_call. intros s Hs. unfold knows in *. by apply command_known. Qed.

Lemma knows_set_connection i c : preserves (knows i) (modify (set_members (set_connection c))).
Proof. by apply preserves_modify. Qed.

#[local] Hint Resolve knows_connect knows_reconnect knows_free knows_command knows_set_connection : preserved.

Lemma redis_getConnection_knows i : preserves (knows i) getConnection.
Proof. unfold getConnection. cbn [getConnection_at]. unfold authenticate_with, runCommand. solve_preserves. Qed.

#[local] Hint Resolve redis_getConnection_knows : preserved.

Lemma producer_reconnect_knows i : preserves (knows i) RedisProducer.reconnect.
Proof. unfold RedisProducer.reconnect, RedisProducer.authenticate, authenticate_with, runCommand. solve_preserves. Qed.

#[local] Hint Resolve producer_reconnect_knows : preserved.

#[export] Instance redis_store_producer : StoreProducer redis_held known (M := RedisProducer).
Proof.
  split; [exact (RedisProducer_laws stream)|..].
  - intros p i Hi. revert p Hi. change (preserves (knows i) RedisProducer_getNext).
    unfold RedisProducer_getNext, run_xrange, RedisProducer.check_reply, runCommand. solve_preserves.
  - intros ms p i Hi. revert p Hi. change (preserves (knows i) (RedisProducer_markConsumed ms)).
    unfold RedisProducer_markConsumed, RedisProducer.check_reply, runCommand. solve_preserves.
Qed.
End store.

(** ** A reference server with XADD

    The ids of the entries are the numbers of a clock, with the sequence number 0. When the clock leaves
    the range of the packing, XADD is answered with an error. *)

Record stream_server : Type := mkStreamServer {
  ss_entries : list entry;
  ss_used : list Z;            (** the packed ids entries have had *)
  ss_clock : Z
}.

Definition packed (e : entry) : Z := id (entry_message e).

Definition ss_ok (w : stream_server) : Prop :=
  StronglySorted entry_lt (ss_entries w) /\ Forall entry_ok (ss_entries w) /\
  Forall (fun e => ts e < ss_clock w) (ss_entries w) /\ 0 <= ss_clock w /\
  Forall (fun e => packed e ∈ ss_used w) (ss_entries w) /\
  Forall (fun i => i < pack_id (ss_clock w) 0) (ss_used w).

#[export] Instance ss_ok_dec w : Decision (ss_ok w).
Proof. unfold ss_ok. apply _. Defined.

Definition ss_stream (w : stream_server) : list entry := if decide (ss_ok w) then ss_entries w else [].
Definition ss_known (w : stream_server) (i : Z) : Prop := i ∈ ss_used w.

Definition ss_add (d : string) (w : stream_server) : option replyPtr * stream_server :=
  let e := mkEntry (ss_clock w) 0 [(DATA_FIELD, d)] in
  if decide (ss_ok w /\ ss_clock w + 1 < 2 ^ 42)
  then (Some (mkReplyPtr 1 (Reply REDIS_REPLY_STRING (entry_id e) [])),
        mkStreamServer (ss_entries w ++ [e]) (packed e :: ss_used w) (ss_clock w + 1))
  else (Some (mkReplyPtr 1 reply_error), w).

Definition ss_delete (ids : list string) (w : stream_server) : stream_server :=
  mkStreamServer (filter (fun e => entry_id e ∉ ids) (ss_entries w)) (ss_used w) (ss_clock w).

Definition ss_command (f : string) (args : list fmt_arg) (w : stream_server) :
    option replyPtr * stream_server :=
  if decide (f = AUTH) then (Some (mkReplyPtr 1 (Reply (reply_type_other 5) "OK" [])), w)
  else if decide (f = XRANGE) then
    match args with
    | [_; arg_u n] => (Some (mkReplyPtr 1 (reply_stream (take (Z.to_nat n) (ss_stream w)))), w)
    | _ => (Some (mkReplyPtr 1 reply_error), w)
    end
  else if decide (f = XADD) then
    match args with
    | [_; _; arg_b d] => ss_add d w
    | _ => (Some (mkReplyPtr 1 reply_error), w)
    end
  else
    match of_chars <$> split_on space (chars f) with
    | _ :: _ :: ids => (Some (mkReplyPtr 1 (Reply (reply_type_other 3) "" [])), ss_delete ids w)
    | _ => (Some (mkReplyPtr 1 reply_error), w)
    end.

#[export] Instance stream_hiredis : Hiredis stream_server := {|
  reply_type_code t := match t with
                       | REDIS_REPLY_STRING => 1
                       | REDIS_REPLY_ARRAY => 2
                       | REDIS_REPLY_ERROR => 6
                       | reply_type_other n => n
                       end;
  redisConnect _ _ w := (Some 1%positive, w);
  redisReconnect _ w := (REDIS_OK, w);
  redisCommand _ f args w := ss_command f args w;
  redisFree _ w := w;
  freeReplyObject _ w := w;
  err _ _ := REDIS_OK;
  errstr _ _ := ""
|}.

Lemma ss_stream_ok w : ss_ok w -> ss_stream w = ss_entries w.
Proof. intros. unfold ss_stream. by rewrite decide_True. Qed.

Lemma ss_stream_entry w e : e ∈ ss_stream w -> ss_ok w /\ e ∈ ss_entries w.
Proof. unfold ss_stream. case_decide; [done|]. by intros ?%elem_of_nil. Qed.

Lemma ss_delete_ok ids w : ss_ok w -> ss_ok (ss_delete ids w).
Proof.
  intros (H1 & H2 & H3 & H4 & H5 & H6). unfold ss_ok, ss_delete. cbn.
  assert (Hf : forall P : entry -> Prop, Forall P (ss_entries w) ->
            Forall P (filter (fun e => entry_id e ∉ ids) (ss_entries w))).
  { intros P HP. apply Forall_forall. rewrite Forall_forall in HP. intros e [_ He]%list_elem_of_filter. auto. }
  split_and!; auto. by apply StronglySorted_filter.
Qed.

(** A clock that has moved on gives larger packed ids. *)
Lemma pack_clock_lt t1 t2 : 0 <= t1 < t2 -> t2 < 2 ^ 42 -> pack_id t1 0 < pack_id t2 0.
Proof.
  intros H1 H2. unfold pack_id, wrap, TIMESTAMP_SHIFT. rewrite !Z.lor_0_r, !Z.shiftl_mul_pow2 by lia.
  rewrite !Z.mod_small by lia. lia.
Qed.

Lemma ss_add_ok d w : ss_ok w -> ss_ok (ss_add d w).2.
Proof.
  intros Hw. unfold ss_add. case_decide as Hd; [|done]. destruct Hd as [(H1 & H2 & H3 & H4 & H5 & H6) Hc].
  unfold ss_ok. cbn. split_and!; try lia.
  - apply StronglySorted_app. split_and!; [|done|repeat constructor].
    intros e1 e2 He1 ->%list_elem_of_singleton. rewrite Forall_forall in H3. left. cbn. by apply H3.
  - apply Forall_app. split; [done|]. repeat constructor; cbn; lia.
  - apply Forall_app. split; [|repeat constructor; cbn; lia]. eapply Forall_impl; [exact H3|]. cbn. lia.
  - apply Forall_app. split; [|repeat constructor; cbn; by left].
    eapply Forall_impl; [exact H5|]. cbn. by right.
  - constructor; [apply pack_clock_lt; lia|]. eapply Forall_impl; [exact H6|]. cbn. intros i Hi.
    pose proof (pack_clock_lt (ss_clock w) (ss_clock w + 1)). lia.
Qed.

(** The reference server on an XDEL command. *)
Lemma ss_xdel f ids w :
  is_xdel f ids ->
  ss_command f [] w = (Some (mkReplyPtr 1 (Reply (reply_type_other 3) "" [])), ss_delete ids w).
Proof.
  intros [Hp Hw]. unfold ss_command.
  rewrite !decide_False by (intros ->; apply Hp; unfold AUTH, XRANGE, XADD; cbn; set_solver).
  by rewrite Hw.
Qed.

#[export] Instance stream_server_server : RedisServer stream_server ss_stream.
Proof.
  split; try done.
  - intros w. unfold ss_stream. case_decide as Hw; [apply Hw|constructor].
  - intros w. unfold ss_stream. case_decide as Hw; [apply Hw|constructor].
  - intros c f args w e Hf He. assert ((redisCommand c f args w).2 = w) as ->; [|done].
    cbn -[decide]. unfold ss_command. by destruct Hf as [->| ->]; repeat case_match.
  - intros c n w p. cbn. by intros [= <-] _.
  - intros c f ids w e Hf He Hid. cbn. rewrite (ss_xdel f ids w Hf). cbn.
    apply ss_stream_entry in He as [Hw He]. rewrite ss_stream_ok by by apply ss_delete_ok.
    by apply list_elem_of_filter.
  - intros c f ids w p e Hf. cbn. rewrite (ss_xdel f ids w Hf). cbn.
    by intros _ _ [_ [? _]%list_elem_of_filter]%ss_stream_entry.
  - intros c f args w. cbn. unfold ss_command, ss_add. by repeat case_match.
Qed.

#[export] Instance stream_hiredis_laws : HiredisLaws stream_server.
Proof. intros c f args w. cbn. unfold ss_command, ss_add. repeat case_match; naive_solver. Qed.

Lemma ss_command_used f args w i : i ∈ ss_used w -> i ∈ ss_used (ss_command f args w).2.
Proof.
  intros Hi. unfold ss_command, ss_add. repeat case_match; cbn; try done. by right.
Qed.

#[export] Instance stream_server_inserts : RedisInserts stream_server ss_stream ss_known.
Proof.
  split; try done.
  - intros w e [(_ & _ & _ & _ & H & _) He]%ss_stream_entry. rewrite Forall_forall in H. by apply H.
  - intros c f args w i. apply ss_command_used.
  - intros c d w e He. change ((redisCommand c XADD (xadd_args d) w).2) with (ss_add d w).2.
    apply ss_stream_entry in He as [Hw He]. rewrite ss_stream_ok by by apply ss_add_ok.
    unfold ss_add. case_decide; [|done]. cbn. apply elem_of_app. by left.
  - intros c d w p. change (redisCommand c XADD (xadd_args d) w) with (ss_add d w).
    pose proof (ss_add_ok d w) as Hok. unfold ss_add in *. case_decide as Hd; [|by intros [= <-]].
    destruct Hd as [Hw Hc]. intros _ _. rewrite ss_stream_ok by by apply Hok. cbn.
    exists (mkEntry (ss_clock w) 0 [(DATA_FIELD, d)]). split_and!; [set_solver|done|].
    destruct Hw as (_ & _ & _ & _ & _ & H). rewrite Forall_forall in H. intros Hk%H. cbn in Hk. lia.
Qed.
