(* ===== verification/BackDrain.v ===== *)
(** * The back end empties its storage (gwback/src/main.cpp)

    [runLoop_no_loss] (BackMain) says what holds whatever fails. This file says what happens when nothing
    fails: [ProducerProgress] is a storage that answers and that no other client fills, over any producer,
    and [runLoop] then hands every message over exactly once and leaves the storage empty. *)

From S2P Require Import Prelude CommonConfig Message Pqxx PostgresProducer ChunkFile Consumer BackMain.
From S2P Require Import PostgresStore.

(** [healthy p]: the calls on [p] succeed; [backlog p]: the messages the storage holds, each once. *)
Class ProducerProgress (P : Type) `{!IProducer P} (stored : P -> Message -> Prop)
    (healthy : P -> Prop) (backlog : P -> Messages) : Prop := {
  backlog_exact : forall p, healthy p ->
    NoDup (backlog p) /\ forall m, m ∈ backlog p <-> stored p m;
  (** Reading succeeds, reads no message twice, and something when there is something. *)
  getNext_progress : forall p, healthy p ->
    exists ms p', getNext p = (Value ms, p') /\ healthy p' /\ NoDup ms /\
      (ms = [] -> backlog p = []) /\ forall m, stored p' m -> stored p m;
  markConsumed_progress : forall ms p, healthy p -> Forall in_u64 ms -> ms <> [] ->
    exists p', markConsumed ms p = (Value tt, p') /\ healthy p' /\ forall m, stored p' m -> stored p m
}.

Section drain.
Context {P : Type} `{!IProducer P} {T : Type} `{!Threads T}.
Context (stored : P -> Message -> Prop) `{!ProducerLaws P stored}.
Context (healthy : P -> Prop) (backlog : P -> Messages) `{!ProducerProgress P stored healthy backlog}.

(** The system starts every thread. *)
Definition threads_start : Prop := forall th : T, exists th', thread_create th = (inr tt, th').

Lemma flushBuffer_dropped d :
  threads_start -> preserves (fun s : env MessageConsumer T thread_event => dropped s = d) flushBuffer.
Proof.
  intros Hth s Hs. unfold flushBuffer, mbind, prog_bind, gets, modify, call_throwing.
  cbn [members world trace set_members]. destruct (Hth (world s)) as [th' Ht]. rewrite Ht. cbn.
  unfold dropped in *. cbn. by rewrite omap_app, Hs, app_nil_r.
Qed.

Lemma call_dropped d ms :
  threads_start ->
  preserves (fun s : env MessageConsumer T thread_event => dropped s = d) (MessageConsumer_call ms).
Proof.
  intros Hth. pose proof (flushBuffer_dropped d Hth) as Hf.
  assert (Hone : forall m, preserves (fun s : env MessageConsumer T thread_event => dropped s = d) (consume_one m)).
  { intros m. unfold consume_one. apply preserves_bind; [by apply preserves_modify|intros _].
    apply preserves_bind; [apply preserves_gets|intros c]. case_match; [done|apply preserves_ret]. }
  unfold MessageConsumer_call. apply preserves_bind; [|intros ?; apply preserves_ret].
  induction ms as [|m ms IH]; cbn [consume_loop]; [apply preserves_ret|].
  apply preserves_bind; [done|intros _]. apply preserves_bind; [done|intros ?; apply preserves_ret].
Qed.

Lemma iteration_dropped s :
  threads_start -> dropped (consumer (iteration s).2) = dropped (consumer s).
Proof.
  intros Hth. unfold iteration, try_catch, mbind, prog_bind, on_producer, on_consumer.
  destruct (getNext (producer s)) as [[ms|e|] p1]; [|done..].
  case_decide; [done|]. cbn. pose proof (call_dropped (dropped (consumer s)) ms Hth (consumer s) eq_refl) as Hd.
  destruct (MessageConsumer_call ms (consumer s)) as [[[ok ms']|e|] c']; cbn in Hd |- *; [|done..].
  destruct ok; [|done]. cbn. by destruct (markConsumed ms' p1) as [[[]|e|] p2].
Qed.

(** One iteration takes messages out of the backlog and hands them over. *)
Lemma iteration_drains s :
  threads_start -> consumer_ok (consumer s) -> healthy (producer s) ->
  exists s' ms,
    iteration s = (Value tt, s') /\ consumer_ok (consumer s') /\ healthy (producer s') /\
    dropped (consumer s') = dropped (consumer s) /\
    received (consumer s') = received (consumer s) ++ ms /\
    backlog (producer s) ≡ₚ ms ++ backlog (producer s') /\ (ms = [] -> backlog (producer s) = []).
Proof.
  intros Hth Hc Hh. destruct (iteration_spec stored s Hc) as (Hi & Hok & _ & _).
  pose proof (iteration_dropped s Hth) as Hdr.
  destruct (getNext_progress _ Hh) as (ms & p1 & Hg & Hh1 & Hnd & Hne & Hin).
  destruct (backlog_exact _ Hh) as [Hn Hb]. destruct (backlog_exact _ Hh1) as [Hn1 Hb1].
  assert (Hgv : (getNext (producer s)).1 = Value ms) by by rewrite Hg.
  assert (Hsame : backlog (producer s) ≡ₚ backlog p1).
  { apply NoDup_Permutation; [done..|]. intros m. rewrite Hb, Hb1. split; [|apply Hin].
    intros Hm. apply (getNext_keeps (producer s)) in Hm. by rewrite Hg in Hm. }
  destruct (decide (ms = [])) as [->|Hms].
  { exists (iteration s).2, []. rewrite (iteration_idle stored s) by (by rewrite Hgv). rewrite Hg. cbn.
    rewrite app_nil_r. split_and!; try done. }
  destruct (iteration_reads stored s ms Hc Hgv Hms)
    as (c' & [((_ & Hr & _) & _ & Hit)|((taken & rest & _ & _ & _ & _ & chunk & _ & Hd & _) & Hit)]).
  2:{ rewrite Hit, Hg in Hdr. cbn in Hdr. rewrite Hd in Hdr. apply (f_equal length) in Hdr.
      rewrite length_app in Hdr. cbn in Hdr. lia. }
  rewrite Hg in Hit. cbn in Hit. set (ms' := moved_from <$> ms) in *.
  assert (Hms' : ms' <> []) by by apply moved_nonempty.
  assert (Hu : Forall in_u64 ms') by (by eapply (moved_in_u64 stored)).
  destruct (markConsumed_progress ms' p1 Hh1 Hu Hms') as (p2 & Hm & Hh2 & Hin2).
  destruct (backlog_exact _ Hh2) as [Hn2 Hb2].
  rewrite Hm in Hit. cbn in Hit. exists (mkBack p2 c'), ms. rewrite Hit in Hok, Hdr. cbn in Hok, Hdr |- *.
  split_and!; try done. rewrite Hsame.
  pose proof (getNext_reads (producer s) ms Hgv) as Hreads. rewrite Hg, Forall_forall in Hreads. cbn in Hreads.
  assert (Hgone : forall m, stored p2 m -> m ∉ ms).
  { intros m Hst Hmm. assert (Hid : id m ∉ id <$> ms').
    { apply (markConsumed_deletes p1 ms' m Hu Hms'); by rewrite Hm. }
    apply Hid. unfold ms'. rewrite moved_ids. by apply list_elem_of_fmap_2. }
  apply NoDup_Permutation; [done| |].
  - apply NoDup_app. split_and!; [done| |done]. intros m Hmm Hst. by apply Hb2, Hgone in Hst.
  - intros m. rewrite elem_of_app, Hb1, Hb2. split.
    + intros Hst. destruct (marked_or_kept stored (producer s) ms m Hgv Hms) as [Hk|Hk]; [by apply Hin| |by left].
      right. rewrite Hg in Hk. cbn in Hk. fold ms' in Hk. by rewrite Hm in Hk.
    + intros [Hmm|Hst]; [by apply Hreads|by apply Hin2].
Qed.

(** C10: when nothing fails the back end empties the storage: as many iterations as there are messages are
    enough, and then the consumer has taken every message exactly once, with its data, and no chunk was
    lost; the storage holds nothing any more. *)
Theorem runLoop_drains (n : nat) (s : back P T) :
  threads_start -> consumer_ok (consumer s) -> healthy (producer s) ->
  (length (backlog (producer s)) <= n)%nat ->
  exists s',
    runLoop (replicate n true) s = (Value tt, s') /\
    backlog (producer s') = [] /\ (forall m, ~ stored (producer s') m) /\
    dropped (consumer s') = dropped (consumer s) /\
    received (consumer s') ≡ₚ received (consumer s) ++ backlog (producer s).
Proof.
  intros Hth. revert s. induction n as [|n IH]; intros s Hc Hh Hl.
  - assert (Hb : backlog (producer s) = []) by (destruct (backlog (producer s)); [done|cbn in Hl; lia]).
    exists s. rewrite Hb, app_nil_r. split_and!; try done. intros m Hm.
    apply backlog_exact in Hm; [|done]. rewrite Hb in Hm. by apply elem_of_nil in Hm.
  - destruct (iteration_drains s Hth Hc Hh) as (s1 & ms & Hi & Hc1 & Hh1 & Hd & Hr & Hp & Hne).
    destruct (IH s1 Hc1 Hh1) as (s' & Hrun & Hb & Hst & Hd' & Hr').
    { destruct ms as [|m ms]; [rewrite Hne in Hp by done|].
      - apply Permutation_nil_l in Hp. cbn in Hp. rewrite <-Hp. cbn. lia.
      - apply Permutation_length in Hp. rewrite length_app in Hp. cbn in Hp. lia. }
    exists s'. cbn [replicate runLoop]. unfold mbind, prog_bind. rewrite Hi. split_and!; try done.
    + by rewrite Hd'.
    + by rewrite Hr', Hr, Hp, <-app_assoc.
Qed.
End drain.

(** ** PostgreSQL, on the reference database *)

Abbreviation pg_producer := (env PostgresProducer insert_db (pg_event Message)).

Definition pg_healthy (p : pg_producer) : Prop :=
  1 <= PostgresProducer.chunkSize_ (members p) /\ db_ok (world p) /\ db_staged (world p) = [].

Definition pg_backlog (p : pg_producer) : Messages := db_rows (world p).

Lemma on_db_ok {A} (f : insert_db -> (exn + A) * insert_db) w : db_ok w -> on_db f w = f w.
Proof. intros Hw. unfold on_db. by rewrite decide_True. Qed.

Lemma getConnection_ok (p : pg_producer) :
  db_ok (world p) ->
  exists c p', PostgresProducer.getConnection p = (Value c, p') /\ world p' = world p /\
    PostgresProducer.chunkSize_ (members p') = PostgresProducer.chunkSize_ (members p).
Proof.
  intros Hw. unfold PostgresProducer.getConnection, mbind, prog_bind, gets.
  destruct (connection_ (members p)) as [c|]; [by exists c, p|].
  unfold call_throwing. cbn. rewrite on_db_ok by done. by eexists _, _.
Qed.

Lemma messages_of_rows_ok (rows : Messages) : messages_of_rows rows = Value rows.
Proof. induction rows as [|[i d] rows IH]; [done|]. cbn. by rewrite IH. Qed.

Lemma rows_nodup l : StronglySorted id_lt l -> NoDup l.
Proof.
  induction 1 as [|m l _ IH Hm]; constructor; [|done].
  intros Hin. rewrite Forall_forall in Hm. specialize (Hm m Hin). unfold id_lt in Hm. lia.
Qed.

(** After a transaction that was committed or rolled back. *)
Lemma pg_stored_rows (p p' : pg_producer) :
  db_ok (world p) -> db_ok (world p') ->
  (forall m, m ∈ db_rows (world p') -> m ∈ db_rows (world p)) ->
  forall m, pg_stored db_table p' m -> pg_stored db_table p m.
Proof. intros H1 H2 H m. unfold pg_stored. rewrite !db_table_ok by done. apply H. Qed.

Lemma pg_getNext_progress (p : pg_producer) :
  pg_healthy p ->
  exists p', getNext p = (Value (take (Z.to_nat (PostgresProducer.chunkSize_ (members p))) (db_rows (world p))), p') /\
    pg_healthy p' /\ db_rows (world p') = db_rows (world p).
Proof.
  intros (Hk & Hw & Hst). destruct (getConnection_ok p Hw) as (c & p1 & Hc & Hw1 & Hk1).
  set (w := db_rollback (world p)). assert (Hok : db_ok w) by by apply db_rollback_ok.
  cbn [getNext PostgresProducer_producer]. unfold PostgresProducer_getNext.
  unfold mbind at 1, prog_bind at 1. rewrite Hc. unfold mbind at 1, prog_bind at 1, call_throwing at 1.
  cbn [pqxx_work insert_pqxx]. rewrite Hw1, on_db_ok by done. cbn [of_sum]. unfold scoped.
  unfold mbind at 1, prog_bind at 1, gets. cbn [members world trace]. unfold mbind, prog_bind, call_throwing.
  cbn [exec_params insert_pqxx world]. fold w. rewrite on_db_ok by done. cbn [of_sum]. unfold lift.
  rewrite messages_of_rows_ok, Hk1. eexists. split; [reflexivity|]. unfold end_work. cbn [members world trace].
  cbn [work_end insert_pqxx]. rewrite decide_True by done. split; [|done].
  split_and!; [cbn; by rewrite Hk1|by apply db_rollback_ok|done].
Qed.

Lemma pg_markConsumed_progress (ms : Messages) (p : pg_producer) :
  pg_healthy p -> Forall in_u64 ms -> ms <> [] ->
  exists p', markConsumed ms p = (Value tt, p') /\ pg_healthy p' /\
    forall m, m ∈ db_rows (world p') -> m ∈ db_rows (world p).
Proof.
  intros (Hk & Hw & Hst) Hms Hne. destruct (getConnection_ok p Hw) as (c & p1 & Hc & Hw1 & Hk1).
  destruct (delete_query_ids ms Hne Hms) as (q & Hq & Hd).
  set (w := db_rollback (world p)). assert (Hok : db_ok w) by by apply db_rollback_ok.
  set (w2 := mkInsertDb (db_rows w) [] (deleted_ids q) (db_dead w) (db_used w) (db_next w)).
  assert (Hdel : db_delete (deleted_ids q) w = (inr [], w2)) by (unfold db_delete; by rewrite decide_True).
  assert (Hok2 : db_ok w2) by (pose proof (db_delete_ok (deleted_ids q) w Hok) as H; by rewrite Hdel in H).
  cbn [markConsumed PostgresProducer_producer]. unfold PostgresProducer_markConsumed.
  unfold mbind at 1, prog_bind at 1. rewrite Hc. unfold mbind at 1, prog_bind at 1, call_throwing at 1.
  cbn [pqxx_work insert_pqxx]. rewrite Hw1, on_db_ok by done. cbn [of_sum]. unfold scoped.
  unfold mbind at 1, prog_bind at 1, lift. rewrite Hq. unfold mbind, prog_bind, call_throwing.
  cbn [exec insert_pqxx world members trace]. fold w. rewrite on_db_ok, Hdel by done. cbn [of_sum].
  cbn [commit insert_pqxx world members trace]. rewrite on_db_ok by done. unfold db_commit at 1.
  cbn [of_sum]. eexists. split; [reflexivity|]. unfold end_work. cbn [members world trace].
  cbn [work_end insert_pqxx]. rewrite decide_True by exact (db_commit_ok w2 Hok2). split.
  - split_and!; [cbn; by rewrite Hk1|exact (db_rollback_ok _ (db_commit_ok w2 Hok2))|done].
  - intros m. cbn. rewrite app_nil_r. by intros [_ Hm]%list_elem_of_filter.
Qed.

#[export] Instance pg_progress : ProducerProgress pg_producer (pg_stored db_table) pg_healthy pg_backlog.
Proof.
  split.
  - intros p (_ & Hw & _). unfold pg_backlog, pg_stored. rewrite db_table_ok by done. split; [|done].
    by apply rows_nodup, db_ok_rows.
  - intros p Hp. destruct (pg_getNext_progress p Hp) as (p' & Hg & Hp' & Hr). destruct Hp as (Hk & Hw & _).
    eexists _, p'. split; [exact Hg|]. split_and!; [done|..].
    + eapply sublist_NoDup; [by apply rows_nodup, db_ok_rows|apply sublist_take].
    + unfold pg_backlog. destruct (db_rows (world p)), (Z.to_nat _) eqn:E; try done. lia.
    + apply pg_stored_rows; [done|by apply Hp'|]. by rewrite Hr.
  - intros ms p Hp Hms Hne. destruct (pg_markConsumed_progress ms p Hp Hms Hne) as (p' & Hm & Hp' & Hr).
    exists p'. split_and!; [done|done|]. apply pg_stored_rows; [by apply Hp|by apply Hp'|done].
Qed.

(** A system that starts every thread. *)
#[local] Instance always_starts : Threads unit := fun th => (inr tt, th).

(** Three messages, read two at a time, in chunks of two: one thread and a rest in the buffer. *)
Definition drain_sample : back pg_producer unit :=
  mkBack (Env (mkPostgresProducer "host=db" 2 None)
            (mkInsertDb [mkMessage 3 [104; 105]; mkMessage 7 []; mkMessage 8 [10]] [] [] [] [3; 7; 8] 9) [])
    (Env (mkMessageConsumer 2 "out" []) tt []).

Lemma runLoop_drains_witness :
  exists s',
    runLoop (replicate 3 true) drain_sample = (Value tt, s') /\
    pg_backlog (producer s') = [] /\ (forall m, ~ pg_stored db_table (producer s') m) /\
    dropped (consumer s') = [] /\
    received (consumer s') ≡ₚ [mkMessage 3 [104; 105]; mkMessage 7 []; mkMessage 8 [10]].
Proof.
  apply (runLoop_drains (pg_stored db_table) pg_healthy pg_backlog 3 drain_sample).
  - intros th. by exists th.
  - repeat constructor.
  - split_and!; [cbn; lia|by apply (bool_decide_unpack _); vm_compute|done].
  - cbn. lia.
Defined.
