(* ===== verification/HttpSession.v ===== *)
(** * The HTTP session (gwfront/src/http/session)

    Boost.Asio and Boost.Beast are not part of the repository. What they do is modelled at the calls
    of the session: a request and a response are records of the parts the code reads and sets, an
    asynchronous operation is started and later completes with an error code, and the operation in
    flight keeps the session alive. A session runs one callback at a time. *)

From S2P Require Import Prelude Handler.

(** [http::verb] and [http::status], as far as the code names them. *)
Inductive verb : Type := post | other_verb (name : string).

Inductive status : Type :=
| ok_status                        (** of a new response *)
| accepted | bad_request | method_not_allowed | internal_server_error | service_unavailable.

#[export] Instance verb_eq_dec : EqDecision verb.
Proof. solve_decision. Defined.
#[export] Instance status_eq_dec : EqDecision status.
Proof. solve_decision. Defined.

(** [error_code]: the values the code names, and any other with its message. *)
Inductive error_code : Type := end_of_stream | connection_reset | other_error (message : string).

#[export] Instance error_code_eq_dec : EqDecision error_code.
Proof. solve_decision. Defined.

Record request : Type := mkRequest {
  method : verb;
  target : string;
  body : string;
  version : Z;
  keep_alive : bool
}.

Record response : Type := mkResponse {
  result : status;
  content_type : option string;
  response_body : string;
  response_version : Z;
  response_keep_alive : bool;
  (** [prepare_payload] was called on this body *)
  payload_prepared : bool
}.

Definition empty_request : request := mkRequest (other_verb "") "" "" 11 true.
Definition empty_response : response := mkResponse ok_status None "" 11 true false.

Definition INSTRUMENT_PATH : string := "/instrument".
Definition JSON_CONTENT_TYPE : string := "text/json".

(** The operation in flight. *)
Inductive operation : Type := async_read | async_write.

(** What the session asked the stream to do. *)
Inductive stream_event : Type :=
| StartRead (timeout : Z)
| StartWrite (r : response)
| ShutdownSend
| CloseSocket.

Record HttpSession (H : Type) : Type := mkHttpSession {
  timeout_ : Z;
  handler_ : H;
  request_ : request;
  response_ : response;
  in_flight : option operation;
  stream_trace : list stream_event
}.
Arguments mkHttpSession {H}.
Arguments timeout_ {H}.
Arguments handler_ {H}.
Arguments request_ {H}.
Arguments response_ {H}.
Arguments in_flight {H}.
Arguments stream_trace {H}.

(** [R"({"error": ")" + message + R"("})"] *)
Definition error_body (message : string) : string :=
  "{" +:+ dquote +:+ "error" +:+ dquote +:+ ": " +:+ dquote +:+ message +:+ dquote +:+ "}".

Section session.
Context {H : Type} `{!IHandler H}.

Definition set_request (r : request) (s : HttpSession H) : HttpSession H :=
  mkHttpSession (timeout_ s) (handler_ s) r (response_ s) (in_flight s) (stream_trace s).
Definition set_response (r : response) (s : HttpSession H) : HttpSession H :=
  mkHttpSession (timeout_ s) (handler_ s) (request_ s) r (in_flight s) (stream_trace s).
Definition set_handler (h : H) (s : HttpSession H) : HttpSession H :=
  mkHttpSession (timeout_ s) h (request_ s) (response_ s) (in_flight s) (stream_trace s).
Definition emit (o : option operation) (ev : stream_event) (s : HttpSession H) : HttpSession H :=
  mkHttpSession (timeout_ s) (handler_ s) (request_ s) (response_ s) o (stream_trace s ++ [ev]).

(** The constructor; [remote_endpoint] throws when the peer is gone. *)
Definition HttpSession_init (remote_endpoint : exn + string) (timeout : Z) (handler : H) :
    outcome (HttpSession H) :=
  _ ← of_sum remote_endpoint;
  mret (mkHttpSession timeout handler empty_request empty_response None []).

Definition close : prog (HttpSession H) unit := modify (emit None ShutdownSend).

Definition read : prog (HttpSession H) unit :=
  modify (set_request empty_request) ;;
  timeout ← gets timeout_;
  modify (emit (Some async_read) (StartRead timeout)).

(** [run]: the dispatched call of [read]. *)
Definition run : prog (HttpSession H) unit := read.

Definition call_handler (t : thread_id) (data : string) : prog (HttpSession H) Result := fun s =>
  let '(o, h) := handle t data (handler_ s) in (o, set_handler h s).

Definition handleRequest (t : thread_id) : prog (HttpSession H) unit :=
  req ← gets request_;
  let response := mkResponse ok_status (Some JSON_CONTENT_TYPE) "" (version req) (keep_alive req) false in
  let with_result r b :=
    mkResponse r (content_type response) b (response_version response) (response_keep_alive response)
      false in
  response ←
    (if decide (method req <> post) then
       mret (with_result method_not_allowed (error_body "wrong HTTP method"))
     else if decide (target req <> INSTRUMENT_PATH) then
       mret (with_result bad_request (error_body "wrong path"))
     else
       result ← call_handler t (body req);
       match error result with
       | OK => mret (with_result accepted "")
       | BAD_DATA => mret (with_result bad_request (error_body (message result)))
       | STORAGE_UNAVAILABLE =>
           mret (with_result service_unavailable (error_body (message result)))
       | GENERIC => mret (with_result internal_server_error (error_body (message result)))
       end);
  modify (set_response
    (mkResponse (result response) (content_type response) (response_body response)
       (response_version response) (response_keep_alive response) true)).

(** [onRead], on the thread [t] that runs the callback. *)
Definition onRead (t : thread_id) (ec : option error_code) : prog (HttpSession H) unit :=
  match ec with
  | Some end_of_stream | Some connection_reset => close
  | Some _ => close
  | None =>
      handleRequest t ;;
      response ← gets response_;
      modify (emit (Some async_write) (StartWrite response))
  end.

Definition onWrite (ec : option error_code) : prog (HttpSession H) unit :=
  match ec with
  | Some _ => close
  | None =>
      response ← gets response_;
      if response_keep_alive response then read else close
  end.

(** The destructor. *)
Definition HttpSession_destroy : prog (HttpSession H) unit := modify (emit None CloseSocket).

(** ** The session as a state machine *)

(** An operation completes on a thread. Beast has stored the request it read in [request_]. *)
Inductive completion : Type :=
| ReadDone (t : thread_id) (ec : option error_code) (req : request)
| WriteDone (t : thread_id) (ec : option error_code).

(** The end of a callback: when it has started no operation, the last pointer to the session is gone. *)
Definition release : prog (HttpSession H) unit :=
  o ← gets in_flight;
  match o with
  | None => HttpSession_destroy
  | Some _ => mret tt
  end.

(** The session takes the completion of the operation in flight. *)
Definition on_completion (ev : completion) : prog (HttpSession H) unit :=
  o ← gets in_flight;
  match o, ev with
  | Some async_read, ReadDone t ec req => modify (set_request req) ;; onRead t ec ;; release
  | Some async_write, WriteDone t ec => onWrite ec ;; release
  | _, _ => mret tt
  end.

Fixpoint run_session (evs : list completion) : prog (HttpSession H) unit :=
  match evs with
  | [] => mret tt
  | ev :: evs' => on_completion ev ;; run_session evs'
  end.

(** ** One request *)

(** The request goes to the handler. *)
Definition is_instrument (req : request) : Prop := method req = post /\ target req = INSTRUMENT_PATH.

#[export] Instance is_instrument_dec req : Decision (is_instrument req).
Proof. unfold is_instrument. apply _. Defined.

(** The status of a handler's answer. *)
Definition status_of (e : Error) : status :=
  match e with
  | OK => accepted
  | GENERIC => internal_server_error
  | BAD_DATA => bad_request
  | STORAGE_UNAVAILABLE => service_unavailable
  end.

(** C26: every request gets one complete answer with its own version and keep-alive, of JSON type: 405
    to anything but a POST, 400 to another path, and for the instrument path the status of the
    handler's answer, 202 with an empty body exactly when the handler answers OK, otherwise a body
    with the message. The handler is called once with the body of the request, and only in the last
    case. Nothing is sent yet. *)
Theorem handleRequest_result (t : thread_id) (s : HttpSession H) (r : Result) (h' : H) :
  let req := request_ s in
  (is_instrument req -> handle t (body req) (handler_ s) = (Value r, h')) ->
  exists s', handleRequest t s = (Value tt, s') /\
    request_ s' = req /\ in_flight s' = in_flight s /\ stream_trace s' = stream_trace s /\
    handler_ s' = (if decide (is_instrument req) then h' else handler_ s) /\
    let resp := response_ s' in
    response_version resp = version req /\ response_keep_alive resp = keep_alive req /\
    content_type resp = Some "text/json" /\ payload_prepared resp = true /\
    (is_instrument req -> result resp = status_of (error r) /\
       response_body resp = if decide (error r = OK) then "" else error_body (message r)) /\
    (method req <> post -> result resp = method_not_allowed) /\
    (method req = post -> target req <> INSTRUMENT_PATH -> result resp = bad_request) /\
    (result resp = accepted <-> is_instrument req /\ error r = OK).
Proof.
  cbv zeta. unfold is_instrument. intros Hh.
  unfold handleRequest, mbind, prog_bind, gets, modify, call_handler.
  destruct (decide (method (request_ s) <> post)) as [Hm|Hm].
  { eexists. split; [reflexivity|]. rewrite decide_False by naive_solver. cbn.
    split_and!; try done; naive_solver. }
  apply dec_stable in Hm. destruct (decide (target (request_ s) <> INSTRUMENT_PATH)) as [Ht|Ht].
  { eexists. split; [reflexivity|]. rewrite decide_False by naive_solver. cbn.
    split_and!; try done; naive_solver. }
  apply dec_stable in Ht. rewrite Hh by done. rewrite decide_True by done.
  destruct (error r) eqn:He; (eexists; split; [reflexivity|]); cbn; rewrite ?He; cbn;
    split_and!; try done; naive_solver.
Qed.

(** ** The whole session *)

(** The order of the calls on the stream, with the requests answered so far and their answers: a read
    first, after each read one answer, after an answer to a keep-alive request the next read, and a
    shutdown at the end, after which nothing is in flight and nothing is started. *)
Inductive protocol (timeout : Z) :
    option operation -> list stream_event -> list (request * response) -> Prop :=
| protocol_start : protocol timeout (Some async_read) [StartRead timeout] []
| protocol_answer tr xs req resp :
    protocol timeout (Some async_read) tr xs ->
    response_keep_alive resp = keep_alive req ->
    protocol timeout (Some async_write) (tr ++ [StartWrite resp]) (xs ++ [(req, resp)])
| protocol_next tr xs req resp :
    protocol timeout (Some async_write) tr (xs ++ [(req, resp)]) -> keep_alive req = true ->
    protocol timeout (Some async_read) (tr ++ [StartRead timeout]) (xs ++ [(req, resp)])
| protocol_end o tr xs :
    protocol timeout (Some o) tr xs -> protocol timeout None (tr ++ [ShutdownSend; CloseSocket]) xs.

(** The bodies of the requests that were answered with 202. *)
Definition accepted_bodies (xs : list (request * response)) : list (list Z) :=
  (fun x => bytes_of (body x.1)) <$> filter (fun x => result x.2 = accepted) xs.

(** The requests Beast read. *)
Definition read_requests (evs : list completion) : list request :=
  omap (fun ev => match ev with ReadDone _ None req => Some req | _ => None end) evs.

Section laws.
Context (stored : H -> list (list Z)) (good : H -> Prop) `{!HandlerLaws H stored good}.

Lemma handleRequest_spec t s :
  good (handler_ s) ->
  exists resp h', handleRequest t s =
      (Value tt, mkHttpSession (timeout_ s) h' (request_ s) resp (in_flight s) (stream_trace s)) /\
    good h' /\ response_keep_alive resp = keep_alive (request_ s) /\
    stored h' = stored (handler_ s) ++ accepted_bodies [(request_ s, resp)].
Proof.
  intros Hg. unfold handleRequest, mbind, prog_bind, gets, modify, call_handler, accepted_bodies.
  destruct (decide (method (request_ s) <> post));
    [|destruct (decide (target (request_ s) <> INSTRUMENT_PATH))].
  1,2: eexists _, (handler_ s); split; [reflexivity|]; by cbn; rewrite app_nil_r.
  destruct (handle_returns t (body (request_ s)) (handler_ s) Hg) as (r & h' & -> & Hg' & Hst).
  destruct (error r) eqn:He; (eexists _, h'; split; [reflexivity|]); cbn; rewrite Hst;
    by rewrite ?app_nil_r.
Qed.

(** [s] is in the middle of a session that has answered the exchanges [xs]. While an answer is written
    it is still in [response_]. *)
Definition session_ok (timeout : Z) (xs : list (request * response)) (s : HttpSession H) : Prop :=
  timeout_ s = timeout /\ protocol timeout (in_flight s) (stream_trace s) xs /\
  (in_flight s = Some async_write -> exists xs' req, xs = xs' ++ [(req, response_ s)] /\
     response_keep_alive (response_ s) = keep_alive req).

Lemma accepted_bodies_app xs ys : accepted_bodies (xs ++ ys) = accepted_bodies xs ++ accepted_bodies ys.
Proof. unfold accepted_bodies. by rewrite filter_app, fmap_app. Qed.

(** From the state [s] the session answers the exchanges [ys] and is then in the state [s']. *)
Definition session_answers (timeout : Z) (xs ys : list (request * response))
    (s s' : HttpSession H) (reqs : list request) : Prop :=
  session_ok timeout (xs ++ ys) s' /\ good (handler_ s') /\
  stored (handler_ s') = stored (handler_ s) ++ accepted_bodies ys /\
  (fst <$> ys) `sublist_of` reqs.

Lemma session_answers_none timeout xs s s' reqs :
  session_ok timeout xs s' -> good (handler_ s) -> handler_ s' = handler_ s ->
  session_answers timeout xs [] s s' reqs.
Proof.
  intros Hs Hg He. unfold session_answers. rewrite He, !app_nil_r.
  split_and!; [done|done|done|apply sublist_nil_l].
Qed.

Lemma on_completion_answers timeout xs ev s :
  session_ok timeout xs s -> good (handler_ s) ->
  exists s' ys, on_completion ev s = (Value tt, s') /\
    session_answers timeout xs ys s s' (read_requests [ev]).
Proof.
  intros Hs Hg. pose proof Hs as (Ht & Hp & Hw).
  assert (Hstay : exists s' ys, (Value tt, s) = (Value tt, s') /\
    session_answers timeout xs ys s s' (read_requests [ev])).
  { exists s, []. split; [done|]. by apply session_answers_none. }
  assert (Hclose : forall s1, timeout_ s1 = timeout_ s -> handler_ s1 = handler_ s ->
    stream_trace s1 = stream_trace s -> is_Some (in_flight s) ->
    exists s' ys, (close ;; release) s1 = (Value tt, s') /\ session_answers timeout xs ys s s' (read_requests [ev])).
  { intros s1 E1 E2 E3 [o Ho]. eexists _, []. split; [reflexivity|].
    apply session_answers_none; [|done|done]. unfold session_ok. cbn. rewrite E1, E3.
    split_and!; [done| |done]. rewrite Ho in Hp. rewrite <-app_assoc. by eapply protocol_end. }
  unfold on_completion, mbind, prog_bind, gets. destruct (in_flight s) as [[|]|] eqn:Hf;
    [destruct ev as [t ec req|t ec]| destruct ev as [t ec req|t ec]|done]; try done.
  - unfold modify. destruct ec as [[| |e]|]; cbn [onRead]; try (by apply Hclose).
    set (s1 := set_request req s). destruct (handleRequest_spec t s1 Hg) as (resp & h' & Hr & Hg' & Hk & Hst).
    unfold mbind, prog_bind. rewrite Hr. unfold gets, modify. eexists _, [(req, resp)].
    split; [reflexivity|]. unfold session_answers. cbn. split_and!; try done.
    unfold session_ok. cbn. split_and!; [done|by apply protocol_answer|]. intros _. by exists xs, req.
  - destruct ec as [e|]; cbn [onWrite]; [by apply Hclose|].
    unfold mbind, prog_bind, gets. destruct (Hw eq_refl) as (xs' & req & -> & Hk).
    destruct (response_keep_alive (response_ s)); [|by apply Hclose].
    eexists _, []. split; [reflexivity|]. apply session_answers_none; [|done|done].
    unfold session_ok. cbn. rewrite Ht. split_and!; [done|by apply protocol_next|done].
Qed.

Lemma run_session_answers timeout xs evs s :
  session_ok timeout xs s -> good (handler_ s) ->
  exists s' ys, run_session evs s = (Value tt, s') /\
    session_answers timeout xs ys s s' (read_requests evs).
Proof.
  revert xs s. induction evs as [|ev evs IH]; intros xs s Hs Hg.
  { exists s, []. split; [done|]. by apply session_answers_none. }
  destruct (on_completion_answers timeout xs ev s Hs Hg) as (s1 & ys & H1 & Hs1 & Hg1 & Hst1 & Hy).
  destruct (IH _ _ Hs1 Hg1) as (s2 & zs & H2 & Hs2 & Hg2 & Hst2 & Hz). exists s2, (ys ++ zs).
  cbn [run_session]. unfold mbind, prog_bind. rewrite H1, H2. split; [done|].
  unfold session_answers. rewrite Hst2, Hst1, accepted_bodies_app, fmap_app, !app_assoc.
  split_and!; [done|done|done|]. change (ev :: evs) with ([ev] ++ evs). unfold read_requests.
  rewrite omap_app. by apply sublist_app.
Qed.

Lemma run_ok s :
  in_flight s = None -> stream_trace s = [] ->
  exists s', run s = (Value tt, s') /\ session_ok (timeout_ s) [] s' /\ handler_ s' = handler_ s.
Proof.
  intros H1 H2. eexists. split; [reflexivity|]. unfold session_ok. cbn. rewrite H2.
  split_and!; [done|constructor|done|done].
Qed.

(** C25: whatever completes and however it fails, a session does not throw and keeps the order of the
    protocol: one operation in flight at most, every request it takes answered once, in order and
    before the next read, the next read only after a keep-alive request, one shutdown and one close at the end. The
    bodies answered with 202 are exactly the data that the storage confirmed, in order. *)
Theorem session_protocol (timeout : Z) (h0 : H) (evs : list completion) :
  good h0 ->
  exists s0 s' xs,
    HttpSession_init (inr "") timeout h0 = Value s0 /\
    (run ;; run_session evs) s0 = (Value tt, s') /\
    protocol timeout (in_flight s') (stream_trace s') xs /\
    (fst <$> xs) `sublist_of` read_requests evs /\
    stored (handler_ s') = stored h0 ++ accepted_bodies xs.
Proof.
  intros Hg. eexists. set (s1 := mkHttpSession timeout h0 empty_request empty_response (Some async_read)
    [StartRead timeout]).
  destruct (run_session_answers timeout [] evs s1) as (s' & xs & Hr & (_ & Hp & _) & _ & Hst & Hs);
    [unfold session_ok; by split_and!; try constructor|done|].
  exists s', xs. split_and!; [reflexivity|exact Hr|done|done|done].
Qed.
End laws.
End session.

(** ** The bodies of the errors *)

(** A character that stands for itself in a JSON string (RFC 8259: not a control character, a double
    quote or a backslash). *)
Definition unescaped (c : ascii) : bool :=
  (32 <=? byte_of c) && negb (byte_of c =? 34) && negb (byte_of c =? 92).

(** The message of a body that is a JSON object with the one field "error", written without escapes. *)
Definition error_text (b : string) : option string :=
  let prefix := "{" +:+ dquote +:+ "error" +:+ dquote +:+ ": " +:+ dquote in
  let '(text, rest) := span unescaped (drop (String.length prefix) (chars b)) in
  if decide (take (String.length prefix) (chars b) = chars prefix /\ rest = chars (dquote +:+ "}"))
  then Some (of_chars text) else None.

Lemma span_stops {A} (p : A -> bool) l x m :
  p x = false -> exists a b, span p (l ++ x :: m) = (a, b) /\
    (Forall (fun y => p y = true) l -> a = l /\ b = x :: m) /\
    (~ Forall (fun y => p y = true) l -> (S (length m) < length b)%nat).
Proof.
  intros Hx. induction l as [|y l (a & b & IH & H1 & H2)]; cbn [app span].
  { rewrite Hx. eexists _, _. split_and!; [done|done|]. intros []. constructor. }
  destruct (p y) eqn:Hy.
  - rewrite IH. eexists _, _. rewrite Forall_cons. split_and!; [done| |].
    + intros [_ Hl]. destruct (H1 Hl) as [-> ->]. done.
    + intros Hn. apply H2. intros Hl. by apply Hn.
  - eexists _, _. split_and!; [done| |].
    + intros Hl. apply Forall_cons in Hl as [Hl _]. congruence.
    + intros _. cbn. rewrite length_app. cbn. lia.
Qed.

(** Whether the message needs no escaping decides whether the body can be read back. *)
Lemma error_text_body (message : string) :
  error_text (error_body message) =
  if forallb unescaped (chars message) then Some message else None.
Proof.
  unfold error_text, error_body. set (prefix := "{" +:+ dquote +:+ "error" +:+ dquote +:+ ": " +:+ dquote).
  assert (Hb : chars ("{" +:+ dquote +:+ "error" +:+ dquote +:+ ": " +:+ dquote +:+ message +:+ dquote +:+ "}")
    = chars prefix ++ chars message ++ chars (dquote +:+ "}")).
  { unfold prefix. by rewrite !chars_app, <-!app_assoc. }
  rewrite Hb, <-length_chars, take_app_length, drop_app_length. clear Hb.
  change (chars (dquote +:+ "}")) with ([Ascii.ascii_of_nat 34; "}"%char]).
  destruct (span_stops unescaped (chars message) (Ascii.ascii_of_nat 34) ["}"%char] eq_refl)
    as (a & b & -> & H1 & H2).
  destruct (forallb unescaped (chars message)) eqn:Hf.
  - destruct H1 as [-> ->].
    { apply Forall_forall. intros x Hx. rewrite forallb_forall in Hf. by apply Hf, list_elem_of_In. }
    by rewrite decide_True, of_chars_chars by done.
  - apply decide_False. intros [_ ->]. cbn in H2.
    assert (2 < 2)%nat; [|lia]. apply H2. intros Hall.
    rewrite Forall_forall in Hall. apply (f_equal negb) in Hf. cbn in Hf.
    assert (forallb unescaped (chars message) = true); [|by rewrite H in Hf].
    apply forallb_forall. intros x Hx. by apply Hall, list_elem_of_In.
Qed.

(** C40: the message is put into the body as it is. The body is the JSON object with this message when
    the message has no character that JSON needs escaped; with a double quote, a backslash or a
    control character in it, as database errors have them, the body is not a JSON object with a string
    that stands for itself. *)
Theorem error_body_json (message : string) :
  error_text (error_body message) =
  if forallb unescaped (chars message) then Some message else None.
Proof. apply error_text_body. Qed.

(** ** Instances: a handler that stores every body that is not empty *)

#[export] Instance plain_handler : IHandler (list (list Z)) := fun _ data h =>
  if str_empty data then (Value (mkResult BAD_DATA "empty"), h)
  else (Value (mkResult OK ""), h ++ [bytes_of data]).

#[export] Instance plain_handler_laws : HandlerLaws (list (list Z)) (fun h => h) (fun _ => True).
Proof.
  intros t data s _. unfold handle, plain_handler.
  destruct (str_empty data); (eexists _, _; split_and!; [done|done|]); cbn; by rewrite ?app_nil_r.
Qed.

Definition sample_request (path data : string) (k : bool) : request := mkRequest post path data 11 k.

Definition sample_session : HttpSession (list (list Z)) :=
  mkHttpSession 30 [] (sample_request "/instrument" "hi" true) empty_response (Some async_read)
    [StartRead 30].

Example session_sample :
  let evs := [ReadDone 1 None (sample_request "/instrument" "hi" true); WriteDone 1 None;
              ReadDone 2 None (sample_request "/other" "x" false); WriteDone 2 None;
              ReadDone 1 None (sample_request "/instrument" "late" true)] in
  let s := ((run ;; run_session evs) (mkHttpSession 30 [] empty_request empty_response None [])).2 in
  handler_ s = [[104; 105]] /\ in_flight s = None /\
  omap (fun ev => match ev with StartWrite r => Some (result r) | _ => None end) (stream_trace s) =
    [accepted; bad_request].
Proof. vm_compute. split_and!; reflexivity. Qed.

Lemma handleRequest_result_witness :
  exists s', handleRequest 1 sample_session = (Value tt, s') /\
    request_ s' = request_ sample_session /\ in_flight s' = Some async_read /\
    stream_trace s' = [StartRead 30] /\
    handler_ s' = (if decide (is_instrument (request_ sample_session)) then [[104; 105]] else []) /\
    let resp := response_ s' in
    response_version resp = 11 /\ response_keep_alive resp = true /\
    content_type resp = Some "text/json" /\ payload_prepared resp = true /\
    (is_instrument (request_ sample_session) -> result resp = status_of OK /\
       response_body resp = if decide (OK = OK) then "" else error_body "") /\
    (method (request_ sample_session) <> post -> result resp = method_not_allowed) /\
    (method (request_ sample_session) = post ->
       target (request_ sample_session) <> INSTRUMENT_PATH -> result resp = bad_request) /\
    (result resp = accepted <-> is_instrument (request_ sample_session) /\ OK = OK).
Proof.
  exact (handleRequest_result 1 sample_session (mkResult OK "") [[104; 105]] (fun _ => eq_refl)).
Defined.

Lemma session_protocol_witness :
  exists s0 s' xs,
    HttpSession_init (inr "") 30 [] = Value s0 /\
    (run ;; run_session [ReadDone 1 None (sample_request "/instrument" "hi" true); WriteDone 1 None]) s0 =
      (Value tt, s') /\
    protocol 30 (in_flight s') (stream_trace s') xs /\
    (fst <$> xs) `sublist_of` [sample_request "/instrument" "hi" true] /\
    handler_ s' = [] ++ accepted_bodies xs.
Proof.
  exact (session_protocol (fun h => h) (fun _ => True) 30 []
    [ReadDone 1 None (sample_request "/instrument" "hi" true); WriteDone 1 None] I).
Defined.
