(* ===== verification/HttpServer.v ===== *)
(** * The HTTP server (gwfront/src/http/server)

    The acceptor, the worker threads and the sessions over one shared handler. Boost.Asio is the class
    [Asio], over an arbitrary state; the completions of its operations are an arbitrary sequence of
    events. The server refers to one handler and so do its sessions: a session runs on the handler
    state of the server and leaves its changes there. Here the calls of the main thread and the callbacks run
    one after the other; ServerThreads is about their interleaving. *)

From S2P Require Import Prelude FrontConfig Handler HttpSession.

Class Asio (W : Type) : Type := {
  acceptor_open : W -> (exn + unit) * W;
  acceptor_reuse_address : W -> (exn + unit) * W;
  acceptor_bind : Z -> W -> (exn + unit) * W;
  acceptor_listen : W -> (exn + unit) * W;
  acceptor_close : W -> (exn + unit) * W;
  (** the constructor of a [std::thread] *)
  start_thread : W -> (exn + unit) * W
}.

Inductive asio_event : Type :=
| Open (r : exn + unit)
| ReuseAddress (r : exn + unit)
| Bind (port : Z) (r : exn + unit)
| Listen (r : exn + unit)
| AsyncAccept
| StartThread (r : exn + unit)
| CloseAcceptor (r : exn + unit)
| StopContext
| JoinThread.

(** The data members; of the context and the acceptor the number of accepts in flight. The sessions
    are those the server has started, the oldest first. *)
Record HttpServer (H : Type) : Type := mkHttpServer {
  config_ : HttpServerConfig;
  handler_ : H;
  stopping_ : bool;
  accepts_in_flight : nat;
  workers_ : nat;
  sessions : list (HttpSession H)
}.
Arguments mkHttpServer {H}.
Arguments config_ {H}.
Arguments handler_ {H}.
Arguments stopping_ {H}.
Arguments accepts_in_flight {H}.
Arguments workers_ {H}.
Arguments sessions {H}.

Section server.
Context {W : Type} `{!Asio W} {H : Type} `{!IHandler H}.

Abbreviation st := (env (HttpServer H) W asio_event).

Definition set_stopping (b : bool) (s : HttpServer H) : HttpServer H :=
  mkHttpServer (config_ s) (handler_ s) b (accepts_in_flight s) (workers_ s) (sessions s).
Definition set_accepts (n : nat) (s : HttpServer H) : HttpServer H :=
  mkHttpServer (config_ s) (handler_ s) (stopping_ s) n (workers_ s) (sessions s).
Definition set_workers (n : nat) (s : HttpServer H) : HttpServer H :=
  mkHttpServer (config_ s) (handler_ s) (stopping_ s) (accepts_in_flight s) n (sessions s).
Definition set_sessions (h : H) (l : list (HttpSession H)) (s : HttpServer H) : HttpServer H :=
  mkHttpServer (config_ s) h (stopping_ s) (accepts_in_flight s) (workers_ s) l.

(** The constructor. The atomic flag gets its value in [start]. *)
Definition HttpServer_init (config : HttpServerConfig) (handler : H) : HttpServer H :=
  mkHttpServer config handler false 0 0 [].

(** A call that only starts something. *)
Definition note (ev : asio_event) : prog st unit := call (fun w => (tt, w)) (fun _ => ev).

Definition listen : prog st unit :=
  config ← gets (fun s => config_ (members s));
  call_throwing acceptor_open Open ;;
  call_throwing acceptor_reuse_address ReuseAddress ;;
  call_throwing (acceptor_bind (http_port config)) (Bind (http_port config)) ;;
  call_throwing acceptor_listen Listen ;;
  mret tt.

Definition accept : prog st unit :=
  note AsyncAccept ;;
  modify (set_members (fun s => set_accepts (S (accepts_in_flight s)) s)).

(** The loop of [runWorkers], with [left] threads to start. *)
Fixpoint start_workers (left : nat) : prog st unit :=
  match left with
  | O => mret tt
  | S left' =>
      call_throwing start_thread StartThread ;;
      modify (set_members (fun s => set_workers (S (workers_ s)) s)) ;;
      start_workers left'
  end.

Definition runWorkers : prog st unit :=
  modify (set_members (set_workers 0)) ;;
  config ← gets (fun s => config_ (members s));
  start_workers (Z.to_nat (http_threads config)).

Definition start : prog st unit :=
  modify (set_members (set_stopping false)) ;;
  listen ;;
  accept ;;
  runWorkers.

(** The loop of [joinWorkers], with [left] threads to join. *)
Fixpoint join_all (left : nat) : prog st unit :=
  match left with
  | O => mret tt
  | S left' => note JoinThread ;; join_all left'
  end.

Definition joinWorkers : prog st unit :=
  n ← gets (fun s => workers_ (members s));
  join_all n ;;
  modify (set_members (set_workers 0)).

Definition stop : prog st unit :=
  modify (set_members (set_stopping true)) ;;
  call_throwing acceptor_close CloseAcceptor ;;
  note StopContext ;;
  joinWorkers.

(** [make_shared<HttpSession>(...)->run()] *)
Definition start_session (remote_endpoint : exn + string) : prog st unit := fun s =>
  let m := members s in
  match HttpSession_init remote_endpoint (http_requestTimeout (config_ m)) (handler_ m) with
  | Value session =>
      let '(o, session') := run session in
      (o, set_members (set_sessions (HttpSession.handler_ session') (sessions m ++ [session'])) s)
  | Throw e => (Throw e, s)
  | UB => (UB, s)
  end.

(** The completion of an accept: an error, or a socket with what [remote_endpoint] says of it. *)
Definition onAccept (r : string + (exn + string)) : prog st unit :=
  match r with
  | inl _ => mret tt
  | inr remote_endpoint =>
      start_session remote_endpoint ;;
      stopping ← gets (fun s => stopping_ (members s));
      if (stopping : bool) then mret tt else accept
  end.

(** ** The server's events *)

Inductive server_event : Type :=
| Accepted (r : string + (exn + string))
| Completed (i : nat) (ev : completion).

(** A completion of the session [i], which runs on the shared handler. *)
Definition on_session (i : nat) (ev : completion) : prog st unit := fun s =>
  let m := members s in
  match sessions m !! i with
  | None => (Value tt, s)
  | Some session =>
      let '(o, session') := on_completion ev (set_handler (handler_ m) session) in
      (o, set_members (set_sessions (HttpSession.handler_ session') (<[i := session']> (sessions m))) s)
  end.

Definition on_event (ev : server_event) : prog st unit :=
  match ev with
  | Accepted r =>
      n ← gets (fun s => accepts_in_flight (members s));
      match n with
      | O => mret tt
      | S n' => modify (set_members (set_accepts n')) ;; onAccept r
      end
  | Completed i ev => on_session i ev
  end.

Fixpoint run_events (evs : list server_event) : prog st unit :=
  match evs with
  | [] => mret tt
  | ev :: evs' => on_event ev ;; run_events evs'
  end.

(** ** Starting and stopping *)

Lemma note_spec ev (s : st) :
  note ev s = (Value tt, Env (members s) (world s) (trace s ++ [ev])).
Proof. done. Qed.

(** Starting [n] threads: all of them, or some of them and an exception. *)
Lemma start_workers_spec n s :
  wp (start_workers n)
    (fun _ s' => members s' = set_workers (workers_ (members s) + n) (members s) /\
                 trace s' = trace s ++ replicate n (StartThread (inr tt)))
    (fun e s' => exists k, (k < n)%nat /\ members s' = set_workers (workers_ (members s) + k) (members s) /\
                 trace s' = trace s ++ replicate k (StartThread (inr tt)) ++ [StartThread (inl e)]) s.
Proof.
  revert s. induction n as [|n IH]; intros s; cbn [start_workers].
  { apply wp_ret. rewrite Nat.add_0_r, app_nil_r. split; [by destruct (members s)|done]. }
  apply wp_bind, wp_call_throwing.
  - intros [] _. apply wp_bind, wp_modify. eapply wp_mono; [apply IH|..].
    + intros _ s' [H1 H2]. cbn in H1, H2. rewrite H1, H2, <-app_assoc. split; [|done].
      unfold set_workers. cbn. f_equal. lia.
    + intros e s' (k & Hk & H1 & H2). exists (S k). cbn in H1, H2. rewrite H1, H2, <-app_assoc.
      split_and!; [lia| |done]. unfold set_workers. cbn. f_equal. lia.
  - intros e _. exists 0%nat. rewrite Nat.add_0_r. split_and!; [lia|by destruct (members s)|done].
Qed.

(** A server that starts has opened, bound and listened in this order on the configured port
    before it accepts, has one accept in flight and exactly the configured number of workers. When
    listening fails the exception of the failing call leaves [start], no accept is in flight and no
    thread was started. *)
Theorem start_exact (s : st) :
  accepts_in_flight (members s) = 0%nat -> workers_ (members s) = 0%nat ->
  let config := config_ (members s) in
  let up := [Open (inr tt); ReuseAddress (inr tt); Bind (http_port config) (inr tt); Listen (inr tt)] in
  let n := Z.to_nat (http_threads config) in
  wp start
    (fun _ s' => stopping_ (members s') = false /\ accepts_in_flight (members s') = 1%nat /\
       workers_ (members s') = n /\
       trace s' = trace s ++ up ++ [AsyncAccept] ++ replicate n (StartThread (inr tt)))
    (fun e s' =>
       (exists tr, trace s' = trace s ++ tr /\ (AsyncAccept ∉ tr) /\ (StartThread (inr tt) ∉ tr) /\
          accepts_in_flight (members s') = 0%nat /\ workers_ (members s') = 0%nat) \/
       (exists k, (k < n)%nat /\ workers_ (members s') = k /\
          trace s' = trace s ++ up ++ [AsyncAccept] ++ replicate k (StartThread (inr tt)) ++
                     [StartThread (inl e)])) s.
Proof.
  cbv zeta. intros Ha Hw. unfold start, listen. apply wp_bind, wp_modify, wp_bind, wp_bind, wp_gets.
  do 4 (apply wp_bind, wp_call_throwing;
    [intros [] _|intros e _; left; eexists; cbn; rewrite <-?app_assoc;
       split_and!; [reflexivity|set_solver|set_solver|done|done]]).
  apply wp_ret. unfold accept, note. wp_steps. unfold runWorkers. wp_steps.
  eapply wp_mono; [apply start_workers_spec|..]; unfold set_members; cbn [members world trace].
  - intros _ s' [H1 H2]. rewrite H1, H2. cbn. rewrite Ha, <-!app_assoc. by split_and!.
  - intros e s' (k & Hk & H1 & H2). right. exists k. rewrite H1, H2. cbn. rewrite <-!app_assoc.
    by split_and!.
Qed.

Lemma join_all_spec n (s : st) :
  join_all n s = (Value tt, Env (members s) (world s) (trace s ++ replicate n JoinThread)).
Proof.
  revert s. induction n as [|n IH]; intros [m w tr]; cbn [join_all]; [by rewrite app_nil_r|].
  unfold mbind, prog_bind. rewrite note_spec, IH. cbn. by rewrite <-app_assoc.
Qed.

(** A stop whose acceptor closes joins every worker, once, after the context was stopped, and
    leaves none; an accept that completes later is not followed by another. *)
Theorem stop_joins (s : st) (w : W) :
  acceptor_close (world s) = (inr tt, w) ->
  exists s', stop s = (Value tt, s') /\ stopping_ (members s') = true /\ workers_ (members s') = 0%nat /\
    trace s' = trace s ++ [CloseAcceptor (inr tt); StopContext] ++
               replicate (workers_ (members s)) JoinThread /\
    forall r, accepts_in_flight (members (onAccept r s').2) = accepts_in_flight (members s).
Proof.
  intros Hc. unfold stop, joinWorkers, mbind, prog_bind, modify, call_throwing, gets, set_members.
  cbn [members world trace]. rewrite Hc. cbn [of_sum]. rewrite note_spec. cbn [members world trace].
  rewrite join_all_spec. eexists. split; [reflexivity|]. cbn [members world trace].
  split_and!; [done|done|by rewrite <-!app_assoc|].
  intros [e|[e|e]]; done.
Qed.

(** ** Accepting *)

Lemma start_session_accepts ep (s : st) :
  accepts_in_flight (members (start_session ep s).2) = accepts_in_flight (members s) /\
  stopping_ (members (start_session ep s).2) = stopping_ (members s) /\
  ((start_session ep s).1 = match ep with inl e => Throw e | inr _ => Value tt end).
Proof. unfold start_session. by destruct ep. Qed.

Lemma on_session_accepts i ev (s : st) :
  accepts_in_flight (members (on_session i ev s).2) = accepts_in_flight (members s) /\
  length (sessions (members (on_session i ev s).2)) = length (sessions (members s)).
Proof.
  unfold on_session. destruct (sessions (members s) !! i) as [x|]; [|done].
  destruct (on_completion ev _) as [o s1]. cbn. by rewrite length_insert.
Qed.

(** With no accept in flight nothing is accepted any more. *)
Lemma run_events_no_accept evs (s : st) :
  accepts_in_flight (members s) = 0%nat ->
  accepts_in_flight (members (run_events evs s).2) = 0%nat /\
  length (sessions (members (run_events evs s).2)) = length (sessions (members s)).
Proof.
  revert s. induction evs as [|ev evs IH]; intros s Ha; [done|].
  cbn [run_events]. unfold mbind, prog_bind.
  assert (H1 : accepts_in_flight (members (on_event ev s).2) = 0%nat /\
               length (sessions (members (on_event ev s).2)) = length (sessions (members s))).
  { destruct ev as [r|i c]; cbn [on_event].
    - unfold mbind, prog_bind, gets. by rewrite Ha.
    - destruct (on_session_accepts i c s) as [-> ->]. done. }
  destruct (on_event ev s) as [[[]|e|] s1]; [|done|done]. cbn in H1. destruct H1 as [H1 H2].
  destruct (IH s1 H1) as [-> ->]. done.
Qed.

(** One failed accept ends the service: the server logs the error and starts no other accept, so
    whatever happens afterwards no session is ever started again, while the server is neither stopped
    nor stopping. *)
Theorem failed_accept_final (s : st) (err : string) (evs : list server_event) :
  accepts_in_flight (members s) = 1%nat -> stopping_ (members s) = false ->
  let s1 := (on_event (Accepted (inl err)) s).2 in
  (on_event (Accepted (inl err)) s).1 = Value tt /\ stopping_ (members s1) = false /\
  accepts_in_flight (members (run_events evs s1).2) = 0%nat /\
  length (sessions (members (run_events evs s1).2)) = length (sessions (members s)).
Proof.
  cbv zeta. intros Ha Hst. unfold on_event, mbind, prog_bind, gets, modify. rewrite Ha.
  cbn [onAccept mret prog_ret fst snd]. split_and!; [done|done|..];
    by destruct (run_events_no_accept evs (set_members (set_accepts 0) s)).
Qed.

(** An accepted connection whose peer has gone away ends the whole program: reading its address
    throws out of the callback and so out of the worker thread, and no other accept was started. *)
Theorem vanished_peer_escapes (s : st) (e : exn) :
  accepts_in_flight (members s) = 1%nat ->
  (on_event (Accepted (inr (inl e))) s).1 = Throw e /\
  accepts_in_flight (members (on_event (Accepted (inr (inl e))) s).2) = 0%nat.
Proof. intros Ha. unfold on_event, mbind, prog_bind, gets, modify. by rewrite Ha. Qed.

(** ** What the clients were told *)

Section laws.
Context (stored : H -> list (list Z)) (good : H -> Prop) `{!HandlerLaws H stored good}.

Abbreviation exchanges := (list (request * response)).

(** Every session of the server follows the protocol; [xss] are the exchanges of the sessions. *)
Definition sessions_ok (timeout : Z) (xss : list exchanges) (s : HttpServer H) : Prop :=
  http_requestTimeout (config_ s) = timeout /\ good (handler_ s) /\
  Forall2 (session_ok timeout) xss (sessions s).

(** The data whose request was answered with 202, over all sessions. *)
Definition all_accepted (xss : list exchanges) : list (list Z) := concat (accepted_bodies <$> xss).

Lemma set_handler_ok timeout xs h (x : HttpSession H) :
  session_ok timeout xs x -> session_ok timeout xs (set_handler h x).
Proof. done. Qed.

Lemma all_accepted_insert xss i xs ys :
  xss !! i = Some xs ->
  all_accepted (<[i := xs ++ ys]> xss) ≡ₚ all_accepted xss ++ accepted_bodies ys.
Proof.
  intros Hi. unfold all_accepted. rewrite <-(take_drop_middle xss i xs Hi) at 2.
  pose proof (lookup_lt_Some _ _ _ Hi) as Hl. rewrite insert_take_drop by done.
  rewrite !fmap_app, !concat_app, !fmap_cons. cbn [concat]. rewrite accepted_bodies_app, <-!app_assoc.
  do 2 f_equiv. apply Permutation_app_comm.
Qed.

(** The answers between two states of the server. *)
Definition answers (timeout : Z) (xss : list exchanges) (s s' : HttpServer H) : Prop :=
  exists xss', sessions_ok timeout xss' s' /\
    exists zs, stored (handler_ s') = stored (handler_ s) ++ zs /\
               all_accepted xss' ≡ₚ all_accepted xss ++ zs.

(** What changes neither the handler nor a session adds no answer. *)
Lemma answers_same timeout xss s s1 s' :
  config_ s' = config_ s1 -> handler_ s' = handler_ s1 -> sessions s' = sessions s1 ->
  answers timeout xss s s1 -> answers timeout xss s s'.
Proof.
  intros E1 E2 E3 (xss' & Hok & zs & H1 & H2). exists xss'. unfold sessions_ok in *. rewrite E1, E2, E3.
  split; [done|]. by exists zs.
Qed.

Lemma answers_refl timeout xss s : sessions_ok timeout xss s -> answers timeout xss s s.
Proof. intros Hok. exists xss. split; [done|]. exists []. by rewrite !app_nil_r. Qed.

Lemma start_session_spec timeout xss ep (s : st) :
  sessions_ok timeout xss (members s) ->
  wp (start_session ep) (fun _ s' => answers timeout xss (members s) (members s'))
    (fun e s' => ep = inl e /\ s' = s) s.
Proof.
  intros (Ht & Hg & Hs). unfold wp, start_session, HttpSession_init.
  destruct ep as [e|ep]; cbn [of_sum mbind outcome_bind]; [done|]. cbn [mret outcome_ret].
  destruct (run_ok (mkHttpSession (http_requestTimeout (config_ (members s)))
    (handler_ (members s)) empty_request empty_response None [])) as (x & Hx & Hok & Hh); [done..|].
  rewrite Hx. cbn [HttpSession.timeout_ HttpSession.handler_] in *. rewrite Ht in Hok.
  exists (xss ++ [[]]). unfold sessions_ok. cbn. rewrite Hh. split_and!.
  - done.
  - done.
  - apply Forall2_app; [done|by constructor].
  - exists []. unfold all_accepted. rewrite fmap_app, concat_app, !app_nil_r. done.
Qed.

Lemma on_session_spec timeout xss i c (s : st) :
  sessions_ok timeout xss (members s) ->
  wp (on_session i c) (fun _ s' => answers timeout xss (members s) (members s')) (fun _ _ => False) s.
Proof.
  intros Hall. pose proof Hall as (Ht & Hg & Hs). unfold wp, on_session.
  destruct (sessions (members s) !! i) as [x|] eqn:Hi; [|by apply answers_refl].
  destruct (Forall2_lookup_r _ _ _ _ _ Hs Hi) as (xs & Hxs & Hok).
  destruct (on_completion_answers stored good timeout xs c (set_handler (handler_ (members s)) x) Hok Hg)
    as (x' & ys & Hc & Hok' & Hg' & Hst & _).
  rewrite Hc. exists (<[i := xs ++ ys]> xss). split.
  - split_and!; [done|done|]. cbn. by apply Forall2_insert.
  - exists (accepted_bodies ys). split; [done|]. by apply all_accepted_insert.
Qed.

(** One event: the answers it adds. *)
Lemma on_event_spec timeout xss ev (s : st) :
  sessions_ok timeout xss (members s) ->
  wp (on_event ev) (fun _ s' => answers timeout xss (members s) (members s'))
    (fun e s' => ev = Accepted (inr (inl e)) /\ handler_ (members s') = handler_ (members s) /\
                 sessions_ok timeout xss (members s')) s.
Proof.
  intros Hok. pose proof (answers_refl timeout xss _ Hok) as Hsame.
  destruct ev as [r|i c]; cbn [on_event].
  2:{ eapply wp_mono; [by apply on_session_spec|done|done]. }
  wp_steps. destruct (accepts_in_flight (members s)) as [|n]; wp_steps; [done|].
  set (s1 := set_members _ s).
  assert (Hok1 : sessions_ok timeout xss (members s1)) by done.
  destruct r as [err|ep]; cbn [onAccept]; wp_steps; [done|].
  eapply wp_mono; [by apply start_session_spec|intros [] s2 H2; cbn beta|by intros e s2 [-> ->]].
  wp_steps. case_match; unfold accept, note; wp_steps; by eapply answers_same.
Qed.

(** Over all sessions and events; the throw of a callback ends the run. *)
Lemma run_events_answers (evs : list server_event) (s : st) :
  good (handler_ (members s)) -> sessions (members s) = [] ->
  exists o s' xss,
    run_events evs s = (o, s') /\
    match o with
    | Value _ => True
    | Throw e => Accepted (inr (inl e)) ∈ evs
    | UB => False
    end /\
    Forall2 (session_ok (http_requestTimeout (config_ (members s)))) xss (sessions (members s')) /\
    stored (handler_ (members s')) ≡ₚ stored (handler_ (members s)) ++ all_accepted xss.
Proof.
  intros Hg Hs. set (timeout := http_requestTimeout _).
  assert (Hgen : forall xss s0, sessions_ok timeout xss (members s0) ->
    exists o s' xss', run_events evs s0 = (o, s') /\
      match o with Value _ => True | Throw e => Accepted (inr (inl e)) ∈ evs | UB => False end /\
      sessions_ok timeout xss' (members s') /\
      exists zs, stored (handler_ (members s')) = stored (handler_ (members s0)) ++ zs /\
                 all_accepted xss' ≡ₚ all_accepted xss ++ zs).
  { clear Hg Hs. induction evs as [|ev evs IH]; intros xss s0 Hok.
    { exists (Value tt), s0, xss. split_and!; [done..|]. exists []. by rewrite !app_nil_r. }
    cbn [run_events]. unfold mbind, prog_bind. pose proof (on_event_spec timeout xss ev s0 Hok) as H1.
    unfold wp in H1. destruct (on_event ev s0) as [[[]|e|] s1]; [| |done].
    - destruct H1 as (xss1 & Hok1 & zs1 & Hz1 & Hx1).
      destruct (IH xss1 s1 Hok1) as (o & s' & xss' & Hr & Ho & Hok' & zs & Hz & Hx).
      exists o, s', xss'. split_and!; [done|destruct o; by try constructor|done|].
      exists (zs1 ++ zs). by rewrite Hz, Hz1, Hx, Hx1, <-!app_assoc.
    - destruct H1 as (-> & Hh & Hok1). exists (Throw e), s1, xss. split_and!; [done|left|done|].
      exists []. by rewrite Hh, !app_nil_r. }
  destruct (Hgen [] s) as (o & s' & xss & Hr & Ho & (_ & _ & Hf) & zs & Hz & Hx).
  { split_and!; [done|done|by rewrite Hs]. }
  exists o, s', xss. split_and!; [done|done|done|]. by rewrite Hz, Hx.
Qed.
(** The promise of the front end. Over all sessions, in whatever order connections come and
    operations complete, the data of the requests answered with 202 is exactly the data that the
    storage confirmed, each as often; every session follows the protocol. The callbacks throw only
    for a connection whose peer has gone away, and run into no undefined behaviour. *)
Theorem accepted_is_stored (s : st) (evs : list server_event) :
  good (handler_ (members s)) -> sessions (members s) = [] ->
  exists o s' xss,
    run_events evs s = (o, s') /\
    match o with
    | Value _ => True
    | Throw e => Accepted (inr (inl e)) ∈ evs
    | UB => False
    end /\
    Forall2 (session_ok (http_requestTimeout (config_ (members s)))) xss (sessions (members s')) /\
    stored (handler_ (members s')) ≡ₚ stored (handler_ (members s)) ++ all_accepted xss.
Proof. apply run_events_answers. Qed.
End laws.
End server.

(** ** Instances *)

(** A system on which every call succeeds. *)
#[export] Instance plain_asio : Asio unit := {|
  acceptor_open w := (inr tt, w);
  acceptor_reuse_address w := (inr tt, w);
  acceptor_bind _ w := (inr tt, w);
  acceptor_listen w := (inr tt, w);
  acceptor_close w := (inr tt, w);
  start_thread w := (inr tt, w)
|}.

Definition sample_config : HttpServerConfig := mkHttpServerConfig 8080 2 30.

Definition new_server : env (HttpServer (list (list Z))) unit asio_event :=
  Env (HttpServer_init sample_config []) tt [].

Definition started_server : env (HttpServer (list (list Z))) unit asio_event := (start new_server).2.

(** Two connections whose requests interleave. *)
Definition sample_events : list server_event :=
  [Accepted (inr (inr "a")); Accepted (inr (inr "b"));
   Completed 1 (ReadDone 2 None (sample_request "/instrument" "b" true));
   Completed 0 (ReadDone 1 None (sample_request "/instrument" "a" false));
   Completed 0 (WriteDone 1 None); Completed 1 (WriteDone 1 (Some connection_reset))].

Example run_sample :
  let s := (run_events sample_events started_server).2 in
  handler_ (members s) = [[98]; [97]] /\ accepts_in_flight (members s) = 1%nat /\
  (in_flight <$> sessions (members s)) = [None; None].
Proof. vm_compute. split_and!; reflexivity. Qed.

Lemma start_exact_witness :
  let up := [Open (inr tt); ReuseAddress (inr tt); Bind 8080 (inr tt); Listen (inr tt)] in
  wp start
    (fun _ s' => stopping_ (members s') = false /\ accepts_in_flight (members s') = 1%nat /\
       workers_ (members s') = 2%nat /\
       trace s' = [] ++ up ++ [AsyncAccept] ++ replicate 2 (StartThread (inr tt)))
    (fun e s' =>
       (exists tr, trace s' = [] ++ tr /\ (AsyncAccept ∉ tr) /\ (StartThread (inr tt) ∉ tr) /\
          accepts_in_flight (members s') = 0%nat /\ workers_ (members s') = 0%nat) \/
       (exists k, (k < 2)%nat /\ workers_ (members s') = k /\
          trace s' = [] ++ up ++ [AsyncAccept] ++ replicate k (StartThread (inr tt)) ++
                     [StartThread (inl e)])) new_server.
Proof. exact (start_exact new_server eq_refl eq_refl). Defined.

Lemma stop_joins_witness :
  exists s', stop started_server = (Value tt, s') /\ stopping_ (members s') = true /\
    workers_ (members s') = 0%nat /\
    trace s' = trace started_server ++ [CloseAcceptor (inr tt); StopContext] ++ replicate 2 JoinThread /\
    forall r, accepts_in_flight (members (onAccept r s').2) = 1%nat.
Proof. exact (stop_joins started_server tt eq_refl). Defined.

Lemma failed_accept_final_witness :
  let s1 := (on_event (Accepted (inl "too many open files")) started_server).2 in
  (on_event (Accepted (inl "too many open files")) started_server).1 = Value tt /\
  stopping_ (members s1) = false /\
  accepts_in_flight (members (run_events sample_events s1).2) = 0%nat /\
  length (sessions (members (run_events sample_events s1).2)) = 0%nat.
Proof.
  exact (failed_accept_final started_server "too many open files" sample_events eq_refl eq_refl).
Defined.

Lemma vanished_peer_escapes_witness :
  let e := std_exception "remote_endpoint: Transport endpoint is not connected" in
  (on_event (Accepted (inr (inl e))) started_server).1 = Throw e /\
  accepts_in_flight (members (on_event (Accepted (inr (inl e))) started_server).2) = 0%nat.
Proof.
  exact (vanished_peer_escapes started_server
    (std_exception "remote_endpoint: Transport endpoint is not connected") eq_refl).
Defined.

Lemma accepted_is_stored_witness :
  exists o s' xss,
    run_events sample_events started_server = (o, s') /\
    match o with
    | Value _ => True
    | Throw e => Accepted (inr (inl e)) ∈ sample_events
    | UB => False
    end /\
    Forall2 (session_ok 30) xss (sessions (members s')) /\
    handler_ (members s') ≡ₚ [] ++ all_accepted xss.
Proof.
  exact (accepted_is_stored (fun h => h) (fun _ => True) started_server sample_events I eq_refl).
Defined.
