(* ===== verification/ServerThreads.v ===== *)
(** * The threads of the HTTP server (gwfront/src/http/server)

    [HttpServer] runs [start], [stop] and the callbacks one after the other. Here the main thread, which
    starts the workers, waits for a signal and stops the server, and the workers, which run callbacks out
    of the context, take turns: [server_step] is one step of one of them. A callback of a session is one
    step after it was taken (its own calls of the storage are the subject of PostgresThreads); a
    completed accept is handled in three, since it reads the flag [stop] sets and uses the acceptor
    [stop] closes. *)

From stdpp Require Import relations.
From S2P Require Import Prelude FrontConfig Handler HttpSession HttpServer.

(** The concurrency hint of the context. *)
Inductive concurrency : Type := BOOST_ASIO_CONCURRENCY_HINT_UNSAFE | BOOST_ASIO_CONCURRENCY_HINT_SAFE.

Definition concurrency_hint (config : HttpServerConfig) : concurrency :=
  if http_threads config =? 1 then BOOST_ASIO_CONCURRENCY_HINT_UNSAFE else BOOST_ASIO_CONCURRENCY_HINT_SAFE.

(** Where the main thread is: in the loop of [runWorkers], with [to_start] threads to start; waiting for the
    signal; in [stop], before [acceptor_.close()], before [ioContext_.stop()], before the join of the
    worker [i]; behind [stop]; or out of [start] or [stop] by an exception. *)
Inductive main_point : Type :=
| Starting (to_start : nat)
| Serving
| Closing
| StoppingContext
| Joining (i : nat)
| Stopped
| MainThrew (e : exn).

(** Where a worker is: in [run], between two callbacks; in [onAccept], before it looks at the error,
    before it reads the flag, and before [accept]; in a callback of the session [i]; or behind [run]. *)
Inductive worker_point : Type :=
| InRun
| Accepting (r : string + (exn + string))
| SessionStarted
| SawServing
| InSession (i : nat) (ev : completion)
| Left.

Definition in_accept (p : worker_point) : nat :=
  match p with Accepting _ | SessionStarted | SawServing => 1 | _ => 0 end.
Definition saw_serving (p : worker_point) : nat := match p with SawServing => 1 | _ => 0 end.
Definition session_of (p : worker_point) : option nat :=
  match p with InSession i _ => Some i | _ => None end.

Section threads.
Context {W : Type} `{!Asio W} {H : Type} `{!IHandler H}.

Abbreviation st := (env (HttpServer H) W asio_event).

(** [context_stopped]: the context gives out no callback any more. [escaped]: an exception that left a
    worker, which ends the program. *)
Record running_server : Type := mkRunning {
  server : st;
  main_at : main_point;
  worker_at : list worker_point;
  context_stopped : bool;
  escaped : outcome unit
}.

Definition to_main (s : st) (p : main_point) (x : running_server) : running_server :=
  mkRunning s p (worker_at x) (context_stopped x) (escaped x).
Definition to_worker (t : nat) (s : st) (p : worker_point) (x : running_server) : running_server :=
  mkRunning s (main_at x) (<[t := p]> (worker_at x)) (context_stopped x) (escaped x).

(** ** The main thread *)

(** [start] up to the loop of [runWorkers], and the body of the loop. *)
Definition start_listening : prog st unit :=
  modify (set_members (set_stopping false)) ;;
  listen ;;
  accept ;;
  modify (set_members (set_workers 0)).

Definition start_worker : prog st unit :=
  call_throwing start_thread StartThread ;;
  modify (set_members (fun s => set_workers (S (workers_ s)) s)).

(** The workers run as soon as they are started. *)
Definition started (s : st) : running_server :=
  mkRunning s (Starting (Z.to_nat (http_threads (config_ (members s))))) [] false (Value tt).

(** [None]: the thread waits, or has ended. *)
Definition main_step (x : running_server) : option running_server :=
  let s := server x in
  match main_at x with
  | Starting O => Some (to_main s Serving x)
  | Starting (S to_start) =>
      match start_worker s with
      | (Value _, s') =>
          Some (mkRunning s' (Starting to_start) (worker_at x ++ [InRun]) (context_stopped x) (escaped x))
      | (Throw e, s') => Some (to_main s' (MainThrew e) x)
      | (UB, s') => Some (mkRunning s' (main_at x) (worker_at x) (context_stopped x) UB)
      end
  | Serving => Some (to_main (set_members (set_stopping true) s) Closing x)
  | Closing =>
      match call_throwing acceptor_close CloseAcceptor s with
      | (Value _, s') => Some (to_main s' StoppingContext x)
      | (Throw e, s') => Some (to_main s' (MainThrew e) x)
      | (UB, s') => Some (mkRunning s' (main_at x) (worker_at x) (context_stopped x) UB)
      end
  | StoppingContext => Some (mkRunning (note StopContext s).2 (Joining 0) (worker_at x) true (escaped x))
  | Joining i =>
      match worker_at x !! i with
      | Some Left => Some (to_main (note JoinThread s).2 (Joining (S i)) x)
      | Some _ => None
      | None => Some (to_main (set_members (set_workers 0) s) Stopped x)
      end
  | Stopped | MainThrew _ => None
  end.

(** ** The workers *)

(** What the context has for a worker that is between two callbacks, or that the worker goes on. *)
Inductive turn : Type :=
| TakeAccept (r : string + (exn + string))
| TakeCompletion (i : nat) (ev : completion)
| LeaveRun
| GoOn.

(** The operation in flight completes, on the thread [t]. *)
Definition completes (t : thread_id) (o : option operation) (ev : completion) : bool :=
  match o, ev with
  | Some async_read, ReadDone t' _ _ | Some async_write, WriteDone t' _ => bool_decide (t' = t)
  | _, _ => false
  end.

(** The sessions whose callbacks run. *)
Definition busy (x : running_server) : list nat := omap session_of (worker_at x).

(** Nothing is in flight and no callback runs: [run] returns and stops the context. *)
Definition out_of_work (x : running_server) : bool :=
  bool_decide (accepts_in_flight (members (server x)) = 0%nat) &&
  forallb (fun session => bool_decide (in_flight session = None)) (sessions (members (server x))) &&
  forallb (fun p => match p with InRun | Left => true | _ => false end) (worker_at x).

(** The end of a step of a callback: the worker is at [p], or an exception has left it. *)
Definition callback_step (t : nat) (m : prog st unit) (p : worker_point) (x : running_server) :
    running_server :=
  match m (server x) with
  | (Value _, s) => to_worker t s p x
  | (o, s) => mkRunning s (main_at x) (worker_at x) (context_stopped x) o
  end.

Definition thread_of_worker (t : nat) : thread_id := Pos.of_succ_nat t.

Definition worker_step (t : nat) (a : turn) (x : running_server) : option running_server :=
  let s := server x in
  match worker_at x !! t, a with
  | Some InRun, TakeAccept r =>
      if context_stopped x then None
      else match accepts_in_flight (members s) with
           | O => None
           | S n => Some (to_worker t (set_members (set_accepts n) s) (Accepting r) x)
           end
  | Some InRun, TakeCompletion i ev =>
      if context_stopped x then None
      else match sessions (members s) !! i with
           | Some session =>
               if completes (thread_of_worker t) (in_flight session) ev && bool_decide (i ∉ busy x)
               then Some (to_worker t s (InSession i ev) x) else None
           | None => None
           end
  | Some InRun, LeaveRun =>
      if context_stopped x || out_of_work x
      then Some (mkRunning s (main_at x) (<[t := Left]> (worker_at x)) true (escaped x)) else None
  | Some (Accepting (inl _)), GoOn => Some (to_worker t s InRun x)
  | Some (Accepting (inr remote_endpoint)), GoOn =>
      Some (callback_step t (start_session remote_endpoint) SessionStarted x)
  | Some SessionStarted, GoOn =>
      Some (to_worker t s (if stopping_ (members s) then InRun else SawServing) x)
  | Some SawServing, GoOn => Some (callback_step t accept InRun x)
  | Some (InSession i ev), GoOn => Some (callback_step t (on_session i ev) InRun x)
  | _, _ => None
  end.

(** ** All threads *)

Inductive label : Type := ByMain | ByWorker (t : nat) (a : turn).

Definition server_step (l : label) (x : running_server) : option running_server :=
  match escaped x with
  | Value _ => match l with ByMain => main_step x | ByWorker t a => worker_step t a x end
  | _ => None
  end.

Definition server_next (x y : running_server) : Prop := exists l, server_step l x = Some y.

(** A run along given labels; a step that is not possible is left out. *)
Fixpoint run_labels (ls : list label) (x : running_server) : running_server :=
  match ls with
  | [] => x
  | l :: ls' => run_labels ls' (default x (server_step l x))
  end.

Lemma run_labels_next ls x : rtc server_next x (run_labels ls x).
Proof.
  revert x. induction ls as [|l ls IH]; intros x; [done|]. cbn.
  destruct (server_step l x) as [y|] eqn:Hy; cbn; [|apply IH].
  eapply rtc_l; [by exists l|apply IH].
Qed.

(** ** What one step does *)

Definition async_accepts (s : st) : nat :=
  sum_list_with (fun ev => match ev with AsyncAccept => 1%nat | _ => 0%nat end) (trace s).
#[local] Arguments async_accepts : simpl never.

(** The steps a worker still takes when the context has stopped. *)
Definition weight (p : worker_point) : nat :=
  match p with
  | Left => 0 | InRun => 1 | SawServing | InSession _ _ => 2 | SessionStarted => 3 | Accepting _ => 4
  end.
Definition alive (x : running_server) : nat := match escaped x with Value _ => 1 | _ => 0 end.

(** Control: what callbacks of the sessions leave alone. *)
Definition same_control (s s' : st) : Prop :=
  accepts_in_flight (members s') = accepts_in_flight (members s) /\
  workers_ (members s') = workers_ (members s) /\ stopping_ (members s') = stopping_ (members s) /\
  config_ (members s') = config_ (members s) /\ trace s' = trace s.

Lemma start_session_control ep s : same_control s (start_session ep s).2.
Proof.
  unfold start_session. destruct (HttpSession_init _ _ _) as [x|e|]; [|done|done].
  by destruct (run x).
Qed.

Lemma on_session_control i ev s : same_control s (on_session i ev s).2.
Proof.
  unfold on_session. destruct (sessions (members s) !! i) as [x|]; [|done].
  by destruct (on_completion ev _).
Qed.

Lemma start_session_safe ep (s : st) : (start_session ep s).1 <> UB.
Proof. by destruct (start_session_accepts ep s) as (_ & _ & ->); destruct ep. Qed.

Lemma accept_spec (s : st) :
  accept s = (Value tt, Env (set_accepts (S (accepts_in_flight (members s))) (members s)) (world s)
                          (trace s ++ [AsyncAccept])).
Proof. done. Qed.

(** A step of the worker [t] from the point [p] to [q]. *)
Record moves (t : nat) (p q : worker_point) (x y : running_server) : Prop := mkMoves {
  moves_from : worker_at x !! t = Some p;
  moves_to : worker_at y = <[t := q]> (worker_at x);
  moves_main : main_at y = main_at x;
  moves_alive : p <> Left;
  moves_workers : workers_ (members (server y)) = workers_ (members (server x));
  moves_flag : stopping_ (members (server y)) = stopping_ (members (server x));
  moves_accept : (accepts_in_flight (members (server y)) + in_accept q <=
                  accepts_in_flight (members (server x)) + in_accept p)%nat;
  moves_context : context_stopped x = true -> context_stopped y = true;
  moves_left : q = Left -> context_stopped y = true;
  moves_session : match session_of q with
                  | Some i => session_of p = Some i \/ (session_of p = None /\ i ∉ busy x)
                  | None => True
                  end;
  moves_async : stopping_ (members (server x)) = true ->
    (async_accepts (server y) + saw_serving q <= async_accepts (server x) + saw_serving p)%nat;
  moves_weight : context_stopped x = true -> (weight q + alive y < weight p + alive x)%nat
}.

Lemma callback_step_moves t m p q x :
  worker_at x !! t = Some p -> escaped x = Value tt -> p <> Left -> q <> Left ->
  session_of q = None -> (weight q < weight p)%nat ->
  (let s := (m (server x)).2 in
   workers_ (members s) = workers_ (members (server x)) /\
   stopping_ (members s) = stopping_ (members (server x)) /\
   match (m (server x)).1 with
   | Value _ =>
       (accepts_in_flight (members s) + in_accept q <=
          accepts_in_flight (members (server x)) + in_accept p)%nat /\
       (stopping_ (members (server x)) = true ->
          async_accepts s + saw_serving q <= async_accepts (server x) + saw_serving p)%nat
   | _ => accepts_in_flight (members s) = accepts_in_flight (members (server x)) /\
          trace s = trace (server x)
   end) ->
  exists q', moves t p q' x (callback_step t m q x).
Proof.
  intros Hp He Hl Hq Hs Hw. unfold callback_step. destruct (m (server x)) as [[[]|e|] s]; cbn.
  1: intros (H1 & H2 & H3 & H4); exists q; split; cbn; try done; [by rewrite Hs|].
  1: intros _; unfold alive; cbn; rewrite He; lia.
  all: intros (H1 & H2 & H3 & H4); exists p; split; cbn; try done; try lia; [by rewrite list_insert_id| | |].
  all: first [destruct (session_of p); [by left|done] | intros _; unfold async_accepts; by rewrite H4
             | intros _; unfold alive; cbn; rewrite He; lia].
Qed.

Lemma worker_moves t a x y :
  escaped x = Value tt -> worker_step t a x = Some y -> exists p q, moves t p q x y.
Proof.
  intros He Hs. unfold worker_step in Hs.
  destruct (worker_at x !! t) as [p|] eqn:Hp; [|done]. exists p.
  destruct p as [|[err|ep]| | |i ev|], a as [r|j c| |]; try discriminate; simplify_eq.
  - destruct (context_stopped x) eqn:Hc; [done|].
    destruct (accepts_in_flight _) as [|n] eqn:Ha; simplify_eq. exists (Accepting r).
    split; cbn; rewrite ?Ha; try done; try lia; by rewrite Hc.
  - destruct (context_stopped x) eqn:Hc; [done|]. destruct (sessions _ !! j) as [z|]; [|done].
    destruct (completes _ _ _); [|done]. case_bool_decide as Hj; cbn in Hs; simplify_eq.
    exists (InSession j c). split; cbn; try done; [by right|by rewrite Hc].
  - destruct (context_stopped x || out_of_work x); simplify_eq. exists Left.
    split; cbn; try done; try lia. unfold alive. cbn. lia.
  - exists InRun. split; cbn; try done; try lia. unfold alive. cbn. lia.
  - apply callback_step_moves; try done; [cbn; lia|].
    pose proof (start_session_control ep (server x)) as (H1 & H2 & H3 & _ & H4). cbn zeta.
    unfold async_accepts. rewrite H4. split_and!; try done.
    destruct (start_session ep (server x)).1; [|done|done]. rewrite H1. cbn. lia.
  - exists (if stopping_ (members (server x)) then InRun else SawServing).
    destruct (stopping_ _) eqn:Hst; split; cbn; rewrite ?Hst; try done; try lia; unfold alive; cbn; lia.
  - apply callback_step_moves; try done; [cbn; lia|].
    rewrite accept_spec. cbn [fst snd members accepts_in_flight in_accept saw_serving set_accepts].
    unfold async_accepts. cbn [trace]. rewrite sum_list_with_app. cbn. split_and!; try done; lia.
  - apply callback_step_moves; try done; [cbn; lia|].
    pose proof (on_session_control i ev (server x)) as (H1 & H2 & H3 & _ & H4). cbn zeta.
    unfold async_accepts. rewrite H4. split_and!; try done.
    destruct (on_session i ev (server x)).1; [|done|done]. rewrite H1. cbn. lia.
Qed.

(** ** The invariant *)

Lemma sum_list_with_insert {A} (f : A -> nat) l t p q :
  l !! t = Some p -> (sum_list_with f (<[t := q]> l) + f p = sum_list_with f l + f q)%nat.
Proof.
  intros Hp. rewrite insert_take_drop by by eapply lookup_lt_Some.
  rewrite <-(take_drop_middle l t p Hp) at 3. rewrite !sum_list_with_app.
  change (sum_list_with f (q :: drop (S t) l)) with (f q + sum_list_with f (drop (S t) l))%nat.
  change (sum_list_with f (p :: drop (S t) l)) with (f p + sum_list_with f (drop (S t) l))%nat. lia.
Qed.

(** [n] is the configured number of workers. *)
Record server_ok (n : nat) (x : running_server) : Prop := mkServerOk {
  ok_accept : (accepts_in_flight (members (server x)) + sum_list_with in_accept (worker_at x) <= 1)%nat;
  ok_count : match main_at x with
             | Starting k => (length (worker_at x) + k = n)%nat
             | MainThrew _ => (length (worker_at x) <= n)%nat
             | _ => length (worker_at x) = n
             end;
  ok_workers : main_at x = Stopped \/ workers_ (members (server x)) = length (worker_at x);
  ok_flag : match main_at x with
            | Starting _ | Serving => stopping_ (members (server x)) = false
            | MainThrew _ => True
            | _ => stopping_ (members (server x)) = true
            end;
  ok_context : match main_at x with Joining _ | Stopped => context_stopped x = true | _ => True end;
  ok_joined : match main_at x with
              | Joining i => (i <= n)%nat /\ forall j, (j < i)%nat -> worker_at x !! j = Some Left
              | Stopped => forall j, (j < n)%nat -> worker_at x !! j = Some Left
              | _ => True
              end;
  ok_left : Left ∈ worker_at x -> context_stopped x = true;
  ok_busy : NoDup (busy x)
}.

Lemma busy_insert (l : list worker_point) t p q :
  l !! t = Some p ->
  NoDup (omap session_of l) ->
  match session_of q with
  | Some i => session_of p = Some i \/ (session_of p = None /\ i ∉ omap session_of l)
  | None => True
  end ->
  NoDup (omap session_of (<[t := q]> l)).
Proof.
  intros Hp. pose proof (lookup_lt_Some _ _ _ Hp) as Hl. rewrite insert_take_drop by done.
  assert (Ho : forall z, omap session_of (take t l ++ z :: drop (S t) l) =
            omap session_of (take t l) ++ option_list (session_of z) ++ omap session_of (drop (S t) l)).
  { intros z. rewrite omap_app. cbn. by destruct (session_of z). }
  pose proof (Ho p) as Hop. rewrite (take_drop_middle l t p Hp) in Hop. rewrite Hop, Ho.
  destruct (session_of q) as [i|].
  - intros Hn [E|[E Hi]]; rewrite E in *; [done|]. cbn in *.
    rewrite <-Permutation_middle. by constructor.
  - destruct (session_of p) as [i|]; [|done]. cbn. rewrite <-Permutation_middle.
    by intros Hn%NoDup_cons_1_2.
Qed.

Lemma worker_step_ok n t p q x y : moves t p q x y -> server_ok n x -> server_ok n y.
Proof.
  intros [H1 H2 H3 H4 H5 H6 H7 H8 H9 H10 _ _] [O1 O2 O3 O4 O5 O6 O7 O8].
  pose proof (lookup_lt_Some _ _ _ H1) as Hl.
  assert (Hj : forall j, worker_at x !! j = Some Left -> worker_at y !! j = Some Left).
  { intros j Hj. rewrite H2, list_lookup_insert_ne; [done|]. intros ->. congruence. }
  split; rewrite ?H3, ?H5, ?H6; try (rewrite H2, length_insert); try done.
  - rewrite H2. pose proof (sum_list_with_insert in_accept _ t p q H1). lia.
  - destruct (main_at x); auto.
  - destruct (main_at x); naive_solver.
  - intros Hin. rewrite H2 in Hin. apply list_elem_of_lookup in Hin as [j Hjl].
    destruct (decide (j = t)) as [->|Hne].
    + rewrite list_lookup_insert_eq in Hjl by done. injection Hjl as ->. auto.
    + rewrite list_lookup_insert_ne in Hjl by done. by apply H8, O7, (list_elem_of_lookup_2 _ j).
  - unfold busy. rewrite H2. by eapply busy_insert.
Qed.

Lemma start_worker_cases (s : st) :
  exists (r : exn + unit) w, start_worker s =
    match r with
    | inr _ => (Value tt, Env (set_workers (S (workers_ (members s))) (members s)) w (trace s ++ [StartThread (inr tt)]))
    | inl e => (Throw e, Env (members s) w (trace s ++ [StartThread (inl e)]))
    end.
Proof.
  unfold start_worker, mbind, prog_bind, call_throwing.
  destruct (start_thread (world s)) as [[e|[]] w]; [by exists (inl e), w|by exists (inr tt), w].
Qed.

Lemma close_cases (s : st) :
  exists r w, call_throwing acceptor_close CloseAcceptor s =
    (of_sum r, Env (members s) w (trace s ++ [CloseAcceptor r])).
Proof. unfold call_throwing. destruct (acceptor_close (world s)) as [r w]. by exists r, w. Qed.

Lemma main_step_ok n x y : main_step x = Some y -> server_ok n x -> server_ok n y.
Proof.
  intros Hs [O1 O2 O3 O4 O5 O6 O7 O8]. unfold main_step in Hs.
  destruct (main_at x) as [[|k]| | | |i| |e] eqn:Hm; try discriminate.
  - injection Hs as <-. split; cbn; try done; try lia. destruct O3 as [|O3]; [done|by right].
  - destruct (start_worker_cases (server x)) as (r & w & Hr). rewrite Hr in Hs.
    destruct O3 as [|O3]; [done|].
    destruct r as [e|[]]; injection Hs as <-; split; cbn; try done; try lia; try by right.
    + rewrite sum_list_with_app. cbn. lia.
    + rewrite length_app. cbn. lia.
    + right. rewrite length_app. cbn. lia.
    + rewrite elem_of_app, list_elem_of_singleton. by intros [?|?]; [apply O7|].
    + by rewrite omap_app, app_nil_r.
  - injection Hs as <-. split; cbn; try done. destruct O3 as [|O3]; [done|by right].
  - destruct (close_cases (server x)) as (r & w & Hr). rewrite Hr in Hs.
    destruct O3 as [|O3]; [done|].
    destruct r as [e|u]; injection Hs as <-; split; cbn; try done; try lia; by right.
  - injection Hs as <-. destruct O3 as [|O3]; [done|].
    split; cbn; try done; [by right|]. split; [lia|intros; lia].
  - destruct O3 as [|O3]; [done|]. destruct O6 as [Hi Hj].
    destruct (worker_at x !! i) as [p|] eqn:Hp.
    + pose proof (lookup_lt_Some _ _ _ Hp) as Hl. destruct p; try discriminate. injection Hs as <-.
      split; cbn; try done; [by right|]. split; [lia|]. intros j Hlt.
      destruct (decide (j = i)) as [->|]; [done|]. apply Hj. lia.
    + apply lookup_ge_None in Hp. injection Hs as <-. split; cbn; try done; [by left|].
      intros j Hlt. apply Hj. lia.
Qed.

Lemma server_next_ok n x y : server_next x y -> server_ok n x -> server_ok n y.
Proof.
  intros [l Hs]. unfold server_step in Hs. destruct (escaped x) as [[]|e|] eqn:He; try done.
  destruct l as [|t a]; [by apply main_step_ok|].
  destruct (worker_moves t a x y He Hs) as (p & q & Hm). by eapply worker_step_ok.
Qed.

Lemma server_steps_ok n x y : rtc server_next x y -> server_ok n x -> server_ok n y.
Proof. induction 1; [done|]. intros. eauto using server_next_ok. Qed.

(** ** Accepts after the stop flag *)

Lemma saw_serving_le l : (sum_list_with saw_serving l <= sum_list_with in_accept l)%nat.
Proof. induction l as [|p l IH]; [done|]. cbn. destruct p; cbn; lia. Qed.

Lemma server_next_async n x y :
  server_ok n x -> server_next x y -> stopping_ (members (server x)) = true ->
  stopping_ (members (server y)) = true /\
  (async_accepts (server y) + sum_list_with saw_serving (worker_at y) <=
   async_accepts (server x) + sum_list_with saw_serving (worker_at x))%nat.
Proof.
  intros Hok [l Hs] Hf. unfold server_step in Hs. destruct (escaped x) as [[]|e|] eqn:He; try done.
  destruct l as [|t a].
  - pose proof (ok_flag _ _ Hok) as Hflag. unfold main_step in Hs.
    assert (Ha : forall m w ev, ev <> AsyncAccept ->
      async_accepts (Env m w (trace (server x) ++ [ev])) = async_accepts (server x)).
    { intros m w ev Hev. unfold async_accepts. cbn [trace]. rewrite sum_list_with_app.
      destruct ev; cbn; try done; lia. }
    destruct (main_at x) as [[|k]| | | |i| |e] eqn:Hm; try done; try congruence.
    + destruct (close_cases (server x)) as (r & w & Hr). rewrite Hr in Hs.
      destruct r as [e|u]; injection Hs as <-; cbn; by rewrite Ha.
    + injection Hs as <-. cbn.
      by rewrite Ha.
    + destruct (worker_at x !! i) as [[]|]; try done; injection Hs as <-;
        cbn; [by rewrite Ha|done].
  - destruct (worker_moves t a x y He Hs) as (p & q & []).
    split; [congruence|]. rewrite moves_to0.
    pose proof (sum_list_with_insert saw_serving _ t p q moves_from0). specialize (moves_async0 Hf). lia.
Qed.

(** ** The end of [stop] *)

Definition main_remaining (n : nat) (p : main_point) : nat :=
  match p with
  | Starting k => 2 * k + n + 5
  | Serving => n + 4
  | Closing => n + 3
  | StoppingContext => n + 2
  | Joining i => n + 1 - i
  | Stopped | MainThrew _ => 0
  end.

(** The steps that are left when the context has stopped, at most. *)
Definition remaining (n : nat) (x : running_server) : nat :=
  main_remaining n (main_at x) + sum_list_with weight (worker_at x) + alive x.

Lemma server_next_remaining n x y :
  server_ok n x -> context_stopped x = true -> server_next x y ->
  context_stopped y = true /\ (remaining n y < remaining n x)%nat.
Proof.
  intros Hok Hc [l Hs]. unfold server_step in Hs. destruct (escaped x) as [[]|e|] eqn:He; try done.
  unfold remaining. destruct l as [|t a].
  - pose proof (ok_joined _ _ Hok) as Hj. pose proof (ok_count _ _ Hok) as Hn.
    unfold main_step in Hs. destruct (main_at x) as [[|k]| | | |i| |e] eqn:Hm; try discriminate.
    + injection Hs as <-. unfold alive. cbn. split; [done|lia].
    + destruct (start_worker_cases (server x)) as (r & w & Hr). rewrite Hr in Hs.
      destruct r as [e|[]]; injection Hs as <-; unfold alive; cbn; (split; [done|]); [lia|].
      rewrite sum_list_with_app. cbn. lia.
    + injection Hs as <-. unfold alive. cbn. split; [done|lia].
    + destruct (close_cases (server x)) as (r & w & Hr). rewrite Hr in Hs.
      destruct r as [e|u]; injection Hs as <-; unfold alive; cbn; (split; [done|]); lia.
    + injection Hs as <-. unfold alive. cbn. split; [done|lia].
    + destruct (worker_at x !! i) as [p|] eqn:Hp.
      * pose proof (lookup_lt_Some _ _ _ Hp) as Hl. destruct p; try discriminate.
        injection Hs as <-. unfold alive. cbn. split; [done|]. lia.
      * injection Hs as <-. unfold alive. cbn. split; [done|]. lia.
  - destruct (worker_moves t a x y He Hs) as (p & q & []). rewrite moves_main0, moves_to0.
    split; [auto|]. pose proof (sum_list_with_insert weight _ t p q moves_from0).
    specialize (moves_weight0 Hc). lia.
Qed.

Lemma nsteps_remaining n k x y :
  server_ok n x -> context_stopped x = true -> nsteps server_next k x y ->
  (k + remaining n y <= remaining n x)%nat.
Proof.
  intros Hok Hc Hk. induction Hk as [|k x y z Hxy _ IH]; [lia|].
  destruct (server_next_remaining n x y Hok Hc Hxy) as [Hcy Hlt].
  specialize (IH (server_next_ok _ _ _ Hxy Hok) Hcy). lia.
Qed.

Definition in_join (x : running_server) : Prop := (exists i, main_at x = Joining i) \/ main_at x = Stopped.

Lemma joining_steps n x y : server_ok n x -> in_join x -> rtc server_next x y -> in_join y.
Proof.
  intros Hok Hj Hy. induction Hy as [|x y z [l Hs] _ IH]; [done|]. apply IH.
  { eapply server_next_ok; [by exists l|done]. }
  unfold server_step in Hs. destruct (escaped x) as [[]|e|] eqn:He; try done. destruct l as [|t a].
  - unfold main_step in Hs. destruct Hj as [[i Hi]|Hi]; rewrite Hi in Hs; [|done].
    destruct (worker_at x !! i) as [[]|]; try done; injection Hs as <-; [left; by eexists|by right].
  - destruct (worker_moves t a x y He Hs) as (p & q & []). unfold in_join. by rewrite moves_main0.
Qed.

(** A worker that has not left [run] can take a step. *)
Lemma worker_progress t p x :
  worker_at x !! t = Some p -> p <> Left -> context_stopped x = true ->
  exists a y, worker_step t a x = Some y.
Proof.
  intros Hp Hl Hc. unfold worker_step.
  destruct p as [|[err|ep]| | |i ev|]; [exists LeaveRun|exists GoOn..|done]; rewrite Hp, ?Hc; by eexists.
Qed.

Lemma joining_progress n x i :
  server_ok n x -> main_at x = Joining i -> escaped x = Value tt -> exists y, server_next x y.
Proof.
  intros Hok Hm He. pose proof (ok_context _ _ Hok) as Hc. rewrite Hm in Hc.
  destruct (worker_at x !! i) as [p|] eqn:Hp.
  - assert (p = Left \/ p <> Left) as [->|Hl] by (destruct p; auto).
    + exists (to_main (note JoinThread (server x)).2 (Joining (S i)) x), ByMain.
      unfold server_step, main_step. by rewrite He, Hm, Hp.
    + destruct (worker_progress i p x Hp Hl Hc) as (a & y & Hy). exists y, (ByWorker i a).
      unfold server_step. by rewrite He.
  - exists (to_main (set_members (set_workers 0) (server x)) Stopped x), ByMain.
    unfold server_step, main_step. by rewrite He, Hm, Hp.
Qed.

Section reached.
Context (s0 s : st) (Hstart : start_listening s0 = (Value tt, s))
  (Haccepts : accepts_in_flight (members s0) = 0%nat).

Abbreviation configured := (Z.to_nat (http_threads (config_ (members s0)))).

(** What [start] has done before it starts threads. *)
Lemma start_listening_spec :
  accepts_in_flight (members s) = 1%nat /\ workers_ (members s) = 0%nat /\
  stopping_ (members s) = false /\ config_ (members s) = config_ (members s0) /\
  handler_ (members s) = handler_ (members s0) /\ sessions (members s) = sessions (members s0).
Proof.
  assert (Hw : wp start_listening (fun _ s' =>
    accepts_in_flight (members s') = S (accepts_in_flight (members s0)) /\ workers_ (members s') = 0%nat /\
    stopping_ (members s') = false /\ config_ (members s') = config_ (members s0) /\
    handler_ (members s') = handler_ (members s0) /\ sessions (members s') = sessions (members s0))
    (fun _ _ => True) s0).
  { unfold start_listening, listen. apply wp_bind, wp_modify, wp_bind, wp_bind, wp_gets.
    do 4 (apply wp_bind, wp_call_throwing; [intros [] _|done]).
    apply wp_ret. unfold accept, note. wp_steps. by split_and!. }
  unfold wp in Hw. rewrite Hstart in Hw. by rewrite Haccepts in Hw.
Qed.

Lemma started_ok : server_ok configured (started s).
Proof.
  destruct start_listening_spec as (H1 & H2 & H3 & H4 & _). unfold started. rewrite H4.
  split; cbn; try done; try lia; try by right.
  - by intros ?%elem_of_nil.
  - apply NoDup_nil_2.
Qed.

Lemma reached_ok x : rtc server_next (started s) x -> server_ok configured x.
Proof. intros Hx. exact (server_steps_ok _ _ _ Hx started_ok). Qed.


(** C12: when [stop] has returned, every worker has left [run] and was joined, and no thread takes a step
    any more: no callback uses the server, its sessions or the handler when [main] destroys them. *)
Theorem stop_quiescent (x : running_server) :
  rtc server_next (started s) x -> main_at x = Stopped ->
  worker_at x = replicate configured Left /\ forall y, ~ server_next x y.
Proof.
  intros Hx Hm. destruct (reached_ok x Hx) as [_ O2 _ _ _ O6 _ _]. rewrite Hm in O2, O6.
  split.
  - apply list_eq. intros j. destruct (decide (j < configured)%nat) as [Hj|Hj].
    + by rewrite O6, lookup_replicate_2 by done.
    + rewrite !lookup_ge_None_2; [done| |]; rewrite ?length_replicate; lia.
  - intros y [l Hl]. unfold server_step in Hl. destruct (escaped x) as [[]|e|]; [|done|done].
    destruct l as [|t a]; [unfold main_step in Hl; by rewrite Hm in Hl|].
    unfold worker_step in Hl. destruct (worker_at x !! t) as [p|] eqn:Hp; [|done].
    rewrite O6 in Hp by (rewrite <-O2; by eapply lookup_lt_Some). by simplify_eq.
Qed.

(** C13: [stop] returns. Once the main thread has stopped the context, whatever the order of the threads,
    every run ends after a bounded number of steps; and it ends, when no exception has left a callback,
    with the main thread behind [stop]: no worker can keep the join waiting. *)
Theorem stop_returns (x : running_server) (i : nat) :
  rtc server_next (started s) x -> main_at x = Joining i ->
  (forall k y, nsteps server_next k x y -> (k <= remaining configured x)%nat) /\
  (forall y, rtc server_next x y -> (forall z, ~ server_next y z) ->
     escaped y = Value tt -> main_at y = Stopped).
Proof.
  intros Hx Hm. pose proof (reached_ok x Hx) as Hok. pose proof (ok_context _ _ Hok) as Hc.
  rewrite Hm in Hc. split.
  - intros k y Hk. pose proof (nsteps_remaining _ _ _ _ Hok Hc Hk). lia.
  - intros y Hy Hend He. pose proof (server_steps_ok _ _ _ Hy Hok) as Hoky.
    pose proof (joining_steps _ _ _ Hok (or_introl (ex_intro _ i Hm)) Hy) as [[j Hj]|Hj]; [|done].
    exfalso. destruct (joining_progress _ y j Hoky Hj He) as [z Hz]. by apply (Hend z).
Qed.
End reached.

(** ** What the clients are told *)

Section answers.
Context (stored : H -> list (list Z)) (good : H -> Prop) `{!HandlerLaws H stored good}.
Context (s0 s : st) (Hstart : start_listening s0 = (Value tt, s))
  (Haccepts : accepts_in_flight (members s0) = 0%nat)
  (Hgood : good (handler_ (members s0))) (Hnew : sessions (members s0) = []).

Abbreviation timeout := (http_requestTimeout (config_ (members s0))).

(** The sessions and the storage agree, and an exception leaves a worker only from the constructor of a
    session whose peer has gone away. *)
Definition answered (x : running_server) : Prop :=
  (exists xss, sessions_ok good timeout xss (members (server x)) /\
     stored (handler_ (members (server x))) ≡ₚ stored (handler_ (members s0)) ++ all_accepted xss) /\
  match escaped x with
  | Value _ => True
  | Throw e => exists t, worker_at x !! t = Some (Accepting (inr (inl e)))
  | UB => False
  end.

(** A step that leaves the handler and the sessions alone. *)
Lemma answered_same x y :
  config_ (members (server y)) = config_ (members (server x)) ->
  handler_ (members (server y)) = handler_ (members (server x)) ->
  sessions (members (server y)) = sessions (members (server x)) ->
  escaped y = Value tt -> answered x -> answered y.
Proof.
  intros E1 E2 E3 He [(xss & Hok & Hst) _]. split; [|by rewrite He]. exists xss.
  unfold sessions_ok in *. by rewrite E1, E2, E3.
Qed.

(** A callback that answers. *)
Lemma callback_step_answered t m p q x :
  (forall xss, sessions_ok good timeout xss (members (server x)) ->
     wp m (fun _ s' => answers stored good timeout xss (members (server x)) (members s'))
       (fun e s' => p = Accepting (inr (inl e)) /\ s' = server x) (server x)) ->
  worker_at x !! t = Some p -> escaped x = Value tt -> answered x -> answered (callback_step t m q x).
Proof.
  intros Hm Hp He [(xss & Hok & Hst) _]. specialize (Hm xss Hok). unfold wp in Hm. unfold callback_step.
  destruct (m (server x)) as [[[]|e|] s']; [| |done].
  - destruct Hm as (xss' & Hok' & zs & Hz & Hx). split; [|cbn; by rewrite He]. exists xss'.
    split; [done|]. cbn. by rewrite Hz, Hst, Hx, <-!app_assoc.
  - destruct Hm as [-> ->]. split; [by exists xss|]. by exists t.
Qed.

Lemma main_step_answered x y : main_step x = Some y -> escaped x = Value tt -> answered x -> answered y.
Proof.
  intros Hs He. unfold main_step in Hs.
  destruct (main_at x) as [[|k]| | | |i| |e] eqn:Hm; try discriminate.
  - injection Hs as <-. by apply (answered_same x).
  - destruct (start_worker_cases (server x)) as (r & w & Hr). rewrite Hr in Hs.
    destruct r as [e|[]]; injection Hs as <-; by apply (answered_same x).
  - injection Hs as <-. by apply (answered_same x).
  - destruct (close_cases (server x)) as (r & w & Hr). rewrite Hr in Hs.
    destruct r as [e|u]; injection Hs as <-; by apply (answered_same x).
  - injection Hs as <-. by apply (answered_same x).
  - destruct (worker_at x !! i) as [[]|]; try discriminate; injection Hs as <-; by apply (answered_same x).
Qed.

Lemma worker_step_answered t a x y :
  worker_step t a x = Some y -> escaped x = Value tt -> answered x -> answered y.
Proof.
  intros Hs He. unfold worker_step in Hs. destruct (worker_at x !! t) as [p|] eqn:Hp; [|done].
  destruct p as [|[err|ep]| | |i ev|], a as [r|j c| |]; try discriminate; simplify_eq.
  - destruct (context_stopped x); [done|]. destruct (accepts_in_flight (members (server x))); simplify_eq. by apply (answered_same x).
  - destruct (context_stopped x); [done|]. destruct (sessions _ !! j) as [z|]; [|done].
    destruct (_ && _); simplify_eq. by apply (answered_same x).
  - destruct (_ || _); simplify_eq. by apply (answered_same x).
  - by apply (answered_same x).
  - eapply callback_step_answered; [|exact Hp|done]. intros xss Hok.
    eapply wp_mono; [by apply (start_session_spec stored good timeout xss)|done|by intros e s' [-> ->]].
  - by apply (answered_same x).
  - eapply callback_step_answered; [|exact Hp|done]. intros xss Hok. unfold wp. rewrite accept_spec.
    eapply answers_same; [..|by apply answers_refl]; done.
  - eapply callback_step_answered; [|exact Hp|done]. intros xss Hok.
    eapply wp_mono; [by apply (on_session_spec stored good timeout xss)|done|done].
Qed.

End answers.

(** ** One thread alone *)

(** Where a call of the main thread leaves it. *)
Definition after_call (o : outcome unit) (p : main_point) (q : main_point) : Prop :=
  match o with Value _ => q = p | Throw e => q = MainThrew e | UB => False end.

Abbreviation main_alone k := (run_labels (replicate k ByMain)).

Lemma main_done k x : main_step x = None -> main_alone k x = x.
Proof.
  intros Hn. induction k as [|k IH]; [done|]. cbn. unfold server_step.
  rewrite Hn. by destruct (escaped x) as [[]|e|].
Qed.

Lemma main_once k x y :
  escaped x = Value tt -> main_step x = Some y -> main_alone (S k) x = main_alone k y.
Proof. intros He Hs. cbn. unfold server_step. by rewrite He, Hs. Qed.

Lemma start_workers_alone n x :
  main_at x = Starting n -> escaped x = Value tt ->
  let y := main_alone (S n) x in
  server y = (start_workers n (server x)).2 /\ after_call (start_workers n (server x)).1 Serving (main_at y).
Proof.
  revert x. induction n as [|n IH]; intros x Hm He; cbv zeta.
  { rewrite (main_once _ x (to_main (server x) Serving x)) by (done || unfold main_step; by rewrite Hm). done. }
  assert (Hw : forall s, start_workers (S n) s = (start_worker ;; start_workers n) s).
  { intros s. cbn [start_workers]. unfold start_worker, mbind, prog_bind.
    destruct (call_throwing _ _ s) as [[[]|e|] s1]; done. }
  rewrite Hw. unfold mbind, prog_bind. destruct (start_worker_cases (server x)) as (r & w & Hr). rewrite Hr.
  destruct r as [e|[]].
  - erewrite main_once by (done || unfold main_step; by rewrite Hm, Hr). by rewrite main_done.
  - erewrite main_once by (done || unfold main_step; by rewrite Hm, Hr). by apply IH.
Qed.

Lemma join_alone k i x :
  main_at x = Joining i -> escaped x = Value tt -> length (worker_at x) = (i + k)%nat ->
  (forall j p, worker_at x !! j = Some p -> p = Left) ->
  let y := main_alone (S k) x in
  server y = ((join_all k ;; modify (set_members (set_workers 0))) (server x)).2 /\ main_at y = Stopped.
Proof.
  revert i x. induction k as [|k IH]; intros i x Hm He Hl Hj; cbv zeta.
  - rewrite (main_once _ x (to_main (set_members (set_workers 0) (server x)) Stopped x)); [done|done|].
    unfold main_step. rewrite Hm. by rewrite lookup_ge_None_2 by lia.
  - destruct (lookup_lt_is_Some_2 (worker_at x) i ltac:(lia)) as [p Hp].
    rewrite (main_once _ x (to_main (note JoinThread (server x)).2 (Joining (S i)) x)); [|done|].
    + by apply (IH (S i)); [..|cbn; lia|].
    + unfold main_step. rewrite Hm, Hp. by rewrite (Hj i p Hp).
Qed.

Lemma stop_alone x :
  main_at x = Serving -> escaped x = Value tt ->
  worker_at x = replicate (workers_ (members (server x))) Left ->
  let y := main_alone (workers_ (members (server x)) + 4) x in
  server y = (stop (server x)).2 /\ after_call (stop (server x)).1 Stopped (main_at y).
Proof.
  intros Hm He Hw. cbv zeta. rewrite Nat.add_comm. cbn [Nat.add].
  set (s1 := set_members (set_stopping true) (server x)).
  rewrite (main_once _ x (to_main s1 Closing x)) by (done || unfold main_step; by rewrite Hm).
  set (rest := fun _ : unit => (note StopContext ;; joinWorkers) : prog st unit).
  change (stop (server x)) with ((call_throwing acceptor_close CloseAcceptor ≫= rest) s1).
  unfold mbind, prog_bind at 1 2. destruct (close_cases s1) as (r & w & Hr). rewrite Hr.
  destruct r as [e|u]; cbn [of_sum].
  { rewrite (main_once _ _ (to_main (Env (members s1) w (trace s1 ++ [CloseAcceptor (inl e)])) (MainThrew e) x))
      by (done || unfold main_step; cbn; by rewrite Hr). by rewrite main_done. }
  set (s2 := Env (members s1) w (trace s1 ++ [CloseAcceptor (inr u)])).
  rewrite (main_once _ _ (to_main s2 StoppingContext x)) by (done || unfold main_step; cbn; by rewrite Hr).
  set (s3 := (note StopContext s2).2).
  rewrite (main_once _ _ (mkRunning s3 (Joining 0) (worker_at x) true (escaped x))) by done.
  pose proof (join_alone (workers_ (members (server x))) 0
    (mkRunning s3 (Joining 0) (worker_at x) true (escaped x)) eq_refl He) as [H1 H2].
  { cbn. by rewrite Hw, length_replicate. }
  { cbn. rewrite Hw. by intros j p [-> _]%lookup_replicate. }
  rewrite H1, H2. clear H1 H2.
  assert (Hj : rest u s2 = (join_all (workers_ (members (server x))) ;; modify (set_members (set_workers 0))) s3)
    by done.
  rewrite Hj. split; [done|].
  unfold mbind, prog_bind. by rewrite join_all_spec.
Qed.


Abbreviation go_on t := (ByWorker t GoOn).

Lemma worker_once t a ls x y :
  escaped x = Value tt -> worker_step t a x = Some y ->
  run_labels (ByWorker t a :: ls) x = run_labels ls y.
Proof. intros He Hs. cbn. unfold server_step. by rewrite He, Hs. Qed.

Lemma worker_waits t ls x :
  worker_at x !! t = Some InRun -> run_labels (go_on t :: ls) x = run_labels ls x.
Proof. intros Hp. cbn. unfold server_step, worker_step. rewrite Hp. by destruct (escaped x) as [[]|e|]. Qed.

Lemma run_escaped ls x : (forall u, escaped x <> Value u) -> run_labels ls x = x.
Proof.
  intros He. induction ls as [|l ls IH]; [done|]. cbn. unfold server_step.
  destruct (escaped x) as [u|e|]; [by destruct (He u)|done|done].
Qed.

(** The steps of a worker are those of the code: alone, it does for a completed accept what [onAccept]
    does, and for a completed operation what the session does. *)
Theorem worker_alone_is_code (t : nat) (x : running_server) :
  worker_at x !! t = Some InRun -> context_stopped x = false -> escaped x = Value tt ->
  (forall r, accepts_in_flight (members (server x)) <> 0%nat ->
     let y := run_labels [ByWorker t (TakeAccept r); go_on t; go_on t; go_on t] x in
     on_event (Accepted r) (server x) = (escaped y, server y)) /\
  (forall i session ev, sessions (members (server x)) !! i = Some session ->
     completes (thread_of_worker t) (in_flight session) ev = true -> i ∉ busy x ->
     let y := run_labels [ByWorker t (TakeCompletion i ev); go_on t] x in
     on_event (Completed i ev) (server x) = (escaped y, server y)).
Proof.
  intros Hp Hc He. pose proof (lookup_lt_Some _ _ _ Hp) as Hl.
  assert (Hat : forall l q, length l = length (worker_at x) -> (<[t := q]> l : list worker_point) !! t = Some q)
    by (intros; apply list_lookup_insert_eq; lia).
  split.
  - intros r Ha. destruct (accepts_in_flight (members (server x))) as [|n] eqn:Hn; [done|].
    set (s1 := set_members (set_accepts n) (server x)).
    assert (Hev : on_event (Accepted r) (server x) = onAccept r s1).
    { cbn [on_event]. unfold mbind, prog_bind, gets. by rewrite Hn. }
    cbv zeta. rewrite Hev. rewrite (worker_once _ _ _ _ (to_worker t s1 (Accepting r) x))
      by (done || unfold worker_step; by rewrite Hp, Hc, Hn).
    destruct r as [err|ep].
    { rewrite (worker_once _ _ _ _ (to_worker t s1 InRun (to_worker t s1 (Accepting (inl err)) x)))
        by (done || unfold worker_step; cbn; by rewrite Hat).
      rewrite !worker_waits by (cbn; rewrite Hat; [done|by rewrite length_insert]). cbn. by rewrite He. }
    set (x1 := to_worker t s1 (Accepting (inr ep)) x).
    rewrite (worker_once _ _ _ _ (callback_step t (start_session ep) SessionStarted x1))
      by (done || unfold worker_step; cbn; by rewrite Hat).
    cbn [onAccept]. unfold callback_step. cbn [server x1 to_worker]. unfold mbind at 1, prog_bind at 1.
    destruct (start_session ep s1) as [[[]|e|] s2]; [|by rewrite !run_escaped..].
    set (x2 := to_worker t s2 SessionStarted x1).
    rewrite (worker_once _ _ _ _ (to_worker t s2 (if stopping_ (members s2) then InRun else SawServing) x2))
      by (first [done|unfold worker_step; cbn; rewrite Hat; [done|by rewrite length_insert]]).
    unfold mbind, prog_bind, gets. destruct (stopping_ (members s2)).
    { rewrite worker_waits by (cbn; rewrite Hat; [done|by rewrite !length_insert]). cbn. by rewrite He. }
    rewrite (worker_once _ _ _ _ (callback_step t accept InRun (to_worker t s2 SawServing x2)))
      by (first [done|unfold worker_step; cbn; rewrite Hat; [done|by rewrite !length_insert]]).
    change (accept s2 = (escaped x, (accept s2).2)). by rewrite He.
  - intros i session ev Hi Hcomp Hb. cbv zeta.
    set (x1 := to_worker t (server x) (InSession i ev) x).
    rewrite (worker_once _ _ _ _ x1)
      by (done || unfold worker_step; by rewrite Hp, Hc, Hi, Hcomp, bool_decide_true).
    rewrite (worker_once _ _ _ _ (callback_step t (on_session i ev) InRun x1))
      by (done || unfold worker_step; cbn; by rewrite Hat).
    cbn [run_labels on_event]. unfold callback_step. cbn [server x1 to_worker].
    destruct (on_session i ev (server x)) as [[[]|e|] s1]; [|done|done]. cbn. by rewrite He.
Qed.
End threads.

(** ** Instances *)

Abbreviation sample_server := (env (HttpServer (list (list Z))) unit asio_event).

Definition listening_server : sample_server := (start_listening new_server).2.

Lemma listening : start_listening new_server = (Value tt, listening_server).
Proof. vm_compute. reflexivity. Qed.

(** Two workers start, one accepts a connection and the other serves its request. *)
Definition sample_serving : list label :=
  [ByMain; ByMain; ByMain;
   ByWorker 0 (TakeAccept (inr (inr "a"))); ByWorker 0 GoOn; ByWorker 0 GoOn;
   ByWorker 1 (TakeCompletion 0 (ReadDone 2 None (sample_request "/instrument" "b" true)));
   ByWorker 0 GoOn; ByWorker 1 GoOn].

(** The server stops while the answer is written. *)
Definition sample_stopping : list label :=
  [ByMain; ByWorker 0 (TakeCompletion 0 (WriteDone 1 None)); ByMain; ByMain; ByWorker 1 LeaveRun].
Definition sample_joining : list label :=
  [ByWorker 0 GoOn; ByWorker 0 LeaveRun; ByMain; ByMain; ByMain].

Abbreviation sample_run ls := (run_labels ls (started listening_server)).

Example stop_sample :
  let x := sample_run (sample_serving ++ sample_stopping ++ sample_joining) in
  main_at x = Stopped /\ worker_at x = [Left; Left] /\ handler_ (members (server x)) = [[98]] /\
  in_flight <$> sessions (members (server x)) = [Some async_read].
Proof. vm_compute. by split_and!. Qed.


Lemma stop_quiescent_witness :
  let x := sample_run (sample_serving ++ sample_stopping ++ sample_joining) in
  worker_at x = replicate 2 Left /\ forall y, ~ server_next x y.
Proof.
  apply (stop_quiescent new_server listening_server listening eq_refl); [apply run_labels_next|reflexivity].
Defined.

Lemma stop_returns_witness :
  let x := sample_run (sample_serving ++ sample_stopping) in
  (forall k y, nsteps server_next k x y -> (k <= 6)%nat) /\
  (forall y, rtc server_next x y -> (forall z, ~ server_next y z) ->
     escaped y = Value tt -> main_at y = Stopped).
Proof.
  assert (Hr : remaining 2 (sample_run (sample_serving ++ sample_stopping)) = 6%nat) by (vm_compute; reflexivity).
  cbv zeta. rewrite <-Hr.
  apply (stop_returns new_server listening_server listening eq_refl _ 0); [apply run_labels_next|reflexivity].
Defined.


(** Every worker has left: an accept failed, and nothing was left to do. *)
Definition sample_idle : list label :=
  [ByMain; ByMain; ByMain; ByWorker 0 (TakeAccept (inl "too many open files")); ByWorker 0 GoOn;
   ByWorker 0 LeaveRun; ByWorker 1 LeaveRun].

Abbreviation main_alone k := (run_labels (replicate k ByMain)).


(** ** The acceptor and the context at a stop *)

Definition one_worker : sample_server :=
  (start_listening (Env (HttpServer_init (mkHttpServerConfig 8080 1 30) []) tt [])).2.

Definition racing : running_server :=
  run_labels [ByMain; ByMain; ByWorker 0 (TakeAccept (inr (inr "a"))); ByWorker 0 GoOn; ByWorker 0 GoOn; ByMain]
    (started one_worker).

(** [stop] uses the acceptor and the context while a worker does: the worker has read the flag and
    calls [async_accept] next, the main thread calls [close] next. Neither takes a lock, so the calls can
    overlap, and [close] can come first: then the accept is started on a closed acceptor. With one worker
    the context was even made for use from one thread only. *)
Theorem stop_races :
  rtc server_next (started one_worker) racing /\
  main_at racing = Closing /\ worker_at racing = [SawServing] /\
  concurrency_hint (config_ (members (server racing))) = BOOST_ASIO_CONCURRENCY_HINT_UNSAFE /\
  exists tr, trace (server (run_labels [ByMain; ByWorker 0 GoOn] racing)) =
    tr ++ [CloseAcceptor (inr tt); AsyncAccept].
Proof.
  split; [apply run_labels_next|]. split_and!; [reflexivity..|].
  eexists [Open (inr tt); ReuseAddress (inr tt); Bind 8080 (inr tt); Listen (inr tt); AsyncAccept;
           StartThread (inr tt)]. reflexivity.
Qed.
