(* ===== verification/Gateway.v ===== *)
(** * Both programs on one storage

    The front end's server and the back end's loop take turns on a storage they share, in any order and
    with other clients in between. A step of the front end is one event of its server, a step of the
    back end one iteration of its loop; [StoreWriter] and [StoreProducer] (Store) are all that is used
    of the two storages. *)

From stdpp Require Import relations.
From S2P Require Import Prelude CommonConfig Message FrontConfig Pqxx PostgresProducer ChunkFile Consumer.
From S2P Require Import BackMain Handler Store ConnectionPool PostgresWriter PostgresStore HttpSession HttpServer.

Section gateway.
Context {W : Type} (held : W -> Message -> Prop) (known : W -> Z -> Prop) `{!Store held known}.
Context {MW EW : Type} `{!Checker, !CheckerLaws, !Writer (env MW W EW)}.
Context (stored : env MW W EW -> list (list Z)) (good : env MW W EW -> Prop).
Context `{!StoreWriter held known stored good}.
Context {MP EP : Type} `{!IProducer (env MP W EP), !StoreProducer held known (M := MP) (E := EP)}.
Context {Wa : Type} `{!Asio Wa} {T : Type} `{!Threads T}.

Abbreviation handler := (env MW W EW).
Abbreviation server := (env (HttpServer handler) Wa asio_event).
Abbreviation loop := (back (env MP W EP) T).

(** The two programs and the storage. The front end is up until an exception leaves a callback. *)
Record gateway : Type := mkGateway {
  front : server;
  front_up : bool;
  backend : loop;
  database : W
}.

Definition install_front (w : W) (s : server) : server :=
  set_members (fun m => set_sessions (with_world w (handler_ m)) (sessions m) m) s.

Definition install_back (w : W) (b : loop) : loop := mkBack (with_world w (producer b)) (consumer b).

Inductive gateway_step : gateway -> gateway -> Prop :=
| step_front ev s b w o s' :
    on_event ev (install_front w s) = (o, s') ->
    gateway_step (mkGateway s true b w)
      (mkGateway s' (match o with Value _ => true | _ => false end) b (world (handler_ (members s'))))
| step_back s up b w o b' :
    iteration (install_back w b) = (o, b') ->
    gateway_step (mkGateway s up b w) (mkGateway s up b' (world (producer b')))
| step_other s up b w w' :
    keeps held known w w' -> gateway_step (mkGateway s up b w) (mkGateway s up b w').

(** The steps of the two programs as a function. *)
Inductive action : Type := FrontEvent (ev : server_event) | BackIteration.

Definition act (a : action) (g : gateway) : gateway :=
  match a with
  | FrontEvent ev =>
      if front_up g then
        let '(o, s') := on_event ev (install_front (database g) (front g)) in
        mkGateway s' (match o with Value _ => true | _ => false end) (backend g)
          (world (handler_ (members s')))
      else g
  | BackIteration =>
      let '(_, b') := iteration (install_back (database g) (backend g)) in
      mkGateway (front g) (front_up g) b' (world (producer b'))
  end.

Definition act_all (l : list action) (g : gateway) : gateway := fold_left (fun g a => act a g) l g.

Lemma act_all_steps l g : rtc gateway_step g (act_all l g).
Proof.
  revert g. induction l as [|a l IH]; intros g; [done|]. etrans; [|apply IH]. clear IH.
  destruct g as [s up b w], a as [ev|]; cbn [act front front_up backend database].
  - destruct up; [|done]. destruct (on_event ev _) as [o s'] eqn:Hev. by eapply rtc_once, step_front.
  - destruct (iteration _) as [o b'] eqn:Hit. by eapply rtc_once, step_back.
Qed.

(** ** The invariant *)

(** Every datum that was confirmed to the front end is a message of its own, which the storage holds
    or the consumer has taken. *)
Definition accounts (taken : Messages) (s : handler) : Prop :=
  exists ms, data <$> ms = stored s /\ NoDup (id <$> ms) /\
    Forall (fun m => known (world s) (id m) /\ (held (world s) m \/ m ∈ taken)) ms.

Lemma accounts_world taken taken' w s :
  accounts taken s ->
  (forall m, held (world s) m -> held w m \/ m ∈ taken') -> (forall m, m ∈ taken -> m ∈ taken') ->
  (forall i, known (world s) i -> known w i) ->
  accounts taken' (with_world w s).
Proof.
  intros (ms & Hd & Hn & Hf) Hh Ht Hk. exists ms. rewrite (stored_world held known).
  split_and!; [done|done|]. eapply Forall_impl; [exact Hf|]. intros m [H1 [H2|H2]]; split; auto.
Qed.

Definition good_with (taken : Messages) (s : handler) : Prop := good s /\ accounts taken s.

Lemma write_accounts taken t d s :
  good_with taken s ->
  exists r s', write t d s = (Value r, s') /\ good_with taken s' /\
    stored s' = stored s ++ (if decide (write_error r = WRITE_OK) then [bytes_of d] else []).
Proof.
  intros [Hg (ms & Hd & Hn & Hf)].
  destruct (write_stores held known t d s Hg)
    as (r & s' & Hw & Hg' & [Hh Hk] & Hst & Hadd).
  exists r, s'. split_and!; [done| |done]. split; [done|].
  assert (Hf' : Forall (fun m => known (world s') (id m) /\ (held (world s') m \/ m ∈ taken)) ms).
  { eapply Forall_impl; [exact Hf|]. intros m [H1 [H2|H2]]; auto. }
  case_decide as Hr; [|exists ms; by rewrite Hst, app_nil_r].
  destruct (Hadd Hr) as (m & Hm & Hheld & Hnew). exists (ms ++ [m]).
  rewrite !fmap_app, Hst, Hd. cbn. rewrite Hm. split_and!; [done| |].
  - apply NoDup_app. split_and!; [done| |apply NoDup_singleton].
    intros i (m' & -> & Hm')%list_elem_of_fmap Hi%list_elem_of_singleton.
    rewrite Forall_forall in Hf. destruct (Hf m' Hm') as [Hx _]. by rewrite Hi in Hx.
  - apply Forall_app. split; [done|]. constructor; [|done]. split; [by apply (held_known held known)|by left].
Qed.

#[local] Instance write_accounts_laws taken : WriterLaws stored (good_with taken).
Proof.
  split.
  - intros t d s Hs. by destruct (write_accounts taken t d s Hs) as (r & s' & -> & ? & _).
  - intros t d s Hs. destruct (write_accounts taken t d s Hs) as (r & s' & ? & _ & ?). eauto.
Qed.

(** The state of the gateway after the sessions have had the exchanges [xss]. *)
Definition gateway_ok (timeout : Z) (xss : list (list (request * response))) (g : gateway) : Prop :=
  sessions_ok (good_with (received (consumer (backend g)))) timeout xss
    (members (install_front (database g) (front g))) /\
  consumer_ok (consumer (backend g)) /\
  stored (handler_ (members (front g))) ≡ₚ all_accepted xss.

Lemma front_step_ok timeout xss s b w ev o s' :
  gateway_ok timeout xss (mkGateway s true b w) -> on_event ev (install_front w s) = (o, s') ->
  exists xss', gateway_ok timeout xss'
    (mkGateway s' (match o with Value _ => true | _ => false end) b (world (handler_ (members s')))).
Proof.
  intros (Hs & Hc & Hst) Hev. cbn [front backend database] in *.
  pose proof (on_event_spec stored (good_with (received (consumer b))) timeout xss ev _ Hs) as Hwp.
  unfold wp in Hwp. rewrite Hev in Hwp.
  assert (Hi : forall xss', sessions_ok (good_with (received (consumer b))) timeout xss' (members s') ->
            sessions_ok (good_with (received (consumer b))) timeout xss'
              (members (install_front (world (handler_ (members s'))) s'))).
  { intros xss' (H1 & H2 & H3). unfold install_front. cbn. rewrite with_world_id. done. }
  assert (Hw : stored (handler_ (members (install_front w s))) = stored (handler_ (members s))).
  { cbn. apply (stored_world held known). }
  destruct o as [[]|e|]; [| |done].
  - destruct Hwp as (xss' & Hok & zs & Hz & Hx). exists xss'. split_and!; cbn; [by apply Hi|done|].
    by rewrite Hz, Hw, Hst, Hx.
  - destruct Hwp as (_ & Hh & Hok). exists xss. split_and!; cbn; [by apply Hi|done|].
    by rewrite Hh, Hw.
Qed.

(** An iteration on a storage: what is held afterwards, or was taken. *)
Lemma iteration_accounts b w o b' :
  consumer_ok (consumer b) -> iteration (install_back w b) = (o, b') ->
  consumer_ok (consumer b') /\
  (forall m, held w m -> held (world (producer b')) m \/ m ∈ received (consumer b')) /\
  (forall m, m ∈ received (consumer b) -> m ∈ received (consumer b')) /\
  (forall i, known w i -> known (world (producer b')) i).
Proof.
  intros Hc Hit. set (b0 := install_back w b) in *.
  pose proof (iteration_keeps (fun p => held (world p)) b0 Hc) as (H1 & H2 & H3 & H4).
  rewrite Hit in H1, H2, H3, H4. cbn in H1, H2, H3, H4.
  split_and!; [done|intros m Hm; by apply H2|done|].
  intros i Hi. destruct H4 as [->|[ms ->]]; [by apply (getNext_known held known)|].
  by apply (markConsumed_known held known), (getNext_known held known).
Qed.

Lemma back_step_ok timeout xss s up b w o b' :
  gateway_ok timeout xss (mkGateway s up b w) -> iteration (install_back w b) = (o, b') ->
  gateway_ok timeout xss (mkGateway s up b' (world (producer b'))).
Proof.
  intros ((H1 & [Hg Ha] & H3) & Hc & Hst) Hit. cbn in *.
  destruct (iteration_accounts b w o b' Hc Hit) as (Hc' & Hh & Ht & Hk).
  split_and!; cbn; [|done|done]. split_and!; [done|split|done].
  - exact (good_world held known (world (producer b')) _ Hg).
  - exact (accounts_world _ _ _ _ Ha Hh Ht Hk).
Qed.

Lemma other_step_ok timeout xss s up b w w' :
  gateway_ok timeout xss (mkGateway s up b w) -> keeps held known w w' ->
  gateway_ok timeout xss (mkGateway s up b w').
Proof.
  intros ((H1 & [Hg Ha] & H3) & Hc & Hst) [Hh Hk]. cbn in *. split_and!; cbn; [|done|done]. split_and!; [done|split|done].
  - exact (good_world held known w' _ Hg).
  - apply (accounts_world _ _ w' _ Ha); auto.
Qed.

Lemma gateway_steps_ok timeout xss g g' :
  rtc gateway_step g g' -> gateway_ok timeout xss g -> exists xss', gateway_ok timeout xss' g'.
Proof.
  intros Hs. revert xss. induction Hs as [|g g1 g2 Hstep _ IH]; intros xss Hok; [by exists xss|].
  destruct Hstep as [ev s b w o s' Hev|s up b w o b' Hit|s up b w w' Hk].
  - destruct (front_step_ok _ _ _ _ _ _ _ _ Hok Hev) as [xss' Hok']. by eapply IH.
  - eapply IH. by eapply back_step_ok.
  - eapply IH. by eapply other_step_ok.
Qed.

(** C1: from the client to the files. Whatever the order in which the server's events, the iterations of
    the back end's loop and the other clients of the storage take turns, and whatever fails: to the
    requests that were answered with 202 belong messages with exactly their data, one for each request
    and none for two, with different ids; and each of these messages is in the storage, or the back end
    has it: in a thread that saves it, in the buffer, or in a chunk whose thread could not be started.
    Nothing that was accepted is lost between the programs. *)
Theorem gateway_delivers (g g' : gateway) :
  let h := handler_ (members (front g)) in
  good h -> stored h = [] -> sessions (members (front g)) = [] -> consumer_ok (consumer (backend g)) ->
  rtc gateway_step g g' ->
  exists xss ms,
    Forall2 (session_ok (http_requestTimeout (config_ (members (front g))))) xss
      (sessions (members (front g'))) /\
    data <$> ms ≡ₚ all_accepted xss /\ NoDup (id <$> ms) /\
    Forall (fun m => held (database g') m \/ m ∈ delivered (consumer (backend g')) \/
                     m ∈ concat (dropped (consumer (backend g')))) ms.
Proof.
  intros h Hg Hst Hs Hc Hsteps. set (timeout := http_requestTimeout _).
  destruct (gateway_steps_ok timeout [] g g' Hsteps) as (xss & (_ & [_ (ms & Hd & Hn & Hf)] & H3) & _ & Hx).
  { split_and!; [|done|by fold h; rewrite Hst]. unfold install_front. split_and!; [done| |by cbn; rewrite Hs].
    cbn. split; [exact (good_world held known _ _ Hg)|]. exists [].
    rewrite (stored_world held known). fold h. rewrite Hst. by split_and!; [|constructor|]. }
  cbn in Hd, Hf, H3. rewrite (stored_world held known) in Hd. exists xss, ms.
  split_and!; [done|by rewrite Hd|done|]. eapply Forall_impl; [exact Hf|].
  intros m [_ [H1|H1%received_split]]; [by left|by right].
Qed.
End gateway.

(** ** Instances on the reference database *)

(** A checker that accepts everything. *)
#[local] Instance any_data : Checker := fun _ => Value (mkCheckResult true "").
#[local] Instance any_data_laws : CheckerLaws.
Proof. intros data. by eexists. Qed.

Abbreviation sample_handler := (env PostgresWriter insert_db (pg_event Message)).
Abbreviation sample_producer := (env PostgresProducer insert_db (pg_event Message)).

Definition empty_db : insert_db := mkInsertDb [] [] [] [] [] 1.

Definition sample_front : env (HttpServer sample_handler) unit asio_event :=
  (start (Env (HttpServer_init sample_config
    (Env (PostgresWriter_init (mkPostgresConfig "db" 5432 "test" "user" "123")) empty_db [])) tt [])).2.

Definition sample_gateway : gateway (W := insert_db) (MW := PostgresWriter) (EW := pg_event Message)
    (MP := PostgresProducer) (EP := pg_event Message) (Wa := unit) (T := list (exn + unit)) :=
  mkGateway sample_front true
    (mkBack (Env (mkPostgresProducer "host=db" 2 None) empty_db []) (new_consumer [])) empty_db.

(** Two sessions, with iterations of the back end in between. *)
Definition sample_actions : list action :=
  FrontEvent <$> [Accepted (inr (inr "a")); Accepted (inr (inr "b"));
    Completed 1 (ReadDone 2 None (sample_request "/instrument" "b" true))].
Definition more_actions : list action :=
  [BackIteration; FrontEvent (Completed 0 (ReadDone 1 None (sample_request "/instrument" "b" false)));
   FrontEvent (Completed 1 (WriteDone 2 None)); BackIteration].

(** Both requests had the same body; they are two messages. *)
Example gateway_sample :
  let g := act_all (sample_actions ++ more_actions) sample_gateway in
  db_table (database g) = [] /\
  delivered (consumer (backend g)) = [mkMessage 1 [98]; mkMessage 2 [98]].
Proof. vm_compute. split; reflexivity. Qed.

Lemma gateway_delivers_witness :
  let g := act_all sample_actions sample_gateway in
  exists xss ms,
    Forall2 (session_ok 30) xss (sessions (members (front g))) /\
    data <$> ms ≡ₚ all_accepted xss /\ NoDup (id <$> ms) /\
    Forall (fun m => pg_held db_table (database g) m \/ m ∈ delivered (consumer (backend g)) \/
                     m ∈ concat (dropped (consumer (backend g)))) ms.
Proof.
  apply (gateway_delivers (pg_held db_table) db_known confirmed closed sample_gateway).
  - reflexivity.
  - reflexivity.
  - reflexivity.
  - apply new_consumer_ok.
  - apply act_all_steps.
Defined.
