(* ===== verification/FrontMain.v ===== *)
(** * The front end's program (gwfront/src/main.cpp)

    The handler is one of the four instances of [UniversalHandler]; the server calls it through the
    interface [IHandler]. The events of the sockets up to the signal are an argument of [main]. *)

From S2P Require Import Prelude CommonConfig ProgramOptions Log ResolveHost FrontConfig Message Hiredis.
From S2P Require Import RedisServer Pqxx Handler FlatbuffersChecker JsonChecker ConnectionPool PostgresWriter RedisWriter.
From S2P Require Import HttpSession HttpServer.

Section front.
Context {argv vm view : Type} `{!ProgramOptions argv vm, !Toml view, !TomlFile view}.
Context {json Instrument : Type} `{!Json json, !Instruments Instrument}.
(** The two storage libraries and what lies behind them share no state. *)
Context {Wp row : Type} `{!Pqxx Wp row} {Wr : Type} `{!Netdb Wr, !Hiredis Wr}.
Context {W : Type} `{!Asio W}.

Abbreviation pg_writer := (env PostgresWriter Wp (pg_event row)).
Abbreviation redis_writer := (env RedisWriter Wr redis_event).

(** [std::unique_ptr<IHandler>]: one of the four handlers, with the state of its writer. *)
Inductive front_handler : Type :=
| JsonPostgres (w : pg_writer)
| JsonRedis (w : redis_writer)
| FlatbuffersPostgres (w : pg_writer)
| FlatbuffersRedis (w : redis_writer).

(** A call of a handler through the pointer. *)
Definition dispatch {S} (wrap : S -> front_handler) (m : prog S Result) (w : S) :
    outcome Result * front_handler :=
  let '(o, w') := m w in (o, wrap w').

#[export] Instance front_handler_handler : IHandler front_handler := fun t data h =>
  match h with
  | JsonPostgres w =>
      dispatch JsonPostgres (@UniversalHandler_call _ JsonChecker_checker PostgresWriter_writer t data) w
  | JsonRedis w =>
      dispatch JsonRedis (@UniversalHandler_call _ JsonChecker_checker RedisWriter_writer t data) w
  | FlatbuffersPostgres w =>
      dispatch FlatbuffersPostgres
        (@UniversalHandler_call _ FlatbuffersChecker_checker PostgresWriter_writer t data) w
  | FlatbuffersRedis w =>
      dispatch FlatbuffersRedis
        (@UniversalHandler_call _ FlatbuffersChecker_checker RedisWriter_writer t data) w
  end.

(** [None]: the usage or the error was printed and the program stops. *)
Definition parseArguments (args : argv) : option string :=
  match store args with
  | inl _ => None
  | inr m => if count_help m then None
             else match notify m with inl _ => None | inr configPath => Some configPath end
  end.

(** A handler over Redis; reading the optional [config.redis] without a value is undefined behaviour. *)
Definition make_redis (config : Config) (make : redis_writer -> front_handler) (wr : Wr) :
    outcome front_handler :=
  match redis config with
  | None => UB
  | Some c =>
      match RedisWriter_init c wr with
      | (Value w, wr') => Value (make (Env w wr' []))
      | (Throw e, _) => Throw e
      | (UB, _) => UB
      end
  end.

Definition makeHandler (config : Config) (wp : Wp) (wr : Wr) : outcome front_handler :=
  if decide (mtype (messages config) = JSON) then
    match postgres config with
    | Some c => Value (JsonPostgres (Env (PostgresWriter_init c) wp []))
    | None => make_redis config JsonRedis wr
    end
  else
    match postgres config with
    | Some c => Value (FlatbuffersPostgres (Env (PostgresWriter_init c) wp []))
    | None => make_redis config FlatbuffersRedis wr
    end.

Abbreviation server := (env (HttpServer front_handler) W asio_event).

(** The end of [main] after an exception it catches: with threads that were not joined, destroying the
    server ends the program. *)
Definition caught (e : exn) (s : server) : ending :=
  match workers_ (members s) with
  | O => Exit EXIT_FAILURE
  | S _ => Terminated e
  end.

(** [main]: how it ends, the logging core, and the server when it ended. [config0] is the configuration
    before parsing, with the members that have no initialiser; [evs] is what happens on the sockets up
    to the signal. An exception that leaves a callback leaves its thread. *)
Definition main (args : argv) (config0 : Config) (evs : list server_event) (core : log_core)
    (wp : Wp) (wr : Wr) (w : W) : ending * log_core * option server :=
  match parseArguments args with
  | None => (Exit EXIT_FAILURE, core, None)
  | Some configPath =>
      match parseConfig configPath config0 with
      | (Value true, config) =>
          let core' := (initLog (log config) core).2 in
          match makeHandler config wp wr with
          | Throw _ => (Exit EXIT_FAILURE, core', None)
          | UB => (Undefined, core', None)
          | Value handler =>
              match start (Env (HttpServer_init (http config) handler) w []) with
              | (Throw e, s) => (caught e s, core', Some s)
              | (UB, s) => (Undefined, core', Some s)
              | (Value _, s) =>
                  match run_events evs s with
                  | (Throw e, s) => (Terminated e, core', Some s)
                  | (UB, s) => (Undefined, core', Some s)
                  | (Value _, s) =>
                      match stop s with
                      | (Throw e, s) => (caught e s, core', Some s)
                      | (UB, s) => (Undefined, core', Some s)
                      | (Value _, s) => (Exit EXIT_SUCCESS, core', Some s)
                      end
                  end
              end
          end
      | (Value false, _) => (Exit EXIT_FAILURE, core, None)
      | (Throw e, _) => (Terminated e, core, None)
      | (UB, _) => (Undefined, core, None)
      end
  end.

(** ** The handler keeps the promise of the interface *)

Definition front_stored (h : front_handler) : list (list Z) :=
  match h with
  | JsonPostgres w | FlatbuffersPostgres w => PostgresWriter.confirmed w
  | JsonRedis w | FlatbuffersRedis w => RedisWriter.confirmed w
  end.

Definition front_good (h : front_handler) : Prop :=
  match h with
  | JsonPostgres w | FlatbuffersPostgres w => closed w
  | JsonRedis w | FlatbuffersRedis w => balanced w
  end.

Lemma dispatch_returns {S} (wrap : S -> front_handler) (m : prog S Result) w r w' :
  m w = (Value r, w') -> dispatch wrap m w = (Value r, wrap w').
Proof. unfold dispatch. by intros ->. Qed.

#[export] Instance front_handler_laws `{!InstrumentsLaws Instrument, !HiredisLaws Wr} :
  HandlerLaws front_handler front_stored front_good.
Proof.
  intros t data [w|w|w|w] Hg; cbn [front_good front_stored] in *.
  - destruct (@handle_returns _ _ _ _ (@UniversalHandler_laws _ JsonChecker_checker _ _ _ _ _) t data w Hg)
      as (r & w' & H1 & H2 & H3).
    exists r, (JsonPostgres w'). split; [by apply dispatch_returns|done].
  - destruct (@handle_returns _ _ _ _ (@UniversalHandler_laws _ JsonChecker_checker _ _ _ _ _) t data w Hg)
      as (r & w' & H1 & H2 & H3).
    exists r, (JsonRedis w'). split; [by apply dispatch_returns|done].
  - destruct (@handle_returns _ _ _ _ (@UniversalHandler_laws _ FlatbuffersChecker_checker _ _ _ _ _) t data w Hg)
      as (r & w' & H1 & H2 & H3).
    exists r, (FlatbuffersPostgres w'). split; [by apply dispatch_returns|done].
  - destruct (@handle_returns _ _ _ _ (@UniversalHandler_laws _ FlatbuffersChecker_checker _ _ _ _ _) t data w Hg)
      as (r & w' & H1 & H2 & H3).
    exists r, (FlatbuffersRedis w'). split; [by apply dispatch_returns|done].
Qed.

(** ** The program *)

(** A parsed configuration names a storage. *)
Lemma parsed_storage configPath config0 config :
  parseConfig configPath config0 = (Value true, config) ->
  is_Some (postgres config) \/ is_Some (redis config).
Proof.
  intros H. apply config_file_iff in H as (table & _ & H); [|apply front_fillConfig_safe].
  by apply front_fillConfig_sound in H as (_ & _ & _ & _ & _ & ?).
Qed.

Lemma front_parseConfig_returns configPath config :
  exists b c, parseConfig configPath config = (Value b, c).
Proof. apply (config_file_iff fillConfig), front_fillConfig_safe. Qed.

(** A new handler has stored nothing. *)
Definition new_handler (h : front_handler) : Prop := front_stored h = [] /\ front_good h.

Lemma make_redis_spec config make wr :
  (forall w, Prelude.trace w = [] -> connections_ (members w) = [] -> new_handler (make w)) ->
  is_Some (redis config) ->
  match make_redis config make wr with Value h => new_handler h | Throw _ => True | UB => False end.
Proof.
  intros Hm [c Hc]. unfold make_redis, RedisWriter_init. rewrite Hc.
  destruct (resolveHost _ _) as [host w]. destruct (str_empty host); [done|]. by apply Hm.
Qed.

Lemma makeHandler_spec config wp wr :
  is_Some (postgres config) \/ is_Some (redis config) ->
  match makeHandler config wp wr with Value h => new_handler h | Throw _ => True | UB => False end.
Proof.
  intros Hst. assert (Hr : forall make, (make = JsonRedis \/ make = FlatbuffersRedis) ->
    forall w, Prelude.trace w = [] -> connections_ (members w) = [] -> new_handler (make w)).
  { intros make [->| ->] w Ht Hc; unfold new_handler; cbn; unfold RedisWriter.confirmed, balanced,
      balanced_with, RedisWriter.pool; by rewrite Ht, Hc. }
  unfold makeHandler.
  destruct (decide _), (postgres config) as [c|]; try done; apply make_redis_spec;
    try (apply Hr; auto); by destruct Hst as [[? ?]|?].
Qed.

(** What starting and stopping leave alone. *)
Definition untouched (config : HttpServerConfig) (h : front_handler)
    (l : list (HttpSession front_handler)) (s : server) : Prop :=
  config_ (members s) = config /\ handler_ (members s) = h /\ sessions (members s) = l.

Ltac untouched_steps := repeat first
  [ apply preserves_bind; [|intros ?] | by apply preserves_call_throwing | by apply preserves_modify
  | by apply preserves_call | apply preserves_gets | apply preserves_ret ].

Lemma start_untouched config h l : preserves (untouched config h l) start.
Proof.
  assert (Hw : forall n, preserves (untouched config h l) (start_workers n)).
  { intros n. induction n as [|n IH]; cbn [start_workers]; untouched_steps; done. }
  unfold start, listen, accept, note, runWorkers. untouched_steps; apply Hw.
Qed.

Lemma stop_untouched config h l : preserves (untouched config h l) stop.
Proof.
  assert (Hj : forall n, preserves (untouched config h l) (join_all n)).
  { intros n. induction n as [|n IH]; cbn [join_all]; unfold note; untouched_steps; done. }
  unfold stop, joinWorkers, note. untouched_steps; apply Hj.
Qed.

Lemma start_safe : safe (start (W := W) (H := front_handler)).
Proof.
  assert (Hw : forall n, safe (start_workers (W := W) (H := front_handler) n))
    by (intros n; induction n; cbn [start_workers]; solve_defined).
  unfold start, listen, accept, note, runWorkers. solve_defined.
Qed.

Lemma stop_safe : safe (stop (W := W) (H := front_handler)).
Proof.
  assert (Hj : forall n, safe (join_all (W := W) (H := front_handler) n))
    by (intros n; induction n; cbn [join_all]; unfold note; solve_defined).
  unfold stop, joinWorkers, note. solve_defined.
Qed.

Section laws.
Context `{!InstrumentsLaws Instrument, !HiredisLaws Wr}.

(** The data of the requests answered with 202 is the data the storage confirmed. *)
Definition promise_kept (s : server) : Prop :=
  exists timeout xss,
    Forall2 (session_ok timeout) xss (sessions (members s)) /\
    front_stored (handler_ (members s)) ≡ₚ all_accepted xss.

Lemma promise_kept_untouched s s' :
  untouched (config_ (members s)) (handler_ (members s)) (sessions (members s)) s' ->
  promise_kept s -> promise_kept s'.
Proof. intros (_ & Hh & Hs) (timeout & xss & H1 & H2). exists timeout, xss. by rewrite Hh, Hs. Qed.

Lemma run_events_promise evs s :
  new_handler (handler_ (members s)) -> sessions (members s) = [] ->
  match run_events evs s with
  | (Value _, s') => promise_kept s'
  | (Throw e, s') => promise_kept s' /\ Accepted (inr (inl e)) ∈ evs
  | (UB, _) => False
  end.
Proof.
  intros [Hst Hg] Hs.
  destruct (run_events_answers front_stored front_good evs s Hg Hs) as (o & s' & xss & -> & Ho & Hf & Hp).
  rewrite Hst in Hp. destruct o; try done; [|split; [|done]]; by eexists _, xss.
Qed.

End laws.

(** ** The bodies of rejected data *)

(** No character of the message needs to be escaped in JSON. *)
Definition plain (message : string) : bool := forallb unescaped (chars message).

Lemma complaint_plain j f : f ∈ schema -> plain (check_message (complaint j f)) = true.
Proof.
  assert (Hall : forallb (fun f : string * field_kind =>
    plain ("field '" +:+ f.1 +:+ "' is missing") &&
    plain ("field '" +:+ f.1 +:+ "' is not " +:+ kind_name f.2)) schema = true)
    by (vm_compute; reflexivity).
  rewrite forallb_forall in Hall. intros Hf%list_elem_of_In%Hall%andb_prop. destruct Hf.
  unfold complaint. by destruct (find j f.1).
Qed.

Lemma missing_plain name :
  name ∈ (string_fields (Instrument := Instrument)).*1 ->
  plain (check_message (missing_field name)) = true.
Proof.
  assert (Hall : forallb (fun n => plain (check_message (missing_field n)))
    (string_fields (Instrument := Instrument)).*1 = true) by (vm_compute; reflexivity).
  rewrite forallb_forall in Hall. by intros Hf%list_elem_of_In%Hall.
Qed.

(** C37: whatever the client sends, the answer to data that a checker rejects has a body that is JSON:
    the messages of both checkers consist of the field names of the schema and fixed texts, of which
    no character needs escaping. *)
Theorem rejections_are_json `{!InstrumentsLaws Instrument} (data : string) (r : CheckResult) :
  JsonChecker_check data = Value r \/ FlatbuffersChecker_check data = Value r ->
  ok r = false ->
  plain (check_message r) = true /\
  error_text (error_body (check_message r)) = Some (check_message r).
Proof.
  intros H Hok. rewrite error_text_body. fold (plain (check_message r)).
  assert (plain (check_message r) = true) as ->; [|done]. destruct H as [H|H].
  - destruct (JsonChecker_spec data) as (r' & Hr & _ & _ & H1 & H2). rewrite H in Hr.
    injection Hr as <-. destruct (is_discarded (parse data)); [by rewrite H1|].
    destruct (H2 eq_refl Hok) as (b & f & a & Hs & _ & _ & ->). apply complaint_plain.
    rewrite Hs. set_solver.
  - revert H. unfold FlatbuffersChecker_check.
    destruct (VerifyInstrumentBuffer data) eqn:Hv; cbn [negb]; [|by intros [= <-]].
    destruct (check_all_spec string_fields (GetInstrument data) (verified_reads data Hv))
      as (r' & Hr & _ & _ & H2).
    rewrite check_str0_15_all, Hr. intros [= <-].
    destruct (H2 Hok) as (b & f & a & Hs & _ & _ & ->). apply missing_plain. rewrite Hs, fmap_app.
    set_solver.
Qed.
End front.

(** ** Instances *)

#[local] Instance sample_file : TomlFile toml_value := fun _ => inr sample_table.

#[local] Instance no_netdb : Netdb reference := {|
  getaddrinfo _ _ _ _ w := (None, w);
  freeaddrinfo w := w;
  inet_ntoa _ := ""
|}.

Definition sample_evs : list server_event :=
  [Accepted (inr (inr "client")); Completed 0 (ReadDone 1 None (sample_request "/instrument" full_instrument false));
   Completed 0 (WriteDone 1 None)].

(** The whole front end over the reference libraries. *)
Definition sample_main :=
  main (argv := option string) (json := list string) (Instrument := list string) (row := Message)
    (Some "gwfront.toml") (initial_Config (mkMessagesConfig JSON) 0 0) sample_evs (mkLogCore None 0)
    (mkReferenceDb [] [] []) (mkReference [] true) tt.

Example main_sample :
  exists s, sample_main = (Exit EXIT_SUCCESS, mkLogCore (Some info) 1, Some s) /\
    front_stored (handler_ (members s)) = [bytes_of full_instrument].
Proof.
  eexists. split; [vm_compute; reflexivity|]. vm_compute. reflexivity.
Qed.


Lemma rejections_are_json_witness :
  plain "field 'int1' is missing" = true /\
  error_text (error_body "field 'int1' is missing") = Some "field 'int1' is missing".
Proof.
  exact (rejections_are_json (json := list string) (Instrument := list string) "int0"
    (mkCheckResult false "field 'int1' is missing") (or_introl check_missing) eq_refl).
Defined.

Lemma UniversalHandler_result_witness :
  let writer := PostgresWriter.sample_writer in
  exists c r s',
    JsonChecker_check full_json = Value c /\
    @UniversalHandler_call _ JsonChecker_checker PostgresWriter_writer 1%positive full_json writer =
      (Value r, s') /\
    closed s' /\
    (error r = OK <-> ok c = true /\
       PostgresWriter.confirmed s' = PostgresWriter.confirmed writer ++ [bytes_of full_json]) /\
    (error r = BAD_DATA <-> ok c = false) /\
    (error r = OK -> message r = "") /\
    (error r = BAD_DATA -> message r = check_message c /\ s' = writer) /\
    (error r <> OK -> PostgresWriter.confirmed s' = PostgresWriter.confirmed writer) /\
    (error r = GENERIC \/ error r = STORAGE_UNAVAILABLE ->
       exists w, write 1%positive full_json writer = (Value w, s') /\ message r = write_message w /\
         (error r = GENERIC <-> write_error w = WRITE_GENERIC)).
Proof.
  exact (@UniversalHandler_result _ JsonChecker_checker _ _ PostgresWriter.confirmed closed _ 1 full_json
    PostgresWriter.sample_writer eq_refl).
Defined.
